(* ===== verification/_CoqProject ===== *)
-Q . S2P
Prelude.v
JsNumber.v
WavEncoder.v
Download.v
WebAudio.v
Track.v
SoundCatalog.v
SampleGenerator.v
Engine.v
Export.v
Clock.v
Dom.v
Renderers.v
Sequencer.v
App.v
UiInvariant.v
UiFacts.v
