(* ===== verification/Prelude.v ===== *)
(** * A verification library for the DJ Maker Studio audio engine

    The program (JavaScript, under [src/]) is a step sequencer that
    synthesises drum and synth voices with the Web Audio API.  Its parts:

    - [src/src/audio/SampleDefinitions.js]: the sound catalog, a constant
      object mapping sound names to synthesis parameters;
    - [src/src/audio/SampleGenerator.js]: builds one voice (oscillator,
      biquad filter, optional noise layer, ADSR gain envelope) per trigger;
    - [src/src/audio/Track.js]: one sequencer lane, its boolean step
      pattern of variable length and its routing nodes (EQ, pan, gain,
      reverb send);
    - [src/audio-engine.js]: the engine: master chain and global reverb,
      the four tracks, the periodic clock ([play], [stop], [setBPM],
      [playStep]), the per-track setters, [toggleStep], [playSound] and
      the offline export [exportBeat];
    - [src/src/utils/WavEncoder.js]: the PCM/WAV byte encoder, which
      hands the file to the browser through a Blob, an object URL and a
      temporary [<a download>] element;
    - [src/src/ui/SequencerRenderer.js], [src/src/ui/MixerRenderer.js]:
      render the sequencer grid (a row of selectors and step buttons per
      track) and the mixer (five range inputs per track);
    - [src/sequencer.js]: the [Sequencer] class: step buttons and their
      click listeners, the selectors' listeners, and the [onStepPlay]
      observer that moves the [playing] highlight;
    - [src/main.js]: [BeatMaker]: boots engine, renderers and sequencer,
      and wires the transport, export, keyboard, drag-and-drop and mixer
      listeners.  The page shares one engine object with the sequencer.

    The library, one file per component, in dependency order:

    - [Prelude] (this file): the notation scope [djm_scope], the hint
      databases [djm] and [djm_rw], the tactics of the development and the
      generic lemmas it shares: a fallible left fold over a list (the shape
      of a JavaScript loop whose body may throw), little-endian splitting
      of an integer into bytes and its inverse, arithmetic on [mod].
    - [JsNumber]: JavaScript numbers as they reach the encoder (a rational,
      [NaN] or an infinity), [Math.min]/[Math.max], truncation, the
      [ToInt16]/[ToUint16]/[ToUint32] conversions of the DataView setters
      and the [x || d] default of an optional field.
    - [WavEncoder]: [WavEncoder.downloadAudio] up to the Blob: an
      ArrayBuffer of zero bytes, the DataView writes of the header and of
      the interleaved samples, each of which can throw [RangeError].
    - [Download]: the end of [downloadAudio]: the Blob, the object URL,
      the anchor appended, clicked and removed, the URL revoked, as
      operations of a state and exception monad [BM] over the browser
      ([Browser]: URL store, script elements, body, saved files), with
      fresh keys for new URLs and elements.
    - [WebAudio]: the part of the Web Audio API the program drives, as a
      state monad [WA] over an [AudioContext] (nodes in creation order,
      the set of connections, sample rate, clock): [create*], [connect],
      parameter values, automation events, [start]/[stop]; a
      weakest-precondition calculus ([wp], [wp_step], [wp_block],
      [node_chain]) that walks a program through the shape of the graph,
      [frame]/[grows] for what a program leaves untouched, [reaches] for
      signal paths, and [keeps_rate]/[keeps_time] for the sample rate
      and the clock.
    - [Track]: [src/src/audio/Track.js]: the [Track] record, the steps
      array with JavaScript semantics ([JsArray]: indexed elements and
      other properties; reads off the range are [undefined]), the
      constructor [new_Track], the five setters, [setStepCount] and the
      node getters.
    - [SoundCatalog]: [SampleDefinitions.js] as an association list in
      definition order, [loadSamples], [getSampleNames], and
      [samples_get], the value of [this.samples[name]] on the plain
      object: an own configuration, a member inherited from
      [Object.prototype] (a truthy function), or [undefined].
    - [SampleGenerator]: [createNoiseBuffer] (with [Math.random] as a
      parameter) and [createSynthSamplePlayer]'s [play]/[playAtTime]
      (Module [SynthSamplePlayer]), both the program [play_js]: the
      body [play_voice], composed of the code's blocks (envelope,
      oscillator and sweep, filter choice, noise layer, output
      connections), unless line 31 (98) throws on a negative start time
      or line 32 (99) on an inherited configuration, after the
      statements before them ran.
    - [Engine]: [class AudioEngine] without [exportBeat]: a [World] holds
      the engine record, the live context, the host's interval timers and
      the observer's log; [init] (for each outcome of the context and of
      the impulse-response load), the setters, [play]/[stop]/[setBPM],
      the interval callback [tick] ([playStep], then the step increment
      modulo 16, both skipped from the first voice that throws),
      [toggleStep], [playSound], [clearAll]; [exec]
      dispatches every public call, [step] is the relation of the
      program's runs and [reachable env] its states after [init].
    - [Export]: [exportBeat]: the offline context and its length, the
      offline master chain, the loops building a track chain and voice
      per trigger (a voice that throws rejects the export), and (Section
      [Download]) rendering and encoding with
      the renderer as a parameter bound by the Web Audio contract.
    - [Clock]: the clock as the specification describes it, an abstract
      state machine [ClockSpec] (running or stopped, position, period,
      observer and the positions reported to it), the abstraction [abs]
      of a [World], and the refinement of [ClockSpec] by [Engine.step].
    - [Dom]: the platform semantics the UI code relies on: class lists
      ([gset string]), [parseInt], number-to-string, [replace] and
      [toUpperCase] on ASCII, a range input's value sanitization, and
      [js_for], a [for] statement whose body may [break] or throw.
    - [Renderers]: the grid's elements as records ([TrackRow], [Select],
      [StepButton], [Channel], [RangeInput]) and the select's value
      semantics; Module [SequencerRenderer] ([render], [renderTrackSteps]
      with its two nested loops) and Module [MixerRenderer] ([render]).
    - [Sequencer]: Module [Sequencer], every method of [sequencer.js] as a
      function of the shared [World] and the grid's rows.
    - [App]: [main.js]: the page state [App] (world, rows, channels,
      buttons, pending timeouts, browser, sound items, drag data store),
      [boot], one function per
      listener, [handle] dispatching a [UiEvent] (a click, a key, a drop,
      a timeout, an interval callback, the audio clock advancing), and the
      page's runs [ui_step] with their states [ui_reachable] after [boot].
    - [UiInvariant]: what each listener does to the engine, and the view
      invariant tying the grid and mixer to the tracks, preserved by every
      listener and established by [boot].
    - [UiFacts]: the page's theorems and the concrete page of
      [Engine.example_env] they are tried on.

    Theorems, by group:
    - engine invariant ([Engine.engine_inv], by rule induction over
      [step]): the clock (step index below 16, one interval of the
      tempo's period exactly while playing) and the graph (the routing
      of [init] present, named nodes distinct, track parameters equal to
      their node parameters, and no connection into any track's reverb
      send: the live reverb send is silent);
    - clock behaviour: [k] ticks after [play] are at step [k mod 16] with
      every 4-, 8- and 16-step track phase-locked when no track's sound
      names a member of [Object.prototype]; an active track with such a
      sound makes every tick throw and freezes the clock and the
      observer's log (a code bug: a dropped text sets such a sound);
      [play] then [stop];
      [setBPM] restarts; [toggleStep] in range is an involution, out of
      range it returns [false], or [true] for a negative index; every
      engine step refines the abstract clock, whose invariant (positions
      in the measure, a stopped clock at 0, reported positions in
      [0, 16)) thereby holds of the engine;
    - voices: the nodes and connections one voice adds, its envelope,
      oscillator, filter and noise layer, the catalog's envelopes well
      timed, the noise buffer's size and range;
    - export: the offline loops implement the measure schedule that the
      live ticks play (a refinement); exactly when export rejects (no
      context, a frame count of 0, or a voice of the measure that throws)
      and how many frames it renders; the exported WAV's size and
      header;
    - encoder: the in-place DataView encoding equals a reference
      concatenation of header and sample bytes and never throws; every
      byte is in [0,256); the header fields decode to the values the code
      computes, reduced modulo the field width, and to the exact values
      under the stated size bound; samples decode to the truncation of the
      clamped value, within [1/32767] of it; out-of-range and non-finite
      samples never wrap around;
    - page ([UiFacts], [Renderers]): every page step is a sequence of
      engine steps, so the engine theorems hold of the running page (a
      refinement); the grid mirrors the pattern in every reachable state;
      a step count stays 4, 8 or 16; mixing parameters stay within their
      sliders' ranges; the play label follows the transport; with tracks
      whose sounds are not [Object.prototype] member names, each tick
      highlights exactly the step just played, and while playing every
      step is highlighted within 16 ticks (liveness); a click on a shown
      button toggles exactly its step; the export button's feedback (it
      reports success when the rendering failed) and the file the browser
      saves; a drop accepts any text as a sound, and a library item's
      drag and drop assigns its sound; STOP and the space key clear the
      highlight but PAUSE does not (a counterexample on the concrete
      page); [renderTrackSteps]' loops complete with the layout of
      measure groups;
    - download ([Download]): the Blob/URL/anchor sequence saves exactly
      one file and restores the body and the URL store.

    Modelling conventions: JavaScript numbers that the code treats as
    reals (gains, times, durations, tempo) are rationals [Q], so float
    rounding is not modelled; integers kept at a machine width (DataView
    fields, the [unsigned long] frame count) are [Z] reduced modulo [2^w]
    where the code wraps; bytes are [Z] in [0,256); node references are
    the nodes' creation indices in their context; an exception is [None],
    or, where what ran before it stays (a voice, [playStep], [playSound],
    the loops of [exportBeat]), a [false] flag next to the state.  Every
    exception the voices can raise is modelled: a negative start time
    and an inherited [Object.prototype] member as configuration; the
    other arguments are finite (rationals), and for the catalog's
    configurations the automation events are well ordered and the
    exponential ramps' targets positive
    ([SampleGenerator.catalog_voices_well_timed]).  The audio clock
    starts at 0 and only runs forwards ([Engine.reachable_time]).
    Loops are bounded by a list or a count; the only fuel is that of
    [Dom.js_for], which [renderTrackSteps] runs with [ceil(n/4) + 1] and
    [5] iterations for loops of [ceil(n/4)] and [4], and
    [Renderers.renderTrackSteps_layout] proves that enough.  The
    sequencer's unbounded runs are the relations [Engine.step] and
    [App.ui_step], whose reachable states carry the invariants; the
    browser's interleaving of timers and listeners is any sequence of
    events.  DOM element state is the records the listeners read and
    write, not a document tree.

    Not modelled: the recorded buffer, which nothing fills; the signal
    processing of the browser (oscillators, filters, convolution,
    panning, rendering), for which the graph and its parameters stand;
    [index.html], which the repository does not hold: the page's static
    labels and sound items are the [Page] given to [boot], so the
    witnesses use a page with three catalog items; the browser beyond the
    calls the code makes (layout, styles other than those the listeners
    write, the download's transport); console logging, which changes no
    state; a fractional [sampleRate] (the encoder's rate is an integer
    [Z], as every browser's context rate is) and the failure of an
    [ArrayBuffer] allocation, which the encoder assumes succeeds.  The import lines and class headers are the only source lines
    no definition translates. *)

From stdpp Require Export base list options.
From Stdlib Require Export ZArith Lia.

Declare Scope djm_scope.
Delimit Scope djm_scope with djm.

Create HintDb djm.
Create Rewrite HintDb djm_rw.

(** ** Fallible loops

    A JavaScript [for] loop whose body may throw is a left fold in the
    option monad: [None] is the exception, which ends the loop. *)

Fixpoint fold_opt {A B} (f : A -> B -> option A) (xs : list B) (a : A)
  : option A :=
  match xs with
  | [] => Some a
  | x :: xs' => a' ← f a x; fold_opt f xs' a'
  end.

Notation "'loop' f 'over' xs 'from' a" := (fold_opt f xs a)
  (at level 10, f at level 9, xs at level 9, a at level 9) : djm_scope.

Lemma fold_opt_app {A B} (f : A -> B -> option A) xs ys a :
  fold_opt f (xs ++ ys) a = (a' ← fold_opt f xs a; fold_opt f ys a').
Proof.
  revert a; induction xs as [|x xs IH]; intros a; simpl; [done|].
  destruct (f a x); simpl; auto.
Qed.

Lemma fold_opt_map {A B C} (f : A -> B -> option A) (g : C -> B) xs a :
  fold_opt f (map g xs) a = fold_opt (fun a x => f a (g x)) xs a.
Proof. revert a. induction xs as [|x xs IH]; intros a; simpl; [done|]. destruct (f a (g x)); simpl; auto. Qed.

(** A loop invariant [P i a] (after the first [i] iterations the state is
    [a]) that every iteration preserves without failing gives the result
    of the whole loop over [seq i n]. *)
Lemma fold_opt_seq_inv {A} (f : A -> nat -> option A) (P : nat -> A -> Prop)
  (n : nat) : forall i a,
  P i a ->
  (forall j b, i <= j < i + n -> P j b -> exists b', f b j = Some b' /\ P (S j) b') ->
  exists a', fold_opt f (seq i n) a = Some a' /\ P (i + n) a'.
Proof.
  induction n as [|n IH]; intros i a Hi Hstep; simpl.
  - exists a. rewrite Nat.add_0_r. done.
  - destruct (Hstep i a) as (b & Hb & HP); [lia|done|].
    rewrite Hb. simpl.
    destruct (IH (S i) b HP) as (a' & Ha' & HP'); [intros j c Hj Hc; apply Hstep; [lia|done]|].
    exists a'. rewrite Nat.add_succ_r. done.
Qed.

(** ** Little-endian bytes

    A byte is an integer in [0,256).  [le_split n z] is the [n]-byte
    little-endian representation of [z mod 256^n]; [le_combine] reads it
    back. *)

Fixpoint le_split (n : nat) (z : Z) : list Z :=
  match n with
  | O => []
  | S n' => (z mod 256)%Z :: le_split n' (z / 256)%Z
  end.

Fixpoint le_combine (bs : list Z) : Z :=
  match bs with
  | [] => 0%Z
  | b :: bs' => (b + 256 * le_combine bs')%Z
  end.

Definition is_byte (b : Z) : Prop := (0 <= b < 256)%Z.

Lemma length_le_split n z : length (le_split n z) = n.
Proof. revert z; induction n; simpl; auto. Qed.

Lemma le_split_bytes n z : Forall is_byte (le_split n z).
Proof.
  revert z; induction n as [|n IH]; intros z; simpl; constructor; auto.
  unfold is_byte. apply Z.mod_pos_bound. lia.
Qed.

Lemma le_combine_split n z :
  le_combine (le_split n z) = (z mod 256 ^ Z.of_nat n)%Z.
Proof.
  revert z; induction n as [|n IH]; intros z; simpl.
  - rewrite Z.mod_1_r. done.
  - rewrite IH, Nat2Z.inj_succ, Z.pow_succ_r by lia.
    rewrite Z.rem_mul_r by lia. lia.
Qed.

Lemma le_combine_split_small n z :
  (0 <= z < 256 ^ Z.of_nat n)%Z -> le_combine (le_split n z) = z.
Proof. intros. rewrite le_combine_split. by apply Z.mod_small. Qed.

Lemma le_split_mod n z :
  le_split n (z mod 256 ^ Z.of_nat n) = le_split n z.
Proof.
  revert z; induction n as [|n IH]; intros z; simpl; [done|].
  rewrite Nat2Z.inj_succ, Z.pow_succ_r by lia.
  f_equal.
  - rewrite Z.rem_mul_r by lia.
    rewrite (Z.mul_comm 256 _), Z.mod_add, Z.mod_mod by lia. done.
  - rewrite <- (IH (z / 256)%Z). f_equal.
    rewrite Z.rem_mul_r by lia.
    rewrite Z.add_comm, (Z.mul_comm 256 _), Z.div_add_l by lia.
    rewrite (Z.div_small (z mod 256)); [lia|]. apply Z.mod_pos_bound. lia.
Qed.

#[export] Hint Resolve le_split_bytes : djm.
#[export] Hint Rewrite length_le_split le_combine_split : djm_rw.

(** ** Lists *)

Lemma Forall_seq_map {A} (P : A -> Prop) (f : nat -> A) i n :
  (forall j, i <= j < i + n -> P (f j)) -> Forall P (map f (seq i n)).
Proof.
  intros H. apply Forall_forall. intros x Hx.
  apply list_elem_of_In, in_map_iff in Hx as (j & <- & Hj). apply in_seq in Hj. apply H. lia.
Qed.

(** Writing [bs] over the zero block that follows a prefix. *)
Definition overwrite (l : list Z) (off : nat) (bs : list Z) : list Z :=
  take off l ++ bs ++ drop (off + length bs) l.

Lemma length_overwrite l off bs :
  off + length bs <= length l -> length (overwrite l off bs) = length l.
Proof.
  intros H. unfold overwrite. rewrite !length_app, length_take, length_drop. lia.
Qed.

Lemma overwrite_zero_block (pre bs : list Z) n :
  length bs <= n ->
  overwrite (pre ++ replicate n 0%Z) (length pre) bs
  = pre ++ bs ++ replicate (n - length bs) 0%Z.
Proof.
  intros H. unfold overwrite.
  rewrite take_app_length. f_equal. f_equal.
  rewrite drop_app_ge by lia.
  replace (length pre + length bs - length pre) with (length bs) by lia.
  by rewrite drop_replicate.
Qed.

(** ** Tactics *)

(** Closes the arithmetic side conditions of the development: unfolds
    the byte predicate and calls [lia]. *)
Ltac djm_lia := unfold is_byte in *; simpl in *; lia.

(** Reducing modulo a multiple first changes nothing. *)
Lemma mod_mod_divisor k m n : n <> 0 -> m mod n = 0 -> (k mod m) mod n = k mod n.
Proof.
  intros Hn Hd. apply Nat.mod_divides in Hd as [p ->]; [|done].
  rewrite (Nat.div_mod_eq k (n * p)) at 2.
  replace (n * p * (k / (n * p)) + k mod (n * p)) with (k mod (n * p) + p * (k / (n * p)) * n)
    by lia.
  by rewrite Nat.Div0.mod_add.
Qed.
