(* ===== verification/JsNumber.v ===== *)
(** JavaScript numbers at the boundary between the audio buffers and the
    byte encoder: a finite value (a rational), [NaN] or an infinity;
    [Math.min] and [Math.max]; multiplication by a positive constant; the
    truncation and the [ToInt16], [ToUint16], [ToUint32] conversions the
    ECMAScript DataView setters apply (ECMA-262, 7.1.6-7.1.10); and the
    [||] default of a possibly absent numeric field, which also replaces
    an explicit [0]. *)

From S2P Require Import Prelude.
From Stdlib Require Import QArith Qround Qabs Lqa.

Inductive jsnum :=
| JNum (q : Q)
| JNaN
| JPosInf
| JNegInf.

(** [Math.min(x, y)]: [NaN] if either argument is [NaN]. *)
Definition math_min (x y : jsnum) : jsnum :=
  match x, y with
  | JNaN, _ | _, JNaN => JNaN
  | JNegInf, _ | _, JNegInf => JNegInf
  | JPosInf, y => y
  | x, JPosInf => x
  | JNum a, JNum b => JNum (if Qle_bool a b then a else b)
  end.

(** [Math.max(x, y)]. *)
Definition math_max (x y : jsnum) : jsnum :=
  match x, y with
  | JNaN, _ | _, JNaN => JNaN
  | JPosInf, _ | _, JPosInf => JPosInf
  | JNegInf, y => y
  | x, JNegInf => x
  | JNum a, JNum b => JNum (if Qle_bool a b then b else a)
  end.

(** [x * c] for a constant [c > 0]. *)
Definition js_scale (x : jsnum) (c : Q) : jsnum :=
  match x with
  | JNum a => JNum (a * c)
  | other => other
  end.

(** Truncation toward zero of a finite value (the [truncate] of
    ECMA-262 7.1.5, used by every integer conversion). *)
Definition trunc (q : Q) : Z := Z.quot (Qnum q) (Zpos (Qden q)).

(** [ToInt16]: [NaN] and the infinities give [0]; otherwise the truncated
    value modulo [2^16], read as a signed 16-bit integer. *)
Definition int16_wrap (z : Z) : Z :=
  let m := (z mod 2 ^ 16)%Z in
  if (m >=? 2 ^ 15)%Z then (m - 2 ^ 16)%Z else m.

Definition ToInt16 (x : jsnum) : Z :=
  match x with
  | JNum q => int16_wrap (trunc q)
  | _ => 0%Z
  end.

(** [ToUint16] and [ToUint32] of an integral value. *)
Definition ToUint16 (z : Z) : Z := (z mod 2 ^ 16)%Z.
Definition ToUint32 (z : Z) : Z := (z mod 2 ^ 32)%Z.

(** [o || d] for a numeric field that may be absent: [undefined] and [0]
    are both falsy and give the default. *)
Definition js_or_num (o : option Q) (d : Q) : Q :=
  match o with
  | Some q => if Qeq_bool q 0 then d else q
  | None => d
  end.

Notation "o '||' d" := (js_or_num o d) (at level 50, left associativity)
  : djm_scope.

(** Two numbers are equivalent when they denote the same value: the
    rationals [2#2] and [1] are different terms for one JavaScript number. *)
Definition jsnum_eq (x y : jsnum) : Prop :=
  match x, y with
  | JNum a, JNum b => (a == b)%Q
  | JNaN, JNaN | JPosInf, JPosInf | JNegInf, JNegInf => True
  | _, _ => False
  end.

#[export] Instance jsnum_equiv : Equiv jsnum := jsnum_eq.

#[export] Instance jsnum_equivalence : Equivalence (≡@{jsnum}).
Proof.
  split.
  - intros [a| | |]; red; try done; apply Qeq_refl.
  - intros [a| | |] [b| | |]; unfold equiv, jsnum_equiv, jsnum_eq; try done;
      apply Qeq_sym.
  - intros [a| | |] [b| | |] [c| | |]; unfold equiv, jsnum_equiv, jsnum_eq; try done;
      apply Qeq_trans.
Qed.

Lemma JNum_equiv a b : JNum a ≡ JNum b <-> (a == b)%Q.
Proof. reflexivity. Qed.

#[export] Instance trunc_proper : Proper (Qeq ==> eq) trunc.
Proof.
  intros [n1 d1] [n2 d2] H. unfold Qeq in H; simpl in H. unfold trunc; simpl.
  rewrite <- (Z.quot_mul_cancel_r n1 (Zpos d1) (Zpos d2)) by lia.
  rewrite <- (Z.quot_mul_cancel_r n2 (Zpos d2) (Zpos d1)) by lia.
  rewrite H. f_equal. lia.
Qed.

#[export] Instance ToInt16_proper : Proper ((≡) ==> eq) ToInt16.
Proof.
  intros [a| | |] [b| | |] H; unfold equiv, jsnum_equiv, jsnum_eq in H; try done.
  cbn [ToInt16]. f_equal. by apply trunc_proper.
Qed.

#[export] Instance js_scale_proper : Proper ((≡) ==> Qeq ==> (≡)) js_scale.
Proof.
  intros [a| | |] [b| | |] H c d Hcd; unfold equiv, jsnum_equiv, jsnum_eq in *;
    simpl; try done.
  by apply Qmult_comp.
Qed.

(** [a < b] on numbers, as a test. *)
Definition Qltb (a b : Q) : bool := negb (Qle_bool b a).

Lemma Qltb_iff a b : Qltb a b = true <-> (a < b)%Q.
Proof.
  unfold Qltb. rewrite negb_true_iff. split.
  - intros H. apply Qnot_le_lt. intros C. apply Qle_bool_iff in C. congruence.
  - intros H. destruct (Qle_bool b a) eqn:E; [|done].
    apply Qle_bool_iff in E. lra.
Qed.

(** ** Lemmas *)

Lemma ToInt16_range x : (- 2 ^ 15 <= ToInt16 x < 2 ^ 15)%Z.
Proof.
  destruct x as [q| | |]; simpl; try lia. unfold int16_wrap.
  pose proof (Z.mod_pos_bound (trunc q) (2 ^ 16) ltac:(lia)).
  destruct (Z.geb_spec (trunc q mod 2 ^ 16) (2 ^ 15)); lia.
Qed.

Lemma ToInt16_small q :
  (- 2 ^ 15 <= trunc q < 2 ^ 15)%Z -> ToInt16 (JNum q) = trunc q.
Proof.
  intros H. simpl. unfold int16_wrap.
  destruct (Z.leb_spec 0 (trunc q)).
  - rewrite Z.mod_small by lia.
    destruct (Z.geb_spec (trunc q) (2 ^ 15)); lia.
  - rewrite <- (Z.mod_add (trunc q) 1 (2 ^ 16)) by lia.
    rewrite Z.mod_small by lia.
    destruct (Z.geb_spec (trunc q + 1 * 2 ^ 16) (2 ^ 15)); lia.
Qed.

Lemma trunc_inject_Z z : trunc (inject_Z z) = z.
Proof. unfold trunc; simpl. apply Z.quot_1_r. Qed.

(** The truncation is within one of the value. *)
Lemma trunc_close q : (q - 1 < inject_Z (trunc q) < q + 1)%Q.
Proof.
  destruct q as [n d]. unfold trunc; simpl.
  pose proof (Z.quot_rem' n (Zpos d)) as Hqr.
  pose proof (Z.rem_bound_abs n (Zpos d) ltac:(lia)) as Hb.
  set (t := Z.quot n (Zpos d)) in *. set (r := Z.rem n (Zpos d)) in *.
  unfold Qminus, Qplus, Qopp, Qlt, inject_Z; simpl.
  rewrite Pos.mul_1_r. split; lia.
Qed.

(** Truncation moves toward zero: it never increases the magnitude. *)
Lemma trunc_le_abs q c :
  (- inject_Z c <= q <= inject_Z c)%Q -> (- c <= trunc q <= c)%Z.
Proof.
  destruct q as [n d]. unfold trunc, Qle, inject_Z; simpl. intros [H1 H2].
  pose proof (Z.quot_rem' n (Zpos d)) as Hqr.
  pose proof (Z.rem_bound_abs n (Zpos d) ltac:(lia)) as Hb.
  destruct (Z.leb_spec 0 n).
  - pose proof (Z.rem_nonneg n (Zpos d) ltac:(lia) ltac:(lia)). nia.
  - pose proof (Z.rem_nonpos n (Zpos d) ltac:(lia)). nia.
Qed.

(** Clamping to [[-1,1]]: the result is finite and in range, whatever the
    input, except for [NaN], which both functions propagate. *)
Definition clamp (x : jsnum) : jsnum := math_max (JNum (-1)) (math_min (JNum 1) x).

Lemma clamp_finite x :
  x <> JNaN -> exists q, clamp x = JNum q /\ (-1 <= q <= 1)%Q.
Proof.
  intros Hx. unfold clamp. destruct x as [q| | |]; simpl; try congruence.
  - destruct (Qle_bool 1 q) eqn:E1.
    + apply Qle_bool_iff in E1. simpl. exists 1%Q. split; [done|lra].
    + assert (q < 1)%Q by (apply Qnot_le_lt; intros C; apply Qle_bool_iff in C; congruence).
      destruct (Qle_bool (-1) q) eqn:E2.
      * apply Qle_bool_iff in E2. exists q. split; [done|lra].
      * assert (q < -1)%Q by (apply Qnot_le_lt; intros C; apply Qle_bool_iff in C; congruence).
        exists (-1)%Q. split; [done|lra].
  - exists 1%Q. split; [done|lra].
  - exists (-1)%Q. split; [done|lra].
Qed.

Lemma clamp_NaN : clamp JNaN = JNaN.
Proof. reflexivity. Qed.

Lemma clamp_in_range q : (-1 <= q <= 1)%Q -> clamp (JNum q) ≡ JNum q.
Proof.
  intros [H1 H2]. unfold clamp, math_min, math_max.
  destruct (Qle_bool 1 q) eqn:E1.
  - change (Qle_bool (-1) 1) with true. cbv iota.
    apply Qle_bool_iff in E1. apply JNum_equiv. lra.
  - apply Qle_bool_iff in H1. rewrite H1. cbv iota. apply JNum_equiv. lra.
Qed.

#[export] Hint Resolve ToInt16_range trunc_close : djm.
