(* ===== verification/WavEncoder.v ===== *)
(** [WavEncoder.downloadAudio] ([src/src/utils/WavEncoder.js]) up to the
    point where the bytes leave for the Blob.  The ArrayBuffer is a list
    of bytes, zero-filled at allocation; a DataView setter writes
    little-endian bytes at an offset and throws [RangeError] ([None]) when
    the write does not fit.  The file proves that the in-place encoding
    equals a reference layout (header followed by the interleaved
    samples), that it never throws on a well-formed buffer, and what a
    reader of the WAV header and samples gets back. *)

From S2P Require Import Prelude JsNumber.
From Stdlib Require Import QArith Lqa Ascii.
From Stdlib Require String.
Import String.StringSyntax.

Local Open Scope nat_scope.
Local Open Scope string_scope.
Abbreviation string := String.string.

(** ** The rendered buffer (a Web Audio [AudioBuffer]) *)

Record AudioBuffer := {
  numberOfChannels : nat;
  bufferLength : nat;            (** [buffer.length], frames per channel *)
  sampleRate : Z;
  channelData : list (list jsnum)
}.

(** The Web Audio type guarantees one data array per channel, each of
    [bufferLength] samples. *)
Definition buffer_wf (b : AudioBuffer) : Prop :=
  length (channelData b) = numberOfChannels b /\
  Forall (fun d => length d = bufferLength b) (channelData b).

(** [buffer.getChannelData(channel)]: throws [IndexSizeError] ([None])
    past the last channel. *)
Definition getChannelData (b : AudioBuffer) (channel : nat) : option (list jsnum) :=
  channelData b !! channel.

(** [getChannelData(channel)[i]]: [undefined] past the end, which
    [Math.min] turns into [NaN]. *)
Definition sample_at (b : AudioBuffer) (channel i : nat) : jsnum :=
  match getChannelData b channel with
  | Some data => default JNaN (data !! i)
  | None => JNaN
  end.

(** ** ArrayBuffer and DataView *)

Definition dv_set (view : list Z) (offset : nat) (bytes : list Z) : option (list Z) :=
  if decide (offset + length bytes <= length view)
  then Some (overwrite view offset bytes) else None.

Definition setUint8 (view : list Z) (offset : nat) (v : Z) : option (list Z) :=
  dv_set view offset [(v mod 256)%Z].
Definition setUint16 (view : list Z) (offset : nat) (v : Z) : option (list Z) :=
  dv_set view offset (le_split 2 (ToUint16 v)).
Definition setUint32 (view : list Z) (offset : nat) (v : Z) : option (list Z) :=
  dv_set view offset (le_split 4 (ToUint32 v)).
Definition setInt16 (view : list Z) (offset : nat) (x : jsnum) : option (list Z) :=
  dv_set view offset (le_split 2 (ToInt16 x)).

(** [string.charCodeAt(i)] of an ASCII string. *)
Definition charCodeAt (s : string) (i : nat) : Z :=
  match String.get i s with
  | Some c => Z.of_nat (nat_of_ascii c)
  | None => 0%Z
  end.

(** [writeString(offset, string)]. *)
Definition writeString (view : list Z) (offset : nat) (s : string) : option (list Z) :=
  fold_opt (fun v i => setUint8 v (offset + i) (charCodeAt s i))
    (seq 0 (String.length s)) view.

(** ** [downloadAudio] *)

Definition bytesPerSample : nat := 2.

(** One pass of the inner loop: channel [channel] of frame [i]. *)
Definition write_sample (b : AudioBuffer) (i : nat) (st : list Z * nat) (channel : nat)
  : option (list Z * nat) :=
  let '(view, offset) := st in
  data ← getChannelData b channel;
  let sample := default JNaN (data !! i) in
  let s := math_max (JNum (-1)) (math_min (JNum 1) sample) in
  view' ← setInt16 view offset (js_scale s 32767);
  Some (view', offset + bytesPerSample).

(** One pass of the outer loop: frame [i], all channels. *)
Definition write_frame (b : AudioBuffer) (st : list Z * nat) (i : nat)
  : option (list Z * nat) :=
  fold_opt (write_sample b i) (seq 0 (numberOfChannels b)) st.

Definition downloadAudio (b : AudioBuffer) : option (list Z) :=
  let numOfChan := numberOfChannels b in
  let totalLength := bufferLength b * numOfChan in
  let sampleRate := sampleRate b in
  let blockAlign := Z.of_nat (numOfChan * bytesPerSample) in
  let byteRate := (sampleRate * blockAlign)%Z in
  let view := replicate (44 + totalLength * bytesPerSample) 0%Z in
  view ← writeString view 0 "RIFF";
  view ← setUint32 view 4 (36 + Z.of_nat (totalLength * bytesPerSample));
  view ← writeString view 8 "WAVE";
  view ← writeString view 12 "fmt ";
  view ← setUint32 view 16 16;
  view ← setUint16 view 20 1;
  view ← setUint16 view 22 (Z.of_nat numOfChan);
  view ← setUint32 view 24 sampleRate;
  view ← setUint32 view 28 byteRate;
  view ← setUint16 view 32 blockAlign;
  view ← setUint16 view 34 (Z.of_nat (bytesPerSample * 8));
  view ← writeString view 36 "data";
  view ← setUint32 view 40 (Z.of_nat (totalLength * bytesPerSample));
  '(view, _) ← fold_opt (write_frame b) (seq 0 (bufferLength b)) (view, 44);
  Some view.

(** ** The reference layout *)

Definition ascii_bytes (s : string) : list Z :=
  map (fun c => Z.of_nat (nat_of_ascii c)) (String.list_ascii_of_string s).

(** The 16-bit value the code stores for one sample. *)
Definition quantize (x : jsnum) : Z := ToInt16 (js_scale (clamp x) 32767).

Definition dataBytes (b : AudioBuffer) : Z :=
  Z.of_nat (bufferLength b * numberOfChannels b * bytesPerSample).

Definition header_ref (b : AudioBuffer) : list Z :=
  let blockAlign := Z.of_nat (numberOfChannels b * bytesPerSample) in
  ascii_bytes "RIFF" ++ le_split 4 (ToUint32 (36 + dataBytes b)) ++
  ascii_bytes "WAVE" ++ ascii_bytes "fmt " ++
  le_split 4 (ToUint32 16) ++ le_split 2 (ToUint16 1) ++
  le_split 2 (ToUint16 (Z.of_nat (numberOfChannels b))) ++
  le_split 4 (ToUint32 (sampleRate b)) ++
  le_split 4 (ToUint32 (sampleRate b * blockAlign)) ++
  le_split 2 (ToUint16 blockAlign) ++ le_split 2 (ToUint16 16) ++
  ascii_bytes "data" ++ le_split 4 (ToUint32 (dataBytes b)).

Definition frame_ref (b : AudioBuffer) (i : nat) : list Z :=
  concat (map (fun ch => le_split 2 (quantize (sample_at b ch i)))
             (seq 0 (numberOfChannels b))).

Definition samples_ref (b : AudioBuffer) : list Z :=
  concat (map (frame_ref b) (seq 0 (bufferLength b))).

Definition wav_ref (b : AudioBuffer) : list Z := header_ref b ++ samples_ref b.

(** ** The in-place encoding builds the reference layout *)

(** The view after writing the prefix [pre] of a buffer of [total] bytes:
    the rest is still the zero fill of the allocation. *)
Definition padded (pre : list Z) (total : nat) : list Z :=
  pre ++ replicate (total - length pre) 0%Z.

Lemma length_padded pre total :
  length pre <= total -> length (padded pre total) = total.
Proof. intros. unfold padded. rewrite length_app, length_replicate. lia. Qed.

Lemma padded_full pre total : length pre = total -> padded pre total = pre.
Proof. intros <-. unfold padded. by rewrite Nat.sub_diag, app_nil_r. Qed.

(** A write at the end of the written prefix extends the prefix. *)
Lemma dv_set_padded pre bs total off :
  off = length pre -> length pre + length bs <= total ->
  dv_set (padded pre total) off bs = Some (padded (pre ++ bs) total).
Proof.
  intros -> H. unfold dv_set. rewrite length_padded by lia.
  rewrite decide_True by lia. f_equal. unfold padded.
  rewrite overwrite_zero_block by lia. rewrite <- app_assoc, length_app. do 3 f_equal. lia.
Qed.

Lemma concat_map_seq_S {A} (g : nat -> list A) n :
  concat (map g (seq 0 (S n))) = concat (map g (seq 0 n)) ++ g n.
Proof. by rewrite seq_S, map_app, concat_app; simpl; rewrite app_nil_r. Qed.

Lemma length_concat_map_seq {A} (g : nat -> list A) w n :
  (forall j, length (g j) = w) -> length (concat (map g (seq 0 n))) = n * w.
Proof.
  intros Hg. induction n as [|n IH]; [done|].
  rewrite concat_map_seq_S, length_app, IH, Hg. lia.
Qed.

(** A loop whose [j]-th iteration writes the bytes [g j] right after
    those of the previous iterations. *)
Lemma loop_appends {St} (f : St -> nat -> option St) (enc : list Z -> St)
    (g : nat -> list Z) (pre : list Z) total n :
  (forall j bs, j < n ->
     length bs = length pre + length (concat (map g (seq 0 j))) ->
     length bs + length (g j) <= total ->
     f (enc bs) j = Some (enc (bs ++ g j))) ->
  length pre + length (concat (map g (seq 0 n))) <= total ->
  fold_opt f (seq 0 n) (enc pre) = Some (enc (pre ++ concat (map g (seq 0 n)))).
Proof.
  intros Hf Hlen.
  destruct (fold_opt_seq_inv f
    (fun j st => j <= n /\ st = enc (pre ++ concat (map g (seq 0 j)))) n 0 (enc pre))
    as (a & Ha & _ & ->).
  - split; [lia|]. by rewrite app_nil_r.
  - intros j st Hj [_ ->]. eexists; split; [apply Hf; [lia|by rewrite length_app|]|split; [lia|]].
    + enough (length (concat (map g (seq 0 (S j)))) <= length (concat (map g (seq 0 n)))).
      { rewrite concat_map_seq_S, length_app in H. rewrite length_app. lia. }
      rewrite <- (take_drop (S j) (seq 0 n)), map_app, concat_app, length_app.
      rewrite take_seq. replace (min (S j) n) with (S j) by lia. lia.
    + by rewrite concat_map_seq_S, app_assoc.
  - done.
Qed.

Lemma ascii_bytes_charCodeAt s :
  ascii_bytes s =
  concat (map (fun i => [(charCodeAt s i mod 256)%Z]) (seq 0 (String.length s))).
Proof.
  induction s as [|c s IH]; [done|]. cbn [String.length seq map concat].
  rewrite <- seq_shift, map_map.
  unfold ascii_bytes in *. cbn [String.list_ascii_of_string map]. rewrite IH.
  cbn [app]. f_equal. unfold charCodeAt. cbn [String.get].
  pose proof (nat_ascii_bounded c). rewrite Z.mod_small; lia.
Qed.

Lemma writeString_padded pre total off s :
  off = length pre -> length pre + String.length s <= total ->
  writeString (padded pre total) off s = Some (padded (pre ++ ascii_bytes s) total).
Proof.
  intros -> Hlen. unfold writeString. rewrite ascii_bytes_charCodeAt.
  apply (loop_appends _ (fun bs => padded bs total) _ _ total).
  - intros j bs Hj Hbs Hb. unfold setUint8. apply dv_set_padded; [|lia].
    rewrite Hbs, (length_concat_map_seq _ 1); [lia|done].
  - rewrite (length_concat_map_seq _ 1); [lia|done].
Qed.

Lemma length_frame_ref b i : length (frame_ref b i) = numberOfChannels b * 2.
Proof. unfold frame_ref. apply length_concat_map_seq. intros. apply length_le_split. Qed.

Lemma length_samples_ref b :
  length (samples_ref b) = bufferLength b * (numberOfChannels b * 2).
Proof. unfold samples_ref. apply length_concat_map_seq, length_frame_ref. Qed.

Lemma write_frame_padded b i pre total :
  length (channelData b) = numberOfChannels b ->
  length pre + length (frame_ref b i) <= total ->
  write_frame b (padded pre total, length pre) i
  = Some (padded (pre ++ frame_ref b i) total, length (pre ++ frame_ref b i)).
Proof.
  intros Hwf Hlen. unfold write_frame, frame_ref.
  apply (loop_appends _ (fun bs => (padded bs total, length bs)) _ _ total).
  - intros ch bs Hch Hbs Hb. unfold write_sample, sample_at.
    destruct (lookup_lt_is_Some_2 (channelData b) ch) as [data Hdata]; [lia|].
    unfold getChannelData. rewrite Hdata. cbn [mbind option_bind].
    rewrite length_le_split in Hb.
    unfold setInt16. rewrite dv_set_padded by (rewrite ?length_le_split; lia).
    cbn [mbind option_bind]. rewrite length_app, length_le_split. done.
  - done.
Qed.

Lemma header_ref_length b : length (header_ref b) = 44.
Proof. reflexivity. Qed.

Lemma frames_padded b pre total :
  length (channelData b) = numberOfChannels b ->
  length pre + length (samples_ref b) <= total ->
  fold_opt (write_frame b) (seq 0 (bufferLength b)) (padded pre total, length pre)
  = Some (padded (pre ++ samples_ref b) total, length (pre ++ samples_ref b)).
Proof.
  intros Hwf Hlen. unfold samples_ref.
  apply (loop_appends _ (fun bs => (padded bs total, length bs)) _ _ total); [|done].
  intros i bs Hi Hbs Hb. by apply write_frame_padded.
Qed.

(** One header write at the end of the written prefix. *)
Ltac header_write :=
  first [ rewrite writeString_padded by (simpl; lia)
        | rewrite dv_set_padded by (simpl; lia) ];
  cbn [mbind option_bind].

(** The encoding the code performs in place is the header followed by the
    frames, each frame the channels' samples in order. *)
Lemma downloadAudio_layout_aux b :
  length (channelData b) = numberOfChannels b ->
  downloadAudio b = Some (wav_ref b).
Proof.
  intros Hwf. unfold downloadAudio.
  pose proof (length_samples_ref b).
  change (replicate ?n 0%Z) with (padded [] n).
  unfold setUint32, setUint16.
  do 13 header_write.
  match goal with
  | |- context [fold_opt _ _ (padded ?pre ?t, 44)] =>
      change 44 with (length pre); rewrite frames_padded by (simpl; unfold bytesPerSample; lia)
  end.
  cbn [mbind option_bind]. f_equal. rewrite padded_full.
  - unfold wav_ref, header_ref. rewrite <- !app_assoc. reflexivity.
  - rewrite length_app. simpl length. unfold bytesPerSample. lia.
Qed.

(** ** Reading the file back

    A reader of the canonical 44-byte WAV layout: little-endian unsigned
    fields at their documented offsets, signed 16-bit samples. *)

Definition read_u16 (bs : list Z) (off : nat) : Z := le_combine (take 2 (drop off bs)).
Definition read_u32 (bs : list Z) (off : nat) : Z := le_combine (take 4 (drop off bs)).
Definition read_i16 (bs : list Z) (off : nat) : Z := int16_wrap (read_u16 bs off).
Definition read_tag (bs : list Z) (off : nat) : list Z := take 4 (drop off bs).

Record WavHeader := {
  hChunkSize : Z; hAudioFormat : Z; hNumChannels : Z; hSampleRate : Z;
  hByteRate : Z; hBlockAlign : Z; hBitsPerSample : Z; hSubchunk2Size : Z
}.

Definition parse_header (bs : list Z) : WavHeader := {|
  hChunkSize := read_u32 bs 4; hAudioFormat := read_u16 bs 20;
  hNumChannels := read_u16 bs 22; hSampleRate := read_u32 bs 24;
  hByteRate := read_u32 bs 28; hBlockAlign := read_u16 bs 32;
  hBitsPerSample := read_u16 bs 34; hSubchunk2Size := read_u32 bs 40 |}.

Definition tags_ok (bs : list Z) : Prop :=
  read_tag bs 0 = ascii_bytes "RIFF" /\ read_tag bs 8 = ascii_bytes "WAVE" /\
  read_tag bs 12 = ascii_bytes "fmt " /\ read_tag bs 36 = ascii_bytes "data".

Lemma int16_wrap_small z : (- 2 ^ 15 <= z < 2 ^ 15)%Z -> int16_wrap z = z.
Proof.
  intros H. unfold int16_wrap. destruct (Z.leb_spec 0 z).
  - rewrite Z.mod_small by lia. destruct (Z.geb_spec z (2 ^ 15)); lia.
  - rewrite <- (Z.mod_add z 1 (2 ^ 16)) by lia. rewrite Z.mod_small by lia.
    destruct (Z.geb_spec (z + 1 * 2 ^ 16) (2 ^ 15)); lia.
Qed.

Lemma int16_wrap_mod z : int16_wrap (z mod 2 ^ 16) = int16_wrap z.
Proof. unfold int16_wrap. by rewrite Z.mod_mod by lia. Qed.

(** A signed 16-bit value survives its two little-endian bytes. *)
Lemma int16_bytes_roundtrip z :
  (- 2 ^ 15 <= z < 2 ^ 15)%Z -> int16_wrap (le_combine (le_split 2 z)) = z.
Proof.
  intros H. rewrite le_combine_split. change (256 ^ Z.of_nat 2)%Z with (2 ^ 16)%Z.
  rewrite int16_wrap_mod. by apply int16_wrap_small.
Qed.

Lemma drop_concat_uniform {A} (g : nat -> list A) w j n :
  (forall k, length (g k) = w) -> j <= n ->
  drop (j * w) (concat (map g (seq 0 n))) = concat (map g (seq j (n - j))).
Proof.
  intros Hg Hj. replace n with (j + (n - j)) at 1 by lia.
  rewrite seq_app, map_app, concat_app, drop_app_length'; [done|].
  rewrite (length_concat_map_seq _ w); [lia|done].
Qed.

Lemma drop_block {A} (g : nat -> list A) w k n :
  (forall j, length (g j) = w) -> k < n ->
  drop (k * w) (concat (map g (seq 0 n)))
  = g k ++ concat (map g (seq (S k) (n - S k))).
Proof.
  intros Hg Hk. rewrite drop_concat_uniform by (done || lia).
  by replace (n - k) with (S (n - S k)) by lia.
Qed.

(** The [k]-th block of a concatenation of blocks of width [w], followed
    by anything. *)
Lemma block_at {A} (g : nat -> list A) w k n (rest : list A) :
  (forall j, length (g j) = w) -> k < n ->
  take w (drop (k * w) (concat (map g (seq 0 n)) ++ rest)) = g k.
Proof.
  intros Hg Hk. rewrite drop_app_le.
  2: { rewrite (length_concat_map_seq _ w); [nia|done]. }
  rewrite drop_block by (done || lia).
  rewrite <- app_assoc, take_app_le by (rewrite Hg; lia).
  by rewrite take_ge by (rewrite Hg; lia).
Qed.

(** The two bytes of channel [ch] of frame [i] sit at offset
    [44 + (i * numberOfChannels + ch) * 2]. *)
Lemma wav_ref_sample_bytes b ch i :
  ch < numberOfChannels b -> i < bufferLength b ->
  take 2 (drop (44 + (i * (numberOfChannels b * 2) + ch * 2)) (wav_ref b))
  = le_split 2 (quantize (sample_at b ch i)).
Proof.
  intros Hch Hi. unfold wav_ref.
  rewrite <- drop_drop, drop_app_length' by apply (header_ref_length b).
  rewrite <- drop_drop. unfold samples_ref.
  rewrite (drop_block _ (numberOfChannels b * 2)) by (done || apply length_frame_ref).
  unfold frame_ref.
  apply (block_at (fun ch => le_split 2 (quantize (sample_at b ch i))) 2 ch); [|done].
  intros; apply length_le_split.
Qed.

Lemma ascii_bytes_bytes s : Forall is_byte (ascii_bytes s).
Proof.
  unfold ascii_bytes. apply Forall_forall. intros x Hx.
  apply list_elem_of_In, in_map_iff in Hx as (c & <- & _).
  pose proof (nat_ascii_bounded c). unfold is_byte. lia.
Qed.

Lemma Forall_concat_map_seq {A} (P : A -> Prop) (g : nat -> list A) n :
  (forall j, Forall P (g j)) -> Forall P (concat (map g (seq 0 n))).
Proof. intros Hg. apply Forall_concat, Forall_forall. intros l Hl.
  apply list_elem_of_In, in_map_iff in Hl as (j & <- & _). apply Hg. Qed.

Lemma wav_ref_bytes b : Forall is_byte (wav_ref b).
Proof.
  unfold wav_ref, header_ref, samples_ref, frame_ref.
  repeat (apply Forall_app; split); auto using ascii_bytes_bytes with djm.
  apply Forall_concat_map_seq. intros j. apply Forall_concat_map_seq. auto with djm.
Qed.

Lemma length_wav_ref b :
  length (wav_ref b) = 44 + bufferLength b * numberOfChannels b * 2.
Proof. unfold wav_ref. rewrite length_app, length_samples_ref, header_ref_length. lia. Qed.

(** [quantize] on a value already in range is the truncation of the
    scaled value. *)
Lemma quantize_in_range q :
  (-1 <= q <= 1)%Q -> quantize (JNum q) = trunc (q * 32767).
Proof.
  intros Hq. unfold quantize. rewrite (clamp_in_range q Hq). cbn [js_scale ToInt16].
  apply int16_wrap_small.
  pose proof (trunc_le_abs (q * 32767) 32767 ltac:(unfold inject_Z; nra)). lia.
Qed.

Lemma quantize_ge_1 q : (1 <= q)%Q -> quantize (JNum q) = 32767%Z.
Proof.
  intros Hq. unfold quantize, clamp, math_min, math_max.
  apply Qle_bool_iff in Hq. rewrite Hq. reflexivity.
Qed.

Lemma quantize_le_m1 q : (q <= -1)%Q -> quantize (JNum q) = (-32767)%Z.
Proof.
  intros Hq. unfold quantize, clamp, math_min, math_max.
  destruct (Qle_bool 1 q) eqn:E.
  - apply Qle_bool_iff in E. lra.
  - destruct (Qle_bool (-1) q) eqn:E2.
    + apply Qle_bool_iff in E2. assert (q == -1)%Q as Hq' by lra.
      cbn [js_scale ToInt16]. rewrite Hq'. reflexivity.
    + reflexivity.
Qed.

Lemma quantize_range x : (-32767 <= quantize x <= 32767)%Z.
Proof.
  destruct x as [q| | |]; [|vm_compute; split; discriminate..].
  destruct (Qlt_le_dec q (-1)) as [H1|H1]; [rewrite quantize_le_m1 by lra; lia|].
  destruct (Qlt_le_dec 1 q) as [H2|H2]; [rewrite quantize_ge_1 by lra; lia|].
  rewrite quantize_in_range by lra.
  pose proof (trunc_le_abs (q * 32767) 32767 ltac:(unfold inject_Z; nra)). lia.
Qed.

(** What a reader gets back at the position of channel [ch], frame [i]. *)
Lemma read_sample b bytes ch i :
  length (channelData b) = numberOfChannels b -> downloadAudio b = Some bytes ->
  ch < numberOfChannels b -> i < bufferLength b ->
  read_i16 bytes (44 + (i * (numberOfChannels b * 2) + ch * 2))
  = quantize (sample_at b ch i).
Proof.
  intros Hwf Henc Hch Hi.
  rewrite downloadAudio_layout_aux in Henc by done. injection Henc as <-.
  unfold read_i16, read_u16. rewrite wav_ref_sample_bytes by done.
  apply int16_bytes_roundtrip. pose proof (quantize_range (sample_at b ch i)). lia.
Qed.

(** Reading a header field back: the reader recombines exactly the bytes
    the setter wrote, which denote a value below [256^n]. *)
Ltac read_back :=
  match goal with
  | |- le_combine (take ?n (drop _ _)) = ?v =>
      transitivity (le_combine (le_split n v)); [reflexivity|];
      apply le_combine_split_small; unfold ToUint32, ToUint16;
      try match goal with
          | |- context [(?a mod ?m)%Z] => pose proof (Z.mod_pos_bound a m ltac:(lia))
          end;
      cbn -[Z.modulo]; lia
  end.

Lemma wav_ref_header b :
  tags_ok (wav_ref b) /\
  parse_header (wav_ref b) = {|
    hChunkSize := ToUint32 (36 + dataBytes b); hAudioFormat := 1;
    hNumChannels := ToUint16 (Z.of_nat (numberOfChannels b));
    hSampleRate := ToUint32 (sampleRate b);
    hByteRate := ToUint32 (sampleRate b * Z.of_nat (numberOfChannels b * 2));
    hBlockAlign := ToUint16 (Z.of_nat (numberOfChannels b * 2));
    hBitsPerSample := 16; hSubchunk2Size := ToUint32 (dataBytes b) |}.
Proof.
  split; [repeat split; reflexivity|].
  unfold parse_header, read_u32, read_u16. f_equal; read_back.
Qed.

(** A buffer of two channels and two frames: a half-scale sample, an
    over-range sample, a [NaN] and a negative sample. *)
Definition example_buffer : AudioBuffer := {|
  numberOfChannels := 2; bufferLength := 2; sampleRate := 44100;
  channelData := [[JNum (1 # 2); JNum 2]; [JNaN; JNum (-3 # 4)]] |}.

(** ** Properties of [downloadAudio] *)

(** C23 (equivalence, no exception): on every buffer with one data array
    per channel, [downloadAudio] does not throw, and the bytes it writes
    in place into the zero-filled ArrayBuffer are exactly the 44-byte
    header followed by the frames in order, each frame the channels'
    16-bit little-endian samples in channel order; the file has
    [44 + frames * channels * 2] bytes, each in [0,256). *)
Theorem downloadAudio_correct b :
  length (channelData b) = numberOfChannels b ->
  downloadAudio b = Some (wav_ref b) /\
  length (wav_ref b) = 44 + bufferLength b * numberOfChannels b * 2 /\
  Forall is_byte (wav_ref b).
Proof.
  intros Hwf. split; [by apply downloadAudio_layout_aux|].
  split; [apply length_wav_ref|apply wav_ref_bytes].
Qed.

Lemma downloadAudio_correct_witness :
  downloadAudio example_buffer = Some (wav_ref example_buffer) /\
  length (wav_ref example_buffer) = 52 /\ Forall is_byte (wav_ref example_buffer).
Proof. apply (downloadAudio_correct example_buffer). reflexivity. Defined.

(** C35 (round trip, header): the encoded file carries the tags [RIFF],
    [WAVE], [fmt ] and [data] at offsets 0, 8, 12 and 36, and a reader of
    the header gets back the values the code computes, each reduced
    modulo its field width (2^32 or 2^16): chunk size [36 + dataBytes],
    PCM format 1, the channel count, the sample rate, the byte rate
    [sampleRate * channels * 2], the block align [channels * 2], 16 bits
    per sample and the data size [frames * channels * 2]. *)
Theorem downloadAudio_header b bytes :
  length (channelData b) = numberOfChannels b -> downloadAudio b = Some bytes ->
  tags_ok bytes /\
  parse_header bytes = {|
    hChunkSize := ToUint32 (36 + dataBytes b); hAudioFormat := 1;
    hNumChannels := ToUint16 (Z.of_nat (numberOfChannels b));
    hSampleRate := ToUint32 (sampleRate b);
    hByteRate := ToUint32 (sampleRate b * Z.of_nat (numberOfChannels b * 2));
    hBlockAlign := ToUint16 (Z.of_nat (numberOfChannels b * 2));
    hBitsPerSample := 16; hSubchunk2Size := ToUint32 (dataBytes b) |}.
Proof.
  intros Hwf Henc. rewrite downloadAudio_layout_aux in Henc by done.
  injection Henc as <-. apply wav_ref_header.
Qed.

Lemma downloadAudio_header_witness :
  tags_ok (wav_ref example_buffer) /\
  parse_header (wav_ref example_buffer) = {|
    hChunkSize := ToUint32 (36 + dataBytes example_buffer); hAudioFormat := 1;
    hNumChannels := ToUint16 2; hSampleRate := ToUint32 44100;
    hByteRate := ToUint32 (44100 * Z.of_nat (2 * 2));
    hBlockAlign := ToUint16 (Z.of_nat (2 * 2));
    hBitsPerSample := 16; hSubchunk2Size := ToUint32 (dataBytes example_buffer) |}.
Proof. apply (downloadAudio_header example_buffer); reflexivity. Defined.

(** C36 (bounds): when the data size, the block align and the byte rate
    fit their fields (data size below [2^32 - 36], block align below
    [2^16], sample rate and byte rate in [[0, 2^32)]),
    no header field wraps: the fields read back are the exact values and
    are consistent with each other, [ChunkSize = 36 + Subchunk2Size],
    [Subchunk2Size = frames * channels * 2], [BlockAlign = channels * 2]
    and [ByteRate = SampleRate * BlockAlign]. *)
Theorem downloadAudio_header_consistent b bytes :
  length (channelData b) = numberOfChannels b -> downloadAudio b = Some bytes ->
  (36 + dataBytes b < 2 ^ 32)%Z ->
  (Z.of_nat (numberOfChannels b * 2) < 2 ^ 16)%Z ->
  (0 <= sampleRate b < 2 ^ 32)%Z ->
  (sampleRate b * Z.of_nat (numberOfChannels b * 2) < 2 ^ 32)%Z ->
  let h := parse_header bytes in
  hChunkSize h = (36 + hSubchunk2Size h)%Z /\
  hSubchunk2Size h = Z.of_nat (bufferLength b * numberOfChannels b * 2) /\
  hNumChannels h = Z.of_nat (numberOfChannels b) /\
  hSampleRate h = sampleRate b /\
  hBlockAlign h = (hNumChannels h * 2)%Z /\
  hByteRate h = (hSampleRate h * hBlockAlign h)%Z.
Proof.
  intros Hwf Henc Hd Hc Hs Hr. rewrite downloadAudio_layout_aux in Henc by done.
  injection Henc as <-. cbv zeta. rewrite (proj2 (wav_ref_header b)). cbn.
  unfold ToUint32, ToUint16, dataBytes, bytesPerSample in *.
  rewrite !(Z.mod_small (36 + _)), !(Z.mod_small (Z.of_nat (_ * _ * 2))),
    !(Z.mod_small (Z.of_nat (_ * 2))), !(Z.mod_small (sampleRate b * _)),
    !(Z.mod_small (sampleRate b)), !(Z.mod_small (Z.of_nat (numberOfChannels b))) by lia.
  repeat split; lia.
Qed.

Lemma downloadAudio_header_consistent_witness :
  let h := parse_header (wav_ref example_buffer) in
  hChunkSize h = (36 + hSubchunk2Size h)%Z /\
  hSubchunk2Size h = Z.of_nat (2 * 2 * 2) /\ hNumChannels h = 2%Z /\
  hSampleRate h = 44100%Z /\ hBlockAlign h = (hNumChannels h * 2)%Z /\
  hByteRate h = (hSampleRate h * hBlockAlign h)%Z.
Proof.
  apply (downloadAudio_header_consistent example_buffer);
    [reflexivity|reflexivity|..]; unfold dataBytes; simpl; lia.
Defined.

(** C26 (round trip, samples): a sample in [[-1,1]] is read back from its
    position [44 + (frame * channels + channel) * 2] as the truncation
    toward zero of [sample * 32767], hence within one step of
    [sample * 32767] (within [1/32767] once divided by 32767). *)
Theorem downloadAudio_sample_roundtrip b bytes ch i q :
  length (channelData b) = numberOfChannels b -> downloadAudio b = Some bytes ->
  ch < numberOfChannels b -> i < bufferLength b ->
  sample_at b ch i = JNum q -> (-1 <= q <= 1)%Q ->
  let r := read_i16 bytes (44 + (i * (numberOfChannels b * 2) + ch * 2)) in
  r = trunc (q * 32767) /\ (q * 32767 - 1 < inject_Z r < q * 32767 + 1)%Q.
Proof.
  intros Hwf Henc Hch Hi Hq Hrange. cbv zeta.
  rewrite (read_sample b bytes ch i) by done. rewrite Hq, quantize_in_range by done.
  split; [done|apply trunc_close].
Qed.

Lemma downloadAudio_sample_roundtrip_witness :
  let r := read_i16 (wav_ref example_buffer) (44 + (0 * (2 * 2) + 0 * 2)) in
  r = trunc ((1 # 2) * 32767) /\
  ((1 # 2) * 32767 - 1 < inject_Z r < (1 # 2) * 32767 + 1)%Q.
Proof.
  apply (downloadAudio_sample_roundtrip example_buffer _ 0 0 (1 # 2));
    [reflexivity|reflexivity|cbn; lia|cbn; lia|reflexivity|split; vm_compute; discriminate].
Defined.

(** C25 (bounds, clamping): every sample read back lies in
    [[-32767, 32767]], whatever the input: the clamp to [[-1,1]] runs
    before the 16-bit conversion, so out-of-range input saturates
    ([>= 1] and [+Infinity] give 32767, [<= -1] and [-Infinity] give
    -32767) instead of wrapping around, and [NaN] gives 0. *)
Theorem downloadAudio_sample_saturates b bytes ch i :
  length (channelData b) = numberOfChannels b -> downloadAudio b = Some bytes ->
  ch < numberOfChannels b -> i < bufferLength b ->
  let r := read_i16 bytes (44 + (i * (numberOfChannels b * 2) + ch * 2)) in
  (-32767 <= r <= 32767)%Z /\
  (forall q, sample_at b ch i = JNum q -> (1 <= q)%Q -> r = 32767%Z) /\
  (forall q, sample_at b ch i = JNum q -> (q <= -1)%Q -> r = (-32767)%Z) /\
  (sample_at b ch i = JPosInf -> r = 32767%Z) /\
  (sample_at b ch i = JNegInf -> r = (-32767)%Z) /\
  (sample_at b ch i = JNaN -> r = 0%Z).
Proof.
  intros Hwf Henc Hch Hi. cbv zeta.
  rewrite (read_sample b bytes ch i) by done.
  split; [apply quantize_range|].
  split; [intros q -> ?; by apply quantize_ge_1|].
  split; [intros q -> ?; by apply quantize_le_m1|].
  repeat split; intros ->; reflexivity.
Qed.

Lemma downloadAudio_sample_saturates_witness :
  let r := read_i16 (wav_ref example_buffer) (44 + (1 * (2 * 2) + 0 * 2)) in
  (-32767 <= r <= 32767)%Z /\
  (forall q, sample_at example_buffer 0 1 = JNum q -> (1 <= q)%Q -> r = 32767%Z) /\
  (forall q, sample_at example_buffer 0 1 = JNum q -> (q <= -1)%Q -> r = (-32767)%Z) /\
  (sample_at example_buffer 0 1 = JPosInf -> r = 32767%Z) /\
  (sample_at example_buffer 0 1 = JNegInf -> r = (-32767)%Z) /\
  (sample_at example_buffer 0 1 = JNaN -> r = 0%Z).
Proof.
  apply (downloadAudio_sample_saturates example_buffer _ 0 1);
    [reflexivity|reflexivity|cbn; lia|cbn; lia].
Defined.
