(* ===== verification/Download.v ===== *)
(** The end of [WavEncoder.downloadAudio] ([src/src/utils/WavEncoder.js],
    lines 43-51): the encoded ArrayBuffer is wrapped in a [Blob] of type
    [audio/wav], given an object URL, and saved through a temporary
    [<a download>] element that is appended to the body, clicked, removed,
    after which the URL is revoked.

    The part of the browser these calls touch is the record [Browser]:
    the blob URL store, the anchors created by the script, the children
    of [document.body] and the files the user agent has saved.  Each call
    is an operation of a state and exception monad [BM] over it, in the
    style of a labelled step of the platform: an operation that throws
    keeps the effects of the calls before it, as a JavaScript exception
    does.  [createObjectURL] and [createElement] allocate a key that is
    fresh for their store.

    [save_blob_spec] shows that on a well-formed browser the nine calls
    never throw, save exactly one file with the given name, type and
    bytes, and leave the body and the URL store as they were: the anchor
    is detached and the URL revoked. *)

From S2P Require Import Prelude WavEncoder.
From stdpp Require Import gmap sets strings.

(** ** The browser state the download touches *)

(** [new Blob([arrayBuffer], { type })]. *)
Record Blob := { blobBytes : list Z; blobType : string }.

(** An [<a>] element created by the script: its [href] (an object URL,
    the key of the store) and its [download] attribute. *)
Record Anchor := { aHref : option nat; aDownload : option string }.

(** A file the user agent saved. *)
Record SavedFile := { fileName : string; fileType : string; fileBytes : list Z }.

Record Browser := {
  blobURLs : gmap nat Blob;        (** the blob URL store *)
  anchors : gmap nat Anchor;      (** the anchors created by scripts *)
  body : list nat;                 (** the script-created children of [document.body] *)
  saved : list SavedFile           (** the downloads, in order *)
}.

Definition set_blobURLs (u : gmap nat Blob) (b : Browser) : Browser :=
  {| blobURLs := u; anchors := anchors b; body := body b; saved := saved b |}.
Definition set_elements (e : gmap nat Anchor) (b : Browser) : Browser :=
  {| blobURLs := blobURLs b; anchors := e; body := body b; saved := saved b |}.
Definition set_body (l : list nat) (b : Browser) : Browser :=
  {| blobURLs := blobURLs b; anchors := anchors b; body := l; saved := saved b |}.
Definition set_saved (s : list SavedFile) (b : Browser) : Browser :=
  {| blobURLs := blobURLs b; anchors := anchors b; body := body b; saved := s |}.

(** ** The state and exception monad *)

(** A script's run on the browser: the result, or [None] when it throws,
    and the browser afterwards. *)
Definition BM (A : Type) : Type := Browser -> option A * Browser.

#[export] Instance BM_ret : MRet BM := fun A x b => (Some x, b).
#[export] Instance BM_bind : MBind BM := fun A B f m b =>
  match m b with
  | (Some x, b') => f x b'
  | (None, b') => (None, b')
  end.

Definition throw {A} : BM A := fun b => (None, b).
Definition modify (f : Browser -> Browser) : BM unit := fun b => (Some tt, f b).

(** ** The platform calls *)

Definition new_Blob (parts : list Z) (type : string) : Blob :=
  {| blobBytes := parts; blobType := type |}.

(** [URL.createObjectURL(blob)]: a fresh URL now resolving to [blob]. *)
Definition createObjectURL (blob : Blob) : BM nat := fun b =>
  let url := fresh (dom (blobURLs b)) in
  (Some url, set_blobURLs (<[url := blob]> (blobURLs b)) b).

(** [document.createElement('a')]: a fresh element, not in the tree. *)
Definition createElement_a : BM nat := fun b =>
  let e := fresh (dom (anchors b)) in
  (Some e, set_elements (<[e := {| aHref := None; aDownload := None |}]> (anchors b)) b).

Definition update_anchor (f : Anchor -> Anchor) (e : nat) : BM unit := fun b =>
  match anchors b !! e with
  | Some a => (Some tt, set_elements (<[e := f a]> (anchors b)) b)
  | None => (None, b)
  end.

(** [a.href = url]. *)
Definition set_href (e url : nat) : BM unit :=
  update_anchor (fun a => {| aHref := Some url; aDownload := aDownload a |}) e.

(** [a.download = filename]. *)
Definition set_download (e : nat) (filename : string) : BM unit :=
  update_anchor (fun a => {| aHref := aHref a; aDownload := Some filename |}) e.

(** [document.body.appendChild(a)]: a node already in the body moves to
    its end. *)
Definition appendChild (e : nat) : BM unit :=
  modify (fun b => set_body (filter (fun x => x <> e) (body b) ++ [e]) b).

(** [a.click()] on an anchor with a [download] attribute: the user agent
    resolves the URL when the click is processed and saves the blob under
    the attribute's name; a URL that resolves to nothing (revoked) gives a
    network error and saves nothing. *)
Definition click (e : nat) : BM unit := fun b =>
  match anchors b !! e with
  | Some {| aHref := Some url; aDownload := Some name |} =>
      match blobURLs b !! url with
      | Some blob =>
          (Some tt, set_saved (saved b ++ [{| fileName := name; fileType := blobType blob;
                                              fileBytes := blobBytes blob |}]) b)
      | None => (Some tt, b)
      end
  | _ => (Some tt, b)
  end.

(** [document.body.removeChild(a)]: [NotFoundError] when [a] is not a
    child of the body. *)
Definition removeChild (e : nat) : BM unit := fun b =>
  if decide (e ∈ body b) then (Some tt, set_body (filter (fun x => x <> e) (body b)) b)
  else (None, b).

(** [URL.revokeObjectURL(url)]. *)
Definition revokeObjectURL (url : nat) : BM unit :=
  modify (fun b => set_blobURLs (delete url (blobURLs b)) b).

(** ** [downloadAudio] *)

(** Lines 43-51. *)
Definition save_blob (arrayBuffer : list Z) (filename : string) : BM unit :=
  let blob := new_Blob arrayBuffer "audio/wav" in
  url ← createObjectURL blob;
  a ← createElement_a;
  set_href a url;;
  set_download a filename;;
  appendChild a;;
  click a;;
  removeChild a;;
  revokeObjectURL url.

(** [WavEncoder.downloadAudio(buffer, filename = 'beat.wav')]: the
    encoding (lines 3-41, [WavEncoder.downloadAudio]) throws before any
    call to the browser, or the bytes are saved. *)
Definition downloadAudio_js (buffer : AudioBuffer) (filename : option string) : BM unit :=
  match WavEncoder.downloadAudio buffer with
  | Some bytes => save_blob bytes (default "beat.wav" filename)
  | None => throw
  end.

(** A browser where no script has yet created an element or URL. *)
Definition empty_browser : Browser :=
  {| blobURLs := ∅; anchors := ∅; body := []; saved := [] |}.

(** ** Well-formed browsers *)

(** Every child of the body the scripts created is a created element. *)
Definition browser_wf (b : Browser) : Prop := forall e, e ∈ body b -> e ∈ dom (anchors b).

Lemma filter_neq_fresh (l : list nat) e : e ∉ l -> filter (fun x => x <> e) l = l.
Proof.
  induction l as [|x l IH]; intros Hn; [done|]. rewrite filter_cons.
  rewrite elem_of_cons in Hn. rewrite decide_True by naive_solver. f_equal. naive_solver.
Qed.

Lemma fresh_element_not_in_body b : browser_wf b -> fresh (dom (anchors b)) ∉ body b.
Proof. intros Hwf Hin. apply (is_fresh (dom (anchors b))), Hwf, Hin. Qed.

Lemma bind_some {A B} (m : BM A) (f : A -> BM B) b x b' :
  m b = (Some x, b') -> (m ≫= f) b = f x b'.
Proof. intros H. unfold mbind, BM_bind. by rewrite H. Qed.

Lemma update_anchor_some f e a b :
  anchors b !! e = Some a ->
  update_anchor f e b = (Some tt, set_elements (<[e := f a]> (anchors b)) b).
Proof. intros H. unfold update_anchor. by rewrite H. Qed.

Lemma click_saves e url name blob b :
  anchors b !! e = Some {| aHref := Some url; aDownload := Some name |} ->
  blobURLs b !! url = Some blob ->
  click e b = (Some tt, set_saved (saved b ++ [{| fileName := name; fileType := blobType blob;
                                                 fileBytes := blobBytes blob |}]) b).
Proof. intros He Hu. unfold click. by rewrite He, Hu. Qed.

Lemma removeChild_in e b :
  e ∈ body b -> removeChild e b = (Some tt, set_body (filter (fun x => x <> e) (body b)) b).
Proof. intros H. unfold removeChild. by rewrite decide_True. Qed.

(** C24: (functional, ordering) on a browser whose body holds only
    elements the scripts created, the nine calls of lines 43-51 never
    throw, save exactly one file with the given name, type [audio/wav]
    and bytes, and leave the body and the URL store as they were: the
    anchor is appended before the click and removed after it, and the URL
    is revoked only after the click has resolved it. *)
Theorem save_blob_spec bytes filename b :
  browser_wf b ->
  exists e anchor, save_blob bytes filename b =
    (Some tt, {| blobURLs := blobURLs b; anchors := <[e := anchor]> (anchors b);
                 body := body b;
                 saved := saved b ++ [{| fileName := filename; fileType := "audio/wav";
                                         fileBytes := bytes |}] |}) /\
    e ∉ dom (anchors b).
Proof.
  intros Hwf. set (u := fresh (dom (blobURLs b))). set (e := fresh (dom (anchors b))).
  assert (Hu : blobURLs b !! u = None) by (apply not_elem_of_dom, is_fresh).
  assert (He : e ∉ dom (anchors b)) by apply is_fresh.
  pose proof (fresh_element_not_in_body b Hwf) as Hb. fold e in Hb.
  exists e, {| aHref := Some u; aDownload := Some filename |}. split; [|done].
  unfold save_blob.
  erewrite bind_some by reflexivity. erewrite bind_some by reflexivity.
  erewrite bind_some by (apply update_anchor_some; apply lookup_insert_eq).
  erewrite bind_some by (apply update_anchor_some; apply lookup_insert_eq).
  erewrite bind_some by reflexivity.
  erewrite bind_some by (eapply click_saves; cbn; [by rewrite !insert_insert_eq, lookup_insert_eq
                                                 |apply lookup_insert_eq]).
  erewrite bind_some by (apply removeChild_in; cbn; apply elem_of_app; right; by left).
  unfold revokeObjectURL, modify. cbn.
  rewrite filter_app, (filter_neq_fresh (body b)) by exact (fresh_element_not_in_body b Hwf).
  cbn. rewrite decide_False by naive_solver.
  rewrite app_nil_r, delete_insert_id by exact Hu. rewrite !insert_insert_eq.
  rewrite (filter_neq_fresh (body b)) by exact (fresh_element_not_in_body b Hwf). reflexivity.
Qed.

Lemma save_blob_wf bytes filename b : browser_wf b -> browser_wf (save_blob bytes filename b).2.
Proof.
  intros Hwf. destruct (save_blob_spec bytes filename b Hwf) as (e & an & -> & _).
  intros x Hx. cbn in *. rewrite dom_insert. apply elem_of_union_r, Hwf, Hx.
Qed.

(** The file [downloadAudio(buffer)] saves, when the encoding succeeds. *)
Definition wav_file (bytes : list Z) : SavedFile :=
  {| fileName := "beat.wav"; fileType := "audio/wav"; fileBytes := bytes |}.

Lemma downloadAudio_js_saved buffer b :
  browser_wf b ->
  saved (downloadAudio_js buffer None b).2 =
    saved b ++ option_list (wav_file <$> WavEncoder.downloadAudio buffer) /\
  browser_wf (downloadAudio_js buffer None b).2.
Proof.
  intros Hwf. unfold downloadAudio_js. destruct (WavEncoder.downloadAudio buffer) as [bytes|].
  - cbn [default]. destruct (save_blob_spec bytes "beat.wav" b Hwf) as (e & an & Hs & _).
    split; [by rewrite Hs|]. by apply save_blob_wf.
  - cbn. by rewrite app_nil_r.
Qed.

Lemma empty_browser_wf : browser_wf empty_browser.
Proof. intros e He. apply elem_of_nil in He. contradiction. Qed.

Lemma save_blob_spec_witness :
  browser_wf empty_browser /\
  exists e anchor, save_blob [82; 73; 70; 70]%Z "beat.wav" empty_browser =
    (Some tt, {| blobURLs := ∅; anchors := <[e := anchor]> ∅; body := [];
                 saved := [{| fileName := "beat.wav"; fileType := "audio/wav";
                              fileBytes := [82; 73; 70; 70]%Z |}] |}) /\ e ∉ dom (∅ : gmap nat Anchor).
Proof.
  split; [exact empty_browser_wf|].
  exact (save_blob_spec [82; 73; 70; 70]%Z "beat.wav" empty_browser empty_browser_wf).
Defined.
