(* ===== verification/WebAudio.v ===== *)
(** The part of the Web Audio API the program drives, as an explicit
    store: an [AudioContext] holds its nodes (the node id is the position
    of creation), their parameters and the set of connections.  Every
    [createX], [connect], [param.value = v], automation call and
    [start]/[stop] of the JavaScript code is a function on this store, so
    the engine, the tracks and the voices share one graph the way the
    program's objects share one context.  The signal processing itself
    (filter responses, convolution, panning laws) is the browser's and is
    not modelled; what is modelled is which node feeds which and with
    which parameter values and schedules. *)

From S2P Require Import Prelude.
From Stdlib Require Import QArith.
From stdpp Require Import gmap sets.

Inductive NodeKind :=
| KDestination | KGain | KBiquad | KStereoPanner | KConvolver
| KOscillator | KBufferSource.

Inductive BiquadType :=
| Lowpass | Highpass | Bandpass | Lowshelf | Highshelf | Peaking | Notch | Allpass.

Inductive OscType := Sine | Square | Sawtooth | Triangle.

#[export] Instance NodeKind_eq_dec : EqDecision NodeKind.
Proof. solve_decision. Defined.
#[export] Instance BiquadType_eq_dec : EqDecision BiquadType.
Proof. solve_decision. Defined.
#[export] Instance OscType_eq_dec : EqDecision OscType.
Proof. solve_decision. Defined.

(** Scheduled parameter changes, in call order. *)
Inductive AutomationEvent :=
| SetValueAtTime (v t : Q)
| LinearRampToValueAtTime (v t : Q)
| ExponentialRampToValueAtTime (v t : Q).

Record AudioParam := { value : Q; events : list AutomationEvent }.

Inductive ParamName := PGain | PPan | PFrequency | PQ.

#[export] Instance ParamName_eq_dec : EqDecision ParamName.
Proof. solve_decision. Defined.

Record AudioNode := {
  kind : NodeKind;
  gain : AudioParam;         (** GainNode.gain, BiquadFilterNode.gain (dB) *)
  pan : AudioParam;          (** StereoPannerNode.pan *)
  frequency : AudioParam;    (** BiquadFilterNode / OscillatorNode frequency *)
  q : AudioParam;            (** BiquadFilterNode.Q *)
  biquadType : BiquadType;
  oscType : OscType;
  buffer : option nat;       (** ConvolverNode / AudioBufferSourceNode buffer *)
  startTime : option Q;
  stopTime : option Q
}.

Definition param (v : Q) : AudioParam := {| value := v; events := [] |}.

(** A fresh node of each kind, with the defaults of the Web Audio
    specification: gain 1 (GainNode) or 0 dB (biquad), pan 0, biquad
    lowpass at 350 Hz with Q 1, oscillator sine at 440 Hz, no buffer. *)
Definition new_node (k : NodeKind) : AudioNode := {|
  kind := k;
  gain := param (if decide (k = KBiquad) then 0 else 1);
  pan := param 0;
  frequency := param (if decide (k = KOscillator) then 440 else 350);
  q := param 1;
  biquadType := Lowpass; oscType := Sine; buffer := None;
  startTime := None; stopTime := None |}.

Definition param_of (p : ParamName) (n : AudioNode) : AudioParam :=
  match p with
  | PGain => gain n | PPan => pan n | PFrequency => frequency n | PQ => q n
  end.

Definition map_param (p : ParamName) (f : AudioParam -> AudioParam) (n : AudioNode)
  : AudioNode :=
  let g r := if decide (r = p) then f (param_of r n) else param_of r n in
  {| kind := kind n; gain := g PGain; pan := g PPan; frequency := g PFrequency;
     q := g PQ; biquadType := biquadType n; oscType := oscType n;
     buffer := buffer n; startTime := startTime n; stopTime := stopTime n |}.

Definition with_biquadType (t : BiquadType) (n : AudioNode) : AudioNode :=
  {| kind := kind n; gain := gain n; pan := pan n; frequency := frequency n;
     q := q n; biquadType := t; oscType := oscType n; buffer := buffer n;
     startTime := startTime n; stopTime := stopTime n |}.

Definition with_oscType (t : OscType) (n : AudioNode) : AudioNode :=
  {| kind := kind n; gain := gain n; pan := pan n; frequency := frequency n;
     q := q n; biquadType := biquadType n; oscType := t; buffer := buffer n;
     startTime := startTime n; stopTime := stopTime n |}.

Definition with_buffer (b : option nat) (n : AudioNode) : AudioNode :=
  {| kind := kind n; gain := gain n; pan := pan n; frequency := frequency n;
     q := q n; biquadType := biquadType n; oscType := oscType n; buffer := b;
     startTime := startTime n; stopTime := stopTime n |}.

Definition with_start (t : Q) (n : AudioNode) : AudioNode :=
  {| kind := kind n; gain := gain n; pan := pan n; frequency := frequency n;
     q := q n; biquadType := biquadType n; oscType := oscType n; buffer := buffer n;
     startTime := Some t; stopTime := stopTime n |}.

Definition with_stop (t : Q) (n : AudioNode) : AudioNode :=
  {| kind := kind n; gain := gain n; pan := pan n; frequency := frequency n;
     q := q n; biquadType := biquadType n; oscType := oscType n; buffer := buffer n;
     startTime := startTime n; stopTime := Some t |}.

(** ** The context *)

#[projections(primitive)]
Record AudioContext := {
  nodes : list AudioNode;          (** node [i] is the [i]-th created *)
  edges : gset (nat * nat);        (** [connect] is idempotent *)
  ctxSampleRate : Z;
  currentTime : Q                  (** [context.currentTime], seconds *)
}.

(** [context.destination] is the first node of every context. *)
Definition destination : nat := 0.

Definition new_context (sampleRate : Z) : AudioContext :=
  {| nodes := [new_node KDestination]; edges := ∅; ctxSampleRate := sampleRate;
     currentTime := 0 |}.

(** [context.createX()]: the new node and the context that holds it. *)
Definition create (k : NodeKind) (c : AudioContext) : nat * AudioContext :=
  (length (nodes c),
   {| nodes := nodes c ++ [new_node k]; edges := edges c; ctxSampleRate := ctxSampleRate c;
      currentTime := currentTime c |}).

(** [a.connect(b)]. *)
Definition connect (a b : nat) (c : AudioContext) : AudioContext :=
  {| nodes := nodes c; edges := {[(a, b)]} ∪ edges c; ctxSampleRate := ctxSampleRate c;
     currentTime := currentTime c |}.

Definition update_node (id : nat) (f : AudioNode -> AudioNode) (c : AudioContext)
  : AudioContext :=
  {| nodes := alter f id (nodes c); edges := edges c; ctxSampleRate := ctxSampleRate c;
     currentTime := currentTime c |}.

(** The audio clock runs on between two events of the program. *)
Definition advance_time (dt : Q) (c : AudioContext) : AudioContext :=
  {| nodes := nodes c; edges := edges c; ctxSampleRate := ctxSampleRate c;
     currentTime := currentTime c + dt |}.

(** [node.p.value = v]. *)
Definition set_value (id : nat) (p : ParamName) (v : Q) (c : AudioContext) : AudioContext :=
  update_node id (map_param p (fun a => {| value := v; events := events a |})) c.

(** [node.p.setValueAtTime(v, t)] and the ramps: appended to the
    parameter's event list. *)
Definition schedule (id : nat) (p : ParamName) (e : AutomationEvent) (c : AudioContext)
  : AudioContext :=
  update_node id (map_param p (fun a => {| value := value a; events := events a ++ [e] |})) c.

Definition node_at (c : AudioContext) (id : nat) : option AudioNode := nodes c !! id.

Definition param_value (c : AudioContext) (id : nat) (p : ParamName) : option Q :=
  (fun n => value (param_of p n)) <$> node_at c id.

(** ** Signal paths

    [reaches E a b]: the output of [a] flows into [b] along connections. *)
Inductive reaches (E : gset (nat * nat)) : nat -> nat -> Prop :=
| reaches_refl a : reaches E a a
| reaches_step a b c : (a, b) ∈ E -> reaches E b c -> reaches E a c.

#[export] Hint Constructors reaches : djm.

(** Executable reachability, exploring at most [fuel] edges deep. *)
Fixpoint reachb (E : gset (nat * nat)) (fuel : nat) (a b : nat) : bool :=
  bool_decide (a = b) ||
  match fuel with
  | O => false
  | S f => existsb (fun e => bool_decide (e.1 = a) && reachb E f e.2 b) (elements E)
  end.

Lemma reachb_sound E fuel a b : reachb E fuel a b = true -> reaches E a b.
Proof.
  revert a; induction fuel as [|f IH]; intros a; simpl.
  - rewrite orb_false_r. intros H%bool_decide_eq_true_1. subst. constructor.
  - intros [H%bool_decide_eq_true_1|H]%orb_true_iff; [subst; constructor|].
    apply existsb_exists in H as ([x y] & Hin & Hxy). simpl in Hxy.
    apply andb_true_iff in Hxy as [->%bool_decide_eq_true_1 Hy].
    apply (reaches_step _ _ y); [apply elem_of_elements, list_elem_of_In, Hin|auto].
Qed.

Lemma reaches_trans E a b c : reaches E a b -> reaches E b c -> reaches E a c.
Proof. induction 1; eauto with djm. Qed.

Lemma reaches_mono E E' a b : E ⊆ E' -> reaches E a b -> reaches E' a b.
Proof. intros HE. induction 1; eauto with djm. Qed.

#[export] Instance reaches_proper : Proper ((≡) ==> eq ==> eq ==> iff) reaches.
Proof.
  intros E E' HE a _ <- b _ <-.
  split; apply reaches_mono; intros x; rewrite (HE x); done.
Qed.

(** A node with no incoming connection is reached from itself only. *)
Lemma reaches_no_input E x y :
  (forall a, (a, x) ∉ E) -> reaches E y x -> y = x.
Proof.
  intros Hin H. induction H as [a|a b c Hab Hbc IH]; [done|].
  specialize (IH Hin). subst b. exfalso. by apply (Hin a).
Qed.

(** A node that no edge leaves reaches only itself. *)
Lemma reaches_no_output E x y :
  (forall b, (x, b) ∉ E) -> reaches E x y -> y = x.
Proof.
  intros Hout H. destruct H as [a|a b c Hab Hbc]; [done|].
  exfalso. by apply (Hout b).
Qed.

(** Connections only join nodes of the context. *)
Definition graph_wf (c : AudioContext) : Prop :=
  forall a b, (a, b) ∈ edges c -> a < length (nodes c) /\ b < length (nodes c).

(** ** Lemmas on the store *)

Lemma create_id k c : (create k c).1 = length (nodes c).
Proof. done. Qed.

Lemma length_create k c : length (nodes (create k c).2) = S (length (nodes c)).
Proof. simpl. rewrite length_app. simpl. lia. Qed.

Lemma node_at_create_new k c :
  node_at (create k c).2 (create k c).1 = Some (new_node k).
Proof. unfold node_at; simpl. by rewrite lookup_app_r, Nat.sub_diag by lia. Qed.

Lemma node_at_create_old k c id :
  id < length (nodes c) -> node_at (create k c).2 id = node_at c id.
Proof. intros. unfold node_at; simpl. by rewrite lookup_app_l. Qed.

Lemma node_at_create_ne k c id :
  id <> length (nodes c) -> node_at (create k c).2 id = node_at c id.
Proof.
  intros Hne. destruct (decide (id < length (nodes c))); [by apply node_at_create_old|].
  unfold node_at; simpl. rewrite !lookup_ge_None_2; [done|lia|].
  rewrite length_app; simpl; lia.
Qed.

Lemma param_of_map_param p p' f n :
  param_of p' (map_param p f n) =
  if decide (p' = p) then f (param_of p' n) else param_of p' n.
Proof. by destruct p'. Qed.

Lemma param_value_set c id id' p p' v :
  param_value (set_value id p v c) id' p' =
  if decide (id' = id /\ p' = p) then (fun _ => v) <$> node_at c id'
  else param_value c id' p'.
Proof.
  unfold param_value, set_value, update_node, node_at; simpl.
  destruct (decide (id' = id)) as [->|Hne].
  - rewrite list_lookup_alter, decide_True by done.
    destruct (nodes c !! id) as [a|]; simpl; [|by case_decide].
    rewrite param_of_map_param. destruct (decide (p' = p)) as [->|Hp].
    + by rewrite decide_True.
    + rewrite decide_False by (intros [_ ?]; done). done.
  - rewrite list_lookup_alter_ne by done. rewrite decide_False by (intros [? _]; done). done.
Qed.

Lemma edges_update_node id f c : edges (update_node id f c) = edges c.
Proof. done. Qed.

Lemma length_update_node id f c : length (nodes (update_node id f c)) = length (nodes c).
Proof. simpl. apply length_alter. Qed.

Lemma param_value_set_same c id p v :
  id < length (nodes c) -> param_value (set_value id p v c) id p = Some v.
Proof.
  intros H. rewrite param_value_set, decide_True by done.
  unfold node_at. destruct (lookup_lt_is_Some_2 (nodes c) id H) as [n ->]. done.
Qed.

Lemma param_value_set_other c id id' p p' v :
  (id', p') <> (id, p) -> param_value (set_value id p v c) id' p' = param_value c id' p'.
Proof.
  intros H. rewrite param_value_set, decide_False; [done|]. intros [-> ->]. done.
Qed.

Lemma edges_set_value id p v c : edges (set_value id p v c) = edges c.
Proof. done. Qed.

Lemma length_set_value id p v c : length (nodes (set_value id p v c)) = length (nodes c).
Proof. apply length_update_node. Qed.

Lemma length_connect a b c : length (nodes (connect a b c)) = length (nodes c).
Proof. done. Qed.

Lemma edges_schedule id p e c : edges (schedule id p e c) = edges c.
Proof. done. Qed.

Lemma length_schedule id p e c : length (nodes (schedule id p e c)) = length (nodes c).
Proof. apply length_update_node. Qed.

Lemma edges_connect a b c : edges (connect a b c) = {[(a, b)]} ∪ edges c.
Proof. done. Qed.

Lemma param_value_connect a b c id p : param_value (connect a b c) id p = param_value c id p.
Proof. done. Qed.

Lemma param_value_create_old k c id p :
  id < length (nodes c) -> param_value (create k c).2 id p = param_value c id p.
Proof. intros H. unfold param_value. by rewrite node_at_create_old. Qed.

#[export] Hint Rewrite edges_update_node length_update_node length_create
  edges_set_value length_set_value length_connect edges_connect
  edges_schedule length_schedule : djm_rw.

(** ** Context-threading code

    JavaScript code that creates and wires nodes threads the context
    implicitly; [WA A] threads it explicitly.  stdpp's [x ← m; k] and
    [m ;; k] notations read as the statements of the source. *)

Definition WA (A : Type) : Type := AudioContext -> A * AudioContext.

#[export] Instance WA_ret : MRet WA := fun A a c => (a, c).
#[export] Instance WA_bind : MBind WA := fun A B f m c => let '(a, c') := m c in f a c'.

Definition wa_modify (f : AudioContext -> AudioContext) : WA unit := fun c => (tt, f c).

Definition createGain : WA nat := create KGain.
Definition createBiquadFilter : WA nat := create KBiquad.
Definition createStereoPanner : WA nat := create KStereoPanner.
Definition createConvolver : WA nat := create KConvolver.
Definition createOscillator : WA nat := create KOscillator.
Definition createBufferSource : WA nat := create KBufferSource.

Definition connectM (a b : nat) : WA unit := wa_modify (connect a b).
Definition setValueM (id : nat) (p : ParamName) (v : Q) : WA unit := wa_modify (set_value id p v).
Definition scheduleM (id : nat) (p : ParamName) (e : AutomationEvent) : WA unit :=
  wa_modify (schedule id p e).
Definition setTypeM (id : nat) (t : BiquadType) : WA unit :=
  wa_modify (update_node id (with_biquadType t)).
Definition setOscTypeM (id : nat) (t : OscType) : WA unit :=
  wa_modify (update_node id (with_oscType t)).
Definition setBufferM (id : nat) (b : option nat) : WA unit :=
  wa_modify (update_node id (with_buffer b)).
Definition startM (id : nat) (t : Q) : WA unit := wa_modify (update_node id (with_start t)).
Definition stopM (id : nat) (t : Q) : WA unit := wa_modify (update_node id (with_stop t)).
Definition getCurrentTime : WA Q := fun c => (currentTime c, c).

Lemma WA_bind_unfold {A B} (m : WA A) (f : A -> WA B) c :
  (m ≫= f) c = let '(a, c') := m c in f a c'.
Proof. done. Qed.

(** Unfolds the context-threading plumbing of a [WA] program down to the
    store primitives [create], [connect], [set_value], [update_node]. *)
Ltac wa_unfold_core :=
  cbv beta iota zeta delta [mbind WA_bind mret WA_ret wa_modify createGain
    createStereoPanner createBiquadFilter createConvolver createOscillator
    createBufferSource connectM setValueM scheduleM setTypeM setOscTypeM setBufferM
    startM stopM getCurrentTime create] in *.

Ltac wa_unfold :=
  wa_unfold_core;
  cbn -[alter set_value update_node schedule connect new_node length app] in *.

(** ** Reasoning about the graph a program builds

    [wp m Q c]: running [m] on [c] ends in a context and a result that
    satisfy [Q].  The rules below describe each primitive by what it does
    to the number of nodes and to the connections only, so a proof walks
    through a program introducing each intermediate context as a variable
    with two equations, instead of unfolding the program into one term. *)

Definition wp {A} (m : WA A) (Q : A -> AudioContext -> Prop) (c : AudioContext) : Prop :=
  Q (m c).1 (m c).2.

Lemma wp_bind {A B} (m : WA A) (f : A -> WA B) Q c :
  wp m (fun a c' => wp (f a) Q c') c -> wp (m ≫= f) Q c.
Proof. unfold wp, mbind, WA_bind. by destruct (m c). Qed.

Lemma wp_ret {A} (a : A) Q c : Q a c -> wp (mret a) Q c.
Proof. done. Qed.

Lemma wp_create k Q c :
  (forall c', length (nodes c') = S (length (nodes c)) -> edges c' = edges c ->
     (forall j, node_at c' j =
        if decide (j = length (nodes c)) then Some (new_node k) else node_at c j) ->
     Q (length (nodes c)) c') ->
  wp (create k) Q c.
Proof.
  intros H. apply H; [apply length_create|done|].
  intros j. case_decide; subst; [apply node_at_create_new|].
  by apply node_at_create_ne.
Qed.

Lemma wp_connect a b Q c :
  (forall c', length (nodes c') = length (nodes c) -> edges c' = {[(a, b)]} ∪ edges c ->
     (forall j, node_at c' j = node_at c j) -> Q tt c') ->
  wp (connectM a b) Q c.
Proof. intros H. by apply H. Qed.

(** Parameter, type, buffer and schedule updates leave the graph alone. *)
Lemma wp_update id f Q c :
  (forall c', length (nodes c') = length (nodes c) -> edges c' = edges c ->
     (forall j, node_at c' j = if decide (j = id) then f <$> node_at c j else node_at c j) ->
     Q tt c') ->
  wp (wa_modify (update_node id f)) Q c.
Proof.
  intros H. apply H; [apply length_update_node|done|].
  intros j. unfold node_at, update_node. cbn.
  rewrite list_lookup_alter. by repeat case_decide; subst.
Qed.

Lemma wp_getCurrentTime Q c : Q (currentTime c) c -> wp getCurrentTime Q c.
Proof. done. Qed.

Lemma wp_mono {A} (m : WA A) (Q Q' : A -> AudioContext -> Prop) c :
  wp m Q c -> (forall a c', Q a c' -> Q' a c') -> wp m Q' c.
Proof. unfold wp. auto. Qed.

(** One step of a program: a bind, a primitive, or the split of a
    conditional. *)
Ltac wp_step :=
  match goal with
  | |- wp (_ ≫= _) _ _ => apply wp_bind
  | |- wp (mret _) _ _ => apply wp_ret
  | |- wp (create _) _ _ =>
      let c' := fresh "c" in let Hl := fresh "Hl" in let He := fresh "He" in
      let Hn := fresh "Hn" in apply wp_create; intros c' Hl He Hn
  | |- wp (connectM _ _) _ _ =>
      let c' := fresh "c" in let Hl := fresh "Hl" in let He := fresh "He" in
      let Hn := fresh "Hn" in apply wp_connect; intros c' Hl He Hn
  | |- wp (wa_modify _) _ _ =>
      let c' := fresh "c" in let Hl := fresh "Hl" in let He := fresh "He" in
      let Hn := fresh "Hn" in apply wp_update; intros c' Hl He Hn
  | |- wp getCurrentTime _ _ => apply wp_getCurrentTime
  | |- wp (if ?b then _ else _) _ _ => destruct b
  | |- wp (match ?o with _ => _ end) _ _ => destruct o
  end.

Ltac wp_unfold_prims :=
  unfold createGain, createStereoPanner, createBiquadFilter, createConvolver,
    createOscillator, createBufferSource, setValueM, scheduleM, setTypeM, setOscTypeM,
    setBufferM, startM, stopM, set_value, schedule.

(** After a walk, the equations of the intermediate contexts are
    substituted back to the first one. *)
Ltac wp_chain :=
  repeat match goal with
    | H : edges ?x = _ |- context [edges ?x] => rewrite H
    | H : length (nodes ?x) = _ |- context [length (nodes ?x)] => rewrite H
    end.

(** Connection sets are compared after flattening their unions. *)
Lemma es_empty_l (X : gset (nat * nat)) : ∅ ∪ X = X.
Proof. apply union_empty_l_L. Qed.
Lemma es_empty_r (X : gset (nat * nat)) : X ∪ ∅ = X.
Proof. apply union_empty_r_L. Qed.
Lemma es_assoc (X Y Z : gset (nat * nat)) : X ∪ (Y ∪ Z) = X ∪ Y ∪ Z.
Proof. apply union_assoc_L. Qed.

Ltac edges_norm := rewrite ?es_empty_l, ?es_empty_r, ?es_assoc.

Lemma wp_post {A} (m : WA A) (P : AudioContext -> Prop) c :
  wp m (fun _ c' => P c') c -> P (m c).2.
Proof. done. Qed.

(** [frame T c c']: every node of [c] outside [T] is unchanged in [c']. *)
Definition frame (T : list nat) (c c' : AudioContext) : Prop :=
  forall j, j < length (nodes c) -> j ∉ T -> node_at c' j = node_at c j.

Lemma frame_refl T c : frame T c c.
Proof. done. Qed.

Lemma frame_trans T T' c1 c2 c3 :
  length (nodes c1) <= length (nodes c2) ->
  frame T c1 c2 -> frame T' c2 c3 -> frame (T ++ T') c1 c3.
Proof.
  intros Hle H12 H23 j Hj HT. rewrite elem_of_app in HT.
  rewrite H23, H12; [done|lia|set_solver|lia|set_solver].
Qed.

(** A block whose lemma is [L] is passed over in a walk: its
    postcondition becomes hypotheses. *)
Ltac wp_block L :=
  lazymatch goal with |- wp (_ ≫= _) _ _ => apply wp_bind | _ => idtac end;
  eapply wp_mono; [apply L|]; intros ?;
  let c' := fresh "c" in let H := fresh "Hb" in intros c' H; cbv beta in H; destruct_and? H.

(** Reading a node after a walk: the node equations and the frames of the
    contexts are applied from the last one back, deciding each id
    comparison on the way so that the term never branches. *)
Ltac not_in_frame :=
  repeat first [apply not_elem_of_nil | rewrite not_elem_of_cons; split; [lia|]].

Ltac node_chain :=
  repeat (match goal with
          | H : forall j, node_at ?x j = _ |- context [node_at ?x _] => rewrite H
          | H : frame _ ?x ?y |- context [node_at ?y ?j] =>
              rewrite (H j); [|wp_chain; repeat case_match; lia|not_in_frame]
          end;
          wp_chain; rewrite ?Nat.add_succ_r, ?Nat.add_0_r;
          repeat first [rewrite decide_True by lia | rewrite decide_False by lia]).

(** [grows D c c']: [c'] only adds to [c]: new nodes after the old ones,
    the old nodes unchanged, the old connections kept, and every new
    connection leaving a new node towards a new node or a node of [D]. *)
Definition grows (D : list nat) (c c' : AudioContext) : Prop :=
  length (nodes c) <= length (nodes c') /\ frame [] c c' /\ edges c ⊆ edges c' /\
  forall a b, (a, b) ∈ edges c' -> (a, b) ∈ edges c \/
    (length (nodes c) <= a < length (nodes c') /\
     (length (nodes c) <= b < length (nodes c') \/ b ∈ D)).

Lemma grows_refl D c : grows D c c.
Proof. repeat split; auto. Qed.

Lemma grows_trans D c1 c2 c3 : grows D c1 c2 -> grows D c2 c3 -> grows D c1 c3.
Proof.
  intros (H12 & F12 & E12 & N12) (H23 & F23 & E23 & N23).
  split; [lia|]. split; [apply (frame_trans [] [] c1 c2 c3); auto|]. split; [set_solver|].
  intros a b [Hab|(Ha & [Hb|Hb])]%N23.
  - destruct (N12 a b Hab) as [?|(? & [?|?])]; [by left|right; split; [lia|left; lia]|].
    right. split; [lia|by right].
  - right. split; [lia|left; lia].
  - right. split; [lia|by right].
Qed.

Lemma grows_mono D D' c c' : D ⊆ D' -> grows D c c' -> grows D' c c'.
Proof.
  intros HD (H & F & E & N). do 3 (split; [done|]).
  intros a b [?|(? & [?|?])]%N; [by left|right; split; [lia|left; lia]|].
  right. split; [lia|right; set_solver].
Qed.

(** What a growth keeps: well-formedness when [D] exists, and the
    absence of input of an old node outside [D]. *)
Lemma grows_graph_wf D c c' :
  grows D c c' -> Forall (fun d => d < length (nodes c)) D -> graph_wf c -> graph_wf c'.
Proof.
  intros (H & _ & _ & N) HD Hwf a b [Hab|(? & [?|Hb])]%N.
  - apply Hwf in Hab. lia.
  - lia.
  - rewrite Forall_forall in HD. apply HD in Hb. lia.
Qed.

Lemma grows_no_input D c c' x :
  grows D c c' -> x < length (nodes c) -> x ∉ D ->
  set_Forall (fun e => e.2 <> x) (edges c) -> set_Forall (fun e => e.2 <> x) (edges c').
Proof.
  intros (_ & _ & _ & N) Hx HxD Hin [a b] [Hab|(? & [?|?])]%N; cbn.
  - apply (Hin (a, b) Hab).
  - lia.
  - intros ->. done.
Qed.

Lemma frame_param_value c c' id p :
  frame [] c c' -> id < length (nodes c) -> param_value c' id p = param_value c id p.
Proof. intros F Hid. unfold param_value. rewrite F; [done|done|set_solver]. Qed.

(** ** A context keeps its sample rate

    [keeps_rate m]: running [m] never changes [context.sampleRate]; it
    holds of every primitive and is closed under [bind], so the tactic
    [keeps_rate_solve] proves it of a whole program. *)
Definition keeps_rate {A} (m : WA A) : Prop := forall c, ctxSampleRate (m c).2 = ctxSampleRate c.

Lemma keeps_rate_ret {A} (a : A) : keeps_rate (mret a).
Proof. done. Qed.

Lemma keeps_rate_bind {A B} (m : WA A) (f : A -> WA B) :
  keeps_rate m -> (forall a, keeps_rate (f a)) -> keeps_rate (m ≫= f).
Proof.
  intros Hm Hf c. unfold mbind, WA_bind. specialize (Hm c).
  destruct (m c) as [a c']. cbn in *. by rewrite Hf.
Qed.

Lemma keeps_rate_create k : keeps_rate (create k).
Proof. done. Qed.

Lemma keeps_rate_connect a b : keeps_rate (connectM a b).
Proof. done. Qed.

Lemma keeps_rate_update id f : keeps_rate (wa_modify (update_node id f)).
Proof. done. Qed.

Lemma keeps_rate_getCurrentTime : keeps_rate getCurrentTime.
Proof. done. Qed.

#[export] Hint Resolve keeps_rate_ret keeps_rate_create keeps_rate_connect keeps_rate_update
  keeps_rate_getCurrentTime : djm.

Ltac keeps_rate_solve :=
  repeat first
    [ progress auto with djm
    | apply keeps_rate_bind; [|intros ?]
    | case_match ].

(** [keeps_time m]: running [m] never moves [context.currentTime]; only
    the host's clock ([advance_time]) does. *)
Definition keeps_time {A} (m : WA A) : Prop := forall c, currentTime (m c).2 = currentTime c.

Lemma keeps_time_ret {A} (a : A) : keeps_time (mret a).
Proof. done. Qed.

Lemma keeps_time_bind {A B} (m : WA A) (f : A -> WA B) :
  keeps_time m -> (forall a, keeps_time (f a)) -> keeps_time (m ≫= f).
Proof.
  intros Hm Hf c. unfold mbind, WA_bind. specialize (Hm c).
  destruct (m c) as [a c']. cbn in *. by rewrite Hf.
Qed.

Lemma keeps_time_create k : keeps_time (create k).
Proof. done. Qed.

Lemma keeps_time_connect a b : keeps_time (connectM a b).
Proof. done. Qed.

Lemma keeps_time_update id f : keeps_time (wa_modify (update_node id f)).
Proof. done. Qed.

Lemma keeps_time_getCurrentTime : keeps_time getCurrentTime.
Proof. done. Qed.

#[export] Hint Resolve keeps_time_ret keeps_time_create keeps_time_connect keeps_time_update
  keeps_time_getCurrentTime : djm.

Ltac keeps_time_solve :=
  repeat first
    [ progress auto with djm
    | apply keeps_time_bind; [|intros ?]
    | case_match ].

(** Membership of a connection in a union of connections. *)
Ltac edge_in :=
  solve [ repeat first
    [ assumption
    | apply elem_of_singleton; reflexivity
    | apply elem_of_union_l; edge_in
    | apply elem_of_union_r ] ].
