(* ===== verification/Track.v ===== *)
(** One sequencer lane: [class Track] of [src/src/audio/Track.js].  The
    step pattern is a JavaScript array of booleans: its indexed elements
    (a hole reads as [undefined], which every use in the program treats
    like [false], so holes are stored as [false]) and the properties at
    negative integer keys that an assignment [steps[i] = x] with [i < 0]
    creates.  The five routing nodes live in the shared audio context;
    the track holds their ids, as the JavaScript object holds references. *)

From S2P Require Import Prelude WebAudio.
From Stdlib Require Import QArith.
From stdpp Require Import gmap strings.

(** ** JavaScript arrays of booleans *)

Record JsArray := { elems : list bool; props : gmap Z bool }.

(** [new Array(n).fill(false)]. *)
Definition js_new_array (n : nat) : JsArray := {| elems := replicate n false; props := ∅ |}.

(** The truthiness of [a[i]]: [undefined] (out of range, absent key) is
    falsy. *)
Definition js_get (a : JsArray) (i : Z) : bool :=
  if (0 <=? i)%Z then default false (elems a !! Z.to_nat i)
  else default false (props a !! i).

(** [a[i] = v]: in range, an update; past the end, the array grows (the
    gap is holes); at a negative index, a property is created. *)
Definition js_set (a : JsArray) (i : Z) (v : bool) : JsArray :=
  if (0 <=? i)%Z then
    let n := Z.to_nat i in
    if decide (n < length (elems a)) then {| elems := <[n := v]> (elems a); props := props a |}
    else {| elems := elems a ++ replicate (n - length (elems a)) false ++ [v];
            props := props a |}
  else {| elems := elems a; props := <[i := v]> (props a) |}.

(** [a.fill(false)]: indexed elements only. *)
Definition js_fill_false (a : JsArray) : JsArray :=
  {| elems := replicate (length (elems a)) false; props := props a |}.

(** ** The track *)

Record TrackNodes := {
  gainNode : nat; pannerNode : nat; eqLowFilter : nat; eqHighFilter : nat;
  reverbSendGain : nat
}.

Record Track := {
  sound : string;
  _stepCount : nat;
  steps : JsArray;
  _volume : Q; _pan : Q; _reverbAmount : Q; _eqLow : Q; _eqHigh : Q;
  trackNodes : TrackNodes
}.

(** The constructor's [config] object. *)
Record TrackConfig := {
  cfgSound : string; cfgVolume : Q; cfgPan : Q; cfgReverbAmount : Q;
  cfgEqLow : Q; cfgEqHigh : Q; cfgStepCount : nat
}.

(** The five mixing parameters, each bound to one node parameter. *)
Inductive TrackParam := TVolume | TPan | TReverbAmount | TEqLow | TEqHigh.

#[export] Instance TrackParam_eq_dec : EqDecision TrackParam.
Proof. solve_decision. Defined.

Definition tparam (p : TrackParam) (t : Track) : Q :=
  match p with
  | TVolume => _volume t | TPan => _pan t | TReverbAmount => _reverbAmount t
  | TEqLow => _eqLow t | TEqHigh => _eqHigh t
  end.

(** Which node parameter each setter writes ([this.gainNode.gain] etc.). *)
Definition tparam_node (p : TrackParam) (n : TrackNodes) : nat * ParamName :=
  match p with
  | TVolume => (gainNode n, PGain) | TPan => (pannerNode n, PPan)
  | TReverbAmount => (reverbSendGain n, PGain)
  | TEqLow => (eqLowFilter n, PGain) | TEqHigh => (eqHighFilter n, PGain)
  end.

Definition with_tparam (p : TrackParam) (v : Q) (t : Track) : Track :=
  let g r := if decide (r = p) then v else tparam r t in
  {| sound := sound t; _stepCount := _stepCount t; steps := steps t;
     _volume := g TVolume; _pan := g TPan; _reverbAmount := g TReverbAmount;
     _eqLow := g TEqLow; _eqHigh := g TEqHigh; trackNodes := trackNodes t |}.

Definition with_steps (n : nat) (a : JsArray) (t : Track) : Track :=
  {| sound := sound t; _stepCount := n; steps := a;
     _volume := _volume t; _pan := _pan t; _reverbAmount := _reverbAmount t;
     _eqLow := _eqLow t; _eqHigh := _eqHigh t; trackNodes := trackNodes t |}.

Definition with_sound (s : string) (t : Track) : Track :=
  {| sound := s; _stepCount := _stepCount t; steps := steps t;
     _volume := _volume t; _pan := _pan t; _reverbAmount := _reverbAmount t;
     _eqLow := _eqLow t; _eqHigh := _eqHigh t; trackNodes := trackNodes t |}.

(** A setter: [this._p = value; this.<node>.<param>.value = value]. *)
Definition set_tparam (p : TrackParam) (value : Q) (t : Track) : WA Track :=
  let '(id, ap) := tparam_node p (trackNodes t) in
  setValueM id ap value;; mret (with_tparam p value t).

Definition setVolume (value : Q) (t : Track) : WA Track := set_tparam TVolume value t.
Definition setPan (value : Q) (t : Track) : WA Track := set_tparam TPan value t.
Definition setReverbAmount (value : Q) (t : Track) : WA Track :=
  set_tparam TReverbAmount value t.
Definition setEqLow (value : Q) (t : Track) : WA Track := set_tparam TEqLow value t.
Definition setEqHigh (value : Q) (t : Track) : WA Track := set_tparam TEqHigh value t.

(** [constructor(audioContext, config)]. *)
Definition new_Track (config : TrackConfig) : WA Track :=
  gainNode ← createGain;
  pannerNode ← createStereoPanner;
  eqLowFilter ← createBiquadFilter;
  eqHighFilter ← createBiquadFilter;
  reverbSendGain ← createGain;
  setTypeM eqLowFilter Lowshelf;;
  setValueM eqLowFilter PFrequency 250;;
  setTypeM eqHighFilter Highshelf;;
  setValueM eqHighFilter PFrequency 4000;;
  connectM eqLowFilter eqHighFilter;;
  connectM eqHighFilter pannerNode;;
  connectM pannerNode gainNode;;
  let t := {| sound := cfgSound config; _stepCount := cfgStepCount config;
              steps := js_new_array (cfgStepCount config);
              _volume := cfgVolume config; _pan := cfgPan config;
              _reverbAmount := cfgReverbAmount config;
              _eqLow := cfgEqLow config; _eqHigh := cfgEqHigh config;
              trackNodes := {| gainNode := gainNode; pannerNode := pannerNode;
                               eqLowFilter := eqLowFilter; eqHighFilter := eqHighFilter;
                               reverbSendGain := reverbSendGain |} |} in
  t ← setVolume (_volume t) t;
  t ← setPan (_pan t) t;
  t ← setReverbAmount (_reverbAmount t) t;
  t ← setEqLow (_eqLow t) t;
  setEqHigh (_eqHigh t) t.

(** [setStepCount(newCount)]: a fresh zero-filled array, then the loop
    [for (i = 0; i < Math.min(oldSteps.length, newCount); i++)
       this.steps[i] = oldSteps[i]]. *)
Definition copy_steps (oldSteps : list bool) (newCount : nat) (a : JsArray) : JsArray :=
  fold_left (fun a i => js_set a (Z.of_nat i) (default false (oldSteps !! i)))
    (seq 0 (Nat.min (length oldSteps) newCount)) a.

Definition setStepCount (newCount : nat) (t : Track) : Track :=
  if decide (newCount <> _stepCount t) then
    let oldSteps := elems (steps t) in
    with_steps newCount (copy_steps oldSteps newCount (js_new_array newCount)) t
  else t.

(** [getInputNode()], [getOutputNode()], [getReverbSendInputNode()],
    [getReverbSendNode()]. *)
Definition getInputNode (t : Track) : nat := eqLowFilter (trackNodes t).
Definition getOutputNode (t : Track) : nat := gainNode (trackNodes t).
Definition getReverbSendInputNode (t : Track) : nat := gainNode (trackNodes t).
Definition getReverbSendNode (t : Track) : nat := reverbSendGain (trackNodes t).

(** The step a track plays at global step [g]:
    [track.steps[g % track.stepCount]]; with a step count of 0 the index
    is [NaN] and the read is [undefined]. *)
Definition step_at (t : Track) (g : nat) : bool :=
  match _stepCount t with
  | O => false
  | n => js_get (steps t) (Z.of_nat (g mod n))
  end.

(** The invariant of the class: the indexed part of the pattern has
    exactly [stepCount] elements. *)
Definition track_wf (t : Track) : Prop := length (elems (steps t)) = _stepCount t.

(** ** JavaScript array lemmas *)

Lemma js_get_set_eq a i v : js_get (js_set a i v) i = v.
Proof.
  unfold js_get, js_set. destruct (Z.leb_spec 0 i); simpl.
  - case_decide; simpl.
    + by rewrite list_lookup_insert_eq.
    + rewrite lookup_app_r by lia. rewrite lookup_app_r; rewrite length_replicate; [|lia].
      by replace (Z.to_nat i - length (elems a) - (Z.to_nat i - length (elems a))) with 0 by lia.
  - by rewrite lookup_insert_eq.
Qed.

Lemma js_get_set_ne a i j v : i <> j -> js_get (js_set a i v) j = js_get a j.
Proof.
  intros Hij. unfold js_get, js_set.
  destruct (Z.leb_spec 0 i) as [Hi|Hi]; cbn iota.
  - destruct (Z.leb_spec 0 j) as [Hj|Hj]; cbn iota; [|by case_decide].
    case_decide as Hlt; simpl.
    + rewrite list_lookup_insert_ne by lia. done.
    + destruct (decide (Z.to_nat j < length (elems a))).
      * by rewrite lookup_app_l.
      * rewrite lookup_app_r by lia. rewrite (lookup_ge_None_2 (elems a)) by lia.
        destruct (decide (Z.to_nat j - length (elems a) < Z.to_nat i - length (elems a))).
        -- rewrite lookup_app_l by (rewrite length_replicate; lia).
           by rewrite lookup_replicate_2 by lia.
        -- rewrite lookup_app_r by (rewrite length_replicate; lia).
           rewrite lookup_ge_None_2; [done|]. simpl. rewrite length_replicate. lia.
  - destruct (Z.leb_spec 0 j); simpl; [done|]. by rewrite lookup_insert_ne.
Qed.

Lemma length_js_set_in a i v :
  (0 <= i)%Z -> Z.to_nat i < length (elems a) -> length (elems (js_set a i v)) = length (elems a).
Proof.
  intros H1 H2. unfold js_set. destruct (Z.leb_spec 0 i); [|lia].
  rewrite decide_True by done. apply length_insert.
Qed.

Lemma js_set_in_range a i v :
  i < length (elems a) ->
  js_set a (Z.of_nat i) v = {| elems := <[i := v]> (elems a); props := props a |}.
Proof.
  intros H. unfold js_set. destruct (Z.leb_spec 0 (Z.of_nat i)); [|lia].
  rewrite Nat2Z.id, decide_True by done. done.
Qed.

Lemma js_get_in_range a i :
  js_get a (Z.of_nat i) = default false (elems a !! i).
Proof.
  unfold js_get. destruct (Z.leb_spec 0 (Z.of_nat i)); [|lia]. by rewrite Nat2Z.id.
Qed.

(** Writing back the value an in-range index held restores the array. *)
Lemma js_set_restore a i v :
  (0 <= i)%Z -> Z.to_nat i < length (elems a) ->
  js_set (js_set a i v) i (js_get a i) = a.
Proof.
  intros H0 Hlt. unfold js_get, js_set. destruct (Z.leb_spec 0 i); [|lia]. cbn.
  rewrite (decide_True _ _ Hlt). cbn. rewrite length_insert, (decide_True _ _ Hlt). cbn.
  destruct (lookup_lt_is_Some_2 (elems a) (Z.to_nat i) Hlt) as [x Hx]. rewrite Hx. cbn.
  rewrite list_insert_insert_eq, list_insert_id by done. by destruct a.
Qed.

(** A write at a negative index leaves the indexed elements alone. *)
Lemma elems_js_set_neg a i v : (i < 0)%Z -> elems (js_set a i v) = elems a.
Proof. intros H. unfold js_set. by destruct (Z.leb_spec 0 i); [lia|]. Qed.

(** ** [setStepCount] *)

(** The copy loop, started on the fresh array, leaves the overlap of the
    old pattern followed by the zero fill. *)
Lemma copy_steps_spec oldSteps newCount :
  copy_steps oldSteps newCount (js_new_array newCount) =
  {| elems := take newCount oldSteps ++ replicate (newCount - length oldSteps) false;
     props := ∅ |}.
Proof.
  unfold copy_steps.
  set (m := Nat.min (length oldSteps) newCount).
  assert (Hk : forall k, k <= m ->
    fold_left (fun a i => js_set a (Z.of_nat i) (default false (oldSteps !! i)))
      (seq 0 k) (js_new_array newCount) =
    {| elems := take k oldSteps ++ replicate (newCount - k) false; props := ∅ |}).
  { induction k as [|k IH]; intros Hk; [by rewrite Nat.sub_0_r|].
    rewrite seq_S, fold_left_app, IH by lia. simpl.
    rewrite js_set_in_range by (simpl; rewrite length_app, length_take, length_replicate; lia).
    simpl. f_equal.
    destruct (lookup_lt_is_Some_2 oldSteps k) as [x Hx]; [lia|]. rewrite Hx. simpl.
    rewrite insert_app_r_alt by (rewrite length_take; lia).
    rewrite length_take, Nat.min_l by lia. rewrite Nat.sub_diag.
    replace (newCount - k) with (S (newCount - S k)) by lia. simpl.
    rewrite (take_S_r _ _ x Hx), <- app_assoc. done. }
  rewrite Hk by done. f_equal. unfold m.
  destruct (Nat.le_ge_cases (length oldSteps) newCount).
  - rewrite Nat.min_l by done. rewrite !take_ge by lia. done.
  - rewrite Nat.min_r by done. do 2 f_equal. lia.
Qed.

Lemma setStepCount_wf n t : track_wf t -> track_wf (setStepCount n t).
Proof.
  unfold track_wf, setStepCount. intros H. case_decide; [|done].
  simpl. rewrite copy_steps_spec. simpl.
  rewrite length_app, length_take, length_replicate. lia.
Qed.

(** ** Setters and the node parameters *)

(** Each of the five mixing parameters equals the value of the node
    parameter its setter writes. *)
Definition synced_param (c : AudioContext) (t : Track) (p : TrackParam) : Prop :=
  let '(id, ap) := tparam_node p (trackNodes t) in param_value c id ap = Some (tparam p t).

Definition track_synced (c : AudioContext) (t : Track) : Prop :=
  forall p, synced_param c t p.

Definition node_ids (n : TrackNodes) : list nat :=
  [gainNode n; pannerNode n; eqLowFilter n; eqHighFilter n; reverbSendGain n].

Definition nodes_distinct (n : TrackNodes) : Prop := NoDup (node_ids n).

Lemma tparam_with p p' v t :
  tparam p' (with_tparam p v t) = if decide (p' = p) then v else tparam p' t.
Proof. by destruct p'. Qed.

Lemma trackNodes_with_tparam p v t : trackNodes (with_tparam p v t) = trackNodes t.
Proof. done. Qed.

Lemma set_tparam_run p v t c :
  set_tparam p v t c =
  (with_tparam p v t,
   set_value (tparam_node p (trackNodes t)).1 (tparam_node p (trackNodes t)).2 v c).
Proof. unfold set_tparam. by destruct (tparam_node p (trackNodes t)). Qed.

(** Distinct nodes carry distinct parameters. *)
Lemma tparam_node_inj n p p' :
  nodes_distinct n -> tparam_node p n = tparam_node p' n -> p = p'.
Proof.
  unfold nodes_distinct, node_ids. intros Hd.
  rewrite !NoDup_cons in Hd. destruct Hd as (H1 & H2 & H3 & H4 & _).
  destruct p, p'; simpl; intros [=]; try done; set_solver.
Qed.

(** A setter makes its parameter synced and keeps the others synced. *)
Lemma set_tparam_synced p v t c :
  nodes_distinct (trackNodes t) ->
  Forall (fun id => id < length (nodes c)) (node_ids (trackNodes t)) ->
  (forall p', p' <> p -> synced_param c t p') ->
  track_synced (set_tparam p v t c).2 (set_tparam p v t c).1.
Proof.
  intros Hd Hex Hsync p'. rewrite set_tparam_run. unfold synced_param. simpl.
  rewrite tparam_with.
  destruct (decide (p' = p)) as [->|Hne].
  - destruct (tparam_node p (trackNodes t)) as [id ap] eqn:E. simpl.
    apply param_value_set_same.
    unfold node_ids in Hex. rewrite !Forall_cons in Hex.
    destruct p; simpl in E; injection E as <- <-; tauto.
  - specialize (Hsync p' Hne). unfold synced_param in Hsync.
    destruct (tparam_node p' (trackNodes t)) as [id ap] eqn:E.
    rewrite param_value_set_other; [done|].
    intros Heq. apply Hne, (tparam_node_inj (trackNodes t)); [done|].
    rewrite E, Heq. by destruct (tparam_node p (trackNodes t)).
Qed.

Definition cfg_tparam (p : TrackParam) (config : TrackConfig) : Q :=
  match p with
  | TVolume => cfgVolume config | TPan => cfgPan config
  | TReverbAmount => cfgReverbAmount config
  | TEqLow => cfgEqLow config | TEqHigh => cfgEqHigh config
  end.

(** Rewrites a parameter read through a chain of later writes to other
    parameters, down to the write of that parameter. *)
Ltac param_read :=
  repeat (rewrite param_value_set_other by (intros [=]; lia));
  apply param_value_set_same; autorewrite with djm_rw; cbn [nodes];
  rewrite ?length_app; cbn [length]; lia.

Lemma new_Track_run config c :
  let base := length (nodes c) in
  let '(t, c') := new_Track config c in
  trackNodes t = {| gainNode := base; pannerNode := base + 1; eqLowFilter := base + 2;
                    eqHighFilter := base + 3; reverbSendGain := base + 4 |} /\
  length (nodes c') = base + 5 /\
  edges c' = {[(base + 2, base + 3); (base + 3, base + 1); (base + 1, base)]} ∪ edges c /\
  sound t = cfgSound config /\ _stepCount t = cfgStepCount config /\
  steps t = js_new_array (cfgStepCount config) /\
  (forall p, tparam p t = cfg_tparam p config) /\ track_synced c' t.
Proof.
  unfold new_Track, setVolume, setPan, setReverbAmount, setEqLow, setEqHigh, set_tparam.
  wa_unfold_core.
  cbn -[alter set_value update_node schedule connect new_node length app with_tparam].
  rewrite !length_app. cbn [length].
  replace (length (nodes c) + 1 + 1) with (length (nodes c) + 2) by lia.
  replace (length (nodes c) + 2 + 1) with (length (nodes c) + 3) by lia.
  replace (length (nodes c) + 3 + 1) with (length (nodes c) + 4) by lia.
  split; [done|]. split.
  { autorewrite with djm_rw. cbn [nodes]. rewrite !length_app. cbn [length]. lia. }
  split; [autorewrite with djm_rw; cbn [edges]; set_solver|].
  do 3 (split; [done|]). split; [by intros []|].
  intros p. unfold synced_param. rewrite !trackNodes_with_tparam.
  destruct p; cbn [tparam_node trackNodes gainNode pannerNode eqLowFilter
    eqHighFilter reverbSendGain]; param_read.
Qed.

(** An example configuration: the engine's first default track. *)
Definition example_config : TrackConfig := {|
  cfgSound := "kick-01"; cfgVolume := 4 # 5; cfgPan := 0; cfgReverbAmount := 0;
  cfgEqLow := 0; cfgEqHigh := 0; cfgStepCount := 16 |}.

(** ** Properties of the track *)

(** C30 (functional): [setStepCount(n)] on a well-formed track leaves a
    pattern of exactly [n] steps whose first [min(old, n)] steps are the
    old ones and whose added steps [old .. n-1] are off, with the step
    count updated and the sound, the mixing parameters and the nodes
    untouched. *)
Theorem setStepCount_spec n t :
  track_wf t ->
  let t' := setStepCount n t in
  _stepCount t' = n /\ track_wf t' /\
  (forall i, i < Nat.min (_stepCount t) n -> elems (steps t') !! i = elems (steps t) !! i) /\
  (forall i, _stepCount t <= i < n -> elems (steps t') !! i = Some false) /\
  sound t' = sound t /\ trackNodes t' = trackNodes t /\
  (forall p, tparam p t' = tparam p t).
Proof.
  intros Hwf. cbv zeta. split; [|split; [by apply setStepCount_wf|]].
  { unfold setStepCount. case_decide; simpl; lia. }
  unfold setStepCount, track_wf in *. case_decide as Hne; [|].
  - cbn [with_steps elems steps sound trackNodes]. rewrite copy_steps_spec. cbn [elems].
    split; [|split; [|split; [done|split; [done|by intros []]]]].
    + intros i Hi. rewrite lookup_app_l by (rewrite length_take; lia).
      rewrite lookup_take_lt by lia. done.
    + intros i Hi. rewrite lookup_app_r by (rewrite length_take; lia).
      rewrite lookup_replicate_2; [done|]. rewrite length_take. lia.
  - subst n.
    split; [done|]. split; [intros; lia|]. done.
Qed.

Lemma setStepCount_spec_witness :
  let t := with_steps 4 {| elems := [true; false; true; true]; props := ∅ |}
             (new_Track example_config (new_context 44100)).1 in
  track_wf t /\
  (let t' := setStepCount 8 t in
   _stepCount t' = 8 /\ track_wf t' /\
   (forall i, i < Nat.min (_stepCount t) 8 -> elems (steps t') !! i = elems (steps t) !! i) /\
   (forall i, _stepCount t <= i < 8 -> elems (steps t') !! i = Some false) /\
   sound t' = sound t /\ trackNodes t' = trackNodes t /\
   (forall p, tparam p t' = tparam p t)).
Proof.
  cbv zeta. split; [reflexivity|]. apply setStepCount_spec. reflexivity.
Defined.

(** The constructor creates five fresh nodes,
    applies every mixing parameter of the configuration to its node and
    starts with [stepCount] steps off; its only connections are
    EQ-low -> EQ-high -> panner -> gain.  In particular nothing feeds the
    reverb-send gain node (its input is left unconnected) and the track
    gain has no outgoing connection yet. *)
Theorem new_Track_wiring config c :
  graph_wf c ->
  let '(t, c') := new_Track config c in
  let n := trackNodes t in
  nodes_distinct n /\ track_wf t /\ track_synced c' t /\ graph_wf c' /\
  (forall p, tparam p t = cfg_tparam p config) /\
  reaches (edges c') (eqLowFilter n) (gainNode n) /\
  (forall x, reaches (edges c') x (reverbSendGain n) -> x = reverbSendGain n) /\
  (forall y, reaches (edges c') (gainNode n) y -> y = gainNode n).
Proof.
  intros Hwf. pose proof (new_Track_run config c) as Hrun.
  destruct (new_Track config c) as [t c'].
  destruct Hrun as (Hn & Hlen & He & _ & Hsc & Hsteps & Hpar & Hsync).
  cbv zeta. rewrite Hn. cbn [gainNode pannerNode eqLowFilter eqHighFilter reverbSendGain].
  set (base := length (nodes c)) in *.
  split; [unfold nodes_distinct, node_ids; simpl; rewrite !NoDup_cons;
          repeat split; try set_solver; try apply NoDup_nil_2; set_solver by lia|].
  split; [unfold track_wf; rewrite Hsteps, Hsc; simpl; apply length_replicate|].
  split; [done|].
  split; [intros a b; rewrite He, Hlen; intros [Hab|Hab]%elem_of_union;
          [set_solver by lia|apply Hwf in Hab; lia]|].
  split; [done|].
  split; [rewrite He; apply (reaches_step _ _ (base + 3)); [set_solver|];
          apply (reaches_step _ _ (base + 1)); [set_solver|];
          apply (reaches_step _ _ base); [set_solver|constructor]|].
  split.
  - intros x. apply reaches_no_input. intros a. rewrite He. intros [Hab|Hab]%elem_of_union.
    + set_solver by lia.
    + apply Hwf in Hab. lia.
  - intros y. apply reaches_no_output. intros b. rewrite He. intros [Hab|Hab]%elem_of_union.
    + set_solver by lia.
    + apply Hwf in Hab. lia.
Qed.

Lemma graph_wf_new_context sr : graph_wf (new_context sr).
Proof. intros a b Hab. set_solver. Qed.

Lemma new_Track_wiring_witness :
  graph_wf (new_context 44100) /\
  (let '(t, c') := new_Track example_config (new_context 44100) in
   let n := trackNodes t in
   nodes_distinct n /\ track_wf t /\ track_synced c' t /\ graph_wf c' /\
   (forall p, tparam p t = cfg_tparam p example_config) /\
   reaches (edges c') (eqLowFilter n) (gainNode n) /\
   (forall x, reaches (edges c') x (reverbSendGain n) -> x = reverbSendGain n) /\
   (forall y, reaches (edges c') (gainNode n) y -> y = gainNode n)).
Proof.
  split; [apply graph_wf_new_context|].
  apply new_Track_wiring, graph_wf_new_context.
Defined.
