(* ===== verification/SoundCatalog.v ===== *)
(** The sound catalog, [SAMPLE_DEFINITIONS] of
    [src/src/audio/SampleDefinitions.js]: a constant object from sound
    names to synthesis parameters.  An absent optional field is [None];
    the catalog is an association list because the program enumerates
    the names in insertion order ([Object.keys]).  [samples_get] reads a
    name on the engine's plain object [this.samples], which also has the
    members of [Object.prototype]. *)

From S2P Require Import Prelude WebAudio.
From Stdlib Require Import QArith.
From stdpp Require Import strings.

Local Open Scope Q_scope.

Module SampleConfig.
Record t := {
  category : string;
  freq : Q;
  type : OscType;
  duration : option Q;
  gain : Q;
  attack : option Q;
  decay : option Q;
  sustain : option Q;
  release : option Q;
  noise : bool;
  noiseGain : option Q;
  filterType : option BiquadType;
  filterFreq : option Q;
  filterQ : option Q;
  sweep : option (Q * Q)        (** [{ start, end }] *)
}.
End SampleConfig.

(** A definition with the fields the catalog leaves out absent. *)
Definition sound (category : string) (freq : Q) (type : OscType) (duration gain attack decay : Q)
  : SampleConfig.t := {|
  SampleConfig.category := category; SampleConfig.freq := freq; SampleConfig.type := type;
  SampleConfig.duration := Some duration; SampleConfig.gain := gain;
  SampleConfig.attack := Some attack; SampleConfig.decay := Some decay;
  SampleConfig.sustain := None; SampleConfig.release := None; SampleConfig.noise := false;
  SampleConfig.noiseGain := None; SampleConfig.filterType := None;
  SampleConfig.filterFreq := None; SampleConfig.filterQ := None; SampleConfig.sweep := None |}.

Definition with_noise (noiseGain : Q) (ft : option BiquadType) (ff fq : option Q)
    (c : SampleConfig.t) : SampleConfig.t := {|
  SampleConfig.category := SampleConfig.category c; SampleConfig.freq := SampleConfig.freq c;
  SampleConfig.type := SampleConfig.type c; SampleConfig.duration := SampleConfig.duration c;
  SampleConfig.gain := SampleConfig.gain c; SampleConfig.attack := SampleConfig.attack c;
  SampleConfig.decay := SampleConfig.decay c; SampleConfig.sustain := SampleConfig.sustain c;
  SampleConfig.release := SampleConfig.release c; SampleConfig.noise := true;
  SampleConfig.noiseGain := Some noiseGain; SampleConfig.filterType := ft;
  SampleConfig.filterFreq := ff; SampleConfig.filterQ := fq;
  SampleConfig.sweep := SampleConfig.sweep c |}.

Definition with_sustain (s : Q) (c : SampleConfig.t) : SampleConfig.t := {|
  SampleConfig.category := SampleConfig.category c; SampleConfig.freq := SampleConfig.freq c;
  SampleConfig.type := SampleConfig.type c; SampleConfig.duration := SampleConfig.duration c;
  SampleConfig.gain := SampleConfig.gain c; SampleConfig.attack := SampleConfig.attack c;
  SampleConfig.decay := SampleConfig.decay c; SampleConfig.sustain := Some s;
  SampleConfig.release := SampleConfig.release c; SampleConfig.noise := SampleConfig.noise c;
  SampleConfig.noiseGain := SampleConfig.noiseGain c;
  SampleConfig.filterType := SampleConfig.filterType c;
  SampleConfig.filterFreq := SampleConfig.filterFreq c;
  SampleConfig.filterQ := SampleConfig.filterQ c; SampleConfig.sweep := SampleConfig.sweep c |}.

Definition with_sweep (start end_ : Q) (c : SampleConfig.t) : SampleConfig.t := {|
  SampleConfig.category := SampleConfig.category c; SampleConfig.freq := SampleConfig.freq c;
  SampleConfig.type := SampleConfig.type c; SampleConfig.duration := SampleConfig.duration c;
  SampleConfig.gain := SampleConfig.gain c; SampleConfig.attack := SampleConfig.attack c;
  SampleConfig.decay := SampleConfig.decay c; SampleConfig.sustain := SampleConfig.sustain c;
  SampleConfig.release := SampleConfig.release c; SampleConfig.noise := SampleConfig.noise c;
  SampleConfig.noiseGain := SampleConfig.noiseGain c;
  SampleConfig.filterType := SampleConfig.filterType c;
  SampleConfig.filterFreq := SampleConfig.filterFreq c;
  SampleConfig.filterQ := SampleConfig.filterQ c; SampleConfig.sweep := Some (start, end_) |}.

Definition SAMPLE_DEFINITIONS : list (string * SampleConfig.t) := [
  ("kick-01", sound "drums" 60 Sine 0.5 0.8 0.005 0.3);
  ("kick-02", sound "drums" 50 Triangle 0.7 0.9 0.01 0.4);
  ("snare-01", with_noise 0.4 None (Some 1500) (Some 1)
                 (sound "drums" 200 Sawtooth 0.2 0.6 0.001 0.15));
  ("snare-02", with_noise 0.5 None (Some 1000) (Some 0.5)
                 (sound "drums" 150 Square 0.3 0.7 0.002 0.2));
  ("clap-01", with_noise 0.6 (Some Bandpass) (Some 800) (Some 2)
                (sound "drums" 1000 Square 0.15 0.5 0.001 0.1));
  ("clap-02", with_noise 0.7 (Some Bandpass) (Some 1000) (Some 1.5)
                (sound "drums" 1200 Triangle 0.2 0.4 0.005 0.15));
  ("hihat-01", with_noise 0.8 (Some Highpass) (Some 5000) None
                 (sound "drums" 8000 Sawtooth 0.1 0.3 0.001 0.05));
  ("hihat-02", with_noise 0.7 (Some Highpass) (Some 6000) None
                 (sound "drums" 9000 Square 0.15 0.25 0.002 0.07));
  ("perc-01", sound "drums" 400 Triangle 0.3 0.4 0.005 0.2);
  ("perc-02", sound "drums" 800 Sine 0.25 0.35 0.002 0.15);
  ("bass-01", with_sustain 0.6 (sound "synths" 80 Square 0.8 0.7 0.01 0.5));
  ("bass-02", with_sustain 0.5 (sound "synths" 60 Sawtooth 1.0 0.75 0.05 0.7));
  ("synth-01", with_sustain 0.7 (sound "synths" 440 Triangle 1.0 0.5 0.1 0.5));
  ("synth-02", with_sustain 0.8 (sound "synths" 520 Sine 1.2 0.45 0.05 0.6));
  ("fx-01", with_sweep 1200 100 (sound "fx" 1200 Sine 0.7 0.4 0.01 0.6));
  ("fx-02", with_sweep 200 1500 (sound "fx" 200 Sawtooth 0.8 0.35 0.05 0.7))
].

(** The own property [name] of [this.samples] after [loadSamples]: the
    first entry of that name.  [samples_get] below adds what the object
    inherits. *)
Fixpoint lookup_sample (samples : list (string * SampleConfig.t)) (name : string)
  : option SampleConfig.t :=
  match samples with
  | [] => None
  | (k, v) :: rest => if String.eqb k name then Some v else lookup_sample rest name
  end.

(** [loadSamples]: [for (const [name, config] of Object.entries(SAMPLE_DEFINITIONS))
    this.samples[name] = config], on the initially empty object. *)
Definition loadSamples : list (string * SampleConfig.t) := SAMPLE_DEFINITIONS.

(** [getSampleNames()]: [Object.keys(this.samples)]. *)
Definition getSampleNames (samples : list (string * SampleConfig.t)) : list string :=
  map fst samples.

(** The properties an ordinary object such as [this.samples = {}]
    inherits from [Object.prototype]: reading [this.samples[name]] for one
    of these names gives a function (or, for [__proto__], the prototype
    itself), a truthy value, where any other name that is not an own key
    gives [undefined]. *)
Definition object_prototype_names : list string :=
  ["constructor"; "__defineGetter__"; "__defineSetter__"; "hasOwnProperty";
   "__lookupGetter__"; "__lookupSetter__"; "isPrototypeOf"; "propertyIsEnumerable";
   "toString"; "valueOf"; "__proto__"; "toLocaleString"].

Definition inherited_name (name : string) : bool :=
  existsb (String.eqb name) object_prototype_names.

(** A truthy value of [this.samples[name]]: a configuration the engine
    stored, or a member of [Object.prototype] on which every field the
    voice reads ([attack], [gain], ...) is [undefined]. *)
Inductive SampleRef :=
| Own (config : SampleConfig.t)
| Inherited.

(** [this.samples[name]], with [None] for [undefined] (lines 199, 230
    and 322 of [src/audio-engine.js] test it with [if]). *)
Definition samples_get (samples : list (string * SampleConfig.t)) (name : string)
  : option SampleRef :=
  match lookup_sample samples name with
  | Some config => Some (Own config)
  | None => if inherited_name name then Some Inherited else None
  end.

Lemma samples_get_own samples name config :
  lookup_sample samples name = Some config -> samples_get samples name = Some (Own config).
Proof. unfold samples_get. by intros ->. Qed.

Lemma samples_get_not_inherited samples name :
  inherited_name name = false -> samples_get samples name = Own <$> lookup_sample samples name.
Proof. unfold samples_get. intros H. destruct (lookup_sample samples name); by rewrite ?H. Qed.

Lemma samples_get_Inherited samples name :
  samples_get samples name = Some Inherited ->
  lookup_sample samples name = None /\ inherited_name name = true.
Proof. unfold samples_get. destruct (lookup_sample _ _), (inherited_name name); by intros. Qed.
