(* ===== verification/SampleGenerator.v ===== *)
(** The voice builder, [class SampleGenerator] of
    [src/src/audio/SampleGenerator.js].  [createSynthSamplePlayer(config,
    baseVolume, destinationNode, reverbSendNode)] returns an object whose
    [play] and [playAtTime] build one voice: an oscillator through a
    biquad filter into an ADSR gain stage, an optional noise source mixed
    into the same stage, the stage connected to the destination and to
    the reverb send when they are given.  The two methods differ only in
    their start time ([audioContext.currentTime] or the given time);
    [play_voice] is their common body, [play_js] adds the two calls that
    throw (lines 31-32 and 98-99) and the flag of completion, and
    [play]/[playAtTime] are the two entry points.  The noise samples come from [Math.random], given here
    as an input stream. *)

From S2P Require Import Prelude JsNumber WebAudio SoundCatalog.
From Stdlib Require Import QArith Lqa.
From stdpp Require Import strings gmap sets.

Local Open Scope Q_scope.
Local Open Scope djm_scope.

(** [createNoiseBuffer(duration)]: [bufferSize = sampleRate * duration]
    samples (the buffer length is the truncation; the loop's extra writes
    past it are dropped by the typed array), each [Math.random() * 2 - 1]. *)
Definition createNoiseBuffer (random : nat -> Q) (sampleRate : Z) (duration : Q) : list Q :=
  map (fun i => random i * 2 - 1) (seq 0 (Z.to_nat (trunc (inject_Z sampleRate * duration)))).

(** The ADSR times of a definition, with the [||] defaults of the code. *)
Definition attackTime (config : SampleConfig.t) : Q := SampleConfig.attack config || 0.01.
Definition decayTime (config : SampleConfig.t) : Q := SampleConfig.decay config || 0.1.
Definition releaseTime (config : SampleConfig.t) : Q := SampleConfig.release config || 0.1.
Definition totalDuration (config : SampleConfig.t) : Q :=
  SampleConfig.duration config || (attackTime config + decayTime config + releaseTime config).
Definition sustainValue (config : SampleConfig.t) (volume : Q) : Q :=
  match SampleConfig.sustain config with
  | Some s => s * volume * SampleConfig.gain config
  | None => 0.01
  end.

(** The filter of a voice: the definition's type (default lowpass),
    frequency (default 20000) and Q (default 1), and, without a type, a
    highpass at [filterFreq || 2000] above 2000 Hz or a lowpass at
    [filterFreq || 800] below 150 Hz. *)
Definition setup_filter (config : SampleConfig.t) (sampleFilter : nat) : WA unit :=
  setTypeM sampleFilter (default Lowpass (SampleConfig.filterType config));;
  setValueM sampleFilter PFrequency (SampleConfig.filterFreq config || 20000);;
  setValueM sampleFilter PQ (SampleConfig.filterQ config || 1);;
  if bool_decide (SampleConfig.filterType config = None) && Qltb 2000 (SampleConfig.freq config)
  then setTypeM sampleFilter Highpass;;
       setValueM sampleFilter PFrequency (SampleConfig.filterFreq config || 2000)
  else if bool_decide (SampleConfig.filterType config = None)
          && Qltb (SampleConfig.freq config) 150
  then setTypeM sampleFilter Lowpass;;
       setValueM sampleFilter PFrequency (SampleConfig.filterFreq config || 800)
  else mret tt.

(** [gainNode.gain.setValueAtTime(0, now)] and the three linear ramps. *)
Definition envelope_block (config : SampleConfig.t) (now volume : Q) (gainNode : nat)
  : WA unit :=
  scheduleM gainNode PGain (SetValueAtTime 0 now);;
  scheduleM gainNode PGain
    (LinearRampToValueAtTime (volume * SampleConfig.gain config) (now + attackTime config));;
  scheduleM gainNode PGain
    (LinearRampToValueAtTime (sustainValue config volume)
       (now + attackTime config + decayTime config));;
  scheduleM gainNode PGain (LinearRampToValueAtTime 0.0001 (now + totalDuration config)).

(** Waveform, frequency and the optional exponential sweep. *)
Definition oscillator_block (config : SampleConfig.t) (now : Q) (oscillator : nat) : WA unit :=
  setOscTypeM oscillator (SampleConfig.type config);;
  setValueM oscillator PFrequency (SampleConfig.freq config);;
  match SampleConfig.sweep config with
  | Some (start, end_) =>
      scheduleM oscillator PFrequency (SetValueAtTime start now);;
      scheduleM oscillator PFrequency
        (ExponentialRampToValueAtTime end_ (now + totalDuration config))
  | None => mret tt
  end.

(** [if (config.noise) { ... }]: a buffer source playing the noise
    buffer through its own gain into the envelope stage.  The buffer is
    named by the source that owns it. *)
Definition noise_block (config : SampleConfig.t) (now : Q) (gainNode : nat) : WA unit :=
  if SampleConfig.noise config then
    noiseSource ← createBufferSource;
    setBufferM noiseSource (Some noiseSource);;
    noiseGain ← createGain;
    setValueM noiseGain PGain (SampleConfig.noiseGain config || 0.3);;
    connectM noiseSource noiseGain;;
    connectM noiseGain gainNode;;
    startM noiseSource now;;
    stopM noiseSource (now + totalDuration config)
  else mret tt.

(** [if (dest) gainNode.connect(dest); if (revSend) gainNode.connect(revSend)]. *)
Definition outputs_block (gainNode : nat) (dest revSend : option nat) : WA unit :=
  (match dest with Some d => connectM gainNode d | None => mret tt end);;
  (match revSend with Some r => connectM gainNode r | None => mret tt end).

(** The body of [play] and [playAtTime], started at [now]. *)
Definition play_voice (config : SampleConfig.t) (now volume : Q) (dest revSend : option nat)
  : WA unit :=
  oscillator ← createOscillator;
  gainNode ← createGain;
  envelope_block config now volume gainNode;;
  oscillator_block config now oscillator;;
  sampleFilter ← createBiquadFilter;
  setup_filter config sampleFilter;;
  connectM oscillator sampleFilter;;
  connectM sampleFilter gainNode;;
  noise_block config now gainNode;;
  outputs_block gainNode dest revSend;;
  startM oscillator now;;
  stopM oscillator (now + totalDuration config).

(** What runs of a voice before it throws: the oscillator and the
    envelope gain of lines 21-22 (88-89), and, when [scheduled], the
    [gainNode.gain.setValueAtTime(0, now)] of line 31 (98). *)
Definition voice_prefix (now : Q) (scheduled : bool) : WA unit :=
  createOscillator;;
  gainNode ← createGain;
  if scheduled then scheduleM gainNode PGain (SetValueAtTime 0 now) else mret tt.

(** A voice as the methods run it, with [true] when it returns and
    [false] when it throws.  Line 31 (98) throws a [RangeError] for a
    negative start time.  With an inherited member of [Object.prototype]
    as [config], [config.gain] is [undefined], so [volume * config.gain]
    is NaN and line 32 (99) throws a [TypeError]. *)
Definition play_js (cfg : SampleRef) (now volume : Q) (dest revSend : option nat) : WA bool :=
  if Qle_bool 0 now then
    match cfg with
    | Own config => play_voice config now volume dest revSend;; mret true
    | Inherited => voice_prefix now true;; mret false
    end
  else voice_prefix now false;; mret false.

(** Whether [play_js] returns: an own configuration at a start time
    that is not negative. *)
Definition voice_returns (cfg : SampleRef) (now : Q) : bool :=
  match cfg with
  | Own _ => Qle_bool 0 now
  | Inherited => false
  end.

(** The object [createSynthSamplePlayer] returns, with its two methods. *)
Module SynthSamplePlayer.

(** [play(volume, dest, revSend)]: at [audioContext.currentTime]. *)
Definition play (cfg : SampleRef) (volume : Q) (dest revSend : option nat) : WA bool :=
  now ← getCurrentTime; play_js cfg now volume dest revSend.

(** [playAtTime(time, volume, dest, revSend)]. *)
Definition playAtTime (cfg : SampleRef) (time volume : Q) (dest revSend : option nat)
  : WA bool :=
  play_js cfg time volume dest revSend.

End SynthSamplePlayer.

(** ** The nodes and connections of one voice *)

Local Open Scope nat_scope.

(** The connections a voice adds, its nodes numbered from [base] in
    creation order: oscillator [base], envelope gain [base+1], filter
    [base+2], and with noise the buffer source [base+3] and its gain
    [base+4].  Listed from the last [connect] of [play] to the first. *)
Definition voice_edges (config : SampleConfig.t) (base : nat) (dest revSend : option nat)
  : gset (nat * nat) :=
  (match revSend with Some r => {[(base + 1, r)]} | None => ∅ end) ∪
  (match dest with Some d => {[(base + 1, d)]} | None => ∅ end) ∪
  (if SampleConfig.noise config then {[(base + 4, base + 1); (base + 3, base + 4)]} else ∅) ∪
  {[(base + 2, base + 1); (base, base + 2)]}.

Definition voice_size (config : SampleConfig.t) : nat :=
  if SampleConfig.noise config then 5 else 3.

Lemma oscillator_block_wp config now osc c :
  wp (oscillator_block config now osc) (fun _ c' =>
    length (nodes c') = length (nodes c) /\ edges c' = edges c /\ frame [osc] c c') c.
Proof.
  unfold oscillator_block. wp_unfold_prims.
  repeat wp_step; wp_chain; (split; [done|split; [done|]]);
    intros j Hj Hnot%not_elem_of_cons; destruct Hnot; node_chain; done.
Qed.

Lemma setup_filter_wp config f c :
  wp (setup_filter config f) (fun _ c' =>
    length (nodes c') = length (nodes c) /\ edges c' = edges c /\ frame [f] c c') c.
Proof.
  unfold setup_filter. wp_unfold_prims.
  repeat wp_step; wp_chain; (split; [done|split; [done|]]);
    intros j Hj Hnot%not_elem_of_cons; destruct Hnot; node_chain; done.
Qed.

Lemma noise_block_wp config now g c :
  wp (noise_block config now g) (fun _ c' =>
    length (nodes c') =
      (if SampleConfig.noise config then S (S (length (nodes c))) else length (nodes c)) /\
    edges c' =
      (if SampleConfig.noise config
       then {[(S (length (nodes c)), g); (length (nodes c), S (length (nodes c)))]}
       else ∅) ∪ edges c /\
    frame [] c c') c.
Proof.
  unfold noise_block. wp_unfold_prims.
  repeat wp_step; wp_chain; (split; [done|split; [by edges_norm|]]);
    intros j Hj _; node_chain; done.
Qed.

Lemma outputs_block_wp g dest revSend c :
  wp (outputs_block g dest revSend) (fun _ c' =>
    length (nodes c') = length (nodes c) /\
    edges c' = (match revSend with Some r => {[(g, r)]} | None => ∅ end) ∪
               (match dest with Some d => {[(g, d)]} | None => ∅ end) ∪ edges c /\
    frame [] c c') c.
Proof.
  unfold outputs_block. destruct dest, revSend; repeat wp_step; wp_chain;
    (split; [done|split; [by edges_norm|]]); intros j _ _; node_chain; done.
Qed.

Lemma play_voice_wp config now volume dest revSend c :
  wp (play_voice config now volume dest revSend) (fun _ c' =>
    length (nodes c') = length (nodes c) + voice_size config /\
    edges c' = voice_edges config (length (nodes c)) dest revSend ∪ edges c) c.
Proof.
  unfold play_voice, envelope_block, setup_filter, voice_edges, voice_size. wp_unfold_prims.
  repeat wp_step. wp_block oscillator_block_wp.
  repeat wp_step. all: wp_block noise_block_wp; wp_block outputs_block_wp; repeat wp_step.
  all: wp_chain; rewrite ?Nat.add_succ_r, ?Nat.add_0_r.
  all: destruct (SampleConfig.noise config); (split; [lia|]); by edges_norm.
Qed.

Local Open Scope Q_scope.

(** The filter a voice ends with, as the spec states it: the definition's
    type and frequency when it names a type, else highpass at 2000 Hz above
    2000 Hz, lowpass at 800 Hz below 150 Hz and lowpass at 20000 Hz
    otherwise, a definition's frequency overriding the default. *)
Definition voice_filter (config : SampleConfig.t) : BiquadType * Q :=
  match SampleConfig.filterType config with
  | Some t => (t, SampleConfig.filterFreq config || 20000)
  | None =>
      if Qltb 2000 (SampleConfig.freq config)
      then (Highpass, SampleConfig.filterFreq config || 2000)
      else if Qltb (SampleConfig.freq config) 150
      then (Lowpass, SampleConfig.filterFreq config || 800)
      else (Lowpass, SampleConfig.filterFreq config || 20000)
  end.

(** C38: the filter of a voice is a biquad with the definition's type,
    frequency and Q when the definition names a type, and otherwise a
    highpass at [filterFreq || 2000] above 2000 Hz, a lowpass at
    [filterFreq || 800] below 150 Hz, or a lowpass at
    [filterFreq || 20000]: the two-stage assignment of [play] ends in the
    spec's choice on every branch. *)
Theorem play_voice_filter config now volume dest revSend c :
  (fun n => (kind n, biquadType n, value (frequency n), value (q n))) <$>
    node_at (play_voice config now volume dest revSend c).2 (length (nodes c) + 2)%nat =
  Some (KBiquad, (voice_filter config).1, (voice_filter config).2,
        SampleConfig.filterQ config || 1).
Proof.
  apply wp_post. unfold play_voice, envelope_block, setup_filter, voice_filter.
  wp_unfold_prims.
  destruct (SampleConfig.filterType config) as [t|];
  [rewrite bool_decide_false by done|rewrite bool_decide_true by done;
   destruct (Qltb 2000 _), (Qltb _ 150)]; cbn [andb].
  all: repeat wp_step; wp_block oscillator_block_wp; repeat wp_step.
  all: wp_block noise_block_wp; wp_block outputs_block_wp; repeat wp_step.
  all: node_chain; reflexivity.
Qed.

(** The gain automation of a voice, as the spec's envelope: silence at
    [now], a linear attack to [volume * gain], a linear decay to the
    sustain level and a linear release to 0.0001 at the end. *)
Definition voice_envelope (config : SampleConfig.t) (now volume : Q) : list AutomationEvent :=
  [SetValueAtTime 0 now;
   LinearRampToValueAtTime (volume * SampleConfig.gain config) (now + attackTime config);
   LinearRampToValueAtTime (sustainValue config volume)
     (now + attackTime config + decayTime config);
   LinearRampToValueAtTime 0.0001 (now + totalDuration config)].

(** The frequency automation: the exponential sweep, when there is one. *)
Definition sweep_events (config : SampleConfig.t) (now : Q) : list AutomationEvent :=
  match SampleConfig.sweep config with
  | Some (start, end_) =>
      [SetValueAtTime start now; ExponentialRampToValueAtTime end_ (now + totalDuration config)]
  | None => []
  end.

(** A walk through a whole voice down to the node read by the goal. *)
Ltac voice_unfold :=
  apply wp_post; unfold play_voice, envelope_block, oscillator_block; wp_unfold_prims.
Ltac voice_run :=
  repeat wp_step; wp_block setup_filter_wp; repeat wp_step; wp_block noise_block_wp; wp_block outputs_block_wp; repeat wp_step;
  node_chain.

Lemma play_voice_schedules config now volume dest revSend c :
  events <$> (gain <$> node_at (play_voice config now volume dest revSend c).2
                        (length (nodes c) + 1)%nat) = Some (voice_envelope config now volume) /\
  events <$> (frequency <$> node_at (play_voice config now volume dest revSend c).2
                             (length (nodes c))) = Some (sweep_events config now).
Proof.
  unfold voice_envelope, sweep_events.
  split; voice_unfold; destruct (SampleConfig.sweep config) as [[s e]|]; voice_run; done.
Qed.

(** ** Claims about one voice *)

(** C37: the envelope stage of a voice is a gain node whose gain keeps its
    value 1 and carries exactly the spec's ADSR automation, on every path
    of [play]. *)
Theorem play_voice_envelope config now volume dest revSend c :
  (fun n => (kind n, value (gain n), events (gain n))) <$>
    node_at (play_voice config now volume dest revSend c).2 (length (nodes c) + 1)%nat =
  Some (KGain, 1, voice_envelope config now volume).
Proof.
  voice_unfold; destruct (SampleConfig.sweep config) as [[s e]|]; voice_run; done.
Qed.

(** The oscillator of a voice has the definition's waveform and
    frequency, carries the exponential sweep when the definition has one
    and nothing otherwise, and plays from [now] to [now + totalDuration]. *)
Theorem play_voice_oscillator config now volume dest revSend c :
  (fun n => (kind n, oscType n, value (frequency n), events (frequency n),
             startTime n, stopTime n)) <$>
    node_at (play_voice config now volume dest revSend c).2 (length (nodes c)) =
  Some (KOscillator, SampleConfig.type config, SampleConfig.freq config,
        sweep_events config now, Some now, Some (now + totalDuration config)).
Proof.
  unfold sweep_events.
  voice_unfold; destruct (SampleConfig.sweep config) as [[s e]|]; voice_run; done.
Qed.

(** With [noise], the voice's fourth node is a buffer source playing
    its own noise buffer from [now] to [now + totalDuration] and its fifth
    a gain at [noiseGain || 0.3]; without it, the voice has no fourth
    node. *)
Theorem play_voice_noise config now volume dest revSend c :
  let c' := (play_voice config now volume dest revSend c).2 in
  let b := length (nodes c) in
  if SampleConfig.noise config then
    (fun n => (kind n, buffer n, startTime n, stopTime n)) <$> node_at c' (b + 3)%nat =
      Some (KBufferSource, Some (b + 3)%nat, Some now, Some (now + totalDuration config)) /\
    (fun n => (kind n, value (gain n))) <$> node_at c' (b + 4)%nat =
      Some (KGain, SampleConfig.noiseGain config || 0.3)
  else node_at c' (b + 3)%nat = None.
Proof.
  cbv zeta. apply wp_post. unfold play_voice, envelope_block, noise_block. wp_unfold_prims.
  destruct (SampleConfig.noise config); repeat wp_step;
    wp_block oscillator_block_wp; repeat wp_step; wp_block setup_filter_wp;
    repeat wp_step; wp_block outputs_block_wp; repeat wp_step;
    [split|]; node_chain; [done|done|].
  unfold node_at. apply lookup_ge_None_2. lia.
Qed.

(** ** The schedules the catalog produces *)

Definition event_time (e : AutomationEvent) : Q :=
  match e with
  | SetValueAtTime _ t | LinearRampToValueAtTime _ t | ExponentialRampToValueAtTime _ t => t
  end.

(** Automation events in strictly increasing time, the order in which the
    Web Audio timeline applies them as written. *)
Fixpoint times_increasing (l : list AutomationEvent) : bool :=
  match l with
  | e1 :: ((e2 :: _) as rest) => Qltb (event_time e1) (event_time e2) && times_increasing rest
  | _ => true
  end.

(** Exponential ramps need a positive target (and start). *)
Definition exp_ramps_positive (l : list AutomationEvent) : bool :=
  forallb (fun e => match e with
                    | ExponentialRampToValueAtTime v _ => Qltb 0 v
                    | _ => true
                    end) l.

(** A definition whose envelope points and sweep are well placed. *)
Definition sound_ok (config : SampleConfig.t) : bool :=
  Qltb 0 (attackTime config) && Qltb 0 (decayTime config) &&
  Qltb (attackTime config + decayTime config) (totalDuration config) &&
  match SampleConfig.sweep config with
  | Some (start, end_) => Qltb 0 start && Qltb 0 end_
  | None => true
  end.

Lemma envelope_increasing config now volume :
  sound_ok config = true -> times_increasing (voice_envelope config now volume) = true.
Proof.
  unfold sound_ok. intros H. rewrite !andb_true_iff, !Qltb_iff in H. destruct_and? H.
  cbn [times_increasing voice_envelope event_time].
  rewrite !andb_true_iff, !Qltb_iff. repeat split; lra.
Qed.

Lemma sweep_ok config now :
  sound_ok config = true ->
  times_increasing (sweep_events config now) && exp_ramps_positive (sweep_events config now)
  = true.
Proof.
  unfold sound_ok, sweep_events. destruct (SampleConfig.sweep config) as [[s e]|]; [|done].
  intros H. rewrite !andb_true_iff, !Qltb_iff in H. destruct_and? H.
  cbn. rewrite !andb_true_iff, !Qltb_iff. repeat split; lra.
Qed.

Lemma lookup_sample_in samples name config :
  lookup_sample samples name = Some config -> config ∈ snd <$> samples.
Proof.
  induction samples as [|[k v] rest IH]; [done|]. cbn.
  destruct (String.eqb k name); [intros [= ->]; left|intros; right; auto].
Qed.

Lemma catalog_sounds_ok : Forall (fun config => sound_ok config = true) (snd <$> loadSamples).
Proof. apply Forall_forall. intros config Hin. vm_compute in Hin. set_solver. Qed.

(** C39: every sound of the catalog, played at any time and volume into
    any graph, schedules its gain envelope at strictly increasing times
    and its pitch sweep at increasing times towards a positive target, so
    the Web Audio timeline plays the shapes as written. *)
Theorem catalog_voices_well_timed name config now volume dest revSend c :
  lookup_sample loadSamples name = Some config ->
  let c' := (play_voice config now volume dest revSend c).2 in
  (fun n => times_increasing (events (gain n))) <$> node_at c' (length (nodes c) + 1)%nat =
    Some true /\
  (fun n => times_increasing (events (frequency n)) && exp_ramps_positive (events (frequency n)))
    <$> node_at c' (length (nodes c)) = Some true.
Proof.
  intros Hl%lookup_sample_in c'.
  pose proof (proj1 (Forall_forall _ _) catalog_sounds_ok config Hl) as Hok.
  destruct (play_voice_schedules config now volume dest revSend c) as [Hg Hf].
  subst c'. split.
  - revert Hg. destruct (node_at _ (length (nodes c) + 1)); intros H; simplify_eq/=.
    rewrite H. f_equal. by apply envelope_increasing.
  - revert Hf. destruct (node_at _ (length (nodes c))); intros H; simplify_eq/=.
    rewrite H. f_equal. by apply sweep_ok.
Qed.

Lemma catalog_voices_well_timed_witness :
  lookup_sample loadSamples "fx-01" = Some (with_sweep 1200 100
    (sound "fx" 1200 Sine 0.7 0.4 0.01 0.6)) /\ True.
Proof.
  split; [reflexivity|].
  destruct (catalog_voices_well_timed "fx-01" _ 0 1 (Some 0%nat) None
              (new_context 44100) eq_refl); done.
Defined.

(** C27: a voice adds its three nodes (five with noise) after the existing
    ones and exactly the connections of [voice_edges]: oscillator into
    filter into the envelope stage, the noise source through its gain into
    the same stage, and the stage into [dest] and [revSend] when given;
    no other connection of the graph changes. *)
Theorem play_voice_graph config now volume dest revSend c :
  let c' := (play_voice config now volume dest revSend c).2 in
  length (nodes c') = (length (nodes c) + voice_size config)%nat /\
  edges c' = voice_edges config (length (nodes c)) dest revSend ∪ edges c.
Proof. apply (play_voice_wp config now volume dest revSend c). Qed.

(** The noise buffer holds [trunc(sampleRate * duration)] samples,
    each in [-1, 1) when [Math.random] returns values in [0, 1). *)
Theorem createNoiseBuffer_bounds random sampleRate duration :
  (forall i, 0 <= random i < 1) ->
  length (createNoiseBuffer random sampleRate duration) =
    Z.to_nat (trunc (inject_Z sampleRate * duration)) /\
  Forall (fun x => -1 <= x < 1) (createNoiseBuffer random sampleRate duration).
Proof.
  intros Hr. unfold createNoiseBuffer. rewrite length_map, length_seq. split; [done|].
  apply List.Forall_map, Forall_forall. intros i _. specialize (Hr i). lra.
Qed.

Lemma createNoiseBuffer_bounds_witness :
  (forall i : nat, 0 <= (if decide (i = 0%nat) then 0 else 1 # 2) < 1) /\
  length (createNoiseBuffer (fun i => if decide (i = 0%nat) then 0 else 1 # 2) 8000 (1 # 100))
    = 80%nat.
Proof.
  assert (H : forall i : nat, 0 <= (if decide (i = 0%nat) then 0 else 1 # 2) < 1)
    by (intros i; case_decide; lra).
  split; [exact H|].
  destruct (createNoiseBuffer_bounds _ 8000 (1 # 100) H) as [-> _]. reflexivity.
Defined.

(** ** A voice only adds to the graph *)

Local Open Scope nat_scope.

Lemma play_voice_frame config now volume dest revSend c :
  frame [] c (play_voice config now volume dest revSend c).2.
Proof.
  intros j Hj _. revert j Hj. apply wp_post. unfold play_voice, envelope_block.
  wp_unfold_prims. repeat wp_step. wp_block oscillator_block_wp. repeat wp_step.
  wp_block setup_filter_wp. repeat wp_step. wp_block noise_block_wp.
  wp_block outputs_block_wp. repeat wp_step. intros j Hj. node_chain. done.
Qed.

Lemma play_voice_grows config now volume dest revSend c :
  grows (option_list dest ++ option_list revSend) c
    (play_voice config now volume dest revSend c).2.
Proof.
  destruct (play_voice_wp config now volume dest revSend c) as [Hl He].
  pose proof (play_voice_frame config now volume dest revSend c) as F.
  unfold grows. rewrite Hl, He. split; [lia|]. split; [done|]. split; [set_solver|].
  intros a b [Hab|Hab]%elem_of_union; [|by left]. right.
  unfold voice_edges, voice_size in *.
  destruct (SampleConfig.noise config), dest, revSend; set_unfold in Hab;
    destruct_or? Hab; simplify_eq; cbn; (split; [lia|]);
    first [left; lia | right; apply list_elem_of_In; simpl; tauto].
Qed.

Lemma voice_prefix_grows now b c : grows [] c (voice_prefix now b c).2.
Proof.
  unfold grows. apply wp_post. unfold voice_prefix. wp_unfold_prims.
  repeat wp_step; wp_chain; (split; [lia|]); (split; [intros j Hj _; node_chain; done|]);
    (split; [done|]); intros a b Hab; by left.
Qed.

Lemma then_ret_snd {A B} (m : WA A) (b : B) c : ((m;; mret b) c).2 = (m c).2.
Proof. rewrite WA_bind_unfold. by destruct (m c). Qed.

Lemma play_js_grows cfg now volume dest revSend c :
  grows (option_list dest ++ option_list revSend) c (play_js cfg now volume dest revSend c).2.
Proof.
  unfold play_js. destruct (Qle_bool 0 now); [destruct cfg|]; rewrite then_ret_snd;
    [apply play_voice_grows| |]; (eapply grows_mono; [|apply voice_prefix_grows]); set_solver.
Qed.

Lemma play_grows cfg volume dest revSend c :
  grows (option_list dest ++ option_list revSend) c (SynthSamplePlayer.play cfg volume dest revSend c).2.
Proof. exact (play_js_grows cfg (currentTime c) volume dest revSend c). Qed.

(** ** A voice keeps the context's clock and sample rate *)

Lemma play_voice_keeps_rate config now volume dest revSend :
  keeps_rate (play_voice config now volume dest revSend).
Proof.
  unfold play_voice, envelope_block, oscillator_block, setup_filter, noise_block, outputs_block.
  wp_unfold_prims. keeps_rate_solve.
Qed.

Lemma play_voice_keeps_time config now volume dest revSend :
  keeps_time (play_voice config now volume dest revSend).
Proof.
  unfold play_voice, envelope_block, oscillator_block, setup_filter, noise_block, outputs_block.
  wp_unfold_prims. keeps_time_solve.
Qed.

#[local] Hint Resolve play_voice_keeps_rate play_voice_keeps_time : djm.

Lemma play_js_keeps_rate cfg now volume dest revSend :
  keeps_rate (play_js cfg now volume dest revSend).
Proof. unfold play_js, voice_prefix. wp_unfold_prims. keeps_rate_solve. Qed.

Lemma play_js_keeps_time cfg now volume dest revSend :
  keeps_time (play_js cfg now volume dest revSend).
Proof. unfold play_js, voice_prefix. wp_unfold_prims. keeps_time_solve. Qed.

#[export] Hint Resolve play_js_keeps_rate play_js_keeps_time : djm.

Lemma play_js_result cfg now volume dest revSend c :
  (play_js cfg now volume dest revSend c).1 = voice_returns cfg now.
Proof.
  unfold play_js, voice_returns. destruct (Qle_bool 0 now), cfg; rewrite WA_bind_unfold;
    [destruct (play_voice _ _ _ _ _ c)|destruct (voice_prefix _ _ c)..]; done.
Qed.

(** A voice of an own configuration at a time that is not negative
    returns. *)
Lemma play_js_ok config now volume dest revSend c :
  (0 <= now)%Q -> (play_js (Own config) now volume dest revSend c).1 = true.
Proof. intros H. rewrite play_js_result. by apply Qle_bool_iff. Qed.

(** A voice of an inherited member of [Object.prototype] throws. *)
Lemma play_js_inherited now volume dest revSend c :
  (play_js Inherited now volume dest revSend c).1 = false.
Proof. by rewrite play_js_result. Qed.
