(* ===== verification/Engine.v ===== *)
(** The live engine, [class AudioEngine] of [src/audio-engine.js]: the
    master chain and global reverb built by [init], the four tracks of
    [setupTracks], the setters, the sequencer clock ([play], [stop],
    [setBPM] and the interval callback that runs [playStep] and advances
    [currentStep]), [toggleStep], [setTrackSound], [playSound] and
    [clearAll].

    The engine lives in a [World] with the audio context it drives, the
    host's interval timers ([setInterval]/[clearInterval]: the active
    handles and their periods) and the arguments the [onStepPlay]
    observer has received.  Each public operation is a function on the
    world; [exec] dispatches them, and [step] is the relation of the
    program's runs: any public call, a tick of an active interval, or
    time passing on the audio clock.  A master setter that throws (a
    [TypeError] on a master node before [init] built it) has no
    transition; a voice that throws (an inherited [Object.prototype]
    member as sound) ends [playStep], the interval callback or
    [playSound] where it is, keeping what ran before it. *)

From S2P Require Import Prelude JsNumber WebAudio Track SoundCatalog SampleGenerator.
From Stdlib Require Import QArith Lqa.
From stdpp Require Import gmap sets strings.

Local Open Scope Q_scope.

(** ** State *)

(** The master chain and reverb return, created together by [init]. *)
Record MasterNodes := {
  masterGain : nat; masterEQLow : nat; masterEQHigh : nat; masterInputGain : nat;
  globalReverbConvolver : nat; globalReverbGain : nat
}.

Record Engine := {
  hasContext : bool;                   (** [audioContext !== null] *)
  masters : option MasterNodes;        (** [null] before [init] *)
  impulseResponseBuffer : option nat;  (** the decoded buffer, by handle *)
  tracks : list Track;
  isPlaying : bool;
  bpm : Q;
  currentStep : nat;
  globalStepCount : nat;
  intervalId : option nat;
  samples : list (string * SampleConfig.t);
  isRecording : bool;
  onStepPlay : bool                    (** an observer is attached *)
}.

(** [constructor()]. *)
Definition new_Engine : Engine := {|
  hasContext := false; masters := None; impulseResponseBuffer := None; tracks := [];
  isPlaying := false; bpm := 120; currentStep := 0; globalStepCount := 16;
  intervalId := None; samples := []; isRecording := false; onStepPlay := false |}.

Record World := {
  eng : Engine;
  ctx : AudioContext;
  timers : gmap nat Q;      (** active interval handles and their periods (ms) *)
  nextTimer : nat;          (** the handle the next [setInterval] returns *)
  notified : list nat       (** arguments of [onStepPlay], in call order *)
}.

(** Field updates. *)
Definition set_eng (e : Engine) (w : World) : World :=
  {| eng := e; ctx := ctx w; timers := timers w; nextTimer := nextTimer w;
     notified := notified w |}.
Definition set_ctx (c : AudioContext) (w : World) : World :=
  {| eng := eng w; ctx := c; timers := timers w; nextTimer := nextTimer w;
     notified := notified w |}.

Definition with_tracks (ts : list Track) (e : Engine) : Engine := {|
  hasContext := hasContext e; masters := masters e;
  impulseResponseBuffer := impulseResponseBuffer e; tracks := ts;
  isPlaying := isPlaying e; bpm := bpm e; currentStep := currentStep e;
  globalStepCount := globalStepCount e; intervalId := intervalId e;
  samples := samples e; isRecording := isRecording e; onStepPlay := onStepPlay e |}.

(** [isPlaying], [currentStep] and [intervalId], which the clock sets together. *)
Definition with_clock (playing : bool) (step : nat) (iv : option nat) (e : Engine)
  : Engine := {|
  hasContext := hasContext e; masters := masters e;
  impulseResponseBuffer := impulseResponseBuffer e; tracks := tracks e;
  isPlaying := playing; bpm := bpm e; currentStep := step;
  globalStepCount := globalStepCount e; intervalId := iv;
  samples := samples e; isRecording := isRecording e; onStepPlay := onStepPlay e |}.

Definition with_bpm (b : Q) (e : Engine) : Engine := {|
  hasContext := hasContext e; masters := masters e;
  impulseResponseBuffer := impulseResponseBuffer e; tracks := tracks e;
  isPlaying := isPlaying e; bpm := b; currentStep := currentStep e;
  globalStepCount := globalStepCount e; intervalId := intervalId e;
  samples := samples e; isRecording := isRecording e; onStepPlay := onStepPlay e |}.

Definition with_recording (r : bool) (e : Engine) : Engine := {|
  hasContext := hasContext e; masters := masters e;
  impulseResponseBuffer := impulseResponseBuffer e; tracks := tracks e;
  isPlaying := isPlaying e; bpm := bpm e; currentStep := currentStep e;
  globalStepCount := globalStepCount e; intervalId := intervalId e;
  samples := samples e; isRecording := r; onStepPlay := onStepPlay e |}.

(** The state [init] leaves: context, masters, samples, buffer. *)
Definition with_init (ms : option MasterNodes) (ir : option nat)
    (smp : list (string * SampleConfig.t)) (e : Engine) : Engine := {|
  hasContext := true; masters := ms; impulseResponseBuffer := ir; tracks := tracks e;
  isPlaying := isPlaying e; bpm := bpm e; currentStep := currentStep e;
  globalStepCount := globalStepCount e; intervalId := intervalId e;
  samples := smp; isRecording := isRecording e; onStepPlay := onStepPlay e |}.

(** Runs a program of the audio context inside the world. *)
Definition run_wa {A} (m : WA A) (w : World) : A * World :=
  let '(a, c') := m (ctx w) in (a, set_ctx c' w).

(** ** Initialisation *)

(** [init], lines of the master chain and the global reverb. *)
Definition master_chain : WA MasterNodes :=
  masterGain ← createGain;
  masterEQLow ← createBiquadFilter;
  masterEQHigh ← createBiquadFilter;
  masterInputGain ← createGain;
  setTypeM masterEQLow Lowshelf;;
  setValueM masterEQLow PFrequency 250;;
  setTypeM masterEQHigh Highshelf;;
  setValueM masterEQHigh PFrequency 4000;;
  connectM masterInputGain masterEQLow;;
  connectM masterEQLow masterEQHigh;;
  connectM masterEQHigh masterGain;;
  connectM masterGain destination;;
  setValueM masterGain PGain 0.7;;
  globalReverbConvolver ← createConvolver;
  globalReverbGain ← createGain;
  setValueM globalReverbGain PGain 0.3;;
  connectM globalReverbConvolver globalReverbGain;;
  connectM globalReverbGain masterInputGain;;
  mret {| masterGain := masterGain; masterEQLow := masterEQLow; masterEQHigh := masterEQHigh;
          masterInputGain := masterInputGain; globalReverbConvolver := globalReverbConvolver;
          globalReverbGain := globalReverbGain |}.

Definition defaultSounds : list string := ["kick-01"; "snare-01"; "hihat-01"; "bass-01"].

(** The configuration object [setupTracks] passes to [new Track]. *)
Definition default_track_config (s : string) (stepCount : nat) : TrackConfig := {|
  cfgSound := s; cfgVolume := 0.8; cfgPan := 0; cfgReverbAmount := 0;
  cfgEqLow := 0; cfgEqHigh := 0; cfgStepCount := stepCount |}.

(** The body of the loop of [setupTracks]: a track, its dry output into
    the master input and its reverb send into the convolver, pushed. *)
Fixpoint setup_tracks_loop (ms : MasterNodes) (stepCount : nat) (sounds : list string)
    (acc : list Track) : WA (list Track) :=
  match sounds with
  | [] => mret acc
  | s :: rest =>
      newTrack ← new_Track (default_track_config s stepCount);
      connectM (getOutputNode newTrack) (masterInputGain ms);;
      connectM (getReverbSendNode newTrack) (globalReverbConvolver ms);;
      setup_tracks_loop ms stepCount rest (acc ++ [newTrack])
  end.

Definition setupTracks (ms : MasterNodes) (w : World) : World :=
  let '(ts, w') := run_wa (setup_tracks_loop ms (globalStepCount (eng w)) defaultSounds
                             (tracks (eng w))) w in
  set_eng (with_tracks ts (eng w')) w'.

(** What the browser gives [init]: whether [new AudioContext()] succeeds,
    its sample rate, and the decoded impulse response, [None] when the
    fetch or the decoding rejects. *)
Record InitEnv := { ctxAvailable : bool; envSampleRate : Z; irBuffer : option nat }.

(** [init()]: every exception is caught; a failing context leaves the
    engine untouched, a failing impulse response leaves the master chain
    and the samples but skips the buffer assignment and [setupTracks]. *)
Definition init (env : InitEnv) (w : World) : World :=
  if ctxAvailable env then
    let w := set_ctx (new_context (envSampleRate env)) w in
    let '(ms, w) := run_wa master_chain w in
    let w := set_eng (with_init (Some ms) None loadSamples (eng w)) w in
    match irBuffer env with
    | None => w
    | Some b =>
        let w := set_eng (with_init (Some ms) (Some b) loadSamples (eng w)) w in
        let w := (run_wa (setBufferM (globalReverbConvolver ms) (Some b)) w).2 in
        setupTracks ms w
    end
  else w.

(** ** Setters *)

(** [this.tracks[trackIndex]]: [undefined] off the array. *)
Definition track_at (e : Engine) (i : Z) : option Track :=
  if (0 <=? i)%Z then tracks e !! Z.to_nat i else None.

Definition set_track (i : Z) (t : Track) (w : World) : World :=
  set_eng (with_tracks (<[Z.to_nat i := t]> (tracks (eng w))) (eng w)) w.

(** [setTrackVolume] ... [setTrackEqHigh]: [if (this.tracks[i]) this.tracks[i].setX(v)]. *)
Definition setTrackParam (p : TrackParam) (i : Z) (v : Q) (w : World) : World :=
  match track_at (eng w) i with
  | Some t => let '(t', w') := run_wa (set_tparam p v t) w in set_track i t' w'
  | None => w
  end.

Definition setTrackStepCount (i : Z) (n : nat) (w : World) : World :=
  match track_at (eng w) i with
  | Some t => set_track i (setStepCount n t) w
  | None => w
  end.

Definition setTrackSound (i : Z) (s : string) (w : World) : World :=
  match track_at (eng w) i with
  | Some t => set_track i (with_sound s t) w
  | None => w
  end.

Inductive MasterParam := MVolume | MReverbWetness | MEqLow | MEqHigh.

(** The node whose [gain] each master setter writes. *)
Definition master_node (p : MasterParam) (ms : MasterNodes) : nat :=
  match p with
  | MVolume => masterGain ms | MReverbWetness => globalReverbGain ms
  | MEqLow => masterEQLow ms | MEqHigh => masterEQHigh ms
  end.

(** [setMasterVolume] ... [setMasterEqHigh]; before [init] the node is
    [null] and the assignment throws. *)
Definition setMaster (p : MasterParam) (v : Q) (w : World) : option World :=
  match masters (eng w) with
  | Some ms => Some (run_wa (setValueM (master_node p ms) PGain v) w).2
  | None => None
  end.

(** ** The sequencer clock *)

(** [(60 / this.bpm) * 1000 / 4] milliseconds. *)
Definition stepDuration (b : Q) : Q := 60 / b * 1000 / 4.

(** [setInterval(callback, period)]: a fresh handle. *)
Definition setInterval (period : Q) (w : World) : nat * World :=
  (nextTimer w,
   {| eng := eng w; ctx := ctx w; timers := <[nextTimer w := period]> (timers w);
      nextTimer := S (nextTimer w); notified := notified w |}).

Definition clearInterval (id : nat) (w : World) : World :=
  {| eng := eng w; ctx := ctx w; timers := delete id (timers w); nextTimer := nextTimer w;
     notified := notified w |}.

(** [play()]. *)
Definition play (w : World) : World :=
  if isPlaying (eng w) then w
  else
    let w := set_eng (with_clock true 0 (intervalId (eng w)) (eng w)) w in
    let '(id, w) := setInterval (stepDuration (bpm (eng w))) w in
    set_eng (with_clock true 0 (Some id) (eng w)) w.

(** [stop()]: [if (this.intervalId)] is false for [null] and for 0. *)
Definition stop (w : World) : World :=
  let w := set_eng (with_clock false (currentStep (eng w)) (intervalId (eng w)) (eng w)) w in
  let w := match intervalId (eng w) with
           | Some id => if decide (id = 0%nat) then w
                        else set_eng (with_clock false (currentStep (eng w)) None (eng w))
                               (clearInterval id w)
           | None => w
           end in
  set_eng (with_clock false 0 (intervalId (eng w)) (eng w)) w.

(** [setBPM(bpm)]. *)
Definition setBPM (b : Q) (w : World) : World :=
  let w := set_eng (with_bpm b (eng w)) w in
  if isPlaying (eng w) then play (stop w) else w.

(** One track in [playStep]: [if (track.steps[this.currentStep % track.stepCount])]
    and a truthy [this.samples[track.sound]], a voice at the track's
    volume into the track's input node, with the track's reverb-send
    input node as send; [false] when the voice throws. *)
Definition trigger_track (smp : list (string * SampleConfig.t)) (g : nat) (t : Track)
  : WA bool :=
  if step_at t g then
    match samples_get smp (Track.sound t) with
    | Some cfg =>
        SynthSamplePlayer.play cfg (_volume t) (Some (getInputNode t))
          (Some (getReverbSendInputNode t))
    | None => mret true
    end
  else mret true.

(** [this.tracks.forEach(...)], in array order; an exception thrown for
    one track leaves the loop, and the later tracks are not played. *)
Fixpoint trigger_tracks (smp : list (string * SampleConfig.t)) (g : nat) (ts : list Track)
  : WA bool :=
  match ts with
  | [] => mret true
  | t :: rest =>
      trigger_track smp g t ≫= fun ok : bool => if ok then trigger_tracks smp g rest else mret false
  end.

(** [playStep()]: the voices, then [this.onStepPlay?.(this.currentStep)];
    [false] when a voice threw, which leaves the method before the
    notification. *)
Definition playStep (w : World) : bool * World :=
  let e := eng w in
  let '(ok, w) := run_wa (trigger_tracks (samples e) (currentStep e) (tracks e)) w in
  if ok then
    (true, {| eng := eng w; ctx := ctx w; timers := timers w; nextTimer := nextTimer w;
              notified := notified w ++ (if onStepPlay (eng w) then [currentStep (eng w)] else []) |})
  else (false, w).

(** The interval callback: [this.playStep(); this.currentStep =
    (this.currentStep + 1) % this.globalStepCount].  When [playStep]
    throws, the callback ends before the increment; the host reports the
    error and keeps the interval. *)
Definition tick (w : World) : World :=
  let '(ok, w) := playStep w in
  if ok then
    let e := eng w in
    set_eng (with_clock (isPlaying e) ((currentStep e + 1) mod globalStepCount e) (intervalId e) e) w
  else w.

(** ** Pattern editing and audition *)

(** [toggleStep(trackIndex, stepLocal)]: the new value, or [false] when
    the track does not exist or [stepLocal >= stepCount]. *)
Definition toggleStep (i s : Z) (w : World) : bool * World :=
  match track_at (eng w) i with
  | Some t =>
      if (s <? Z.of_nat (_stepCount t))%Z then
        let a := js_set (steps t) s (negb (js_get (steps t) s)) in
        (js_get a s, set_track i (with_steps (_stepCount t) a t) w)
      else (false, w)
  | None => (false, w)
  end.

(** [playSound(soundName)]: a voice at full volume straight into the
    master input, without reverb send; [false] when the call throws
    (without a master chain, or in the voice). *)
Definition playSound (name : string) (w : World) : bool * World :=
  match samples_get (samples (eng w)) name with
  | Some cfg =>
      match masters (eng w) with
      | Some ms => run_wa (SynthSamplePlayer.play cfg 1 (Some (masterInputGain ms)) None) w
      | None => (false, w)
      end
  | None => (true, w)
  end.

(** [clearAll()]: [track.steps.fill(false)] on every track. *)
Definition clearAll (w : World) : World :=
  set_eng (with_tracks (map (fun t => with_steps (_stepCount t) (js_fill_false (steps t)) t)
                          (tracks (eng w))) (eng w)) w.

(** [startRecording()] / [stopRecording()]: a flag (the buffer stays empty). *)
Definition startRecording (w : World) : World := set_eng (with_recording true (eng w)) w.
Definition stopRecording (w : World) : World := set_eng (with_recording false (eng w)) w.

(** [getCurrentStep()], [getTrackData(i)], [getSampleNames()]. *)
Definition getCurrentStep (w : World) : nat := currentStep (eng w).
Definition getTrackData (w : World) (i : Z) : option Track := track_at (eng w) i.
Definition engineSampleNames (w : World) : list string := getSampleNames (samples (eng w)).

Definition attachObserver (w : World) : World :=
  set_eng {| hasContext := hasContext (eng w); masters := masters (eng w);
             impulseResponseBuffer := impulseResponseBuffer (eng w); tracks := tracks (eng w);
             isPlaying := isPlaying (eng w); bpm := bpm (eng w);
             currentStep := currentStep (eng w); globalStepCount := globalStepCount (eng w);
             intervalId := intervalId (eng w); samples := samples (eng w);
             isRecording := isRecording (eng w); onStepPlay := true |} w.

(** ** Runs of the program *)

(** The events of a session after [init]: the public calls of the view
    layer ([main.js], [sequencer.js]), the host firing an interval, and
    the audio clock running on. *)
Inductive Op :=
| OPlay | OStop | OSetBPM (b : Q)
| OSetMaster (p : MasterParam) (v : Q)
| OSetTrackParam (p : TrackParam) (i : Z) (v : Q)
| OSetTrackStepCount (i : Z) (n : nat)
| OSetTrackSound (i : Z) (s : string)
| OToggleStep (i s : Z)
| OPlaySound (s : string)
| OClearAll | OStartRecording | OStopRecording | OAttachObserver
| OTick (id : nat)
| OAdvance (dt : Q).

Definition exec (o : Op) (w : World) : option World :=
  match o with
  | OPlay => Some (play w)
  | OStop => Some (stop w)
  | OSetBPM b => Some (setBPM b w)
  | OSetMaster p v => setMaster p v w
  | OSetTrackParam p i v => Some (setTrackParam p i v w)
  | OSetTrackStepCount i n => Some (setTrackStepCount i n w)
  | OSetTrackSound i s => Some (setTrackSound i s w)
  | OToggleStep i s => Some (toggleStep i s w).2
  | OPlaySound s => Some (playSound s w).2
  | OClearAll => Some (clearAll w)
  | OStartRecording => Some (startRecording w)
  | OStopRecording => Some (stopRecording w)
  | OAttachObserver => Some (attachObserver w)
  | OTick id => match timers w !! id with Some _ => Some (tick w) | None => None end
  | OAdvance dt => if Qle_bool 0 dt then Some (set_ctx (advance_time dt (ctx w)) w) else None
  end.

Inductive step : World -> World -> Prop :=
| step_exec o w w' : exec o w = Some w' -> step w w'.

(** The page loads: a fresh engine (the context is a placeholder until
    [init] creates one), no timers; [main.js] then awaits [init]. *)
Definition initial_world : World := {|
  eng := new_Engine; ctx := new_context 0; timers := ∅; nextTimer := 1; notified := [] |}.

Definition reachable (env : InitEnv) (w : World) : Prop :=
  rtc step (init env initial_world) w.

(** ** The invariant *)

Definition master_ids (ms : MasterNodes) : list nat :=
  [masterGain ms; masterEQLow ms; masterEQHigh ms; masterInputGain ms;
   globalReverbConvolver ms; globalReverbGain ms].

(** Every node the engine holds a reference to. *)
Definition named_nodes (e : Engine) : list nat :=
  default [] (master_ids <$> masters e) ++ concat (map (fun t => node_ids (trackNodes t)) (tracks e)).

Definition master_routing (ms : MasterNodes) : gset (nat * nat) :=
  {[(masterInputGain ms, masterEQLow ms); (masterEQLow ms, masterEQHigh ms);
    (masterEQHigh ms, masterGain ms); (masterGain ms, destination);
    (globalReverbConvolver ms, globalReverbGain ms);
    (globalReverbGain ms, masterInputGain ms)]}.

Definition track_routing (ms : MasterNodes) (n : TrackNodes) : gset (nat * nat) :=
  {[(eqLowFilter n, eqHighFilter n); (eqHighFilter n, pannerNode n);
    (pannerNode n, gainNode n); (gainNode n, masterInputGain ms);
    (reverbSendGain n, globalReverbConvolver ms)]}.

(** The connections [init] makes. *)
Definition routing (e : Engine) : gset (nat * nat) :=
  match masters e with
  | Some ms => master_routing ms ∪ ⋃ (map (fun t => track_routing ms (trackNodes t)) (tracks e))
  | None => ∅
  end.

(** No connection enters the node. *)
Definition no_input (c : AudioContext) (x : nat) : Prop :=
  set_Forall (fun e => e.2 <> x) (edges c).

Definition all_params : list TrackParam := [TVolume; TPan; TReverbAmount; TEqLow; TEqHigh].

#[export] Instance Q_eq_dec : EqDecision Q.
Proof. solve_decision. Defined.

#[export] Instance synced_param_dec c t p : Decision (synced_param c t p).
Proof. unfold synced_param. destruct (tparam_node p (trackNodes t)). apply _. Defined.

(** The clock: the step index stays in the measure, and an interval is
    active exactly while playing, with the period of the current tempo;
    there is never a second one. *)
Record clock_inv (w : World) : Prop := {
  ci_count : globalStepCount (eng w) = 16%nat;
  ci_step : (currentStep (eng w) < 16)%nat;
  ci_next : (1 <= nextTimer w)%nat;
  ci_timer :
    match intervalId (eng w) with
    | Some id => isPlaying (eng w) = true /\ (1 <= id < nextTimer w)%nat /\
                 timers w = {[id := stepDuration (bpm (eng w))]}
    | None => isPlaying (eng w) = false /\ timers w = ∅
    end
}.

(** The graph: the nodes the engine names are distinct and exist, the
    connections of [init] are all there, nothing enters a reverb-send
    gain, and each track's mixing parameters are those of its nodes. *)
Record graph_inv (w : World) : Prop := {
  gi_wf : graph_wf (ctx w);
  gi_nodup : NoDup (named_nodes (eng w));
  gi_exist : Forall (fun id => id < length (nodes (ctx w)))%nat (named_nodes (eng w));
  gi_routing : routing (eng w) ⊆ edges (ctx w);
  gi_silent : Forall (fun t => no_input (ctx w) (reverbSendGain (trackNodes t))) (tracks (eng w));
  gi_synced : Forall (track_synced (ctx w)) (tracks (eng w));
  gi_tracks : masters (eng w) = None -> tracks (eng w) = [];
  gi_track_wf : Forall track_wf (tracks (eng w))
}.

(** An executable check of [graph_inv]. *)
Definition graph_invb (w : World) : bool :=
  let c := ctx w in let e := eng w in let len := length (nodes c) in
  bool_decide (set_Forall (fun ab => ab.1 < len /\ ab.2 < len)%nat (edges c)) &&
  bool_decide (NoDup (named_nodes e)) &&
  forallb (fun id => id <? len)%nat (named_nodes e) &&
  bool_decide (routing e ⊆ edges c) &&
  forallb (fun t => bool_decide (no_input c (reverbSendGain (trackNodes t)))) (tracks e) &&
  forallb (fun t => forallb (fun p => bool_decide (synced_param c t p)) all_params) (tracks e) &&
  match masters e, tracks e with None, _ :: _ => false | _, _ => true end &&
  forallb (fun t => length (elems (steps t)) =? _stepCount t)%nat (tracks e).

Lemma graph_invb_sound w : graph_invb w = true -> graph_inv w.
Proof.
  unfold graph_invb. rewrite !andb_true_iff, !forallb_forall.
  intros (((((((Hwf & Hnd) & Hex) & Hr) & Hs) & Hsy) & Ht) & Hw).
  apply bool_decide_eq_true in Hwf, Hnd, Hr.
  split; try done.
  - intros a b Hab. apply (Hwf (a, b) Hab).
  - apply Forall_forall. intros id Hin%list_elem_of_In. apply Nat.ltb_lt, Hex, Hin.
  - apply Forall_forall. intros t Hin%list_elem_of_In. apply (bool_decide_eq_true_1 _), Hs, Hin.
  - apply Forall_forall. intros t Hin%list_elem_of_In p. specialize (Hsy t Hin).
    rewrite forallb_forall in Hsy. apply (bool_decide_eq_true_1 _), Hsy. destruct p; cbn; tauto.
  - intros Hm. rewrite Hm in Ht. by destruct (tracks (eng w)).
  - apply Forall_forall. intros t Hin%list_elem_of_In. apply Nat.eqb_eq, Hw, Hin.
Qed.

(** ** A tick only adds voices to the graph *)

Local Open Scope nat_scope.

(** The nodes voices of a tick connect to: each track's input and
    reverb-send input. *)
Definition track_inputs (ts : list Track) : list nat :=
  concat (map (fun t => [getInputNode t; getReverbSendInputNode t]) ts).

Lemma trigger_track_grows smp g t c :
  grows [getInputNode t; getReverbSendInputNode t] c (trigger_track smp g t c).2.
Proof.
  unfold trigger_track. destruct (step_at t g); [|apply grows_refl].
  destruct (samples_get smp (Track.sound t)) as [cfg|]; [|apply grows_refl].
  exact (play_grows cfg (_volume t) (Some _) (Some _) c).
Qed.

Lemma trigger_tracks_grows smp g ts c :
  grows (track_inputs ts) c (trigger_tracks smp g ts c).2.
Proof.
  revert c. induction ts as [|t ts IH]; intros c; [apply grows_refl|].
  cbn [trigger_tracks]. rewrite WA_bind_unfold.
  destruct (trigger_track smp g t c) as [ok c1] eqn:E. cbv beta iota.
  apply (grows_trans _ c c1).
  - apply (grows_mono [getInputNode t; getReverbSendInputNode t]); [set_solver|].
    pose proof (trigger_track_grows smp g t c) as H. by rewrite E in H.
  - destruct ok; [|apply grows_refl].
    apply (grows_mono (track_inputs ts)); [set_solver|apply IH].
Qed.

Lemma trigger_track_keeps_time smp g t : keeps_time (trigger_track smp g t).
Proof. unfold trigger_track, SynthSamplePlayer.play. keeps_time_solve. Qed.

Lemma trigger_tracks_keeps_time smp g ts : keeps_time (trigger_tracks smp g ts).
Proof.
  induction ts as [|t ts IH]; cbn; [keeps_time_solve|].
  apply keeps_time_bind; [apply trigger_track_keeps_time|]. intros []; keeps_time_solve.
Qed.

(** A voice throws only for a sound that names a member of
    [Object.prototype] or before time 0, so with neither every track
    plays. *)
Lemma trigger_track_ok smp g t c :
  (0 <= currentTime c)%Q -> inherited_name (Track.sound t) = false ->
  (trigger_track smp g t c).1 = true.
Proof.
  intros Hc Hn. unfold trigger_track. destruct (step_at t g); [|done].
  rewrite samples_get_not_inherited by done.
  destruct (lookup_sample smp (Track.sound t)); [|done].
  unfold SynthSamplePlayer.play. by apply play_js_ok.
Qed.

Lemma trigger_tracks_ok smp g ts c :
  (0 <= currentTime c)%Q -> Forall (fun t => inherited_name (Track.sound t) = false) ts ->
  (trigger_tracks smp g ts c).1 = true.
Proof.
  intros Hc HF. revert c Hc. induction HF as [|t ts Ht _ IH]; intros c Hc; [done|].
  cbn [trigger_tracks]. rewrite WA_bind_unfold.
  pose proof (trigger_track_ok smp g t c Hc Ht) as Hok.
  pose proof (trigger_track_keeps_time smp g t c) as Htime.
  destruct (trigger_track smp g t c) as [ok c1]. cbn in Hok, Htime. subst ok.
  apply IH. by rewrite Htime.
Qed.

Lemma trigger_tracks_fails smp g ts t c :
  t ∈ ts -> step_at t g = true -> samples_get smp (Track.sound t) = Some Inherited ->
  (trigger_tracks smp g ts c).1 = false.
Proof.
  intros Ht Hs Hi. revert c. induction ts as [|t' ts IH]; intros c; [set_solver|].
  cbn [trigger_tracks]. rewrite WA_bind_unfold.
  destruct (trigger_track smp g t' c) as [[] c1] eqn:E; [|done].
  apply elem_of_cons in Ht as [Heq|Ht]; [subst t'|by apply IH].
  unfold trigger_track in E. rewrite Hs, Hi in E.
  change (play_js Inherited (currentTime c) (_volume t) (Some (getInputNode t))
            (Some (getReverbSendInputNode t)) c = (true, c1)) in E.
  pose proof (play_js_inherited (currentTime c) (_volume t) (Some (getInputNode t))
                (Some (getReverbSendInputNode t)) c) as H.
  by rewrite E in H.
Qed.

(** ** Distinct named nodes *)

Lemma concat_map_NoDup_same {A} (f : A -> list nat) ts t t' x :
  NoDup (concat (map f ts)) -> t ∈ ts -> t' ∈ ts -> x ∈ f t -> x ∈ f t' -> t = t'.
Proof.
  induction ts as [|u ts IH]; [set_solver|]. cbn. rewrite NoDup_app.
  intros (Hu & Hdis & Hrest) [->|Ht]%elem_of_cons [->|Ht']%elem_of_cons Hx Hx'; try done.
  - exfalso. apply (Hdis x Hx). apply list_elem_of_In, in_concat. exists (f t').
    rewrite <-!list_elem_of_In. split; [apply list_elem_of_In, in_map, list_elem_of_In|]; done.
  - exfalso. apply (Hdis x Hx'). apply list_elem_of_In, in_concat. exists (f t).
    rewrite <-!list_elem_of_In. split; [apply list_elem_of_In, in_map, list_elem_of_In|]; done.
  - by apply IH.
Qed.

Lemma NoDup_concat_map_in {A} (f : A -> list nat) ts t :
  NoDup (concat (map f ts)) -> t ∈ ts -> NoDup (f t).
Proof.
  induction ts as [|u ts IH]; [set_solver|]. cbn. rewrite NoDup_app.
  intros (Hu & _ & Hrest) [->|Ht]%elem_of_cons; auto.
Qed.

Definition track_ids (ts : list Track) : list nat :=
  concat (map (fun t => node_ids (trackNodes t)) ts).

Lemma named_nodes_tracks e : named_nodes e = default [] (master_ids <$> masters e) ++ track_ids (tracks e).
Proof. done. Qed.

Lemma in_track_ids ts t x : t ∈ ts -> x ∈ node_ids (trackNodes t) -> x ∈ track_ids ts.
Proof.
  intros Ht Hx. apply list_elem_of_In, in_concat. exists (node_ids (trackNodes t)).
  rewrite <-!list_elem_of_In. split; [|done].
  apply list_elem_of_In, (in_map (fun t => node_ids (trackNodes t))), list_elem_of_In, Ht.
Qed.

Lemma in_track_inputs ts x :
  x ∈ track_inputs ts -> exists t, t ∈ ts /\ (x = getInputNode t \/ x = getReverbSendInputNode t).
Proof.
  intros Hx. apply list_elem_of_In, in_concat in Hx as (l & Hl & Hx).
  apply in_map_iff in Hl as (t & <- & Ht). exists t. split; [by apply list_elem_of_In|].
  destruct Hx as [<-|[<-|[]]]; auto.
Qed.

(** A reverb-send gain is none of the nodes voices connect to. *)
Lemma rsg_not_input e t x :
  NoDup (named_nodes e) -> t ∈ tracks e -> x ∈ track_inputs (tracks e) ->
  x <> reverbSendGain (trackNodes t).
Proof.
  rewrite named_nodes_tracks, NoDup_app. intros (_ & _ & Hnd) Ht (t' & Ht' & Hx)%in_track_inputs ->.
  assert (t = t') as <-.
  { apply (concat_map_NoDup_same (fun t => node_ids (trackNodes t)) (tracks e) t t'
             (reverbSendGain (trackNodes t))); try done; [set_solver|].
    unfold node_ids, getInputNode, getReverbSendInputNode in *. destruct Hx as [<-|<-]; set_solver. }
  pose proof (NoDup_concat_map_in (fun t => node_ids (trackNodes t)) _ t Hnd Ht) as Hd.
  unfold node_ids, getInputNode, getReverbSendInputNode in *. rewrite !NoDup_cons in Hd.
  destruct Hx as [Hx|Hx]; rewrite <-Hx in Hd; set_solver.
Qed.

Lemma rsg_not_master e ms t :
  masters e = Some ms -> NoDup (named_nodes e) -> t ∈ tracks e ->
  masterInputGain ms <> reverbSendGain (trackNodes t).
Proof.
  rewrite named_nodes_tracks. intros -> (_ & Hdis & _)%NoDup_app Ht Heq.
  apply (Hdis (masterInputGain ms)); [cbn; set_solver|].
  rewrite Heq. apply (in_track_ids _ t); [done|unfold node_ids; set_solver].
Qed.

Lemma track_ids_exist e c t :
  Forall (fun id => id < length (nodes c)) (named_nodes e) -> t ∈ tracks e ->
  Forall (fun id => id < length (nodes c)) (node_ids (trackNodes t)).
Proof.
  rewrite named_nodes_tracks, Forall_app, !Forall_forall. intros [_ H] Ht x Hx.
  apply H, (in_track_ids _ t); done.
Qed.

Lemma track_synced_frame c c' t :
  frame [] c c' -> Forall (fun id => id < length (nodes c)) (node_ids (trackNodes t)) ->
  track_synced c t -> track_synced c' t.
Proof.
  intros F Hex Hs p. specialize (Hs p). unfold synced_param in *.
  unfold node_ids in Hex. rewrite !Forall_cons in Hex.
  destruct p; cbn in *; rewrite (frame_param_value c c'); tauto.
Qed.

Lemma named_nodes_same e e' :
  masters e' = masters e -> tracks e' = tracks e -> named_nodes e' = named_nodes e.
Proof. unfold named_nodes. by intros -> ->. Qed.

Lemma routing_same e e' :
  masters e' = masters e -> tracks e' = tracks e -> routing e' = routing e.
Proof. unfold routing. by intros -> ->. Qed.

(** The graph invariant only looks at the context, the masters and the
    tracks. *)
Lemma graph_inv_same w w' :
  ctx w' = ctx w -> masters (eng w') = masters (eng w) -> tracks (eng w') = tracks (eng w) ->
  graph_inv w -> graph_inv w'.
Proof.
  intros Hc Hm Ht [Hwf Hnd Hex Hr Hs Hsy Htr Htw].
  split; rewrite ?(named_nodes_same _ _ Hm Ht), ?(routing_same _ _ Hm Ht), ?Hc, ?Hm, ?Ht; done.
Qed.

(** The graph invariant survives any growth of the context towards nodes
    that exist and are no reverb-send gain. *)
Lemma graph_inv_grow w w' D :
  masters (eng w') = masters (eng w) -> tracks (eng w') = tracks (eng w) ->
  graph_inv w -> grows D (ctx w) (ctx w') ->
  (forall d, d ∈ D -> d < length (nodes (ctx w)) /\
     Forall (fun t => d <> reverbSendGain (trackNodes t)) (tracks (eng w))) ->
  graph_inv w'.
Proof.
  intros Hm Htr [Hwf Hnd Hex Hr Hs Hsy Ht Htw] Hg HD.
  pose proof Hg as (Hlen & F & Hsub & _).
  split; rewrite ?(named_nodes_same _ _ Hm Htr), ?(routing_same _ _ Hm Htr), ?Hm, ?Htr; try done.
  - apply (grows_graph_wf D (ctx w)); [done| |done].
    apply Forall_forall. intros d Hd. apply HD, Hd.
  - eapply Forall_impl; [apply Hex|]. intros ? Hx. cbv beta in Hx. lia.
  - set_solver.
  - apply Forall_forall. intros t Htin. rewrite Forall_forall in Hs.
    unfold no_input in *. apply (grows_no_input D (ctx w)); [done| |..|by apply Hs].
    + pose proof (track_ids_exist _ _ t Hex Htin) as Hti. unfold node_ids in Hti.
      rewrite !Forall_cons in Hti. tauto.
    + intros Hin. apply HD in Hin as [_ Hin]. rewrite Forall_forall in Hin.
      by apply (Hin t).
  - apply Forall_forall. intros t Htin. rewrite Forall_forall in Hsy.
    apply (track_synced_frame (ctx w)); [done|by apply (track_ids_exist (eng w))|by apply Hsy].
Qed.

(** The nodes a tick's voices connect to satisfy that condition. *)
Lemma track_inputs_ok w d :
  graph_inv w -> d ∈ track_inputs (tracks (eng w)) ->
  d < length (nodes (ctx w)) /\
  Forall (fun t => d <> reverbSendGain (trackNodes t)) (tracks (eng w)).
Proof.
  intros [_ Hnd Hex _ _ _ _ _] Hd. split.
  - pose proof Hd as (t & Ht & Hx)%in_track_inputs.
    pose proof (track_ids_exist _ _ t Hex Ht) as Hti. unfold node_ids in Hti.
    rewrite !Forall_cons in Hti.
    unfold getInputNode, getReverbSendInputNode in Hx. destruct Hx as [->| ->]; tauto.
  - apply Forall_forall. intros t Ht. by apply (rsg_not_input (eng w)).
Qed.

(** ** The clock invariant, operation by operation *)

Definition clock_view (w : World) :=
  (isPlaying (eng w), bpm (eng w), currentStep (eng w), globalStepCount (eng w),
   intervalId (eng w), timers w, nextTimer w).

Lemma clock_inv_view w w' : clock_view w' = clock_view w -> clock_inv w -> clock_inv w'.
Proof.
  unfold clock_view. intros [= Hp Hb Hs Hc Hi Ht Hn] [C1 C2 C3 C4].
  split; rewrite ?Hp, ?Hb, ?Hs, ?Hc, ?Hi, ?Ht, ?Hn; done.
Qed.

Lemma play_clock w : clock_inv w -> clock_inv (play w).
Proof.
  intros Hc. unfold play. destruct (isPlaying (eng w)) eqn:Hp; [done|].
  destruct Hc as [C1 C2 C3 C4]. rewrite Hp in C4.
  destruct (intervalId (eng w)) as [id|]; [by destruct C4|].
  destruct C4 as [_ Ht]. split; cbn; try done; try lia.
  split; [done|split; [lia|]]. by rewrite Ht, insert_empty.
Qed.

(** [stop] needs less than the invariant: any period will do. *)
Lemma stop_clock w :
  globalStepCount (eng w) = 16 -> 1 <= nextTimer w ->
  match intervalId (eng w) with
  | Some id => 1 <= id < nextTimer w /\ exists p, timers w = {[id := p]}
  | None => timers w = ∅
  end ->
  clock_inv (stop w).
Proof.
  intros C1 C3 C4. unfold stop. cbn.
  destruct (intervalId (eng w)) as [id|]; cbn.
  - destruct C4 as (Hid & p & Ht). rewrite decide_False by lia.
    split; cbn; try done; try lia. split; [done|]. rewrite Ht, delete_singleton. by rewrite decide_True.
  - split; cbn; try done; lia || done.
Qed.

Lemma setBPM_clock b w : clock_inv w -> clock_inv (setBPM b w).
Proof.
  intros [C1 C2 C3 C4]. unfold setBPM. cbn [eng set_eng with_bpm isPlaying]. destruct (isPlaying (eng w)) eqn:Hp.
  - apply play_clock, stop_clock; cbn; try done.
    destruct (intervalId (eng w)) as [id|]; [|by destruct C4].
    destruct C4 as (_ & Hid & Ht). eauto.
  - split; cbn; try done.
    destruct (intervalId (eng w)) as [id|]; [by destruct C4|tauto].
Qed.

Lemma tick_clock w : clock_inv w -> clock_inv (tick w).
Proof.
  intros Hc. unfold tick, playStep, run_wa.
  destruct (trigger_tracks _ _ _ _) as [[] c]; [|by apply (clock_inv_view w)].
  destruct Hc as [C1 C2 C3 C4]. split; cbn; try done.
  rewrite C1. apply Nat.mod_upper_bound. done.
Qed.

(** ** The graph invariant, operation by operation *)

(** Two tracks with the same nodes and mixing parameters. *)
Definition same_mix (t t' : Track) : Prop :=
  trackNodes t' = trackNodes t /\ forall p, tparam p t' = tparam p t.

Lemma Forall2_elem_r {A B} (R : A -> B -> Prop) l l' y :
  Forall2 R l l' -> y ∈ l' -> exists x, x ∈ l /\ R x y.
Proof.
  induction 1 as [|x y' l l' Hxy _ IH]; [set_solver|].
  intros [->|Hy]%elem_of_cons; [exists x; split; [set_solver|done]|].
  destruct (IH Hy) as (x' & Hx' & Hr). exists x'. split; [set_solver|done].
Qed.

Definition same_nodes (t t' : Track) : Prop := trackNodes t' = trackNodes t.

Lemma map_same_nodes {B} (f : TrackNodes -> B) ts ts' :
  Forall2 same_nodes ts ts' ->
  map (fun t => f (trackNodes t)) ts' = map (fun t => f (trackNodes t)) ts.
Proof. induction 1 as [|t t' ts ts' Hn _ IH]; [done|]. cbn. by rewrite Hn, IH. Qed.

Lemma same_mix_nodes ts ts' : Forall2 same_mix ts ts' -> Forall2 same_nodes ts ts'.
Proof. intros H. eapply Forall2_impl; [exact H|]. by intros ?? []. Qed.

Lemma named_routing_same_nodes e e' :
  masters e' = masters e -> Forall2 same_nodes (tracks e) (tracks e') ->
  named_nodes e' = named_nodes e /\ routing e' = routing e.
Proof.
  intros Hm Hn. unfold named_nodes, routing. rewrite Hm.
  rewrite (map_same_nodes node_ids _ _ Hn).
  destruct (masters e); [|done]. by rewrite (map_same_nodes (track_routing m) _ _ Hn).
Qed.

Lemma track_synced_same_mix c t t' : same_mix t t' -> track_synced c t -> track_synced c t'.
Proof. intros [Hn Hp] Hs p. specialize (Hs p). unfold synced_param in *. by rewrite Hn, Hp. Qed.

(** Editing the patterns or the sounds keeps the graph invariant. *)
Lemma graph_inv_mix w w' :
  ctx w' = ctx w -> masters (eng w') = masters (eng w) ->
  Forall2 same_mix (tracks (eng w)) (tracks (eng w')) -> Forall track_wf (tracks (eng w')) ->
  graph_inv w -> graph_inv w'.
Proof.
  intros Hc Hm Hmix Hwf' [Hwf Hnd Hex Hr Hs Hsy Ht Htw].
  destruct (named_routing_same_nodes (eng w) (eng w') Hm) as [Hnn Hro];
    [by apply same_mix_nodes|].
  split; rewrite ?Hnn, ?Hro, ?Hc; try done.
  - apply Forall_forall. intros t' Ht'.
    destruct (Forall2_elem_r _ _ _ _ Hmix Ht') as (t & Hin & [Hn _]).
    rewrite Hn. rewrite Forall_forall in Hs. by apply Hs, Hin.
  - apply Forall_forall. intros t' Ht'.
    destruct (Forall2_elem_r _ _ _ _ Hmix Ht') as (t & Hin & Hm').
    rewrite Forall_forall in Hsy. apply (track_synced_same_mix _ t); [done|by apply Hsy, Hin].
  - rewrite Hm. intros Hnone. specialize (Ht Hnone). rewrite Ht in Hmix.
    by inversion Hmix.
Qed.

(** Parameter writes keep the graph invariant when the tracks stay synced. *)
Lemma graph_inv_retune w w' :
  masters (eng w') = masters (eng w) ->
  Forall2 same_nodes (tracks (eng w)) (tracks (eng w')) ->
  length (nodes (ctx w')) = length (nodes (ctx w)) -> edges (ctx w') = edges (ctx w) ->
  Forall (track_synced (ctx w')) (tracks (eng w')) -> Forall track_wf (tracks (eng w')) ->
  graph_inv w -> graph_inv w'.
Proof.
  intros Hm Hsn Hl He Hsy' Hwf' [Hwf Hnd Hex Hr Hs Hsy Ht Htw].
  destruct (named_routing_same_nodes (eng w) (eng w') Hm Hsn) as [Hnn Hro].
  split; rewrite ?Hnn, ?Hro, ?Hl, ?He; try done.
  - intros a b. rewrite He, Hl. apply Hwf.
  - apply Forall_forall. intros t' Ht'.
    destruct (Forall2_elem_r _ _ _ _ Hsn Ht') as (t & Hin & Hn).
    unfold same_nodes, no_input in *. rewrite Hn, He. rewrite Forall_forall in Hs. by apply Hs.
  - rewrite Hm. intros Hnone. specialize (Ht Hnone). rewrite Ht in Hsn. by inversion Hsn.
Qed.

Lemma Forall2_same_nodes_refl ts : Forall2 same_nodes ts ts.
Proof. apply Forall_Forall2_diag, Forall_forall. done. Qed.

Lemma concat_map_NoDup_lookup {A} (f : A -> list nat) ts i j a b x :
  NoDup (concat (map f ts)) -> ts !! i = Some a -> ts !! j = Some b -> i <> j ->
  x ∈ f a -> x ∈ f b -> False.
Proof.
  revert i j. induction ts as [|u ts IH]; intros i j; [done|]. cbn. rewrite NoDup_app.
  intros (_ & Hdis & Hrest) Ha Hb Hij Hxa Hxb.
  destruct i as [|i], j as [|j]; simplify_eq/=.
  - apply (Hdis x Hxa), list_elem_of_In, in_concat. exists (f b).
    rewrite <-!list_elem_of_In. split; [|done].
    apply list_elem_of_In, (in_map f), list_elem_of_In. by eapply list_elem_of_lookup_2.
  - apply (Hdis x Hxb), list_elem_of_In, in_concat. exists (f a).
    rewrite <-!list_elem_of_In. split; [|done].
    apply list_elem_of_In, (in_map f), list_elem_of_In. by eapply list_elem_of_lookup_2.
  - apply (IH i j); auto.
Qed.

Lemma tparam_node_in p n : (tparam_node p n).1 ∈ node_ids n.
Proof. unfold node_ids. destruct p; cbn; set_solver. Qed.

(** A write to a node outside a track keeps the track synced. *)
Lemma synced_set_other c t id ap v :
  id ∉ node_ids (trackNodes t) -> track_synced c t -> track_synced (set_value id ap v c) t.
Proof.
  intros Hout Hs p. specialize (Hs p). unfold synced_param in *.
  pose proof (tparam_node_in p (trackNodes t)) as Hin.
  destruct (tparam_node p (trackNodes t)) as [id' ap'] eqn:E. cbn in Hin.
  rewrite param_value_set_other; [done|]. intros [= -> _]. done.
Qed.

Lemma master_not_track e ms t x :
  masters e = Some ms -> NoDup (named_nodes e) -> t ∈ tracks e ->
  x ∈ master_ids ms -> x ∉ node_ids (trackNodes t).
Proof.
  rewrite named_nodes_tracks. intros -> (_ & Hdis & _)%NoDup_app Ht Hx Hxt.
  apply (Hdis x); [done|]. by apply (in_track_ids _ t).
Qed.

Lemma setMaster_graph p v w w' : setMaster p v w = Some w' -> graph_inv w -> graph_inv w'.
Proof.
  unfold setMaster. destruct (masters (eng w)) as [ms|] eqn:Hm; [|done].
  intros [= <-] Hinv. pose proof Hinv as [_ Hnd _ _ _ Hsy _ Htw].
  apply (graph_inv_retune w); cbn; try done.
  - apply Forall2_same_nodes_refl.
  - apply length_set_value.
  - apply Forall_forall. intros t Ht. rewrite Forall_forall in Hsy.
    apply synced_set_other; [|by apply Hsy].
    apply (master_not_track (eng w) ms); try done. destruct p; cbn; set_solver.
Qed.

Lemma track_at_lookup e i t :
  track_at e i = Some t -> (0 <= i)%Z /\ tracks e !! Z.to_nat i = Some t.
Proof. unfold track_at. destruct (0 <=? i)%Z eqn:E; [|done]. rewrite Z.leb_le in E. done. Qed.

Lemma named_tracks_NoDup e : NoDup (named_nodes e) -> NoDup (track_ids (tracks e)).
Proof. rewrite named_nodes_tracks, NoDup_app. tauto. Qed.

Lemma setTrackParam_graph p i v w : graph_inv w -> graph_inv (setTrackParam p i v w).
Proof.
  intros Hinv. unfold setTrackParam.
  destruct (track_at (eng w) i) as [t|] eqn:Ht; [|done].
  apply track_at_lookup in Ht as [_ Hn]. set (n := Z.to_nat i) in *.
  unfold run_wa. rewrite set_tparam_run. cbn.
  pose proof Hinv as [_ Hnd%named_tracks_NoDup Hex _ _ Hsy _ Htw].
  assert (Hlt : n < length (tracks (eng w))) by (by eapply lookup_lt_Some).
  apply (graph_inv_retune w); cbn; try done.
  - rewrite <-(list_insert_id (tracks (eng w)) n t) at 1 by done.
    apply Forall2_insert; [apply Forall2_same_nodes_refl|done].
  - apply length_set_value.
  - apply Forall_lookup_2. intros j u Hj. rewrite list_lookup_insert in Hj.
    case_decide as Hc.
    + destruct Hc as [<- _]. injection Hj as <-.
      pose proof (set_tparam_synced p v t (ctx w)) as Hs. rewrite set_tparam_run in Hs.
      apply Hs.
      * by apply (NoDup_concat_map_in (fun t => node_ids (trackNodes t)) (tracks (eng w))),
          list_elem_of_lookup_2 with n.
      * by apply (track_ids_exist (eng w)), list_elem_of_lookup_2 with n.
      * intros p' _. by apply (Forall_lookup_1 _ _ n t Hsy Hn).
    + assert (j <> n) by (intros ->; apply Hc; done).
      apply synced_set_other; [|by apply (Forall_lookup_1 _ _ j u Hsy Hj)].
      intros Hin. apply (concat_map_NoDup_lookup (fun t => node_ids (trackNodes t))
                           (tracks (eng w)) n j t u (tparam_node p (trackNodes t)).1);
        try done; first [lia|apply tparam_node_in].
  - apply Forall_insert; [done|]. apply (Forall_lookup_1 _ _ n t Htw Hn).
Qed.

Lemma same_mix_refl t : same_mix t t.
Proof. done. Qed.

Lemma set_track_graph w i t t' :
  graph_inv w -> track_at (eng w) i = Some t -> same_mix t t' -> track_wf t' ->
  graph_inv (set_track i t' w).
Proof.
  intros Hinv (_ & Hn)%track_at_lookup Hmix Hwf.
  apply (graph_inv_mix w); try done; cbn.
  - rewrite <-(list_insert_id (tracks (eng w)) (Z.to_nat i) t) at 1 by done.
    apply Forall2_insert; [apply Forall_Forall2_diag, Forall_forall; done|done].
  - apply Forall_insert; [apply Hinv|done].
Qed.

Lemma setTrackStepCount_graph i n w : graph_inv w -> graph_inv (setTrackStepCount i n w).
Proof.
  intros Hinv. unfold setTrackStepCount. destruct (track_at (eng w) i) as [t|] eqn:Ht; [|done].
  apply (set_track_graph w i t); try done.
  - unfold setStepCount. case_decide; done.
  - apply setStepCount_wf. apply (Forall_lookup_1 _ _ (Z.to_nat i) t (gi_track_wf _ Hinv)).
    by apply track_at_lookup.
Qed.

Lemma setTrackSound_graph i s w : graph_inv w -> graph_inv (setTrackSound i s w).
Proof.
  intros Hinv. unfold setTrackSound. destruct (track_at (eng w) i) as [t|] eqn:Ht; [|done].
  apply (set_track_graph w i t); try done.
  apply (Forall_lookup_1 _ _ (Z.to_nat i) t (gi_track_wf _ Hinv)). by apply track_at_lookup.
Qed.

Lemma toggleStep_graph i s w : graph_inv w -> graph_inv (toggleStep i s w).2.
Proof.
  intros Hinv. unfold toggleStep. destruct (track_at (eng w) i) as [t|] eqn:Ht; [|done].
  destruct (s <? Z.of_nat (_stepCount t))%Z eqn:Hs; [|done]. apply Z.ltb_lt in Hs.
  apply (set_track_graph w i t); try done.
  pose proof (Forall_lookup_1 _ _ (Z.to_nat i) t (gi_track_wf _ Hinv)) as Hwf.
  apply track_at_lookup in Ht as [_ Ht]. specialize (Hwf Ht). unfold track_wf in *. cbn.
  unfold js_set. destruct (0 <=? s)%Z eqn:Hz; [|done]. apply Z.leb_le in Hz.
  rewrite decide_True by lia. cbn [elems]. by rewrite length_insert.
Qed.

Lemma clearAll_graph w : graph_inv w -> graph_inv (clearAll w).
Proof.
  intros Hinv. apply (graph_inv_mix w); try done; cbn.
  - generalize (tracks (eng w)). intros ts. induction ts; constructor; done.
  - apply Forall_forall. intros t' (t & <- & Ht)%list_elem_of_In%in_map_iff.
    unfold track_wf. cbn. rewrite length_replicate.
    pose proof (gi_track_wf _ Hinv) as Hwf. rewrite Forall_forall in Hwf.
    apply Hwf, list_elem_of_In, Ht.
Qed.

Lemma tick_graph w : graph_inv w -> graph_inv (tick w).
Proof.
  intros Hinv. unfold tick, playStep, run_wa.
  pose proof (trigger_tracks_grows (samples (eng w)) (currentStep (eng w)) (tracks (eng w)) (ctx w))
    as Hg.
  destruct (trigger_tracks _ _ _ _) as [ok c'] eqn:E. cbn in Hg.
  assert (Hw : graph_inv (set_ctx c' w)).
  { apply (graph_inv_grow w _ (track_inputs (tracks (eng w)))); try done.
    intros d Hd. by apply track_inputs_ok. }
  destruct ok; [|exact Hw]. by apply (graph_inv_same (set_ctx c' w)).
Qed.

Lemma playSound_graph s w : graph_inv w -> graph_inv (playSound s w).2.
Proof.
  unfold playSound. destruct (samples_get _ _) as [cfg|]; [|done].
  destruct (masters (eng w)) as [ms|] eqn:Hm; [|done]. intros Hinv.
  pose proof (play_grows cfg 1 (Some (masterInputGain ms)) None (ctx w)) as Hg.
  unfold run_wa. destruct (SynthSamplePlayer.play _ _ _ _ _) as [u c'] eqn:E. cbn in Hg |- *.
  apply (graph_inv_grow w _ [masterInputGain ms]); try done.
  intros d ->%list_elem_of_singleton. pose proof Hinv as [_ Hnd Hex _ _ _ _ _]. split.
  - rewrite named_nodes_tracks, Hm, Forall_app in Hex. destruct Hex as [Hex _].
    rewrite Forall_forall in Hex. apply Hex. cbn. set_solver.
  - apply Forall_forall. intros t Ht. by apply (rsg_not_master (eng w)).
Qed.

Lemma advance_graph dt w : graph_inv w -> graph_inv (set_ctx (advance_time dt (ctx w)) w).
Proof.
  intros Hinv. apply (graph_inv_retune w); try done.
  - apply Forall2_same_nodes_refl.
  - apply (gi_synced _ Hinv).
  - apply (gi_track_wf _ Hinv).
Qed.

(** [play], [stop], [setBPM] and the recording flags leave the graph,
    the masters and the tracks alone. *)
Lemma play_refs w :
  ctx (play w) = ctx w /\ masters (eng (play w)) = masters (eng w) /\
  tracks (eng (play w)) = tracks (eng w).
Proof. unfold play. by destruct (isPlaying (eng w)). Qed.

Lemma stop_refs w :
  ctx (stop w) = ctx w /\ masters (eng (stop w)) = masters (eng w) /\
  tracks (eng (stop w)) = tracks (eng w).
Proof. unfold stop. cbn. destruct (intervalId (eng w)); [case_decide|]; done. Qed.

Lemma setBPM_refs b w :
  ctx (setBPM b w) = ctx w /\ masters (eng (setBPM b w)) = masters (eng w) /\
  tracks (eng (setBPM b w)) = tracks (eng w).
Proof.
  unfold setBPM. cbn [eng set_eng with_bpm isPlaying]. destruct (isPlaying (eng w)); [|done].
  destruct (play_refs (stop (set_eng (with_bpm b (eng w)) w))) as (-> & -> & ->).
  destruct (stop_refs (set_eng (with_bpm b (eng w)) w)) as (-> & -> & ->). done.
Qed.

(** ** Every reachable world satisfies the invariants *)

Definition engine_inv (w : World) : Prop := clock_inv w /\ graph_inv w.

Lemma clock_inv_stop w : clock_inv w -> clock_inv (stop w).
Proof.
  intros [C1 C2 C3 C4]. apply stop_clock; try done.
  destruct (intervalId (eng w)); [|tauto]. destruct C4 as (_ & ? & ?). eauto.
Qed.

Ltac clock_same w :=
  apply (clock_inv_view w); [|done];
  unfold setTrackParam, setTrackStepCount, setTrackSound, toggleStep, run_wa;
  repeat case_match; simplify_eq; reflexivity.

Lemma init_inv env : engine_inv (init env initial_world).
Proof.
  destruct env as [[] sr [b|]];
    (split; [split; vm_compute; try lia; split; reflexivity|]);
    apply graph_invb_sound; vm_compute; reflexivity.
Qed.

Lemma exec_inv o w w' : engine_inv w -> exec o w = Some w' -> engine_inv w'.
Proof.
  intros [Hc Hg]. destruct o; cbn [exec].
  - intros [= <-]. destruct (play_refs w) as (? & ? & ?).
    split; [by apply play_clock|by apply (graph_inv_same w)].
  - intros [= <-]. destruct (stop_refs w) as (? & ? & ?).
    split; [by apply clock_inv_stop|by apply (graph_inv_same w)].
  - intros [= <-]. destruct (setBPM_refs b w) as (? & ? & ?).
    split; [by apply setBPM_clock|by apply (graph_inv_same w)].
  - intros H. split; [|by apply (setMaster_graph p v w)].
    revert H. unfold setMaster. destruct (masters (eng w)); [|done]. intros [= <-].
    by apply (clock_inv_view w).
  - intros [= <-]. split; [clock_same w|by apply setTrackParam_graph].
  - intros [= <-]. split; [clock_same w|by apply setTrackStepCount_graph].
  - intros [= <-]. split; [clock_same w|by apply setTrackSound_graph].
  - intros [= <-]. split; [clock_same w|by apply toggleStep_graph].
  - intros [= <-]. split; [|by apply playSound_graph].
    apply (clock_inv_view w); [|done]. unfold playSound, run_wa. by repeat case_match.
  - intros [= <-]. split; [by apply (clock_inv_view w)|by apply clearAll_graph].
  - intros [= <-]. split; [by apply (clock_inv_view w)|by apply (graph_inv_same w)].
  - intros [= <-]. split; [by apply (clock_inv_view w)|by apply (graph_inv_same w)].
  - intros [= <-]. split; [by apply (clock_inv_view w)|by apply (graph_inv_same w)].
  - destruct (timers w !! id); intros [= <-]. split; [by apply tick_clock|by apply tick_graph].
  - destruct (Qle_bool 0 dt); intros [= <-].
    split; [by apply (clock_inv_view w)|by apply advance_graph].
Qed.

Lemma reachable_inv env w : reachable env w -> engine_inv w.
Proof.
  unfold reachable. revert w. apply rtc_ind_r; [apply init_inv|].
  intros y z _ Hs Hy. destruct Hs as [o y z Hexec]. by apply (exec_inv o y).
Qed.

(** ** Claims about the live engine *)

Lemma routing_in_edges w ms t :
  graph_inv w -> masters (eng w) = Some ms -> t ∈ tracks (eng w) ->
  master_routing ms ∪ track_routing ms (trackNodes t) ⊆ edges (ctx w).
Proof.
  intros Hinv Hm Ht. pose proof (gi_routing _ Hinv) as Hr. unfold routing in Hr. rewrite Hm in Hr.
  intros e He. apply Hr. apply elem_of_union in He as [He|He]; [set_solver|].
  apply elem_of_union_r, elem_of_union_list. exists (track_routing ms (trackNodes t)).
  split; [|done]. apply list_elem_of_In, (in_map (fun t => track_routing ms (trackNodes t))).
  by apply list_elem_of_In.
Qed.

Lemma tracks_have_masters w t :
  graph_inv w -> t ∈ tracks (eng w) -> exists ms, masters (eng w) = Some ms.
Proof.
  intros Hinv Ht. destruct (masters (eng w)) as [ms|] eqn:Hm; [eauto|].
  rewrite (gi_tracks _ Hinv Hm) in Ht. set_solver.
Qed.

(** A session whose [init] succeeds, at 44.1 kHz with an impulse response. *)
Definition example_env : InitEnv := {| ctxAvailable := true; envSampleRate := 44100; irBuffer := Some 1%nat |}.
Abbreviation example_world := (init example_env initial_world).

(** Its first track ([kick-01]), as [init] builds it. *)
Definition example_track : Track :=
  Eval vm_compute in
  match tracks (eng example_world) with
  | t :: _ => t
  | [] => (new_Track example_config (new_context 0)).1
  end.

Lemma example_track_in : example_track ∈ tracks (eng example_world).
Proof. apply list_elem_of_In. vm_compute. left. reflexivity. Qed.

(** C2: in every reachable state the step index stays in [0, 16), and an
    interval timer is active exactly while playing, with the period
    [(60 / bpm) * 1000 / 4] of the current tempo; no second timer is ever
    left running (the clock never ticks twice per step). *)
Theorem engine_clock_discipline env w :
  reachable env w ->
  (currentStep (eng w) < 16)%nat /\
  match intervalId (eng w) with
  | Some id => isPlaying (eng w) = true /\ timers w = {[id := stepDuration (bpm (eng w))]}
  | None => isPlaying (eng w) = false /\ timers w = ∅
  end.
Proof.
  intros [[C1 C2 C3 C4] _]%reachable_inv. split; [done|].
  destruct (intervalId (eng w)); tauto.
Qed.

Lemma engine_clock_discipline_witness :
  reachable example_env (play example_world) /\
  (currentStep (eng (play example_world)) < 16)%nat /\
  match intervalId (eng (play example_world)) with
  | Some id => isPlaying (eng (play example_world)) = true /\
               timers (play example_world) = {[id := stepDuration (bpm (eng (play example_world)))]}
  | None => isPlaying (eng (play example_world)) = false /\ timers (play example_world) = ∅
  end.
Proof.
  assert (H : reachable example_env (play example_world)).
  { apply rtc_once, (step_exec OPlay). cbn [exec]. reflexivity. }
  split; [exact H|]. apply (engine_clock_discipline example_env), H.
Defined.

(** C1: in every reachable state nothing is connected into any track's
    reverb-send gain: the voices' send goes to [getReverbSendInputNode()],
    which is the track gain, and no other call connects to the send.  So
    the reverb-send gain, and with it the track's [reverbAmount], never
    carries signal in the live engine. *)
Theorem live_reverb_send_silent env w t x :
  reachable env w -> t ∈ tracks (eng w) ->
  reaches (edges (ctx w)) x (reverbSendGain (trackNodes t)) -> x = reverbSendGain (trackNodes t).
Proof.
  intros [_ Hinv]%reachable_inv Ht. apply reaches_no_input. intros a Hin.
  pose proof (gi_silent _ Hinv) as Hs. rewrite Forall_forall in Hs.
  by apply (Hs t Ht (a, reverbSendGain (trackNodes t)) Hin).
Qed.

Lemma live_reverb_send_silent_witness :
  let r := reverbSendGain (trackNodes example_track) in
  reachable example_env example_world /\ example_track ∈ tracks (eng example_world) /\
  reaches (edges (ctx example_world)) r r /\ r = r.
Proof.
  assert (Hr : reachable example_env example_world) by apply rtc_refl.
  split; [exact Hr|]. split; [exact example_track_in|]. split; [constructor|].
  apply (live_reverb_send_silent example_env example_world _ _ Hr example_track_in).
  constructor.
Defined.

(** C4: in every reachable state each track's EQ input and gain reach the
    audio destination: EQ-low -> EQ-high -> panner -> gain -> master
    input -> master EQ-low -> master EQ-high -> master gain -> destination. *)
Theorem live_track_reaches_destination env w t :
  reachable env w -> t ∈ tracks (eng w) ->
  reaches (edges (ctx w)) (eqLowFilter (trackNodes t)) destination /\
  reaches (edges (ctx w)) (gainNode (trackNodes t)) destination.
Proof.
  intros [_ Hinv]%reachable_inv Ht.
  destruct (tracks_have_masters w t Hinv Ht) as [ms Hm].
  pose proof (routing_in_edges w ms t Hinv Hm Ht) as Hr.
  unfold master_routing, track_routing in Hr.
  assert (Hg : reaches (edges (ctx w)) (gainNode (trackNodes t)) destination).
  { apply (reaches_step _ _ (masterInputGain ms)); [set_solver|].
    apply (reaches_step _ _ (masterEQLow ms)); [set_solver|].
    apply (reaches_step _ _ (masterEQHigh ms)); [set_solver|].
    apply (reaches_step _ _ (masterGain ms)); [set_solver|].
    apply (reaches_step _ _ destination); [set_solver|constructor]. }
  split; [|done].
  apply (reaches_step _ _ (eqHighFilter (trackNodes t))); [set_solver|].
  apply (reaches_step _ _ (pannerNode (trackNodes t))); [set_solver|].
  apply (reaches_step _ _ (gainNode (trackNodes t))); [set_solver|done].
Qed.

Lemma live_track_reaches_destination_witness :
  reachable example_env example_world /\ example_track ∈ tracks (eng example_world) /\
  reaches (edges (ctx example_world)) (eqLowFilter (trackNodes example_track)) destination /\
  reaches (edges (ctx example_world)) (gainNode (trackNodes example_track)) destination.
Proof.
  assert (Hr : reachable example_env example_world) by apply rtc_refl.
  split; [exact Hr|]. split; [exact example_track_in|].
  apply (live_track_reaches_destination example_env example_world _ Hr example_track_in).
Defined.

(** What one tick leaves alone, whether or not a voice throws. *)
Lemma tick_frame w :
  tracks (eng (tick w)) = tracks (eng w) /\ isPlaying (eng (tick w)) = isPlaying (eng w) /\
  intervalId (eng (tick w)) = intervalId (eng w) /\ bpm (eng (tick w)) = bpm (eng w) /\
  globalStepCount (eng (tick w)) = globalStepCount (eng w) /\
  onStepPlay (eng (tick w)) = onStepPlay (eng w) /\ timers (tick w) = timers w /\
  currentTime (ctx (tick w)) = currentTime (ctx w).
Proof.
  pose proof (trigger_tracks_keeps_time (samples (eng w)) (currentStep (eng w)) (tracks (eng w))
                (ctx w)) as Ht.
  unfold tick, playStep, run_wa. destruct (trigger_tracks _ _ _ _) as [[] c]; by cbn in *.
Qed.

(** A tick whose voices all return advances the step index and
    notifies the observer. *)
Lemma tick_fields w :
  (playStep w).1 = true ->
  currentStep (eng (tick w)) = (currentStep (eng w) + 1) mod globalStepCount (eng w) /\
  notified (tick w) =
    notified w ++ (if onStepPlay (eng w) then [currentStep (eng w)] else []).
Proof.
  unfold tick, playStep, run_wa.
  destruct (trigger_tracks _ _ _ _) as [[] c]; cbn; intros H; [done|discriminate].
Qed.

(** A tick in which a voice throws leaves the engine and the observer's
    log as they were. *)
Lemma tick_stalls w :
  (playStep w).1 = false -> eng (tick w) = eng w /\ notified (tick w) = notified w.
Proof.
  unfold tick, playStep, run_wa.
  destruct (trigger_tracks _ _ _ _) as [[] c]; cbn; intros H; [discriminate|done].
Qed.

Lemma playStep_ok w :
  (0 <= currentTime (ctx w))%Q ->
  Forall (fun t => inherited_name (Track.sound t) = false) (tracks (eng w)) ->
  (playStep w).1 = true.
Proof.
  intros Hc HF. pose proof (trigger_tracks_ok (samples (eng w)) (currentStep (eng w)) _ _ Hc HF).
  unfold playStep, run_wa. destruct (trigger_tracks _ _ _ _) as [[] c]; cbn in *; congruence.
Qed.

(** ** The audio clock starts at 0 and only runs forwards *)

Lemma run_wa_time {A} (m : WA A) w :
  keeps_time m -> currentTime (ctx (run_wa m w).2) = currentTime (ctx w).
Proof. intros Hm. unfold run_wa. specialize (Hm (ctx w)). by destruct (m (ctx w)). Qed.

Lemma set_tparam_keeps_time p v t : keeps_time (set_tparam p v t).
Proof.
  unfold set_tparam. destruct (tparam_node p (trackNodes t)).
  wp_unfold_prims. keeps_time_solve.
Qed.

Lemma exec_time o w w' :
  exec o w = Some w' -> (0 <= currentTime (ctx w))%Q -> (0 <= currentTime (ctx w'))%Q.
Proof.
  intros H Ht. destruct o; cbn [exec] in H.
  - injection H as <-. by rewrite (proj1 (play_refs w)).
  - injection H as <-. by rewrite (proj1 (stop_refs w)).
  - injection H as <-. by rewrite (proj1 (setBPM_refs b w)).
  - unfold setMaster in H. destruct (masters (eng w)); [|done]. injection H as <-. exact Ht.
  - injection H as <-. unfold setTrackParam. destruct (track_at (eng w) i) as [t|]; [|done].
    pose proof (run_wa_time _ w (set_tparam_keeps_time p v t)) as Hk.
    destruct (run_wa (set_tparam p v t) w). cbn in Hk |- *. by rewrite Hk.
  - injection H as <-. unfold setTrackStepCount. by destruct (track_at (eng w) i).
  - injection H as <-. unfold setTrackSound. by destruct (track_at (eng w) i).
  - injection H as <-. unfold toggleStep. destruct (track_at (eng w) i); [|done].
    by case_match.
  - apply (inj Some) in H. subst w'. unfold playSound.
    destruct (samples_get _ _); [|done]. destruct (masters (eng w)); [|done].
    rewrite run_wa_time; [done|]. unfold SynthSamplePlayer.play. keeps_time_solve.
  - by injection H as <-.
  - by injection H as <-.
  - by injection H as <-.
  - by injection H as <-.
  - destruct (timers w !! id); [|done]. injection H as <-.
    by destruct (tick_frame w) as (_ & _ & _ & _ & _ & _ & _ & ->).
  - destruct (Qle_bool 0 dt) eqn:Hdt; [|done]. injection H as <-. cbn.
    apply Qle_bool_iff in Hdt. lra.
Qed.

Lemma reachable_time env w : reachable env w -> (0 <= currentTime (ctx w))%Q.
Proof.
  unfold reachable. revert w. apply rtc_ind_r.
  - destruct env as [[] sr [b|]]; vm_compute; intros H; discriminate H.
  - intros y z _ [o y' z' Hexec] Hy. by apply (exec_time o y').
Qed.

(** C3: started from a stopped clock whose tracks' sounds are not
    names of [Object.prototype] members (so no voice throws), after [k]
    interval callbacks the step index is [k mod 16], the interval is
    still the one [play] set with the tempo's period, the observer has
    received [0, 1, ..., 15, 0, ...] once per tick, and a track of 4, 8
    or 16 steps plays its step [k mod stepCount]: tracks of different
    lengths stay phase-locked within the measure. *)
Theorem play_ticks_phase_locked w k :
  clock_inv w -> isPlaying (eng w) = false -> (0 <= currentTime (ctx w))%Q ->
  Forall (fun t => inherited_name (Track.sound t) = false) (tracks (eng w)) ->
  let w' := Nat.iter k tick (play w) in
  currentStep (eng w') = k mod 16 /\ tracks (eng w') = tracks (eng w) /\
  (exists id, intervalId (eng w') = Some id /\
              timers w' = {[id := stepDuration (bpm (eng w))]}) /\
  notified w' = notified w ++
    (if onStepPlay (eng w) then map (fun j => j mod 16) (seq 0 k) else []) /\
  (forall t, t ∈ tracks (eng w) -> _stepCount t ∈ [4; 8; 16] ->
     step_at t (currentStep (eng w')) = js_get (steps t) (Z.of_nat (k mod _stepCount t))).
Proof.
  intros Hc Hp Htime Hnames. pose proof (play_clock w Hc) as [C1 _ _ C4].
  assert (Hplay : currentStep (eng (play w)) = 0 /\ tracks (eng (play w)) = tracks (eng w) /\
                  bpm (eng (play w)) = bpm (eng w) /\ notified (play w) = notified w /\
                  onStepPlay (eng (play w)) = onStepPlay (eng w) /\ ctx (play w) = ctx w).
  { unfold play. rewrite Hp. done. }
  destruct Hplay as (Hs0 & Ht0 & Hb0 & Hn0 & Ho0 & Hc0).
  assert (Hid : intervalId (eng (play w)) = Some (nextTimer w)) by (unfold play; by rewrite Hp).
  set (id := nextTimer w) in *. rewrite Hid in C4.
  destruct C4 as (_ & _ & Htm). rewrite Hb0 in Htm.
  assert (Hk : currentStep (eng (Nat.iter k tick (play w))) = k mod 16 /\
               tracks (eng (Nat.iter k tick (play w))) = tracks (eng w) /\
               intervalId (eng (Nat.iter k tick (play w))) = Some id /\
               timers (Nat.iter k tick (play w)) = {[id := stepDuration (bpm (eng w))]} /\
               globalStepCount (eng (Nat.iter k tick (play w))) = 16 /\
               onStepPlay (eng (Nat.iter k tick (play w))) = onStepPlay (eng w) /\
               currentTime (ctx (Nat.iter k tick (play w))) = currentTime (ctx w) /\
               notified (Nat.iter k tick (play w)) = notified w ++
                 (if onStepPlay (eng w) then map (fun j => j mod 16) (seq 0 k) else [])).
  { induction k as [|k IH].
    { change (Nat.iter 0 tick (play w)) with (play w). cbn [seq map].
      rewrite Hs0, Ht0, Hid, Htm, C1, Ho0, Hn0, Hc0.
      destruct (onStepPlay (eng w)); rewrite app_nil_r; done. }
    destruct IH as (Hs & Ht & Hi & Htm' & Hg & Ho & Hti & Hn).
    change (Nat.iter (S k) tick (play w)) with (tick (Nat.iter k tick (play w))).
    set (wk := Nat.iter k tick (play w)) in *.
    assert (Hok : (playStep wk).1 = true) by (apply playStep_ok; rewrite ?Hti, ?Ht; done).
    destruct (tick_fields wk Hok) as [-> ->].
    destruct (tick_frame wk) as (-> & _ & -> & _ & -> & -> & -> & ->).
    rewrite Hs, Hg, Ht, Hi, Htm', Ho, Hn, Hti.
    split; [rewrite Nat.add_mod_idemp_l by done; f_equal; lia|]. do 6 (split; [done|]).
    rewrite <-app_assoc. f_equal. destruct (onStepPlay (eng w)); [|done].
    by rewrite seq_S, map_app. }
  cbv zeta. destruct Hk as (Hs & Ht & Hi & Htm' & _ & _ & _ & Hn).
  split; [done|]. split; [done|]. split; [eauto|]. split; [done|].
  intros t _ Hn3. rewrite Hs. unfold step_at.
  rewrite !elem_of_cons, elem_of_nil in Hn3.
  destruct Hn3 as [->|[->|[->|[]]]]; cbv beta iota; rewrite mod_mod_divisor; done.
Qed.

Lemma play_ticks_phase_locked_witness :
  clock_inv example_world /\ isPlaying (eng example_world) = false /\
  (0 <= currentTime (ctx example_world))%Q /\
  Forall (fun t => inherited_name (Track.sound t) = false) (tracks (eng example_world)) /\
  currentStep (eng (Nat.iter 20 tick (play example_world))) = 4.
Proof.
  assert (Hc : clock_inv example_world) by apply init_inv.
  assert (Hp : isPlaying (eng example_world) = false) by reflexivity.
  assert (Ht : (0 <= currentTime (ctx example_world))%Q) by (vm_compute; intros H; discriminate H).
  assert (Hn : Forall (fun t => inherited_name (Track.sound t) = false) (tracks (eng example_world)))
    by (vm_compute; repeat constructor).
  split; [exact Hc|]. split; [exact Hp|]. split; [exact Ht|]. split; [exact Hn|].
  destruct (play_ticks_phase_locked example_world 20 Hc Hp Ht Hn) as [-> _]. reflexivity.
Defined.

(** An inherited sound on a step that is on makes [playStep] throw. *)
Lemma playStep_fails w t :
  t ∈ tracks (eng w) -> step_at t (currentStep (eng w)) = true ->
  samples_get (samples (eng w)) (Track.sound t) = Some Inherited -> (playStep w).1 = false.
Proof.
  intros Ht Hs Hi. pose proof (trigger_tracks_fails (samples (eng w)) _ _ t (ctx w) Ht Hs Hi).
  unfold playStep, run_wa. destruct (trigger_tracks _ _ _ _) as [[] c]; cbn in *; congruence.
Qed.

(** C7: a track whose step is on at the current position and whose
    sound is the name of a member of [Object.prototype] (a [drop] of such
    a text on its sound selector sets it) freezes the sequencer: on
    every tick [this.samples[track.sound]] is a truthy function, its
    voice throws a [TypeError] at line 32 of [SampleGenerator.js], and
    the callback ends before the increment.  However many times the
    interval fires, the engine state (step index included) and the
    observer's log stay as they are. *)
Theorem inherited_sound_freezes_clock w t k :
  t ∈ tracks (eng w) -> step_at t (currentStep (eng w)) = true ->
  samples_get (samples (eng w)) (Track.sound t) = Some Inherited ->
  eng (Nat.iter k tick w) = eng w /\ notified (Nat.iter k tick w) = notified w.
Proof.
  intros Ht Hs Hi. induction k as [|k [IHe IHn]]; [done|].
  change (Nat.iter (S k) tick w) with (tick (Nat.iter k tick w)).
  destruct (tick_stalls (Nat.iter k tick w)) as [-> ->]; [|done].
  apply (playStep_fails _ t); by rewrite IHe.
Qed.

(** A stopped example whose first track plays [toString] on step 0. *)
Definition example_frozen : World :=
  play (setTrackSound 0 "toString" (toggleStep 0 0 example_world).2).

Definition frozen_track : Track :=
  Eval vm_compute in
  match tracks (eng example_frozen) with
  | t :: _ => t
  | [] => example_track
  end.

Lemma inherited_sound_freezes_clock_witness :
  reachable example_env example_frozen /\
  frozen_track ∈ tracks (eng example_frozen) /\
  step_at frozen_track (currentStep (eng example_frozen)) = true /\
  samples_get (samples (eng example_frozen)) (Track.sound frozen_track) = Some Inherited /\
  isPlaying (eng (Nat.iter 5 tick example_frozen)) = true /\
  currentStep (eng (Nat.iter 5 tick example_frozen)) = 0%nat.
Proof.
  assert (Ht : frozen_track ∈ tracks (eng example_frozen))
    by (apply list_elem_of_In; vm_compute; left; reflexivity).
  assert (Hs : step_at frozen_track (currentStep (eng example_frozen)) = true)
    by (vm_compute; reflexivity).
  assert (Hi : samples_get (samples (eng example_frozen)) (Track.sound frozen_track) = Some Inherited)
    by (vm_compute; reflexivity).
  assert (Hr : reachable example_env example_frozen).
  { unfold reachable, example_frozen.
    eapply rtc_r; [eapply rtc_r; [eapply rtc_r; [apply rtc_refl|]|]|].
    - by apply (step_exec (OToggleStep 0 0)).
    - by apply (step_exec (OSetTrackSound 0 "toString")).
    - by apply (step_exec OPlay). }
  split; [exact Hr|]. split; [exact Ht|]. split; [exact Hs|]. split; [exact Hi|].
  destruct (inherited_sound_freezes_clock example_frozen frozen_track 5 Ht Hs Hi) as [He _].
  rewrite He. split; vm_compute; reflexivity.
Defined.

Lemma stop_fields w :
  currentStep (eng (stop w)) = 0 /\ isPlaying (eng (stop w)) = false /\
  notified (stop w) = notified w /\ bpm (eng (stop w)) = bpm (eng w).
Proof. unfold stop. cbn. repeat case_match; repeat split. Qed.

(** C28: [play()] immediately followed by [stop()] leaves the step index
    at 0, the clock stopped and no interval active, so no tick (and no
    [onStepPlay] notification) can follow; the observer's log is
    unchanged. *)
Theorem play_then_stop w :
  clock_inv w ->
  let w' := stop (play w) in
  currentStep (eng w') = 0 /\ isPlaying (eng w') = false /\ timers w' = ∅ /\
  notified w' = notified w /\ forall id, exec (OTick id) w' = None.
Proof.
  intros Hc. pose proof (clock_inv_stop _ (play_clock w Hc)) as [_ _ _ C4].
  destruct (stop_fields (play w)) as (Hs & Hp & Hn & _).
  assert (Hn' : notified (play w) = notified w)
    by (unfold play; destruct (isPlaying (eng w)); reflexivity).
  cbv zeta. rewrite Hp in C4.
  destruct (intervalId (eng (stop (play w)))); [by destruct C4|]. destruct C4 as [_ Ht].
  do 3 (split; [done|]). split; [congruence|].
  intros id. cbn [exec]. by rewrite Ht, lookup_empty.
Qed.

Lemma play_then_stop_witness :
  clock_inv example_world /\ currentStep (eng (stop (play example_world))) = 0.
Proof.
  assert (Hc : clock_inv example_world) by apply init_inv.
  split; [exact Hc|]. apply (play_then_stop example_world Hc).
Defined.

Lemma play_fields w :
  isPlaying (eng w) = false ->
  isPlaying (eng (play w)) = true /\ currentStep (eng (play w)) = 0 /\
  bpm (eng (play w)) = bpm (eng w) /\ intervalId (eng (play w)) = Some (nextTimer w).
Proof. intros Hp. unfold play. by rewrite Hp. Qed.

(** C29: [setBPM(b)] while playing restarts the measure: the clock runs
    again from step 0 with a single interval of the new period
    [(60 / b) * 1000 / 4]; while stopped it only records the tempo.  The
    restart at step 0 is the behaviour the spec keeps as a reviewed
    trade-off. *)
Theorem setBPM_restarts b w :
  clock_inv w ->
  let w' := setBPM b w in
  bpm (eng w') = b /\
  (isPlaying (eng w) = true ->
     isPlaying (eng w') = true /\ currentStep (eng w') = 0 /\
     exists id, intervalId (eng w') = Some id /\ timers w' = {[id := stepDuration b]}) /\
  (isPlaying (eng w) = false ->
     isPlaying (eng w') = false /\ currentStep (eng w') = currentStep (eng w) /\
     timers w' = timers w).
Proof.
  intros Hc. pose proof (setBPM_clock b w Hc) as [_ _ _ C4]. cbv zeta.
  unfold setBPM in *. cbn [eng set_eng with_bpm isPlaying] in *.
  destruct (isPlaying (eng w)) eqn:Hp.
  - set (w1 := stop (set_eng (with_bpm b (eng w)) w)) in *.
    destruct (stop_fields (set_eng (with_bpm b (eng w)) w)) as (_ & Hp1 & _ & Hb1).
    destruct (play_fields w1 Hp1) as (Hp2 & Hs2 & Hb2 & Hi2).
    rewrite Hi2 in C4. destruct C4 as (_ & _ & Ht). rewrite Hb2 in Ht |- *.
    unfold w1 in *. rewrite Hb1 in Ht |- *. split; [done|]. split; [|done]. eauto.
  - done.
Qed.

Lemma setBPM_restarts_witness :
  clock_inv (play example_world) /\ bpm (eng (setBPM 90%Q (play example_world))) = 90%Q.
Proof.
  assert (Hc : clock_inv (play example_world)) by (apply play_clock, init_inv).
  split; [exact Hc|]. apply (setBPM_restarts 90%Q (play example_world) Hc).
Defined.

Lemma track_at_set_track w i t t' :
  track_at (eng w) i = Some t -> track_at (eng (set_track i t' w)) i = Some t'.
Proof.
  intros Ht. pose proof (track_at_lookup _ _ _ Ht) as [Hi Hn]. unfold track_at. cbn.
  destruct (Z.leb_spec 0 i); [|lia]. apply list_lookup_insert_eq. by eapply lookup_lt_Some.
Qed.

Lemma with_steps_same t : with_steps (_stepCount t) (steps t) t = t.
Proof. by destruct t. Qed.

Lemma with_steps_twice n m a b t : with_steps n a (with_steps m b t) = with_steps n a t.
Proof. done. Qed.

(** C32: [toggleStep(i, s)] on an existing track with [0 <= s < stepCount]
    returns the new value of step [s], the negation of the old one, and
    a second call with the same arguments returns the old value and
    restores the track list exactly (the graph is never touched). *)
Theorem toggleStep_involutive i s w t :
  track_at (eng w) i = Some t -> track_wf t -> (0 <= s < Z.of_nat (_stepCount t))%Z ->
  let '(r, w1) := toggleStep i s w in
  r = negb (js_get (steps t) s) /\
  (exists t1, track_at (eng w1) i = Some t1 /\ js_get (steps t1) s = r) /\
  let '(r2, w2) := toggleStep i s w1 in
  r2 = js_get (steps t) s /\ tracks (eng w2) = tracks (eng w) /\ ctx w2 = ctx w.
Proof.
  intros Ht Hwf Hs. unfold toggleStep at 1. rewrite Ht.
  destruct (Z.ltb_spec s (Z.of_nat (_stepCount t))) as [_|]; [|lia].
  set (a := js_set (steps t) s (negb (js_get (steps t) s))).
  set (t1 := with_steps (_stepCount t) a t).
  assert (Ht1 : track_at (eng (set_track i t1 w)) i = Some t1)
    by by apply (track_at_set_track w i t).
  split; [unfold a; apply js_get_set_eq|].
  split; [exists t1; split; [done|reflexivity]|].
  unfold toggleStep. rewrite Ht1. unfold t1, a. cbn [_stepCount with_steps steps].
  destruct (Z.ltb_spec s (Z.of_nat (_stepCount t))) as [_|]; [|lia].
  assert (Hlt : Z.to_nat s < length (elems (steps t))) by (unfold track_wf in Hwf; lia).
  rewrite !js_get_set_eq, negb_involutive, js_set_restore by lia.
  split; [done|].
  pose proof (track_at_lookup _ _ _ Ht) as [_ Hn].
  cbn [set_track set_eng with_tracks eng tracks ctx].
  rewrite list_insert_insert_eq, with_steps_twice, with_steps_same.
  split; [by apply list_insert_id|done].
Qed.

Lemma example_track_at : track_at (eng example_world) 0 = Some example_track.
Proof. vm_compute. reflexivity. Qed.

Lemma example_track_count : _stepCount example_track = 16.
Proof. reflexivity. Qed.

Lemma toggleStep_involutive_witness :
  track_at (eng example_world) 0 = Some example_track /\ track_wf example_track /\
  (0 <= 3 < Z.of_nat (_stepCount example_track))%Z /\
  (toggleStep 0 3 example_world).1 = true.
Proof.
  assert (Hwf : track_wf example_track) by reflexivity.
  assert (Hs : (0 <= 3 < Z.of_nat (_stepCount example_track))%Z)
    by (rewrite example_track_count; lia).
  split; [exact example_track_at|]. split; [exact Hwf|]. split; [exact Hs|].
  pose proof (toggleStep_involutive 0 3 example_world example_track example_track_at Hwf Hs) as H.
  destruct (toggleStep 0 3 example_world) as [r w1]. destruct H as [-> _]. reflexivity.
Defined.

(** C33: [toggleStep(i, s)] with [s >= stepCount] changes nothing and
    returns [false]; with a negative [s] the guard [s < stepCount] holds,
    so the assignment creates the property ["s"] and returns [true] while
    the indexed steps, and hence what the track plays, are unchanged. *)
Theorem toggleStep_out_of_range i s w t :
  track_at (eng w) i = Some t ->
  ((Z.of_nat (_stepCount t) <= s)%Z -> toggleStep i s w = (false, w)) /\
  ((s < 0)%Z -> props (steps t) !! s = None ->
   let '(r, w1) := toggleStep i s w in
   r = true /\ exists t1, track_at (eng w1) i = Some t1 /\
     elems (steps t1) = elems (steps t) /\ forall g, step_at t1 g = step_at t g).
Proof.
  intros Ht. unfold toggleStep. rewrite Ht. split.
  - intros Hs. destruct (Z.ltb_spec s (Z.of_nat (_stepCount t))); [lia|done].
  - intros Hs Hp. destruct (Z.ltb_spec s (Z.of_nat (_stepCount t))); [|lia].
    split.
    + rewrite js_get_set_eq. unfold js_get. destruct (Z.leb_spec 0 s); [lia|]. by rewrite Hp.
    + eexists. split; [by apply (track_at_set_track w i t)|].
      cbn [with_steps steps _stepCount]. rewrite elems_js_set_neg by done.
      split; [done|]. intros g. unfold step_at. cbn [_stepCount steps with_steps].
      destruct (_stepCount t); [done|]. rewrite js_get_set_ne; [done|lia].
Qed.

Lemma toggleStep_out_of_range_witness :
  track_at (eng example_world) 0 = Some example_track /\
  (Z.of_nat (_stepCount example_track) <= 16)%Z /\ (-1 < 0)%Z /\
  props (steps example_track) !! (-1)%Z = None /\
  toggleStep 0 16 example_world = (false, example_world) /\
  (toggleStep 0 (-1) example_world).1 = true.
Proof.
  assert (H1 : (Z.of_nat (_stepCount example_track) <= 16)%Z)
    by (rewrite example_track_count; lia).
  assert (H2 : props (steps example_track) !! (-1)%Z = None) by reflexivity.
  destruct (toggleStep_out_of_range 0 16 example_world example_track example_track_at) as [Ho _].
  destruct (toggleStep_out_of_range 0 (-1) example_world example_track example_track_at)
    as [_ Hn].
  split; [exact example_track_at|]. split; [exact H1|]. split; [lia|]. split; [exact H2|].
  split; [exact (Ho H1)|].
  specialize (Hn ltac:(lia) H2). destruct (toggleStep 0 (-1) example_world). by destruct Hn.
Defined.

(** C34: the three outcomes of [init()].  Without an audio context the
    engine is left as constructed.  With a context and an impulse
    response, the master chain exists, the convolver holds the response,
    the samples are loaded and the four default tracks (kick, snare,
    hi-hat, bass; 16 steps, volume 0.8) are set up.  When the impulse
    response fails to load, the master chain and the samples exist but
    the exception skips both the buffer assignment and [setupTracks]: the
    engine has no track at all. *)
Theorem init_outcomes env :
  let w := init env initial_world in
  if ctxAvailable env then
    (fun ms => buffer <$> node_at (ctx w) (globalReverbConvolver ms)) <$> masters (eng w) =
      Some (Some (irBuffer env)) /\
    getSampleNames (samples (eng w)) = getSampleNames SAMPLE_DEFINITIONS /\
    impulseResponseBuffer (eng w) = irBuffer env /\
    match irBuffer env with
    | Some _ => map Track.sound (tracks (eng w)) = defaultSounds /\
                Forall (fun t => _stepCount t = 16 /\ tparam TVolume t = 0.8%Q) (tracks (eng w))
    | None => tracks (eng w) = []
    end
  else w = initial_world.
Proof.
  destruct env as [[] sr [b|]]; cbv zeta; cbn [ctxAvailable irBuffer]; [..|done|done];
    vm_compute; repeat split; repeat constructor.
Qed.

(** C40: [setTrackVolume(i, v)] ... [setTrackEqHigh(i, v)] on an existing
    track store [v] as given, with no clamping to the documented ranges,
    in the track and in the node parameter it drives, leaving the other
    four parameters; an index off the track list is silently ignored. *)
Theorem setTrackParam_spec p i v w :
  graph_inv w ->
  match track_at (eng w) i with
  | Some t =>
      exists t', track_at (eng (setTrackParam p i v w)) i = Some t' /\ tparam p t' = v /\
        (forall p', p' <> p -> tparam p' t' = tparam p' t) /\
        synced_param (ctx (setTrackParam p i v w)) t' p
  | None => setTrackParam p i v w = w
  end.
Proof.
  intros Hinv. pose proof (setTrackParam_graph p i v w Hinv) as Hinv'.
  unfold setTrackParam in *. destruct (track_at (eng w) i) as [t|] eqn:Ht; [|done].
  unfold run_wa in *. rewrite set_tparam_run in *. cbn [fst snd] in *.
  set (w' := set_track i (with_tparam p v t) (set_ctx _ w)) in *.
  assert (Ht' : track_at (eng w') i = Some (with_tparam p v t)) by by apply (track_at_set_track _ i t).
  exists (with_tparam p v t). split; [done|]. rewrite tparam_with, decide_True by done.
  split; [done|]. split; [intros p' Hp'; by rewrite tparam_with, decide_False|].
  pose proof (track_at_lookup _ _ _ Ht') as [_ Hn].
  apply (Forall_lookup_1 _ _ _ _ (gi_synced _ Hinv') Hn).
Qed.

Lemma setTrackParam_spec_witness :
  graph_inv example_world /\
  tparam TVolume (default example_track
    (track_at (eng (setTrackParam TVolume 0 5 example_world)) 0)) = 5%Q.
Proof.
  assert (Hg : graph_inv example_world) by apply init_inv.
  split; [exact Hg|].
  pose proof (setTrackParam_spec TVolume 0 5 example_world Hg) as H.
  rewrite example_track_at in H. destruct H as (t' & -> & Hv & _). exact Hv.
Defined.
