(* ===== verification/Export.v ===== *)
(** The offline export, [AudioEngine.exportBeat] of [src/audio-engine.js]
    (lines 270-374): a fresh [OfflineAudioContext] sized for one measure
    of 16 steps at the current tempo, a copy of the master chain and of
    the global reverb holding the live engine's master settings, and for
    every global step and every track whose step is on a fresh track
    chain (EQ, pan, gain, reverb send) feeding a voice scheduled with
    [playAtTime] at the step's time.  The context is then rendered and
    the buffer handed to [WavEncoder.downloadAudio], inside a [try].

    [exportBeat] returns the offline context as it stands when rendering
    starts ([None]: the promise rejects before that, on a [TypeError],
    on the [NotSupportedError] of a zero length, or on a voice that
    throws).  The rendering itself
    is signal processing and is a parameter [startRendering] of the
    Section that composes the export with the encoder.  Arithmetic on
    tempo and times is exact (rationals), where the browser rounds to
    doubles. *)

From S2P Require Import Prelude JsNumber WavEncoder WebAudio Track SoundCatalog SampleGenerator Engine.
From Stdlib Require Import QArith Lqa.
From stdpp Require Import gmap sets strings.

Local Open Scope Q_scope.

(** ** The offline graph *)

(** [new OfflineAudioContext(2, length, sampleRate)] as set up for
    rendering: its channel count and frame count, the master nodes the
    export created in it, and its graph. *)
Record OfflineRender := {
  offlineChannels : nat;
  offlineLength : Z;
  offlineMasters : MasterNodes;
  offlineGraph : AudioContext
}.

(** The [unsigned long] argument [length]: WebIDL truncates the number
    and reduces it modulo [2^32]. *)
Definition webidl_unsigned_long (q : Q) : Z := ToUint32 (trunc q).

(** Lines 282-310: the master chain and the global reverb, recreated in
    the offline context with the live master gain, EQ gains and reverb
    wetness; the convolver receives the impulse response only when it
    was loaded. *)
Definition offline_master_chain (vol eqLow eqHigh wet : Q) (ir : option nat) : WA MasterNodes :=
  offlineMasterInputGain ← createGain;
  offlineMasterEQLow ← createBiquadFilter;
  offlineMasterEQHigh ← createBiquadFilter;
  offlineMasterGain ← createGain;
  setTypeM offlineMasterEQLow Lowshelf;;
  setValueM offlineMasterEQLow PFrequency 250;;
  setTypeM offlineMasterEQHigh Highshelf;;
  setValueM offlineMasterEQHigh PFrequency 4000;;
  connectM offlineMasterInputGain offlineMasterEQLow;;
  connectM offlineMasterEQLow offlineMasterEQHigh;;
  connectM offlineMasterEQHigh offlineMasterGain;;
  connectM offlineMasterGain destination;;
  setValueM offlineMasterGain PGain vol;;
  setValueM offlineMasterEQLow PGain eqLow;;
  setValueM offlineMasterEQHigh PGain eqHigh;;
  offlineGlobalReverbConvolver ← createConvolver;
  offlineGlobalReverbGain ← createGain;
  (match ir with Some _ => setBufferM offlineGlobalReverbConvolver ir | None => mret tt end);;
  connectM offlineGlobalReverbConvolver offlineGlobalReverbGain;;
  connectM offlineGlobalReverbGain offlineMasterInputGain;;
  setValueM offlineGlobalReverbGain PGain wet;;
  mret {| masterGain := offlineMasterGain; masterEQLow := offlineMasterEQLow;
          masterEQHigh := offlineMasterEQHigh; masterInputGain := offlineMasterInputGain;
          globalReverbConvolver := offlineGlobalReverbConvolver;
          globalReverbGain := offlineGlobalReverbGain |}.

(** Lines 330-362: a fresh track chain with the track's current
    settings, its gain feeding both the master input and the chain's
    reverb send, and a voice at [stepTime] into the chain's EQ input
    with the chain's reverb send as send. *)
Definition export_voice (ms : MasterNodes) (cfg : SampleRef) (stepTime : Q) (t : Track)
  : WA bool :=
  trackGainNode ← createGain;
  trackPannerNode ← createStereoPanner;
  trackEqLowFilter ← createBiquadFilter;
  trackEqHighFilter ← createBiquadFilter;
  trackReverbSendGain ← createGain;
  setValueM trackGainNode PGain (_volume t);;
  setValueM trackPannerNode PPan (_pan t);;
  setValueM trackEqLowFilter PGain (_eqLow t);;
  setValueM trackEqHighFilter PGain (_eqHigh t);;
  setValueM trackReverbSendGain PGain (_reverbAmount t);;
  setTypeM trackEqLowFilter Lowshelf;;
  setValueM trackEqLowFilter PFrequency 250;;
  setTypeM trackEqHighFilter Highshelf;;
  setValueM trackEqHighFilter PFrequency 4000;;
  connectM trackEqLowFilter trackEqHighFilter;;
  connectM trackEqHighFilter trackPannerNode;;
  connectM trackPannerNode trackGainNode;;
  connectM trackGainNode (masterInputGain ms);;
  connectM trackGainNode trackReverbSendGain;;
  connectM trackReverbSendGain (globalReverbConvolver ms);;
  SynthSamplePlayer.playAtTime cfg stepTime (_volume t)
    (Some trackEqLowFilter) (Some trackReverbSendGain).

(** Lines 319-363, one track: [if (track.steps[globalStep % track.stepCount])],
    then the truthy value of [this.samples[track.sound]], or
    [console.warn] and [return]; [false] when the voice throws. *)
Definition export_track (smp : list (string * SampleConfig.t)) (ms : MasterNodes)
  (globalStep : nat) (stepTime : Q) (t : Track) : WA bool :=
  if step_at t globalStep then
    match samples_get smp (Track.sound t) with
    | Some cfg => export_voice ms cfg stepTime t
    | None => mret true
    end
  else mret true.

(** [this.tracks.forEach(...)]; an exception leaves the loop, and the
    loops around it. *)
Fixpoint export_tracks (smp : list (string * SampleConfig.t)) (ms : MasterNodes)
  (globalStep : nat) (stepTime : Q) (ts : list Track) : WA bool :=
  match ts with
  | [] => mret true
  | t :: rest =>
      export_track smp ms globalStep stepTime t ≫= fun ok : bool =>
      if ok then export_tracks smp ms globalStep stepTime rest else mret false
  end.

(** Line 316: [for (globalStep = g; globalStep < g + n; globalStep++)],
    with [stepTime = (loop * totalStepsToExport + globalStep) * stepDurationSec]. *)
Fixpoint export_steps (smp : list (string * SampleConfig.t)) (ms : MasterNodes) (ts : list Track)
  (stepDurationSec : Q) (totalSteps loop' globalStep n : nat) : WA bool :=
  match n with
  | O => mret true
  | S n' =>
      export_tracks smp ms globalStep
        (inject_Z (Z.of_nat (loop' * totalSteps + globalStep)) * stepDurationSec) ts
      ≫= fun ok : bool =>
      if ok then export_steps smp ms ts stepDurationSec totalSteps loop' (S globalStep) n'
      else mret false
  end.

(** Line 315: [for (loop = l; loop < l + n; loop++)]. *)
Fixpoint export_loops (smp : list (string * SampleConfig.t)) (ms : MasterNodes) (ts : list Track)
  (stepDurationSec : Q) (totalSteps loop' n : nat) : WA bool :=
  match n with
  | O => mret true
  | S n' =>
      export_steps smp ms ts stepDurationSec totalSteps loop' 0 totalSteps ≫= fun ok : bool =>
      if ok then export_loops smp ms ts stepDurationSec totalSteps (S loop') n' else mret false
  end.

(** [exportBeat()] up to [startRendering()].  Reading
    [this.audioContext.sampleRate] throws without a context, the
    constructor throws [NotSupportedError] on a length of 0, reading
    [this.masterGain.gain.value] throws when [init] built no master
    chain, and a voice that throws (a negative step time, or an
    inherited member of [Object.prototype] as configuration) rejects the
    promise before the rendering. *)
Definition exportBeat (w : World) : option OfflineRender :=
  let e := eng w in
  let totalStepsToExport := globalStepCount e in
  let loops := 1%nat in
  let stepDurationSec := 60 / bpm e / 4 in
  let totalDurationSec := inject_Z (Z.of_nat (loops * totalStepsToExport)) * stepDurationSec in
  if hasContext e then
    let sr := ctxSampleRate (ctx w) in
    let len := webidl_unsigned_long (inject_Z sr * totalDurationSec) in
    if decide (len = 0%Z) then None else
    ms ← masters e;
    vol ← param_value (ctx w) (masterGain ms) PGain;
    lo ← param_value (ctx w) (masterEQLow ms) PGain;
    hi ← param_value (ctx w) (masterEQHigh ms) PGain;
    wet ← param_value (ctx w) (globalReverbGain ms) PGain;
    let '(oms, oc) := offline_master_chain vol lo hi wet (impulseResponseBuffer e) (new_context sr) in
    let '(ok, oc) :=
      export_loops (samples e) oms (tracks e) stepDurationSec totalStepsToExport 0 loops oc in
    if ok then
      Some {| offlineChannels := 2; offlineLength := len; offlineMasters := oms; offlineGraph := oc |}
    else None
  else None.

(** ** The schedule of a measure

    What a tick and the export both start at global step [g]: the tracks,
    in order, whose step [g mod stepCount] is on and whose
    [this.samples[track.sound]] is truthy, each with that value. *)
Definition step_voices (smp : list (string * SampleConfig.t)) (g : nat) (ts : list Track)
  : list (Track * SampleRef) :=
  omap (fun t => if step_at t g then (fun cfg => (t, cfg)) <$> samples_get smp (Track.sound t)
                 else None) ts.

(** The voices of the 16 steps of a measure with their start times. *)
Definition measure_schedule (smp : list (string * SampleConfig.t)) (ts : list Track)
  (stepDurationSec : Q) : list (Q * Track * SampleRef) :=
  concat (map (fun g => map (fun '(t, config) => (inject_Z (Z.of_nat g) * stepDurationSec, t, config))
                          (step_voices smp g ts)) (seq 0 16)).

(** A program run on each element of a list in turn, up to the first
    that throws. *)
Fixpoint for_each {A} (f : A -> WA bool) (l : list A) : WA bool :=
  match l with
  | [] => mret true
  | x :: rest => f x ≫= fun ok : bool => if ok then for_each f rest else mret false
  end.

(** The voice a live tick plays for a scheduled track. *)
Definition live_voice (v : Track * SampleRef) : WA bool :=
  let '(t, cfg) := v in
  SynthSamplePlayer.play cfg (_volume t) (Some (getInputNode t)) (Some (getReverbSendInputNode t)).

(** The voice and track chain the export builds for a scheduled entry. *)
Definition export_entry (ms : MasterNodes) (v : Q * Track * SampleRef) : WA bool :=
  let '(time, t, cfg) := v in export_voice ms cfg time t.

(** An entry of the schedule whose voice throws. *)
Definition entry_throws (v : Q * Track * SampleRef) : bool :=
  let '(time, _, cfg) := v in negb (voice_returns cfg time).

(** ** Loops and schedules *)

Lemma for_each_app {A} (f : A -> WA bool) l1 l2 c :
  for_each f (l1 ++ l2) c =
  (for_each f l1 ≫= fun ok : bool => if ok then for_each f l2 else mret false) c.
Proof.
  revert c. induction l1 as [|x l1 IH]; intros c; [done|].
  cbn [for_each app]. rewrite !WA_bind_unfold.
  destruct (f x c) as [[] c']; [|done]. rewrite IH, WA_bind_unfold. done.
Qed.

(** [bind] of two programs equal at every context. *)
Lemma WA_bind_ext {A B} (m m' : WA A) (f f' : A -> WA B) c :
  (forall c, m c = m' c) -> (forall a c, f a c = f' a c) -> (m ≫= f) c = (m' ≫= f') c.
Proof. intros Hm Hf. unfold mbind, WA_bind. rewrite Hm. destruct (m' c). apply Hf. Qed.

Lemma WA_ret_bind {A B} (a : A) (f : A -> WA B) c : (mret a ≫= f) c = f a c.
Proof. done. Qed.

Lemma step_voices_cons smp g t ts :
  step_voices smp g (t :: ts) =
  if step_at t g then
    match samples_get smp (Track.sound t) with
    | Some cfg => (t, cfg) :: step_voices smp g ts
    | None => step_voices smp g ts
    end
  else step_voices smp g ts.
Proof. unfold step_voices. cbn. by destruct (step_at t g), (samples_get smp (Track.sound t)). Qed.

Lemma bind_Some {A B} (a : A) (f : A -> option B) : (Some a ≫= f) = f a.
Proof. done. Qed.

Lemma trigger_tracks_schedule smp g ts c :
  trigger_tracks smp g ts c = for_each live_voice (step_voices smp g ts) c.
Proof.
  revert c. induction ts as [|t ts IH]; intros c; [done|].
  cbn [trigger_tracks]. rewrite step_voices_cons. unfold trigger_track.
  destruct (step_at t g); [|rewrite WA_ret_bind; apply IH].
  destruct (samples_get smp (Track.sound t));
    [apply WA_bind_ext; [done|intros [] c'; [apply IH|done]]|rewrite WA_ret_bind; apply IH].
Qed.

Lemma export_tracks_schedule smp ms g time ts c :
  export_tracks smp ms g time ts c =
  for_each (export_entry ms) (map (fun '(t, cfg) => (time, t, cfg)) (step_voices smp g ts)) c.
Proof.
  revert c. induction ts as [|t ts IH]; intros c; [done|].
  cbn [export_tracks]. rewrite step_voices_cons. unfold export_track.
  destruct (step_at t g); [|rewrite WA_ret_bind; apply IH].
  destruct (samples_get smp (Track.sound t)); cbn [map];
    [apply WA_bind_ext; [done|intros [] c'; [apply IH|done]]|rewrite WA_ret_bind; apply IH].
Qed.

Lemma export_steps_schedule smp ms ts sd g n c :
  export_steps smp ms ts sd 16 0 g n c =
  for_each (export_entry ms)
    (concat (map (fun g => map (fun '(t, cfg) => (inject_Z (Z.of_nat g) * sd, t, cfg))
                             (step_voices smp g ts)) (seq g n))) c.
Proof.
  revert g c. induction n as [|n IH]; intros g c; [done|].
  cbn [export_steps seq map concat]. rewrite for_each_app.
  apply WA_bind_ext; [intros c'; apply export_tracks_schedule|intros [] c'; [apply IH|done]].
Qed.

(** One loop of 16 steps runs the measure schedule. *)
Lemma export_loops_schedule smp ms ts sd c :
  export_loops smp ms ts sd 16 0 1 c = for_each (export_entry ms) (measure_schedule smp ts sd) c.
Proof.
  cbn [export_loops]. rewrite WA_bind_unfold, export_steps_schedule. unfold measure_schedule.
  by destruct (for_each _ _ c) as [[] c'].
Qed.

(** What [exportBeat] returns, read off its definition. *)
Lemma exportBeat_Some w r :
  exportBeat w = Some r ->
  hasContext (eng w) = true /\
  offlineLength r = webidl_unsigned_long (inject_Z (ctxSampleRate (ctx w)) *
    (inject_Z (Z.of_nat (1 * globalStepCount (eng w))) * (60 / bpm (eng w) / 4))) /\
  offlineLength r <> 0%Z /\ offlineChannels r = 2%nat /\
  exists ms vol lo hi wet c0,
    masters (eng w) = Some ms /\
    param_value (ctx w) (masterGain ms) PGain = Some vol /\
    param_value (ctx w) (masterEQLow ms) PGain = Some lo /\
    param_value (ctx w) (masterEQHigh ms) PGain = Some hi /\
    param_value (ctx w) (globalReverbGain ms) PGain = Some wet /\
    offline_master_chain vol lo hi wet (impulseResponseBuffer (eng w))
      (new_context (ctxSampleRate (ctx w))) = (offlineMasters r, c0) /\
    export_loops (samples (eng w)) (offlineMasters r) (tracks (eng w))
      (60 / bpm (eng w) / 4) (globalStepCount (eng w)) 0 1 c0 = (true, offlineGraph r).
Proof.
  unfold exportBeat. destruct (hasContext (eng w)); [|done]. case_decide; [done|].
  destruct (masters (eng w)) as [ms|]; [rewrite bind_Some; cbv beta|done].
  destruct (param_value (ctx w) (masterGain ms) PGain) as [vol|] eqn:Hv;
    [rewrite bind_Some; cbv beta|done].
  destruct (param_value (ctx w) (masterEQLow ms) PGain) as [lo|] eqn:Hl;
    [rewrite bind_Some; cbv beta|done].
  destruct (param_value (ctx w) (masterEQHigh ms) PGain) as [hi|] eqn:Hh;
    [rewrite bind_Some; cbv beta|done].
  destruct (param_value (ctx w) (globalReverbGain ms) PGain) as [wet|] eqn:Hw;
    [rewrite bind_Some; cbv beta|done].
  destruct (offline_master_chain vol lo hi wet (impulseResponseBuffer (eng w))
    (new_context (ctxSampleRate (ctx w)))) as [oms c0] eqn:Hc.
  destruct (export_loops _ _ _ _ _ _ _ c0) as [[] oc] eqn:Hx; [|done].
  intros Hr%(inj Some). subst r. cbv [offlineGraph offlineMasters offlineLength offlineChannels].
  do 4 (split; [done|]). by exists ms, vol, lo, hi, wet, c0.
Qed.

(** ** The export replays the live triggers *)

(** C5: (refinement) the live tick and the export implement one
    schedule.  At every global step [g] the tick's [playStep] plays, in
    track order, exactly the voices [step_voices g], up to the first that
    throws; and the offline graph [exportBeat] hands to the renderer is a
    master chain holding the live master gain, EQ gains and reverb
    wetness read at call time, followed by one track chain and voice per
    entry of the measure schedule: the same [step_voices g] for [g] in
    [0, 16), each started at [g * (60 / bpm) / 4] seconds. *)
Theorem exportBeat_replays_live w r :
  globalStepCount (eng w) = 16%nat -> exportBeat w = Some r ->
  (forall g c, trigger_tracks (samples (eng w)) g (tracks (eng w)) c =
               for_each live_voice (step_voices (samples (eng w)) g (tracks (eng w))) c) /\
  exists ms vol lo hi wet c0,
    masters (eng w) = Some ms /\
    param_value (ctx w) (masterGain ms) PGain = Some vol /\
    param_value (ctx w) (masterEQLow ms) PGain = Some lo /\
    param_value (ctx w) (masterEQHigh ms) PGain = Some hi /\
    param_value (ctx w) (globalReverbGain ms) PGain = Some wet /\
    offline_master_chain vol lo hi wet (impulseResponseBuffer (eng w))
      (new_context (ctxSampleRate (ctx w))) = (offlineMasters r, c0) /\
    offlineGraph r =
      (for_each (export_entry (offlineMasters r))
         (measure_schedule (samples (eng w)) (tracks (eng w)) (60 / bpm (eng w) / 4)) c0).2.
Proof.
  intros H16 (_ & _ & _ & _ & ms & vol & lo & hi & wet & c0 & Hm & Hv & Hl & Hh & Hw & Hc & Hx)%exportBeat_Some.
  split; [intros g c; apply trigger_tracks_schedule|].
  exists ms, vol, lo, hi, wet, c0. do 6 (split; [done|]).
  rewrite H16, export_loops_schedule in Hx. by rewrite Hx.
Qed.

(** ** What the export finds in a reachable state *)

(** No operation after [init] creates or drops the context or the master
    chain. *)
Lemma exec_keeps_setup o w w' :
  exec o w = Some w' ->
  hasContext (eng w') = hasContext (eng w) /\ masters (eng w') = masters (eng w).
Proof.
  destruct o; cbn [exec]; unfold play, stop, setBPM, setMaster, setTrackParam, setTrackStepCount,
    setTrackSound, toggleStep, playSound, clearAll, startRecording, stopRecording,
    attachObserver, tick, playStep, run_wa, setInterval, clearInterval;
    repeat case_match; intros; simplify_eq; cbn; try done.
  all: repeat case_match; cbn; done.
Qed.

Lemma reachable_setup env w :
  reachable env w ->
  hasContext (eng w) = ctxAvailable env /\
  (ctxAvailable env = true -> exists ms, masters (eng w) = Some ms).
Proof.
  unfold reachable. revert w. apply rtc_ind_r.
  - destruct env as [[] sr [b|]]; vm_compute; (split; [reflexivity|]); intros; by eauto.
  - intros y z _ [o y' z' Hexec] [Hc Hm]. destruct (exec_keeps_setup o y' z' Hexec) as [-> ->].
    by split.
Qed.

(** The master parameters the export reads exist in the live context. *)
Lemma master_param_exists w ms id p :
  graph_inv w -> masters (eng w) = Some ms -> id ∈ master_ids ms ->
  exists v, param_value (ctx w) id p = Some v.
Proof.
  intros Hinv Hm Hid. pose proof (gi_exist _ Hinv) as Hex. rewrite Forall_forall in Hex.
  assert (Hlt : (id < length (nodes (ctx w)))%nat).
  { apply Hex. unfold named_nodes. rewrite Hm. cbn [fmap option_fmap option_map default].
    set_solver. }
  unfold param_value, node_at. destruct (lookup_lt_is_Some_2 _ _ Hlt) as [n ->]. by eexists.
Qed.

(** ** The offline context keeps the live sample rate *)

Lemma keeps_rate_for_each {A} (f : A -> WA bool) l :
  (forall x, keeps_rate (f x)) -> keeps_rate (for_each f l).
Proof. intros Hf. induction l; cbn; keeps_rate_solve. Qed.

Lemma playAtTime_keeps_rate cfg time volume dest revSend :
  keeps_rate (SynthSamplePlayer.playAtTime cfg time volume dest revSend).
Proof. apply play_js_keeps_rate. Qed.

#[local] Hint Resolve playAtTime_keeps_rate : djm.

Lemma export_entry_keeps_rate ms v : keeps_rate (export_entry ms v).
Proof.
  destruct v as [[time t] cfg]. unfold export_entry, export_voice.
  wp_unfold_prims. keeps_rate_solve.
Qed.

Lemma offline_master_chain_keeps_rate vol lo hi wet ir :
  keeps_rate (offline_master_chain vol lo hi wet ir).
Proof. unfold offline_master_chain. wp_unfold_prims. keeps_rate_solve. Qed.

(** The graph handed to the renderer has the sample rate of the live
    context. *)
Lemma exportBeat_rate w r :
  globalStepCount (eng w) = 16%nat -> exportBeat w = Some r ->
  ctxSampleRate (offlineGraph r) = ctxSampleRate (ctx w).
Proof.
  intros H16 Hr. destruct (exportBeat_replays_live w r H16 Hr)
    as [_ (ms & vol & lo & hi & wet & c0 & _ & _ & _ & _ & _ & Hc0 & ->)].
  rewrite (keeps_rate_for_each _ _ (export_entry_keeps_rate _)).
  pose proof (offline_master_chain_keeps_rate vol lo hi wet (impulseResponseBuffer (eng w))
                (new_context (ctxSampleRate (ctx w)))) as Hk.
  by rewrite Hc0 in Hk.
Qed.

(** One measure lasts [16 * (60 / bpm) / 4 = 240 / bpm] seconds. *)
Lemma measure_seconds b : inject_Z (Z.of_nat (1 * 16)) * (60 / b / 4) == 240 / b.
Proof. unfold Qdiv. change (Qinv 4) with (1 # 4). change (inject_Z (Z.of_nat (1 * 16))) with 16. ring. Qed.


(** A track chain returns what its voice returns. *)
Lemma export_voice_result ms cfg time t c :
  (export_voice ms cfg time t c).1 = voice_returns cfg time.
Proof.
  change ((export_voice ms cfg time t c).1 = voice_returns cfg time) with
    (wp (export_voice ms cfg time t) (fun ok _ => ok = voice_returns cfg time) c).
  unfold export_voice. wp_unfold_prims. repeat wp_step.
  unfold wp, SynthSamplePlayer.playAtTime. apply play_js_result.
Qed.

(** The scheduled voices all run exactly when none of them throws. *)
Lemma for_each_export_result ms l c :
  (for_each (export_entry ms) l c).1 = negb (existsb entry_throws l).
Proof.
  revert c. induction l as [|[[time t] cfg] l IH]; intros c; [done|].
  cbn [for_each existsb]. rewrite WA_bind_unfold. unfold export_entry.
  pose proof (export_voice_result ms cfg time t c) as Hv.
  destruct (export_voice ms cfg time t c) as [ok c1]. cbn in Hv. subst ok.
  cbn [entry_throws]. destruct (voice_returns cfg time); [apply IH|done].
Qed.

(** In a reachable state with a context, [exportBeat] rejects only on a
    frame count of 0 or on a voice that throws. *)
Lemma exportBeat_defined env w :
  reachable env w -> hasContext (eng w) = true ->
  webidl_unsigned_long (inject_Z (ctxSampleRate (ctx w)) *
    (inject_Z (Z.of_nat (1 * globalStepCount (eng w))) * (60 / bpm (eng w) / 4))) <> 0%Z ->
  existsb entry_throws
    (measure_schedule (samples (eng w)) (tracks (eng w)) (60 / bpm (eng w) / 4)) = false ->
  exists r, exportBeat w = Some r.
Proof.
  intros Hr Hh Hz Ht. destruct (reachable_inv env w Hr) as [Hc Hg].
  destruct (reachable_setup env w Hr) as [Hctx Hms].
  destruct Hms as [ms Hm]; [by rewrite <- Hctx|].
  unfold exportBeat. rewrite Hh, decide_False by done. rewrite Hm, bind_Some. cbv beta.
  destruct (master_param_exists w ms (masterGain ms) PGain Hg Hm ltac:(unfold master_ids; set_solver))
    as [vol ->].
  destruct (master_param_exists w ms (masterEQLow ms) PGain Hg Hm ltac:(unfold master_ids; set_solver))
    as [lo ->].
  destruct (master_param_exists w ms (masterEQHigh ms) PGain Hg Hm ltac:(unfold master_ids; set_solver))
    as [hi ->].
  destruct (master_param_exists w ms (globalReverbGain ms) PGain Hg Hm ltac:(unfold master_ids; set_solver))
    as [wet ->].
  rewrite !bind_Some. cbv beta. destruct (offline_master_chain _ _ _ _ _ _) as [oms c0].
  rewrite (ci_count _ Hc), export_loops_schedule.
  pose proof (for_each_export_result oms
    (measure_schedule (samples (eng w)) (tracks (eng w)) (60 / bpm (eng w) / 4)) c0) as H.
  rewrite Ht in H. destruct (for_each _ _ c0) as [ok oc]. cbn in H. subst ok. by eexists.
Qed.

(** C8: (error, bounds) in every reachable state [exportBeat()] rejects
    exactly when there is no audio context, when the frame count
    [sampleRate * 16 * (60 / bpm) / 4 = sampleRate * 240 / bpm],
    truncated and reduced modulo [2^32] as the [unsigned long] argument
    is, is 0 (a tempo of 0 included: [60 / 0] is infinite), or when a
    voice of the measure throws: an active track whose sound names a
    member of [Object.prototype] ([TypeError], line 99 of
    [SampleGenerator.js]), or, for a negative tempo, an active track on
    a step after the first, whose start time is negative ([RangeError],
    line 98).  Otherwise it sets up a stereo offline context of that
    many frames at the live sample rate: 88200 frames (2.0 s) at 120 BPM
    and 44.1 kHz. *)
Theorem exportBeat_outcome env w :
  reachable env w ->
  let len := webidl_unsigned_long (inject_Z (ctxSampleRate (ctx w)) * (240 / bpm (eng w))) in
  let throws := existsb entry_throws
    (measure_schedule (samples (eng w)) (tracks (eng w)) (60 / bpm (eng w) / 4)) in
  match exportBeat w with
  | Some r => hasContext (eng w) = true /\ len <> 0%Z /\ throws = false /\
              offlineChannels r = 2%nat /\ offlineLength r = len /\
              ctxSampleRate (offlineGraph r) = ctxSampleRate (ctx w)
  | None => hasContext (eng w) = false \/ len = 0%Z \/ throws = true
  end.
Proof.
  intros Hr len throws. destruct (reachable_inv env w Hr) as [Hc _].
  assert (Hlen : webidl_unsigned_long (inject_Z (ctxSampleRate (ctx w)) *
    (inject_Z (Z.of_nat (1 * globalStepCount (eng w))) * (60 / bpm (eng w) / 4))) = len).
  { unfold len, webidl_unsigned_long. rewrite (ci_count _ Hc). f_equal. apply trunc_proper.
    by rewrite measure_seconds. }
  destruct (exportBeat w) as [r|] eqn:Hx.
  - pose proof (exportBeat_rate w r (ci_count _ Hc) Hx) as Hrate.
    destruct (exportBeat_Some w r Hx)
      as (Hh & Hl & Hz & Hch & ms & vol & lo & hi & wet & c0 & _ & _ & _ & _ & _ & _ & Hloop).
    rewrite (ci_count _ Hc), export_loops_schedule in Hloop.
    pose proof (for_each_export_result (offlineMasters r)
      (measure_schedule (samples (eng w)) (tracks (eng w)) (60 / bpm (eng w) / 4)) c0) as Hres.
    rewrite Hloop in Hres. rewrite Hlen in Hl. rewrite Hl in Hz.
    repeat split; try done. unfold throws. by destruct (existsb _ _).
  - destruct (hasContext (eng w)) eqn:Hh; [right|by left].
    destruct (decide (len = 0%Z)) as [|Hz]; [by left|right]. rewrite <- Hlen in Hz.
    unfold throws. destruct (existsb _ _) eqn:Ht; [done|].
    destruct (exportBeat_defined env w Hr Hh Hz Ht) as [r Hr']. congruence.
Qed.

(** ** The scenario of the specification *)

Lemma reachable_toggle env i s w : reachable env w -> reachable env (toggleStep i s w).2.
Proof. intros Hr. eapply rtc_r; [exact Hr|]. by apply (step_exec (OToggleStep i s)). Qed.

(** Four tracks of 16 steps at 120 BPM, the kick track's steps 0, 4, 8
    and 12 on. *)
Abbreviation scenario_world :=
  (toggleStep 0 12 (toggleStep 0 8 (toggleStep 0 4 (toggleStep 0 0 example_world).2).2).2).2.

Lemma scenario_reachable : reachable example_env scenario_world.
Proof. do 4 apply reachable_toggle. apply rtc_refl. Qed.

Lemma exportBeat_replays_live_witness :
  globalStepCount (eng scenario_world) = 16%nat /\
  map (fun '(time, _, _) => Qred time)
    (measure_schedule (samples (eng scenario_world)) (tracks (eng scenario_world))
       (60 / bpm (eng scenario_world) / 4)) = [0; 1 # 2; 1; 3 # 2] /\
  exists r c0, exportBeat scenario_world = Some r /\
    offlineGraph r = (for_each (export_entry (offlineMasters r))
      (measure_schedule (samples (eng scenario_world)) (tracks (eng scenario_world))
         (60 / bpm (eng scenario_world) / 4)) c0).2.
Proof.
  assert (H16 : globalStepCount (eng scenario_world) = 16%nat) by (vm_compute; reflexivity).
  split; [exact H16|]. split; [vm_compute; reflexivity|].
  destruct (exportBeat scenario_world) as [r|] eqn:E; [|vm_compute in E; discriminate].
  destruct (exportBeat_replays_live scenario_world r H16 E)
    as [_ (ms & vol & lo & hi & wet & c0 & _ & _ & _ & _ & _ & _ & Hg)].
  exists r, c0. split; [reflexivity|exact Hg].
Defined.

Lemma exportBeat_outcome_witness :
  reachable example_env scenario_world /\
  match exportBeat scenario_world with
  | Some r => offlineLength r = 88200%Z /\ offlineChannels r = 2%nat /\
              ctxSampleRate (offlineGraph r) = 44100%Z
  | None => False
  end.
Proof.
  split; [exact scenario_reachable|].
  pose proof (exportBeat_outcome example_env scenario_world scenario_reachable) as Ho.
  cbv zeta in Ho. destruct (exportBeat scenario_world) as [r|].
  - destruct Ho as (_ & _ & _ & -> & -> & ->). split; [vm_compute; reflexivity|].
    split; [reflexivity|vm_compute; reflexivity].
  - destruct Ho as [Ho|[Ho|Ho]]; vm_compute in Ho; discriminate.
Defined.

Local Open Scope nat_scope.

(** ** Rendering and encoding *)

Section Download.

(** [offlineContext.startRendering()]: the rendered buffer, or [None]
    when the rendering rejects. *)
Variable startRendering : OfflineRender -> option AudioBuffer.

(** Lines 368-373: [try { renderedBuffer = await startRendering();
    WavEncoder.downloadAudio(renderedBuffer) } catch { console.error }].
    [None]: the promise of [exportBeat()] rejects; [Some None]: it
    resolves without a file; [Some (Some bytes)]: it resolves after
    handing [bytes] to the Blob of [beat.wav]. *)
Definition exportBeat_file (w : World) : option (option (list Z)) :=
  r ← exportBeat w;
  Some (b ← startRendering r; downloadAudio b).

(** What the Web Audio specification promises of a completed rendering:
    a buffer with the context's channel count, length and sample rate,
    one data array per channel. *)
Definition render_contract : Prop :=
  forall r b, startRendering r = Some b ->
    numberOfChannels b = offlineChannels r /\ bufferLength b = Z.to_nat (offlineLength r) /\
    sampleRate b = ctxSampleRate (offlineGraph r) /\ length (channelData b) = numberOfChannels b.

(** C9: (composition with the encoder, error) in every reachable state,
    when [exportBeat()] gets past its setup and the rendering completes,
    the file handed to the download is a canonical stereo 16-bit WAV at
    the live sample rate holding exactly the offline context's frames:
    [44 + 4 * length] bytes.  When the rendering rejects, the error is
    caught and logged: [exportBeat()] resolves without a file instead of
    rejecting. *)
Theorem exportBeat_file_outcome env w :
  render_contract -> reachable env w ->
  match exportBeat w with
  | None => exportBeat_file w = None
  | Some r =>
      match startRendering r with
      | None => exportBeat_file w = Some None
      | Some b => exists bytes, exportBeat_file w = Some (Some bytes) /\
          length bytes = 44 + Z.to_nat (offlineLength r) * 4 /\ tags_ok bytes /\
          hNumChannels (parse_header bytes) = 2%Z /\ hBlockAlign (parse_header bytes) = 4%Z /\
          hSampleRate (parse_header bytes) = ToUint32 (ctxSampleRate (ctx w))
      end
  end.
Proof.
  intros Hc Hr. destruct (reachable_inv env w Hr) as [Hci _].
  unfold exportBeat_file. destruct (exportBeat w) as [r|] eqn:Hx; [|done].
  rewrite bind_Some. cbv beta.
  destruct (startRendering r) as [b|] eqn:Hb; [|done].
  destruct (Hc r b Hb) as (Hch & Hlen & Hsr & Hdata).
  destruct (exportBeat_Some w r Hx) as (_ & _ & _ & H2 & _).
  pose proof (exportBeat_rate w r (ci_count _ Hci) Hx) as Hrate.
  rewrite bind_Some. cbv beta. rewrite (downloadAudio_layout_aux b Hdata).
  destruct (wav_ref_header b) as [Htags Hhd].
  exists (wav_ref b). split; [done|]. rewrite length_wav_ref, Hlen, Hch, H2.
  split; [lia|]. split; [done|]. rewrite Hhd. cbn [hNumChannels hBlockAlign hSampleRate].
  rewrite Hch, H2, Hsr, Hrate. auto.
Qed.

End Download.

(** A renderer that honours the contract and renders silence. *)
Definition silent_render (r : OfflineRender) : option AudioBuffer :=
  Some {| numberOfChannels := offlineChannels r; bufferLength := Z.to_nat (offlineLength r);
          sampleRate := ctxSampleRate (offlineGraph r);
          channelData := replicate (offlineChannels r)
                           (replicate (Z.to_nat (offlineLength r)) (JNum 0)) |}.

Lemma exportBeat_file_outcome_witness :
  render_contract silent_render /\ reachable example_env scenario_world /\
  exists bytes, exportBeat_file silent_render scenario_world = Some (Some bytes) /\
    Z.of_nat (length bytes) = 352844%Z.
Proof.
  assert (Hc : render_contract silent_render).
  { intros r b [= <-]. cbn. by rewrite length_replicate. }
  split; [exact Hc|]. split; [exact scenario_reachable|].
  assert (Hr : exists r, exportBeat scenario_world = Some r /\ offlineLength r = 88200%Z).
  { assert (Hl : match exportBeat scenario_world with
                 | Some r => offlineLength r = 88200%Z | None => False end)
      by (vm_compute; reflexivity).
    destruct (exportBeat scenario_world) as [r|]; [by exists r|done]. }
  pose proof (exportBeat_file_outcome silent_render example_env scenario_world Hc
                scenario_reachable) as H.
  remember scenario_world as w eqn:Hw.
  destruct Hr as (r & E & Hl). rewrite E in H. cbn [silent_render] in H.
  destruct H as (bytes & Hf & Hlen & _).
  exists bytes. split; [exact Hf|].
  rewrite Hlen, Hl, Nat2Z.inj_add, Nat2Z.inj_mul, Z2Nat.id by lia. reflexivity.
Defined.
