(* ===== verification/Clock.v ===== *)
(** The sequencer clock as the specification describes it, and the proof
    that the engine of [src/audio-engine.js] implements it.

    [ClockSpec] is an abstract state machine: the clock is stopped or
    running, at a position of the 16-step measure, with the period of the
    tempo, an optional observer and the positions reported to it.  [play]
    starts a stopped clock at position 0 and does nothing to a running
    one; [stop] stops it at 0; a tempo change restarts a running clock at
    0; a tick exists only while running, reports the position and
    advances it modulo 16; every other operation leaves the clock alone.
    [abs] reads that state off a [World], and [clock_refinement] shows
    that every step of the engine from a reachable state is a step of
    [ClockSpec] between the abstract states. *)

From S2P Require Import Prelude WebAudio Track Engine.
From Stdlib Require Import QArith.
From stdpp Require Import gmap.

Module ClockSpec.

Record state := {
  running : bool;
  position : nat;
  period : Q;
  observed : bool;
  log : list nat
}.

Definition restart (r : bool) (s : state) : state :=
  {| running := r; position := 0; period := period s; observed := observed s; log := log s |}.

Definition retempo (p : Q) (s : state) : state :=
  {| running := running s; position := if running s then 0 else position s; period := p;
     observed := observed s; log := log s |}.

Definition advance (s : state) : state :=
  {| running := true; position := (position s + 1) mod 16; period := period s;
     observed := observed s; log := log s ++ (if observed s then [position s] else []) |}.

Definition observe (s : state) : state :=
  {| running := running s; position := position s; period := period s; observed := true;
     log := log s |}.

Inductive step : state -> state -> Prop :=
| StartStopped s : running s = false -> step s (restart true s)
| StartRunning s : running s = true -> step s s
| Stop s : step s (restart false s)
| Tempo s p : step s (retempo p s)
| Tick s : running s = true -> step s (advance s)
| Observe s : step s (observe s)
| Idle s : step s s.

Definition initial (p : Q) : state :=
  {| running := false; position := 0; period := p; observed := false; log := [] |}.

End ClockSpec.

(** The abstraction: the clock fields of the engine, the period its
    interval gets, and the observer's log. *)
Definition abs (w : World) : ClockSpec.state := {|
  ClockSpec.running := isPlaying (eng w); ClockSpec.position := currentStep (eng w);
  ClockSpec.period := stepDuration (bpm (eng w)); ClockSpec.observed := onStepPlay (eng w);
  ClockSpec.log := notified w |}.

(** ** The engine implements the clock *)

(** The operations that leave the clock alone. *)
Ltac abs_same :=
  unfold abs, setMaster, setTrackParam, setTrackStepCount, setTrackSound, toggleStep,
    playSound, clearAll, startRecording, stopRecording, run_wa, set_ctx, set_track in *;
  repeat case_match; simplify_eq; reflexivity.

Lemma abs_play w :
  abs (play w) = if isPlaying (eng w) then abs w else ClockSpec.restart true (abs w).
Proof. unfold play. by destruct (isPlaying (eng w)). Qed.

Lemma abs_stop w : abs (stop w) = ClockSpec.restart false (abs w).
Proof. unfold abs, stop. cbn. by repeat case_match. Qed.

Lemma abs_setBPM b w : abs (setBPM b w) = ClockSpec.retempo (stepDuration b) (abs w).
Proof.
  unfold setBPM. cbn [eng set_eng with_bpm isPlaying].
  destruct (isPlaying (eng w)) eqn:Hp; [|unfold abs; cbn; by rewrite Hp].
  rewrite abs_play, abs_stop. cbn. unfold abs. cbn. by rewrite Hp.
Qed.

(** A tick advances the clock when its voices return, and leaves it
    alone when one throws. *)
Lemma abs_tick w :
  globalStepCount (eng w) = 16%nat -> isPlaying (eng w) = true ->
  abs (tick w) = if (playStep w).1 then ClockSpec.advance (abs w) else abs w.
Proof.
  intros H16 Hp. destruct (playStep w).1 eqn:Hok.
  - destruct (tick_frame w) as (_ & Hp' & _ & Hb & _ & Ho & _).
    destruct (tick_fields w Hok) as [Hs Hn].
    unfold abs, ClockSpec.advance. cbn [ClockSpec.position ClockSpec.observed ClockSpec.log].
    rewrite Hp', Hb, Ho, Hs, Hn, H16, Hp. reflexivity.
  - destruct (tick_stalls w Hok) as [He Hn]. unfold abs. by rewrite He, Hn.
Qed.

(** C6: (refinement) every step of the engine from a reachable state
    (a public call, an interval tick, the audio clock running on) is a
    step of the clock specification between the abstract states: [play]
    starts a stopped clock at position 0 and leaves a running one alone,
    [stop] stops at 0, [setBPM] restarts a running clock at 0 with the new
    period, a tick happens only while running and reports the position
    to the observer before advancing it modulo 16 (a tick whose voice
    throws leaves the clock alone), attaching the observer is the only
    change to it, and nothing else moves the clock. *)
Theorem clock_refinement env w w' :
  reachable env w -> step w w' -> ClockSpec.step (abs w) (abs w').
Proof.
  intros Hr Hs. inversion Hs as [o w0 w1 Hx]; subst w0 w1.
  destruct (reachable_inv env w Hr) as [Hc _].
  destruct o; cbn [exec] in Hx.
  - injection Hx as <-. rewrite abs_play.
    destruct (isPlaying (eng w)) eqn:Hp; [by apply ClockSpec.StartRunning, Hp|].
    by apply ClockSpec.StartStopped.
  - injection Hx as <-. rewrite abs_stop. apply ClockSpec.Stop.
  - injection Hx as <-. rewrite abs_setBPM. apply ClockSpec.Tempo.
  - replace (abs w') with (abs w) by abs_same. apply ClockSpec.Idle.
  - replace (abs w') with (abs w) by abs_same. apply ClockSpec.Idle.
  - replace (abs w') with (abs w) by abs_same. apply ClockSpec.Idle.
  - replace (abs w') with (abs w) by abs_same. apply ClockSpec.Idle.
  - replace (abs w') with (abs w) by abs_same. apply ClockSpec.Idle.
  - replace (abs w') with (abs w) by abs_same. apply ClockSpec.Idle.
  - replace (abs w') with (abs w) by abs_same. apply ClockSpec.Idle.
  - replace (abs w') with (abs w) by abs_same. apply ClockSpec.Idle.
  - replace (abs w') with (abs w) by abs_same. apply ClockSpec.Idle.
  - injection Hx as <-. apply ClockSpec.Observe.
  - destruct (timers w !! id) eqn:Ht; [injection Hx as <-|done].
    pose proof (ci_timer _ Hc) as Hti. assert (Hp : isPlaying (eng w) = true).
    { destruct (intervalId (eng w)); [tauto|]. destruct Hti as [_ He]. by rewrite He in Ht. }
    rewrite abs_tick by (done || apply (ci_count _ Hc)).
    destruct (playStep w).1; [by apply ClockSpec.Tick|apply ClockSpec.Idle].
  - destruct (Qle_bool 0 dt); [injection Hx as <-|done]. apply ClockSpec.Idle.
Qed.

Lemma clock_refinement_witness :
  reachable example_env example_world /\ step example_world (play example_world) /\
  ClockSpec.step (abs example_world) (abs (play example_world)).
Proof.
  assert (Hr : reachable example_env example_world) by apply rtc_refl.
  assert (Hs : step example_world (play example_world)) by (apply (step_exec OPlay); reflexivity).
  split; [exact Hr|]. split; [exact Hs|]. exact (clock_refinement _ _ _ Hr Hs).
Defined.

(** ** What the specification guarantees *)

Module ClockSpecFacts.
Import ClockSpec.

(** Positions stay in the measure, a stopped clock is at 0, and the
    observer is only told positions of the measure. *)
Definition good (s : state) : Prop :=
  (position s < 16)%nat /\ (running s = false -> position s = 0%nat) /\
  Forall (fun p => p < 16)%nat (log s).

Lemma good_step s s' : good s -> step s s' -> good s'.
Proof.
  intros (Hp & Hr & Hl) Hs.
  destruct Hs; unfold good, restart, retempo, advance, observe; cbn; try case_match;
    repeat split; auto; try lia.
  all: apply Forall_app; split; [done|]; first [by constructor | constructor; [lia|constructor]].
Qed.

End ClockSpecFacts.

Lemma abs_init env : ClockSpecFacts.good (abs (init env initial_world)).
Proof. destruct env as [[] sr [b|]]; vm_compute; (split; [lia|]); split; auto. Qed.

(** C31: (invariant, through the specification) in every reachable state
    the abstract clock [abs w] satisfies the specification's invariant
    [good], and so the clock's position is in the measure, a stopped clock is at
    position 0, and every position reported to the [onStepPlay] observer
    is in [0, 16). *)
Theorem engine_clock_positions env w :
  reachable env w ->
  ClockSpecFacts.good (abs w) /\
  (currentStep (eng w) < 16)%nat /\ (isPlaying (eng w) = false -> currentStep (eng w) = 0%nat) /\
  Forall (fun p => p < 16)%nat (notified w).
Proof.
  intros Hr. enough (H : ClockSpecFacts.good (abs w)) by (split; exact H).
  revert w Hr. apply rtc_ind_r; [apply abs_init|].
  intros y z Hy Hs IH. apply (ClockSpecFacts.good_step (abs y)); [exact IH|].
  by apply (clock_refinement env).
Qed.

Lemma engine_clock_positions_witness :
  reachable example_env (play example_world) /\
  Forall (fun p => p < 16)%nat (notified (play example_world)).
Proof.
  assert (Hr : reachable example_env (play example_world)).
  { apply rtc_once, (step_exec OPlay). cbn [exec]. reflexivity. }
  split; [exact Hr|]. exact (proj2 (proj2 (proj2 (engine_clock_positions _ _ Hr)))).
Defined.
