(* ===== verification/Dom.v ===== *)
(** The part of the browser platform the view layer relies on, written
    from the DOM, HTML and ECMAScript specifications (it is not code of
    the repository): an element's class list, the decimal string a number
    becomes in a [data-*] attribute ([String(n)]), [parseInt] on such
    strings, the value sanitization of an [<input type="range">], and the
    tag of the focused element.

    The lemmas are the facts the view layer's proofs use: [parseInt] reads
    back what [String(n)] wrote, and a sanitized range value lies between
    the input's [min] and [max]. *)

From S2P Require Import Prelude.
From Stdlib Require Import Ascii QArith Qminmax Lqa Qround Decimal DecimalString DecimalNat.
From stdpp Require Import gmap sets strings.

(** ** Class lists *)

(** [element.classList]: a set of class names. *)
Definition ClassList := gset string.

Definition cl_add (c : string) (l : ClassList) : ClassList := {[c]} ∪ l.
Definition cl_remove (c : string) (l : ClassList) : ClassList := l ∖ {[c]}.
(** [classList.toggle(c, force)]. *)
Definition cl_toggle (c : string) (force : bool) (l : ClassList) : ClassList :=
  if force then cl_add c l else cl_remove c l.
Definition cl_has (c : string) (l : ClassList) : bool := bool_decide (c ∈ l).

Lemma cl_has_add c c' l : cl_has c (cl_add c' l) = (bool_decide (c = c') || cl_has c l)%bool.
Proof.
  unfold cl_has, cl_add. apply eq_bool_prop_intro. rewrite orb_True, !bool_decide_spec.
  set_solver.
Qed.

Lemma cl_has_remove c c' l : cl_has c (cl_remove c' l) = (negb (bool_decide (c = c')) && cl_has c l)%bool.
Proof.
  unfold cl_has, cl_remove. apply eq_bool_prop_intro.
  rewrite andb_True, negb_True, !bool_decide_spec. set_solver.
Qed.

Lemma cl_has_toggle c c' f l :
  cl_has c (cl_toggle c' f l) = if bool_decide (c = c') then f else cl_has c l.
Proof.
  unfold cl_toggle. destruct f; [rewrite cl_has_add|rewrite cl_has_remove];
    by case_bool_decide.
Qed.

(** ** Numbers written to attributes and read back *)

(** [String(n)] of a natural number: its decimal digits. *)
Definition js_string_of_nat (n : nat) : string :=
  NilEmpty.string_of_uint (Nat.to_uint n).

(** The white space [parseInt] skips, within ASCII: space, tab, line
    feed, vertical tab, form feed, carriage return. *)
Definition is_js_space (c : Ascii.ascii) : bool :=
  let n := Ascii.nat_of_ascii c in (n =? 32) || ((9 <=? n) && (n <=? 13)).

Definition is_digit (c : Ascii.ascii) : bool :=
  let n := Ascii.nat_of_ascii c in (48 <=? n) && (n <=? 57).

Fixpoint skip_space (s : string) : string :=
  match s with
  | String c r => if is_js_space c then skip_space r else s
  | EmptyString => s
  end.

(** The longest prefix of decimal digits. *)
Fixpoint digit_prefix (s : string) : string :=
  match s with
  | String c r => if is_digit c then String c (digit_prefix r) else EmptyString
  | EmptyString => EmptyString
  end.

Definition digits_value (s : string) : option Z :=
  match s with
  | EmptyString => None
  | _ => (fun d => Z.of_nat (Nat.of_uint d)) <$> NilEmpty.uint_of_string s
  end.

(** [parseInt(s)] with radix 10: leading white space, an optional sign,
    the longest run of digits; [None] is [NaN]. *)
Definition parseInt (s : string) : option Z :=
  match skip_space s with
  | String "-" r => Z.opp <$> digits_value (digit_prefix r)
  | String "+" r => digits_value (digit_prefix r)
  | s' => digits_value (digit_prefix s')
  end.

Lemma string_of_uint_digits d : digit_prefix (NilEmpty.string_of_uint d) = NilEmpty.string_of_uint d.
Proof. induction d; cbn; by rewrite ?IHd. Qed.

Lemma parseInt_digit c s :
  is_digit c = true -> parseInt (String c s) = digits_value (String c (digit_prefix s)).
Proof.
  intros Hc. unfold parseInt. cbn [skip_space].
  destruct c as [[] [] [] [] [] [] [] []]; vm_compute in Hc; try discriminate Hc;
    cbn [skip_space is_js_space]; rewrite ?Hc; reflexivity.
Qed.

Lemma digits_value_uint d :
  d <> Nil -> digits_value (NilEmpty.string_of_uint d) = Some (Z.of_nat (Nat.of_uint d)).
Proof.
  intros Hd. unfold digits_value. pose proof (NilEmpty.usu d) as U.
  destruct (NilEmpty.string_of_uint d) eqn:E; [by injection U as <-|].
  by rewrite U.
Qed.

Lemma parseInt_uint d :
  d <> Nil -> parseInt (NilEmpty.string_of_uint d) = Some (Z.of_nat (Nat.of_uint d)).
Proof.
  intros Hd. rewrite <- digits_value_uint by done.
  destruct d; [done|..]; cbn [NilEmpty.string_of_uint];
    (rewrite parseInt_digit by reflexivity); by rewrite string_of_uint_digits.
Qed.

Lemma to_uint_not_nil n : Nat.to_uint n <> Nil.
Proof.
  intros E. pose proof (Unsigned.of_to n) as O. rewrite E in O. cbn in O. subst n. discriminate E.
Qed.

(** [parseInt(String(n)) = n]: a number stored in a [data-*] attribute
    is read back exactly. *)
Lemma parseInt_string_of_nat n : parseInt (js_string_of_nat n) = Some (Z.of_nat n).
Proof.
  unfold js_string_of_nat. rewrite parseInt_uint by apply to_uint_not_nil.
  by rewrite Unsigned.of_to.
Qed.

(** [String(z)] of an integer. *)
Definition js_string_of_Z (z : Z) : string :=
  if (z <? 0)%Z then String "-" (js_string_of_nat (Z.to_nat (- z))) else js_string_of_nat (Z.to_nat z).

Lemma js_string_of_Z_of_nat n : js_string_of_Z (Z.of_nat n) = js_string_of_nat n.
Proof. unfold js_string_of_Z. rewrite Nat2Z.id. by destruct (Z.ltb_spec (Z.of_nat n) 0); [lia|]. Qed.

(** Distinct numbers give distinct attribute values. *)
Lemma js_string_of_nat_inj n m : js_string_of_nat n = js_string_of_nat m -> n = m.
Proof.
  intros E. apply Nat2Z.inj. apply (inj Some).
  by rewrite <- !parseInt_string_of_nat, E.
Qed.

(** [s.replace(/-/g, ' ')]. *)
Fixpoint replace_dashes (s : string) : string :=
  match s with
  | EmptyString => EmptyString
  | String c r => String (if Ascii.eqb c "-" then " " else c) (replace_dashes r)
  end.

(** [s.toUpperCase()] on ASCII text. *)
Definition ascii_upper (c : Ascii.ascii) : Ascii.ascii :=
  let n := Ascii.nat_of_ascii c in
  if (97 <=? n) && (n <=? 122) then Ascii.ascii_of_nat (n - 32) else c.

Fixpoint toUpperCase (s : string) : string :=
  match s with
  | EmptyString => EmptyString
  | String c r => String (ascii_upper c) (toUpperCase r)
  end.

(** ** Loops *)

(** How a loop body ends: normally, or by [break]. *)
Inductive Completion (St : Type) := Normal (s : St) | Break (s : St).
Arguments Normal {St} s.
Arguments Break {St} s.

(** [for (let i = lo; i < hi; i++) body]: the body may throw ([None]) or
    break; [fuel] bounds the number of iterations. *)
Fixpoint js_for {St} (fuel i hi : nat) (body : nat -> St -> option (Completion St)) (s : St)
  : option St :=
  match fuel with
  | O => None
  | S f =>
      if (i <? hi)%nat then
        c ← body i s;
        match c with Normal s' => js_for f (S i) hi body s' | Break s' => Some s' end
      else Some s
  end.

Section JsFor.
Context {St : Type} (body : nat -> St -> option (Completion St)) (hi : nat).

(** A loop whose body never throws completes when the fuel exceeds the
    number of iterations left. *)
Lemma js_for_total fuel i s :
  (forall j s, (i <= j < hi)%nat -> is_Some (body j s)) ->
  (hi - i < fuel)%nat -> is_Some (js_for fuel i hi body s).
Proof.
  revert i s. induction fuel as [|f IH]; intros i s Hb Hf; [lia|]. cbn [js_for].
  destruct (Nat.ltb_spec i hi); [|by eexists].
  assert (Hi : (i <= i < hi)%nat) by lia.
  destruct (Hb i s Hi) as [[s'|s'] ->]; cbn [mbind option_bind]; [|by eexists].
  apply IH; [intros j s0 ?; apply Hb; lia|lia].
Qed.

(** Fuel beyond what the loop uses does not change its result. *)
Lemma js_for_fuel fuel fuel' i s r :
  (fuel <= fuel')%nat -> js_for fuel i hi body s = Some r -> js_for fuel' i hi body s = Some r.
Proof.
  revert fuel' i s. induction fuel as [|f IH]; intros fuel' i s Hle H; [done|].
  destruct fuel' as [|f']; [lia|]. cbn [js_for] in *.
  destruct (i <? hi)%nat; [|done]. destruct (body i s) as [[]|]; cbn [mbind option_bind] in *;
    [|done|done].
  apply IH; [lia|done].
Qed.

End JsFor.

(** ** Range inputs *)

Local Open Scope Q_scope.

(** The value an [<input type="range" min max step>] holds after the user
    moves it towards [v]: clamped to [[min, max]], then rounded to the
    nearest [min + k * step], ties upwards, and stepped down if that
    passes [max] (HTML, value sanitization of the range state). *)
Definition range_sanitize (min max step v : Q) : Q :=
  let v := Qmax min (Qmin max v) in
  let k := Qfloor ((v - min) / step + (1 # 2)) in
  let r := min + inject_Z k * step in
  if Qle_bool r max then r else min + inject_Z (k - 1) * step.

Lemma range_sanitize_bounds min max step v :
  min <= max -> 0 < step -> min <= range_sanitize min max step v <= max.
Proof.
  intros Hmm Hs. unfold range_sanitize.
  set (v' := Qmax min (Qmin max v)).
  assert (Hv : min <= v' <= max).
  { unfold v'. split; [apply Q.le_max_l|]. apply Q.max_lub; [done|apply Q.le_min_l]. }
  set (x := (v' - min) / step + (1 # 2)).
  assert (Hx : 1 # 2 <= x).
  { unfold x. assert (0 <= (v' - min) / step); [|lra].
    apply Qle_shift_div_l; lra. }
  assert (Hk0 : 0 <= inject_Z (Qfloor x)).
  { change 0 with (inject_Z 0). rewrite <- Zle_Qle. apply Qfloor_resp_le in Hx.
    change (Qfloor (1 # 2)) with 0%Z in Hx. exact Hx. }
  assert (Hk : inject_Z (Qfloor x) * step <= v' - min + (1 # 2) * step).
  { assert (E : x * step == v' - min + (1 # 2) * step) by (unfold x; field; lra).
    rewrite <- E. apply Qmult_le_compat_r; [apply Qfloor_le|lra]. }
  destruct (Qle_bool _ max) eqn:Hle.
  - apply Qle_bool_iff in Hle. split; [|done].
    assert (0 <= inject_Z (Qfloor x) * step) by (apply Qmult_le_0_compat; lra). lra.
  - apply not_true_iff_false in Hle. rewrite Qle_bool_iff in Hle. apply Qnot_le_lt in Hle.
    rewrite <- Z.add_opp_r, inject_Z_plus, inject_Z_opp. change (inject_Z 1) with 1. split.
    + assert (Hk1 : 1 <= inject_Z (Qfloor x)).
      { change 1 with (inject_Z 1). rewrite <- Zle_Qle.
        destruct (Z.le_gt_cases 1 (Qfloor x)) as [|Hlt]; [done|exfalso].
        assert (Hz : (Qfloor x <= 0)%Z) by lia. rewrite Zle_Qle in Hz. change (inject_Z 0) with 0 in Hz.
        assert (0 <= (- inject_Z (Qfloor x)) * step) by (apply Qmult_le_0_compat; lra).
        assert ((- inject_Z (Qfloor x)) * step == - (inject_Z (Qfloor x) * step)) by ring.
        lra. }
      assert (0 <= (inject_Z (Qfloor x) - 1) * step) by (apply Qmult_le_0_compat; lra). lra.
    + assert ((inject_Z (Qfloor x) - 1) * step == inject_Z (Qfloor x) * step - step) by ring.
      lra.
Qed.

(** ** Focus *)

(** [document.activeElement.tagName], for the keyboard handler. *)
Inductive TagName := TInput | TSelect | TTextarea | TButton | TBody | TOther.

#[export] Instance TagName_eq_dec : EqDecision TagName.
Proof. solve_decision. Defined.
