(* ===== verification/Renderers.v ===== *)
(** The two view renderers of [src/src/ui/]: [SequencerRenderer.render]
    builds one row per track (its name, a sound selector and a step-count
    selector), [SequencerRenderer.renderTrackSteps] fills a row with its
    step buttons, grouped four to a measure by two nested [for] loops,
    and [MixerRenderer.render] builds one mixer channel of five range
    inputs per track.  The DOM they build is a value: rows, selects with
    their options, buttons with their [data-*] attributes and class
    lists, channels with their inputs.

    [renderTrackSteps_layout] shows that the nested loops terminate and
    lay out exactly the buttons [0 .. stepCount - 1] in order. *)

From S2P Require Import Prelude Dom Track.
From Stdlib Require Import QArith.
From stdpp Require Import gmap sets strings.

(** ** The DOM the renderers build *)

(** A [<button class="step-button">] with [data-track], [data-step], its
    text and its class list; [btnListener] is the track index its click
    listener captured, [None] before [Sequencer] attaches one. *)
Record StepButton := {
  btnTrack : string; btnStep : string; btnText : string; btnClasses : ClassList;
  btnListener : option Z
}.

(** An [<option value>] with its text and selectedness. *)
Record SelectOption := { optValue : string; optText : string; optSelected : bool }.

(** A [<select data-track>] with its options and class list. *)
Record Select := { selTrack : string; selOptions : list SelectOption; selClasses : ClassList }.

(** A [.track-row]: [data-track] (shared by the row, its selects and its
    [.step-buttons] container), the [.track-name] text, the two selects
    and the measure groups of the step-button container. *)
Record TrackRow := {
  rowTrack : string; rowName : string; soundSel : Select; stepSel : Select;
  rowSteps : list (list StepButton)
}.

(** An [<input type="range">] of a mixer channel. *)
Record RangeInput := {
  riId : string; riMin : Q; riMax : Q; riStep : Q; riValue : Q; riControl : string
}.

(** A [.mixer-channel]: [data-track], its heading, its five inputs, and
    the track index the inputs' listeners captured ([None] before
    [initMixerControls]). *)
Record Channel := {
  chTrack : string; chTitle : string; chInputs : list RangeInput; chListener : option Z
}.

Definition with_selected (b : bool) (o : SelectOption) : SelectOption :=
  {| optValue := optValue o; optText := optText o; optSelected := b |}.

Definition with_options (opts : list SelectOption) (s : Select) : Select :=
  {| selTrack := selTrack s; selOptions := opts; selClasses := selClasses s |}.

Definition with_sel_classes (c : ClassList) (s : Select) : Select :=
  {| selTrack := selTrack s; selOptions := selOptions s; selClasses := c |}.

Definition with_row_steps (g : list (list StepButton)) (r : TrackRow) : TrackRow :=
  {| rowTrack := rowTrack r; rowName := rowName r; soundSel := soundSel r; stepSel := stepSel r;
     rowSteps := g |}.

Definition with_sound_sel (s : Select) (r : TrackRow) : TrackRow :=
  {| rowTrack := rowTrack r; rowName := rowName r; soundSel := s; stepSel := stepSel r;
     rowSteps := rowSteps r |}.

Definition with_step_sel (s : Select) (r : TrackRow) : TrackRow :=
  {| rowTrack := rowTrack r; rowName := rowName r; soundSel := soundSel r; stepSel := s;
     rowSteps := rowSteps r |}.

Definition with_btn_classes (c : ClassList) (b : StepButton) : StepButton :=
  {| btnTrack := btnTrack b; btnStep := btnStep b; btnText := btnText b; btnClasses := c;
     btnListener := btnListener b |}.

(** ** Selects (HTML) *)

(** The last option parsed with [selected] is the selected one; with
    none, the first option is (the selectedness setting algorithm of a
    single-line [<select>]). *)
Definition select_insert (opts : list SelectOption) : list SelectOption :=
  let k := match list_find (fun o => optSelected o = true) (reverse opts) with
           | Some (j, _) => (length opts - 1 - j)%nat
           | None => 0%nat
           end in
  imap (fun j o => with_selected (bool_decide (j = k)) o) opts.

(** [select.value]: the value of the first selected option, or the empty
    string. *)
Definition select_value (s : Select) : string :=
  default EmptyString (optValue ∘ snd <$> list_find (fun o => optSelected o = true) (selOptions s)).

(** [select.value = v]: every option is deselected, then the first whose
    value is [v], if any, is selected. *)
Definition select_set_value (v : string) (s : Select) : Select :=
  let k := fst <$> list_find (fun o => optValue o = v) (selOptions s) in
  with_options (imap (fun j o => with_selected (bool_decide (Some j = k)) o) (selOptions s)) s.

(** The user picks the [k]-th option. *)
Definition select_choose (k : nat) (s : Select) : Select :=
  with_options (imap (fun j o => with_selected (bool_decide (j = k)) o) (selOptions s)) s.

(** ** [SequencerRenderer] *)

Module SequencerRenderer.

(** [sound.replace(/-/g, ' ').toUpperCase()]. *)
Definition displayName (sound : string) : string := toUpperCase (replace_dashes sound).

(** Lines 12-17: one option per sound, [selected] on the track's. *)
Definition sound_option (t : Track) (snd : string) : SelectOption :=
  {| optValue := snd; optText := displayName snd; optSelected := bool_decide (snd = sound t) |}.

(** Lines 20-23: the options [4], [8], [16]. *)
Definition step_option (t : Track) (count : nat) : SelectOption :=
  {| optValue := js_string_of_nat count;
     optText := String.append (js_string_of_nat count) " Steps";
     optSelected := bool_decide (count = _stepCount t) |}.

Definition stepCountChoices : list nat := [4; 8; 16]%nat.

(** Lines 7-38: the row of track [i], its step-button container empty. *)
Definition render_row (allSounds : list string) (i : nat) (t : Track) : TrackRow := {|
  rowTrack := js_string_of_nat i;
  rowName := String.append "TRACK " (js_string_of_nat (i + 1));
  soundSel := {| selTrack := js_string_of_nat i;
                 selOptions := select_insert (map (sound_option t) allSounds);
                 selClasses := {["sound-selector"]} |};
  stepSel := {| selTrack := js_string_of_nat i;
                selOptions := select_insert (map (step_option t) stepCountChoices);
                selClasses := {["step-count-selector"]} |};
  rowSteps := [] |}.

(** [render(tracksData, allSounds)]: the grid is emptied, then one row
    per track in array order. *)
Definition render (tracksData : list Track) (allSounds : list string) : list TrackRow :=
  imap (render_row allSounds) tracksData.

(** Lines 60-69: the button of step [actualStepIndex]. *)
Definition step_button (trackIndex : Z) (stepsActiveState : JsArray)
    (actualStepIndex stepInMeasure : nat) : StepButton := {|
  btnTrack := js_string_of_Z trackIndex;
  btnStep := js_string_of_nat actualStepIndex;
  btnText := js_string_of_nat (stepInMeasure + 1);
  btnClasses := if js_get stepsActiveState (Z.of_nat actualStepIndex)
                then cl_add "active" {["step-button"]} else {["step-button"]};
  btnListener := None |}.

(** Lines 56-72, the inner loop's body: [break] past the step count. *)
Definition measure_body (trackIndex : Z) (stepCount : nat) (a : JsArray) (measure : nat)
    (stepInMeasure : nat) (group : list StepButton) : option (Completion (list StepButton)) :=
  let actualStepIndex := (measure * 4 + stepInMeasure)%nat in
  if (stepCount <=? actualStepIndex)%nat then Some (Break group)
  else Some (Normal (group ++ [step_button trackIndex a actualStepIndex stepInMeasure])).

(** Lines 52-74, the outer loop's body: a measure group of at most four. *)
Definition groups_body (trackIndex : Z) (stepCount : nat) (a : JsArray) (measure : nat)
    (groups : list (list StepButton)) : option (Completion (list (list StepButton))) :=
  group ← js_for 5 0 4 (measure_body trackIndex stepCount a measure) [];
  Some (Normal (groups ++ [group])).

(** Lines 50-74: [measures = Math.ceil(stepCount / 4)] groups. *)
Definition render_groups (trackIndex : Z) (stepCount : nat) (a : JsArray)
  : option (list (list StepButton)) :=
  let measures := ((stepCount + 3) / 4)%nat in
  js_for (S measures) 0 measures (groups_body trackIndex stepCount a) [].

(** [renderTrackSteps(trackIndex, stepCount, stepsActiveState)]: the
    first [.step-buttons[data-track="trackIndex"]] of the document gets
    the groups; without one, nothing happens. *)
Definition renderTrackSteps (trackIndex : Z) (stepCount : nat) (a : JsArray)
    (rows : list TrackRow) : option (list TrackRow) :=
  match list_find (fun r => rowTrack r = js_string_of_Z trackIndex) rows with
  | None => Some rows
  | Some (k, r) =>
      groups ← render_groups trackIndex stepCount a;
      Some (<[k := with_row_steps groups r]> rows)
  end.

End SequencerRenderer.

(** ** [MixerRenderer] *)

Module MixerRenderer.

(** An input as parsed: its [value] attribute sanitized. *)
Definition range_input (id : string) (min max step value : Q) (control : string) : RangeInput :=
  {| riId := id; riMin := min; riMax := max; riStep := step;
     riValue := range_sanitize min max step value; riControl := control |}.

(** Lines 7-32: the channel of track [i]. *)
Definition channel (i : nat) : Channel :=
  let s := js_string_of_nat i in {|
  chTrack := s;
  chTitle := String.append "TRACK " (js_string_of_nat (i + 1));
  chInputs := [
    range_input (String.append "vol-" s) 0 1 (1 # 100) (8 # 10) "volume";
    range_input (String.append "pan-" s) (-1) 1 (1 # 100) 0 "pan";
    range_input (String.append "rev-" s) 0 1 (1 # 100) 0 "reverb";
    range_input (String.append "eqlow-" s) (-12) 12 (1 # 10) 0 "eqlow";
    range_input (String.append "eqhigh-" s) (-12) 12 (1 # 10) 0 "eqhigh"];
  chListener := None |}.

(** [render(numTracks)]. *)
Definition render (numTracks : nat) : list Channel := map channel (seq 0 numTracks).

End MixerRenderer.

(** ** The step-button layout *)

Section Layout.
Import SequencerRenderer.
Context (trackIndex : Z) (stepCount : nat) (a : JsArray).

(** The buttons of measure [m]. *)
Definition measure_group (m : nat) : list StepButton :=
  map (fun s => step_button trackIndex a (m * 4 + s) s) (seq 0 (Nat.min 4 (stepCount - m * 4))).

Lemma measure_body_break m j g :
  (stepCount <= m * 4 + j)%nat -> measure_body trackIndex stepCount a m j g = Some (Break g).
Proof. intros H. unfold measure_body. by destruct (Nat.leb_spec stepCount (m * 4 + j)); [|lia]. Qed.

Lemma measure_body_normal m j g :
  (m * 4 + j < stepCount)%nat ->
  measure_body trackIndex stepCount a m j g =
  Some (Normal (g ++ [step_button trackIndex a (m * 4 + j) j])).
Proof. intros H. unfold measure_body. by destruct (Nat.leb_spec stepCount (m * 4 + j)); [lia|]. Qed.

Lemma measure_loop m fuel j g :
  (j <= 4)%nat -> (4 - j < fuel)%nat ->
  js_for fuel j 4 (measure_body trackIndex stepCount a m) g =
  Some (g ++ map (fun s => step_button trackIndex a (m * 4 + s) s)
                 (seq j (Nat.min 4 (stepCount - m * 4) - j))).
Proof.
  revert j g. induction fuel as [|f IH]; intros j g Hj Hf; [lia|]. cbn [js_for].
  destruct (Nat.ltb_spec j 4) as [Hlt|Hge].
  - destruct (Nat.leb_spec stepCount (m * 4 + j)) as [Hb|Hb];
      [rewrite measure_body_break by done|rewrite measure_body_normal by done];
      cbn [mbind option_bind].
    + replace (Nat.min 4 (stepCount - m * 4) - j)%nat with 0%nat by lia.
      cbn [seq map]. by rewrite app_nil_r.
    + rewrite IH by lia. f_equal. rewrite <- app_assoc. f_equal.
      replace (Nat.min 4 (stepCount - m * 4) - j)%nat
        with (S (Nat.min 4 (stepCount - m * 4) - S j)) by lia. done.
  - replace (Nat.min 4 (stepCount - m * 4) - j)%nat with 0%nat by lia.
    cbn [seq map]. by rewrite app_nil_r.
Qed.

Lemma groups_body_eq m gs :
  groups_body trackIndex stepCount a m gs = Some (Normal (gs ++ [measure_group m])).
Proof.
  unfold groups_body. rewrite measure_loop by lia. cbn [mbind option_bind].
  unfold measure_group. by rewrite Nat.sub_0_r.
Qed.

Lemma groups_loop fuel m M gs :
  (M - m < fuel)%nat ->
  js_for fuel m M (groups_body trackIndex stepCount a) gs =
  Some (gs ++ map measure_group (seq m (M - m))).
Proof.
  revert m gs. induction fuel as [|f IH]; intros m gs Hf; [lia|]. cbn [js_for].
  destruct (Nat.ltb_spec m M).
  - rewrite groups_body_eq. cbn [mbind option_bind]. rewrite IH by lia. f_equal. rewrite <- app_assoc.
    replace (M - m)%nat with (S (M - S m)) by lia. done.
  - replace (M - m)%nat with 0%nat by lia. cbn [seq map]. by rewrite app_nil_r.
Qed.

Lemma measure_group_flat m :
  measure_group m = map (fun k => step_button trackIndex a k (k mod 4))
                        (seq (m * 4) (Nat.min 4 (stepCount - m * 4))).
Proof.
  unfold measure_group. assert (Hc : (Nat.min 4 (stepCount - m * 4) <= 4)%nat) by lia.
  revert Hc. generalize (Nat.min 4 (stepCount - m * 4)) as c.
  enough (H : forall c j, (j + c <= 4)%nat ->
    map (fun s => step_button trackIndex a (m * 4 + s) s) (seq j c) =
    map (fun k => step_button trackIndex a k (k mod 4)) (seq (m * 4 + j) c)).
  { intros c Hc. rewrite (H c 0%nat) by lia. by rewrite Nat.add_0_r. }
  induction c as [|c IH]; intros j Hj; [done|]. cbn [seq map].
  rewrite (IH (S j)) by lia. replace (m * 4 + S j)%nat with (S (m * 4 + j)) by lia.
  f_equal. f_equal. rewrite Nat.add_comm, Nat.mod_add by lia. rewrite Nat.mod_small; lia.
Qed.

Lemma concat_groups c m0 :
  concat (map measure_group (seq m0 c)) =
  map (fun k => step_button trackIndex a k (k mod 4))
      (seq (m0 * 4) (Nat.min (c * 4) (stepCount - m0 * 4))).
Proof.
  revert m0. induction c as [|c IH]; intros m0; [done|].
  cbn [seq map concat]. rewrite IH, measure_group_flat, <- map_app. f_equal.
  destruct (decide (4 <= stepCount - m0 * 4)%nat).
  - replace (Nat.min 4 (stepCount - m0 * 4)) with 4%nat by lia.
    replace (S m0 * 4)%nat with (m0 * 4 + 4)%nat by lia. rewrite <- seq_app. f_equal. lia.
  - replace (Nat.min (c * 4) (stepCount - S m0 * 4)) with 0%nat by lia.
    rewrite app_nil_r. f_equal. lia.
Qed.

End Layout.

(** The nested loops complete and lay out the buttons of steps
    [0 .. n - 1] in [Math.ceil(n / 4)] groups of at most four. *)
Lemma render_groups_layout trackIndex n a :
  exists groups, SequencerRenderer.render_groups trackIndex n a = Some groups /\
    length groups = ((n + 3) / 4)%nat /\ Forall (fun g => length g <= 4)%nat groups /\
    concat groups =
      map (fun k => SequencerRenderer.step_button trackIndex a k (k mod 4)) (seq 0 n).
Proof.
  unfold SequencerRenderer.render_groups. rewrite groups_loop by lia. cbn [app].
  eexists. split; [reflexivity|]. rewrite Nat.sub_0_r. split; [by rewrite length_map, length_seq|].
  split.
  - apply Forall_forall. intros g [m [<- _]]%list_elem_of_In%in_map_iff.
    unfold measure_group. rewrite length_map, length_seq. lia.
  - rewrite concat_groups. replace (Nat.min ((n + 3) / 4 * 4) (n - 0 * 4)) with n; [done|].
    pose proof (Nat.div_mod (n + 3) 4). pose proof (Nat.mod_upper_bound (n + 3) 4). lia.
Qed.

(** ** The grid *)

(** Row [j] of the grid carries [data-track = j]. *)
Definition grid_keys (rows : list TrackRow) : Prop :=
  forall j r, rows !! j = Some r -> rowTrack r = js_string_of_nat j.

Lemma render_grid_keys ts sounds : grid_keys (SequencerRenderer.render ts sounds).
Proof.
  intros j r. unfold SequencerRenderer.render. rewrite list_lookup_imap.
  destruct (ts !! j); intros; simplify_eq/=. done.
Qed.

Lemma grid_keys_insert rows i r :
  grid_keys rows -> rowTrack r = js_string_of_nat i -> grid_keys (<[i := r]> rows).
Proof.
  intros Hk Hr j r'. rewrite list_lookup_insert.
  case_decide as Hij; [destruct Hij as [<- _]; intros; by simplify_eq|apply Hk].
Qed.

(** [querySelector('[data-track="i"]')] finds row [i]. *)
Lemma find_row rows i r :
  grid_keys rows -> rows !! i = Some r ->
  list_find (fun r => rowTrack r = js_string_of_Z (Z.of_nat i)) rows = Some (i, r).
Proof.
  intros Hk Hi. apply list_find_Some. rewrite js_string_of_Z_of_nat.
  split; [done|]. split; [by apply Hk|].
  intros j y Hj Hlt E. rewrite (Hk j y Hj) in E. apply js_string_of_nat_inj in E. lia.
Qed.

Lemma renderTrackSteps_grid i n a rows r :
  grid_keys rows -> rows !! i = Some r ->
  exists groups, SequencerRenderer.render_groups (Z.of_nat i) n a = Some groups /\
    SequencerRenderer.renderTrackSteps (Z.of_nat i) n a rows =
      Some (<[i := with_row_steps groups r]> rows).
Proof.
  intros Hk Hi. destruct (render_groups_layout (Z.of_nat i) n a) as (g & Hg & _).
  exists g. split; [done|]. unfold SequencerRenderer.renderTrackSteps.
  rewrite (find_row _ _ _ Hk Hi). by rewrite Hg.
Qed.

(** C22: (termination, functional) on the grid [SequencerRenderer.render]
    draws, [renderTrackSteps(i, n, stepsActiveState)] completes and fills
    the step container of row [i] and no other: [Math.ceil(n / 4)] measure
    groups of at most four buttons which, read in order, are the buttons
    of steps [0 .. n - 1], step [k] with [data-step = k], the label
    [k mod 4 + 1] and the class [active] exactly when
    [stepsActiveState[k]] is truthy. *)
Theorem renderTrackSteps_layout tracksData allSounds i t n a :
  tracksData !! i = Some t ->
  exists groups,
    SequencerRenderer.renderTrackSteps (Z.of_nat i) n a
      (SequencerRenderer.render tracksData allSounds) =
      Some (<[i := with_row_steps groups (SequencerRenderer.render_row allSounds i t)]>
              (SequencerRenderer.render tracksData allSounds)) /\
    length groups = ((n + 3) / 4)%nat /\ Forall (fun g => length g <= 4)%nat groups /\
    concat groups =
      map (fun k => SequencerRenderer.step_button (Z.of_nat i) a k (k mod 4)) (seq 0 n).
Proof.
  intros Ht.
  assert (Hr : SequencerRenderer.render tracksData allSounds !! i =
               Some (SequencerRenderer.render_row allSounds i t))
    by (unfold SequencerRenderer.render; by rewrite list_lookup_imap, Ht).
  destruct (renderTrackSteps_grid i n a _ _ (render_grid_keys _ _) Hr) as (g & Hg & ->).
  destruct (render_groups_layout (Z.of_nat i) n a) as (g' & Hg' & Hlen & Hf & Hc).
  rewrite Hg in Hg'. injection Hg' as <-. by exists g.
Qed.

(** A track of six steps, steps 0 and 5 on. *)
Definition example_row_track : Track := {|
  sound := "kick-01"; _stepCount := 6;
  steps := js_set (js_set (js_new_array 6) 0 true) 5 true;
  _volume := 8 # 10; _pan := 0; _reverbAmount := 0; _eqLow := 0; _eqHigh := 0;
  trackNodes := {| gainNode := 1; pannerNode := 2; eqLowFilter := 3; eqHighFilter := 4;
                   reverbSendGain := 5 |} |}.

Lemma renderTrackSteps_layout_witness :
  [example_row_track] !! 0%nat = Some example_row_track /\
  exists groups,
    SequencerRenderer.renderTrackSteps (Z.of_nat 0) 6 (steps example_row_track)
      (SequencerRenderer.render [example_row_track] ["kick-01"%string]) =
      Some (<[0%nat := with_row_steps groups
                 (SequencerRenderer.render_row ["kick-01"%string] 0 example_row_track)]>
              (SequencerRenderer.render [example_row_track] ["kick-01"%string])) /\
    length groups = ((6 + 3) / 4)%nat /\ Forall (fun g => length g <= 4)%nat groups /\
    concat groups =
      map (fun k => SequencerRenderer.step_button (Z.of_nat 0) (steps example_row_track) k (k mod 4))
          (seq 0 6).
Proof.
  split; [reflexivity|].
  exact (renderTrackSteps_layout [example_row_track] ["kick-01"%string] 0 example_row_track 6
           (steps example_row_track) eq_refl).
Defined.
