(* ===== verification/Sequencer.v ===== *)
(** The sequencer view of [src/sequencer.js]: the [Sequencer] class
    renders and wires the step buttons of every row, forwards clicks and
    selector changes to the engine, and moves the [playing] highlight when
    the engine reports a step.

    The engine object is shared with [main.js] ([this.audioEngine]), so
    every method takes the one [World] and the rows of the grid and
    returns both.  A method returns [None] where the JavaScript throws.
    Listeners are data: a button's [btnListener] is the track index its
    click listener captured; the selects' [change] listeners are attached
    once by [setupEventListeners] to selects that are never re-rendered,
    so they are always present. *)

From S2P Require Import Prelude Dom Track Engine Renderers.
From Stdlib Require Import QArith.
From stdpp Require Import gmap sets strings.

Local Open Scope djm_scope.

Definition with_listener (l : option Z) (b : StepButton) : StepButton :=
  {| btnTrack := btnTrack b; btnStep := btnStep b; btnText := btnText b;
     btnClasses := btnClasses b; btnListener := l |}.

(** Applies [f] to every step button of the grid. *)
Definition map_buttons (f : StepButton -> StepButton) (rows : list TrackRow) : list TrackRow :=
  map (fun r => with_row_steps (map (map f) (rowSteps r)) r) rows.

(** [row.querySelector(...)] then [classList.add(c)]: the first button,
    in tree order, satisfying [p]; [None] when there is none. *)
Fixpoint mark_first_in (p : StepButton -> bool) (c : string) (bs : list StepButton)
  : option (list StepButton) :=
  match bs with
  | [] => None
  | b :: rest =>
      if p b then Some (with_btn_classes (cl_add c (btnClasses b)) b :: rest)
      else cons b <$> mark_first_in p c rest
  end.

Fixpoint mark_first (p : StepButton -> bool) (c : string) (gs : list (list StepButton))
  : list (list StepButton) :=
  match gs with
  | [] => []
  | g :: rest =>
      match mark_first_in p c g with
      | Some g' => g' :: rest
      | None => g :: mark_first p c rest
      end
  end.

Module Sequencer.

(** Lines 31-39: the first [.step-buttons[data-track="trackIndex"]]
    container's buttons each get a click listener capturing
    [trackIndex]. *)
Definition attach_click (trackIndex : Z) (rows : list TrackRow) : list TrackRow :=
  match list_find (fun r => rowTrack r = js_string_of_Z trackIndex) rows with
  | None => rows
  | Some (k, r) =>
      <[k := with_row_steps (map (map (with_listener (Some trackIndex))) (rowSteps r)) r]> rows
  end.

(** [createTrackStepButtons(trackIndex)] (lines 24-41). *)
Definition createTrackStepButtons (trackIndex : Z) (w : World) (rows : list TrackRow)
  : option (list TrackRow) :=
  match getTrackData w trackIndex with
  | None => Some rows
  | Some track =>
      rows ← SequencerRenderer.renderTrackSteps trackIndex (_stepCount track) (steps track) rows;
      Some (attach_click trackIndex rows)
  end.

(** [createAllTrackStepButtons()] (lines 16-22): for each row,
    [parseInt(row.dataset.track)]; [NaN] reads no track. *)
Definition createAllTrackStepButtons (w : World) (rows : list TrackRow)
  : option (list TrackRow) :=
  loop (fun rs key => match parseInt key with
                      | Some i => createTrackStepButtons i w rs
                      | None => Some rs
                      end) over (map rowTrack rows) from rows.

(** [clearStepIndicators()] (lines 103-107). *)
Definition clearStepIndicators (rows : list TrackRow) : list TrackRow :=
  map_buttons (fun b => with_btn_classes (cl_remove "playing" (btnClasses b)) b) rows.

(** The body of [updateStepIndicators] for one row (lines 76-91):
    [currentGlobalStep % track.stepCount] is [NaN] for a step count of 0,
    and no button has [data-step="NaN"]. *)
Definition indicate_row (w : World) (currentGlobalStep : nat) (row : TrackRow) : TrackRow :=
  match parseInt (rowTrack row) ≫= getTrackData w with
  | None => row
  | Some track =>
      let key := match _stepCount track with
                 | O => "NaN"%string
                 | n => js_string_of_nat (currentGlobalStep mod n)
                 end in
      let cleared := map (map (fun b => with_btn_classes (cl_remove "playing" (btnClasses b)) b))
                         (rowSteps row) in
      with_row_steps (mark_first (fun b => bool_decide (btnStep b = key)) "playing" cleared) row
  end.

(** [updateStepIndicators(currentGlobalStep)] (lines 73-93). *)
Definition updateStepIndicators (w : World) (currentGlobalStep : nat) (rows : list TrackRow)
  : list TrackRow :=
  map (indicate_row w currentGlobalStep) rows.

(** [clearAll()] (lines 95-101). *)
Definition clearAll (w : World) (rows : list TrackRow) : World * list TrackRow :=
  let w := Engine.clearAll w in
  let rows := map_buttons (fun b => with_btn_classes (cl_remove "active" (btnClasses b)) b) rows in
  (w, clearStepIndicators rows).

(** The click listener of a step button (lines 34-38), for the button at
    position [j] of measure group [g] of row [k]:
    [toggleStep(trackIndex, parseInt(button.dataset.step))], then
    [classList.toggle('active', isActive)].  A button without a listener
    does nothing; [toggleStep(i, NaN)] is outside the model. *)
Definition click_step (k g j : nat) (w : World) (rows : list TrackRow)
  : option (World * list TrackRow) :=
  r ← rows !! k; grp ← rowSteps r !! g; b ← grp !! j;
  match btnListener b with
  | None => Some (w, rows)
  | Some trackIndex =>
      stepLocal ← parseInt (btnStep b);
      let '(isActive, w) := toggleStep trackIndex stepLocal w in
      let b := with_btn_classes (cl_toggle "active" isActive (btnClasses b)) b in
      Some (w, <[k := with_row_steps (<[g := <[j := b]> grp]> (rowSteps r)) r]> rows)
  end.

(** The [change] listener of the sound selector of row [k] after the
    user picks its option [o] (lines 47-51). *)
Definition onSoundChange (k o : nat) (w : World) (rows : list TrackRow)
  : option (World * list TrackRow) :=
  r ← rows !! k;
  guard (o < length (selOptions (soundSel r)))%nat;;
  let sel := select_choose o (soundSel r) in
  let rows := <[k := with_sound_sel sel r]> rows in
  let w := match parseInt (selTrack sel) with
           | Some trackIndex => setTrackSound trackIndex (select_value sel) w
           | None => w
           end in
  Some (w, rows).

(** [setTrackStepCount(trackIndex, newStepCount)]: [tracks[NaN]] is
    [undefined]; a count that is [NaN] or negative makes [new Array]
    throw. *)
Definition setTrackStepCount_js (trackIndex : option Z) (newStepCount : option Z) (w : World)
  : option World :=
  match trackIndex with
  | None => Some w
  | Some i =>
      match getTrackData w i with
      | None => Some w
      | Some _ =>
          n ← newStepCount; guard (0 <= n)%Z;; Some (setTrackStepCount i (Z.to_nat n) w)
      end
  end.

(** The [change] listener of the step-count selector of row [k] after
    the user picks its option [o] (lines 57-65). *)
Definition onStepCountChange (k o : nat) (w : World) (rows : list TrackRow)
  : option (World * list TrackRow) :=
  r ← rows !! k;
  guard (o < length (selOptions (stepSel r)))%nat;;
  let sel := select_choose o (stepSel r) in
  let rows := <[k := with_step_sel sel r]> rows in
  let trackIndex := parseInt (selTrack sel) in
  w ← setTrackStepCount_js trackIndex (parseInt (select_value sel)) w;
  rows ← match trackIndex with
         | Some i => createTrackStepButtons i w rows
         | None => Some rows
         end;
  Some (w, clearStepIndicators rows).

(** [setupEventListeners()] (lines 43-71): the selector listeners, and
    [this.audioEngine.onStepPlay = ...]. *)
Definition setupEventListeners (w : World) : World := attachObserver w.

(** [new Sequencer(audioEngine)] (lines 4-14). *)
Definition init (w : World) (rows : list TrackRow) : option (World * list TrackRow) :=
  rows ← createAllTrackStepButtons w rows;
  Some (setupEventListeners w, rows).

End Sequencer.
