(* ===== verification/App.v ===== *)
(** The application shell of [src/main.js]: [BeatMaker] boots the engine,
    renders the mixer and the grid, builds the [Sequencer], and wires the
    transport buttons, the BPM slider, the export button, the space key,
    the sound library's clicks and drag and drop, and the mixer inputs.

    [App] is the state of the page after boot: the engine's [World]
    (shared with the [Sequencer]), the grid rows, the mixer channels, the
    play and export buttons, the BPM label, the pending export rendering,
    the browser state the download touches ([Download.Browser]), the
    pending [setTimeout] callbacks, whether the master inputs got their
    listeners, the sound library's items and the drag data store of the
    drag in progress.  [handle] runs the listener of one [UiEvent];
    [UiFacts.ui_step] is a step of the page.  The rendering of the
    export is the parameter [startRendering] of the Section. *)

From S2P Require Import Prelude Dom WavEncoder Download Track Engine Export Renderers Sequencer.
From Stdlib Require Import QArith.
From stdpp Require Import gmap sets strings.

(** ** State *)

(** The play button: the icon's class list, the label, the background. *)
Record PlayButton := { pbIcon : ClassList; pbText : string; pbBackground : string }.

(** The export button: [disabled], the icon's class list, the label. *)
Record ExportButton := { ebDisabled : bool; ebIcon : ClassList; ebText : string }.

(** A pending [setTimeout] callback. *)
Inductive Timeout :=
| TDropSuccess (row : nat)      (** lines 176-178 *)
| TExportReset (ok : bool)      (** lines 82-87 ([ok]) and 93-98 *)
| TItemTransform (item : nat).  (** lines 131-133 *)

(** A [.sound-item] of the sound library: its [data-sound], its class
    list and its inline [style.transform]. *)
Record SoundItem := { itemSound : string; itemClasses : ClassList; itemTransform : string }.

Definition with_transform (t : string) (it : SoundItem) : SoundItem :=
  {| itemSound := itemSound it; itemClasses := itemClasses it; itemTransform := t |}.

Definition with_item_classes (c : ClassList) (it : SoundItem) : SoundItem :=
  {| itemSound := itemSound it; itemClasses := c; itemTransform := itemTransform it |}.

(** The static elements of the page ([index.html], which the repository
    does not hold) as the page loads, and the browser it loads in. *)
Record Page := {
  pagePlay : PlayButton; pageBpmText : string; pageExport : ExportButton;
  pageItems : list SoundItem; pageBrowser : Browser
}.

Record App := {
  world : World;
  rows : list TrackRow;
  channels : list Channel;
  playBtn : PlayButton;
  bpmText : string;
  exportBtn : ExportButton;
  rendering : option OfflineRender;   (** the awaited [startRendering()] *)
  browser : Browser;                  (** object URLs, script elements, saved files *)
  pending : list Timeout;
  masterWired : bool;
  items : list SoundItem;
  dragData : option string            (** the drag data store of the drag in progress *)
}.

Definition set_world_rows (w : World) (rs : list TrackRow) (a : App) : App :=
  {| world := w; rows := rs; channels := channels a; playBtn := playBtn a; bpmText := bpmText a;
     exportBtn := exportBtn a; rendering := rendering a; browser := browser a;
     pending := pending a; masterWired := masterWired a; items := items a; dragData := dragData a |}.

Definition set_world (w : World) (a : App) : App := set_world_rows w (rows a) a.

Definition set_channels (cs : list Channel) (a : App) : App :=
  {| world := world a; rows := rows a; channels := cs; playBtn := playBtn a; bpmText := bpmText a;
     exportBtn := exportBtn a; rendering := rendering a; browser := browser a;
     pending := pending a; masterWired := masterWired a; items := items a; dragData := dragData a |}.

Definition set_play (pb : PlayButton) (a : App) : App :=
  {| world := world a; rows := rows a; channels := channels a; playBtn := pb; bpmText := bpmText a;
     exportBtn := exportBtn a; rendering := rendering a; browser := browser a;
     pending := pending a; masterWired := masterWired a; items := items a; dragData := dragData a |}.

Definition set_bpm_text (s : string) (a : App) : App :=
  {| world := world a; rows := rows a; channels := channels a; playBtn := playBtn a; bpmText := s;
     exportBtn := exportBtn a; rendering := rendering a; browser := browser a;
     pending := pending a; masterWired := masterWired a; items := items a; dragData := dragData a |}.

(** The export button, the pending rendering, the browser and the
    timeouts, which the export listener sets together. *)
Definition set_export (eb : ExportButton) (r : option OfflineRender) (br : Browser)
    (p : list Timeout) (a : App) : App :=
  {| world := world a; rows := rows a; channels := channels a; playBtn := playBtn a;
     bpmText := bpmText a; exportBtn := eb; rendering := r; browser := br; pending := p;
     masterWired := masterWired a; items := items a; dragData := dragData a |}.

Definition set_pending (p : list Timeout) (a : App) : App :=
  set_export (exportBtn a) (rendering a) (browser a) p a.

(** The sound items and the drag data store. *)
Definition set_items (its : list SoundItem) (d : option string) (a : App) : App :=
  {| world := world a; rows := rows a; channels := channels a; playBtn := playBtn a;
     bpmText := bpmText a; exportBtn := exportBtn a; rendering := rendering a;
     browser := browser a; pending := pending a; masterWired := masterWired a;
     items := its; dragData := d |}.

(** ** The buttons *)

(** [updatePlayButton(isPlaying)] (lines 247-263). *)
Definition updatePlayButton (isPlaying : bool) (pb : PlayButton) : PlayButton :=
  if isPlaying then
    {| pbIcon := cl_add "fa-pause" (cl_remove "fa-play" (pbIcon pb)); pbText := "PAUSE";
       pbBackground := "linear-gradient(45deg, #ff0000, #ff6600)" |}
  else
    {| pbIcon := cl_add "fa-play" (cl_remove "fa-pause" (pbIcon pb)); pbText := "PLAY";
       pbBackground := "linear-gradient(45deg, #ff00ff, #00ffff)" |}.

(** Lines 72-75: disabled, a spinning icon, [EXPORTING...]. *)
Definition export_busy (eb : ExportButton) : ExportButton :=
  {| ebDisabled := true;
     ebIcon := cl_add "fa-spin" (cl_add "fa-spinner" (cl_remove "fa-circle-xmark"
                 (cl_remove "fa-circle-check" (cl_remove "fa-download" (ebIcon eb)))));
     ebText := "EXPORTING..." |}.

(** Lines 79-81 ([ok]) and 90-92: the outcome icon and label. *)
Definition export_settled (ok : bool) (eb : ExportButton) : ExportButton :=
  {| ebDisabled := ebDisabled eb;
     ebIcon := cl_add (if ok then "fa-circle-check" else "fa-circle-xmark")
                 (cl_remove "fa-spin" (cl_remove "fa-spinner" (ebIcon eb)));
     ebText := if ok then "EXPORTED!" else "FAILED" |}.

(** Lines 83-86 and 94-97, two seconds later. *)
Definition export_reset (ok : bool) (eb : ExportButton) : ExportButton :=
  {| ebDisabled := false;
     ebIcon := cl_add "fa-download"
                 (cl_remove (if ok then "fa-circle-check" else "fa-circle-xmark") (ebIcon eb));
     ebText := "EXPORT" |}.

(** ** The mixer controls *)

(** The [switch (controlType)] of lines 205-221. *)
Definition input_param (controlType : string) : option TrackParam :=
  match controlType with
  | "volume" => Some TVolume
  | "pan" => Some TPan
  | "reverb" => Some TReverbAmount
  | "eqlow" => Some TEqLow
  | "eqhigh" => Some TEqHigh
  | _ => None
  end%string.

Definition with_value (v : Q) (ri : RangeInput) : RangeInput :=
  {| riId := riId ri; riMin := riMin ri; riMax := riMax ri; riStep := riStep ri;
     riValue := range_sanitize (riMin ri) (riMax ri) (riStep ri) v; riControl := riControl ri |}.

(** [channel.querySelector('input[data-control="c"]').value = v]. *)
Fixpoint set_control_value (c : string) (v : Q) (l : list RangeInput) : list RangeInput :=
  match l with
  | [] => []
  | ri :: rest =>
      if bool_decide (riControl ri = c) then with_value v ri :: rest
      else ri :: set_control_value c v rest
  end.

Definition with_inputs (l : list RangeInput) (c : Channel) : Channel :=
  {| chTrack := chTrack c; chTitle := chTitle c; chInputs := l; chListener := chListener c |}.

Definition with_ch_listener (i : option Z) (c : Channel) : Channel :=
  {| chTrack := chTrack c; chTitle := chTitle c; chInputs := chInputs c; chListener := i |}.

(** Lines 187-224 for one channel: [trackIndex] is read once and captured
    by the listeners ([None], [NaN], reads no track). *)
Definition init_channel (w : World) (c : Channel) : Channel :=
  let trackIndex := parseInt (chTrack c) in
  let c := match trackIndex ≫= getTrackData w with
           | Some t =>
               with_inputs (set_control_value "eqhigh" (_eqHigh t)
                             (set_control_value "eqlow" (_eqLow t)
                             (set_control_value "reverb" (_reverbAmount t)
                             (set_control_value "pan" (_pan t)
                             (set_control_value "volume" (_volume t) (chInputs c)))))) c
           | None => c
           end in
  with_ch_listener trackIndex c.

(** [initMixerControls()] (lines 185-245): the channels, then the master
    inputs, whose initial values read [this.audioEngine.masterGain.gain]
    and throw a [TypeError] when [init] built no master chain; the master
    listeners are then never attached. *)
Definition initMixerControls (w : World) (cs : list Channel) : list Channel * bool :=
  (map (init_channel w) cs, if masters (eng w) then true else false).

(** ** Boot *)

(** [new BeatMaker()] on [DOMContentLoaded] (lines 7-32): [await init()],
    the two renderers, [new Sequencer], the listeners of
    [setupEventListeners], [initMixerControls()]. *)
Definition boot (env : InitEnv) (page : Page) : option App :=
  let w := init env initial_world in
  let tracksData := tracks (eng w) in
  let allSoundNames := engineSampleNames w in
  let cs := MixerRenderer.render (length tracksData) in
  let rs := SequencerRenderer.render tracksData allSoundNames in
  '(w, rs) ← Sequencer.init w rs;
  let '(cs, wired) := initMixerControls w cs in
  Some {| world := w; rows := rs; channels := cs; playBtn := pagePlay page;
          bpmText := pageBpmText page; exportBtn := pageExport page; rendering := None;
          browser := pageBrowser page; pending := []; masterWired := wired;
          items := pageItems page; dragData := None |}.

(** ** Events *)

Inductive SelKind := SoundSelector | StepCountSelector.

Definition row_select (k : SelKind) (r : TrackRow) : Select :=
  match k with SoundSelector => soundSel r | StepCountSelector => stepSel r end.

Definition with_row_select (k : SelKind) (s : Select) (r : TrackRow) : TrackRow :=
  match k with SoundSelector => with_sound_sel s r | StepCountSelector => with_step_sel s r end.

(** What the browser delivers to the page's listeners. *)
Inductive UiEvent :=
| EPlayClick | EStopClick | EClearClick
| EBpmInput (value : string)                 (** the slider's [value] *)
| EExportClick | EExportSettled              (** [startRendering()] settles *)
| EKeyDown (code : string) (focus : TagName)
| ESoundItemClick (item : nat)               (** a click on the [item]-th [.sound-item] *)
| EItemDragStart (item : nat) | EItemDragEnd (item : nat)
| EStepClick (row group pos : nat)
| ESoundChange (row option : nat)
| EStepCountChange (row option : nat)
| EDragOver (row : nat) (kind : SelKind)
| EDragLeave (row : nat) (kind : SelKind)
| EDrop (row : nat) (kind : SelKind) (external : option string)
    (** [None]: the drag started on the page; [Some t]: a drag from
        elsewhere carrying the text [t] *)
| ETrackInput (channel input : nat) (value : Q)
| EMasterInput (p : MasterParam) (value : Q)  (** the parsed value of a master input *)
| ETimeout (n : nat)                          (** the [n]-th pending callback runs *)
| ETick (id : nat)
| EAdvance (dt : Q).

Section Ui.

(** [offlineContext.startRendering()], as in [Export.exportBeat_file]. *)
Variable startRendering : OfflineRender -> option AudioBuffer.

(** The play button's listener (lines 36-44). *)
Definition onPlayClick (a : App) : App :=
  if isPlaying (eng (world a)) then set_play (updatePlayButton false (playBtn a)) (set_world (stop (world a)) a)
  else set_play (updatePlayButton true (playBtn a)) (set_world (play (world a)) a).

(** The stop button's listener (lines 46-50). *)
Definition onStopClick (a : App) : App :=
  let a := set_world (stop (world a)) a in
  let a := set_play (updatePlayButton false (playBtn a)) a in
  set_world_rows (world a) (Sequencer.clearStepIndicators (rows a)) a.

(** The space key (lines 103-119): ignored while an [INPUT], [SELECT] or
    [TEXTAREA] has the focus. *)
Definition onKeyDown (code : string) (focus : TagName) (a : App) : App :=
  let isInputFocused := bool_decide (focus ∈ [TInput; TSelect; TTextarea]) in
  if bool_decide (code = "Space"%string) && negb isInputFocused then
    if isPlaying (eng (world a)) then
      let a := set_play (updatePlayButton false (playBtn a)) (set_world (stop (world a)) a) in
      set_world_rows (world a) (Sequencer.clearStepIndicators (rows a)) a
    else set_play (updatePlayButton true (playBtn a)) (set_world (play (world a)) a)
  else a.

(** The export listener up to its [await] (lines 67-78): [exportBeat()]
    runs synchronously up to [startRendering()]; when it throws first its
    promise rejects and the [catch] runs at once.  A disabled button gets
    no click. *)
Definition onExportClick (a : App) : App :=
  if ebDisabled (exportBtn a) then a
  else
    let eb := export_busy (exportBtn a) in
    match exportBeat (world a) with
    | Some r => set_export eb (Some r) (browser a) (pending a) a
    | None => set_export (export_settled false eb) None (browser a)
                (pending a ++ [TExportReset false]) a
    end.

(** The rendering settles (lines 368-373 of [audio-engine.js], then lines
    79-87): [WavEncoder.downloadAudio(renderedBuffer)] runs on the
    browser when the rendering fulfils; its exception, or the rejection,
    is caught, and [exportBeat()] resolves either way. *)
Definition onExportSettled (a : App) : option App :=
  r ← rendering a;
  let br := match startRendering r with
            | Some buffer => (downloadAudio_js buffer None (browser a)).2
            | None => browser a
            end in
  Some (set_export (export_settled true (exportBtn a)) None br
          (pending a ++ [TExportReset true]) a).

(** The drop listener of a selector (lines 161-181). *)
Definition onDrop (k : nat) (kind : SelKind) (soundName : string) (a : App) : option App :=
  r ← rows a !! k;
  let sel := row_select kind r in
  let sel := with_sel_classes (cl_remove "drag-over" (selClasses sel)) sel in
  let trackIndex := parseInt (selTrack sel) in
  if cl_has "sound-selector" (selClasses sel) then
    let sel := select_set_value soundName sel in
    let w := match trackIndex with
             | Some i => setTrackSound i soundName (world a)
             | None => world a
             end in
    let sel := with_sel_classes (cl_add "drop-success" (selClasses sel)) sel in
    Some (set_pending (pending a ++ [TDropSuccess k])
            (set_world_rows w (<[k := with_row_select kind sel r]> (rows a)) a))
  else Some (set_world_rows (world a) (<[k := with_row_select kind sel r]> (rows a)) a).

(** [e.dataTransfer.getData('text/plain')] (line 164): the text of a
    drag from elsewhere, or what [dragstart] stored; the empty string
    when nothing was stored. *)
Definition drop_text (external : option string) (a : App) : string :=
  match external with
  | Some t => t
  | None => default EmptyString (dragData a)
  end.

(** [dragover] and [dragleave] on a selector (lines 151-159). *)
Definition onDragClass (add : bool) (k : nat) (kind : SelKind) (a : App) : option App :=
  r ← rows a !! k;
  let sel := row_select kind r in
  let c := if add then cl_add "drag-over" (selClasses sel) else cl_remove "drag-over" (selClasses sel) in
  Some (set_world_rows (world a) (<[k := with_row_select kind (with_sel_classes c sel) r]> (rows a)) a).

(** The [input] listener of a channel's range input (lines 201-222),
    after the user moves input [j] of channel [k] towards [v]: the input
    holds the sanitized value, and [parseFloat] of it is that value. *)
Definition onTrackInput (k j : nat) (v : Q) (a : App) : option App :=
  c ← channels a !! k; ri ← chInputs c !! j;
  let ri := with_value v ri in
  let a := set_channels (<[k := with_inputs (<[j := ri]> (chInputs c)) c]> (channels a)) a in
  match chListener c, input_param (riControl ri) with
  | Some trackIndex, Some p => Some (set_world (setTrackParam p trackIndex (riValue ri) (world a)) a)
  | _, _ => Some a
  end.

(** The master inputs' listeners (lines 233-244), when attached. *)
Definition onMasterInput (p : MasterParam) (v : Q) (a : App) : App :=
  if masterWired a then
    match setMaster p v (world a) with Some w => set_world w a | None => a end
  else a.

(** A sound item's click listener (lines 125-134): when [playSound]
    throws (without a master chain, or in a voice), what it did so far
    stays and the rest of the listener does not run; otherwise the item
    shrinks and a timeout restores it. *)
Definition onSoundItemClick (k : nat) (a : App) : option App :=
  it ← items a !! k;
  let '(ok, w) := playSound (itemSound it) (world a) in
  let a := set_world w a in
  if ok then
    Some (set_pending (pending a ++ [TItemTransform k])
            (set_items (<[k := with_transform "scale(0.95)" it]> (items a)) (dragData a) a))
  else Some a.

(** [dragstart] on a sound item (lines 137-141): the drag data store
    holds the item's [data-sound], and the item is marked [dragging]. *)
Definition onItemDragStart (k : nat) (a : App) : option App :=
  it ← items a !! k;
  Some (set_items (<[k := with_item_classes (cl_add "dragging" (itemClasses it)) it]> (items a))
          (Some (itemSound it)) a).

(** [dragend] on a sound item (lines 143-145): the mark goes, and with
    the drag operation its data store. *)
Definition onItemDragEnd (k : nat) (a : App) : option App :=
  it ← items a !! k;
  Some (set_items (<[k := with_item_classes (cl_remove "dragging" (itemClasses it)) it]> (items a))
          None a).

(** A [setTimeout] callback. *)
Definition onTimeout (n : nat) (a : App) : option App :=
  t ← pending a !! n;
  let a := set_pending (delete n (pending a)) a in
  match t with
  | TDropSuccess k =>
      r ← rows a !! k;
      let sel := soundSel r in
      let sel := with_sel_classes (cl_remove "drop-success" (selClasses sel)) sel in
      Some (set_world_rows (world a) (<[k := with_sound_sel sel r]> (rows a)) a)
  | TExportReset ok =>
      Some (set_export (export_reset ok (exportBtn a)) (rendering a) (browser a) (pending a) a)
  | TItemTransform k =>
      it ← items a !! k;
      Some (set_items (<[k := with_transform "translateY(-3px)" it]> (items a)) (dragData a) a)
  end.

(** An interval tick: [playStep()] calls [onStepPlay], which is
    [updateStepIndicators], before the step advances; a voice that
    throws skips both. *)
Definition onTick (id : nat) (a : App) : option App :=
  w' ← exec (OTick id) (world a);
  let '(ok, mid) := playStep (world a) in
  let rs := if ok && onStepPlay (eng (world a))
            then Sequencer.updateStepIndicators mid (currentStep (eng mid)) (rows a)
            else rows a in
  Some (set_world_rows w' rs a).

(** The listener an event reaches; [None]: the event cannot happen (no
    such element) or leaves the model ([setBPM(NaN)], [toggleStep(i, NaN)],
    [new Array(NaN)]). *)
Definition handle (ev : UiEvent) (a : App) : option App :=
  match ev with
  | EPlayClick => Some (onPlayClick a)
  | EStopClick => Some (onStopClick a)
  | EClearClick => let '(w, rs) := Sequencer.clearAll (world a) (rows a) in
                   Some (set_world_rows w rs a)
  | EBpmInput value =>
      bpm ← parseInt value;
      Some (set_bpm_text (js_string_of_Z bpm) (set_world (setBPM (inject_Z bpm) (world a)) a))
  | EExportClick => Some (onExportClick a)
  | EExportSettled => onExportSettled a
  | EKeyDown code focus => Some (onKeyDown code focus a)
  | ESoundItemClick k => onSoundItemClick k a
  | EItemDragStart k => onItemDragStart k a
  | EItemDragEnd k => onItemDragEnd k a
  | EStepClick k g j =>
      '(w, rs) ← Sequencer.click_step k g j (world a) (rows a); Some (set_world_rows w rs a)
  | ESoundChange k o =>
      '(w, rs) ← Sequencer.onSoundChange k o (world a) (rows a); Some (set_world_rows w rs a)
  | EStepCountChange k o =>
      '(w, rs) ← Sequencer.onStepCountChange k o (world a) (rows a); Some (set_world_rows w rs a)
  | EDragOver k kind => onDragClass true k kind a
  | EDragLeave k kind => onDragClass false k kind a
  | EDrop k kind ext => onDrop k kind (drop_text ext a) a
  | ETrackInput k j v => onTrackInput k j v a
  | EMasterInput p v => Some (onMasterInput p v a)
  | ETimeout n => onTimeout n a
  | ETick id => onTick id a
  | EAdvance dt => w ← exec (OAdvance dt) (world a); Some (set_world w a)
  end.

End Ui.
