(* ===== verification/UiInvariant.v ===== *)
(** The invariant of the page of [src/main.js] and [src/sequencer.js]:
    what every listener does to the engine, and the view invariant
    [view_inv] that ties the grid and the mixer to the engine's tracks.

    - every listener moves the engine by a sequence of [Engine.step]s
      ([handle_engine_steps]), none for the listeners that only edit the
      view;
    - [view_inv]: row [i] shows track [i] (its selectors' [data-track],
      the step-count options, one button per step with [data-step], the
      track's click listener and the [active] class of the pattern), and
      channel [i] shows its parameters within the sliders' ranges;
    - every listener preserves [view_inv] ([handle_view_inv]) and [boot]
      establishes it for every session ([boot_ok]).

    [UiFacts] builds the page's theorems on these. *)

From S2P Require Import Prelude Dom WavEncoder WebAudio Track Engine Export Renderers Sequencer App.
From Stdlib Require Import QArith Lqa.
From stdpp Require Import gmap sets strings.

(** ** What the engine's operations leave alone *)

(** The part of the engine the page reads back: the tracks and the
    clock's running flag. *)
Definition same_tracks_clock (w w' : World) : Prop :=
  tracks (eng w') = tracks (eng w) /\ isPlaying (eng w') = isPlaying (eng w).

Lemma same_tracks_clock_refl w : same_tracks_clock w w.
Proof. done. Qed.

Lemma tracks_play w : tracks (eng (play w)) = tracks (eng w).
Proof. unfold play. by case_match. Qed.

Lemma tracks_stop w : tracks (eng (stop w)) = tracks (eng w).
Proof. unfold stop. cbn. by repeat case_match. Qed.

Lemma isPlaying_play w : isPlaying (eng (play w)) = true.
Proof. unfold play. by case_match. Qed.

Lemma isPlaying_stop w : isPlaying (eng (stop w)) = false.
Proof. apply stop_fields. Qed.

Lemma frame_setBPM b w : same_tracks_clock w (setBPM b w).
Proof.
  unfold setBPM, same_tracks_clock. cbn [eng set_eng with_bpm isPlaying tracks].
  case_match; [|done]. by rewrite tracks_play, tracks_stop, isPlaying_play.
Qed.

Lemma frame_tick w : same_tracks_clock w (tick w).
Proof. destruct (tick_frame w) as (Ht & Hp & _). by split. Qed.

Lemma frame_playStep w : same_tracks_clock w (playStep w).2.
Proof. unfold playStep, run_wa. by destruct (trigger_tracks _ _ _ _) as [[] c]. Qed.

Lemma frame_playSound s w ok w' : playSound s w = (ok, w') -> same_tracks_clock w w'.
Proof. unfold playSound, run_wa. intros H. repeat case_match; simplify_eq; done. Qed.

Lemma frame_setMaster p v w w' : setMaster p v w = Some w' -> same_tracks_clock w w'.
Proof. unfold setMaster, run_wa. intros H. repeat case_match; simplify_eq; done. Qed.

Lemma frame_exec_tick id w w' : exec (OTick id) w = Some w' -> same_tracks_clock w w'.
Proof. cbn. case_match; intros; simplify_eq. apply frame_tick. Qed.

Lemma frame_exec_advance dt w w' : exec (OAdvance dt) w = Some w' -> same_tracks_clock w w'.
Proof. cbn. case_match; intros; simplify_eq. done. Qed.

Lemma frame_attachObserver w : same_tracks_clock w (attachObserver w).
Proof. done. Qed.

(** The setters of one track replace that track and nothing else. *)
Lemma track_at_Some e i t :
  track_at e i = Some t -> (0 <= i)%Z /\ tracks e !! Z.to_nat i = Some t.
Proof. unfold track_at. destruct (Z.leb_spec 0 i); [done|discriminate]. Qed.

Lemma tracks_set_track i t w :
  tracks (eng (set_track i t w)) = <[Z.to_nat i := t]> (tracks (eng w)).
Proof. done. Qed.

Lemma setTrackParam_tracks p i v w t :
  track_at (eng w) i = Some t ->
  tracks (eng (setTrackParam p i v w)) = <[Z.to_nat i := with_tparam p v t]> (tracks (eng w)) /\
  isPlaying (eng (setTrackParam p i v w)) = isPlaying (eng w).
Proof.
  intros Ht. unfold setTrackParam. rewrite Ht. unfold run_wa. rewrite set_tparam_run. done.
Qed.

Lemma setTrackParam_none p i v w : track_at (eng w) i = None -> setTrackParam p i v w = w.
Proof. intros Ht. unfold setTrackParam. by rewrite Ht. Qed.

Lemma setTrackSound_tracks i s w :
  isPlaying (eng (setTrackSound i s w)) = isPlaying (eng w) /\
  match track_at (eng w) i with
  | Some t => tracks (eng (setTrackSound i s w)) = <[Z.to_nat i := with_sound s t]> (tracks (eng w))
  | None => setTrackSound i s w = w
  end.
Proof. unfold setTrackSound. by case_match. Qed.

Lemma setTrackStepCount_tracks i n w t :
  track_at (eng w) i = Some t ->
  tracks (eng (setTrackStepCount i n w)) = <[Z.to_nat i := setStepCount n t]> (tracks (eng w)) /\
  isPlaying (eng (setTrackStepCount i n w)) = isPlaying (eng w).
Proof. intros Ht. unfold setTrackStepCount. by rewrite Ht. Qed.

Lemma clearAll_tracks w :
  tracks (eng (clearAll w)) =
    map (fun t => with_steps (_stepCount t) (js_fill_false (steps t)) t) (tracks (eng w)) /\
  isPlaying (eng (clearAll w)) = isPlaying (eng w).
Proof. done. Qed.

Lemma isPlaying_toggleStep i s w : isPlaying (eng (toggleStep i s w).2) = isPlaying (eng w).
Proof. unfold toggleStep. by repeat case_match. Qed.

(** ** The page drives the engine through its public operations *)

(** Case analysis on a listener's run, through its option binds and
    guards. *)
Ltac opt_cases :=
  repeat first [progress simplify_eq/= | progress unfold mbind, option_bind in *
               | let Hg := fresh "Hg" in case_guard as Hg | case_match].

Section EngineSteps.
Variable startRendering : OfflineRender -> option AudioBuffer.

Lemma rtc_exec o w w' : exec o w = Some w' -> rtc step w w'.
Proof. intros H. apply rtc_once. by apply (step_exec o). Qed.

Lemma rtc_play w : rtc step w (play w).
Proof. by apply (rtc_exec OPlay). Qed.
Lemma rtc_stop w : rtc step w (stop w).
Proof. by apply (rtc_exec OStop). Qed.
Lemma rtc_setBPM b w : rtc step w (setBPM b w).
Proof. by apply (rtc_exec (OSetBPM b)). Qed.
Lemma rtc_clearAll w : rtc step w (clearAll w).
Proof. by apply (rtc_exec OClearAll). Qed.
Lemma rtc_toggleStep i s w : rtc step w (toggleStep i s w).2.
Proof. by apply (rtc_exec (OToggleStep i s)). Qed.
Lemma rtc_toggleStep_pair i s w b w' : toggleStep i s w = (b, w') -> rtc step w w'.
Proof. intros H. pose proof (rtc_toggleStep i s w) as R. by rewrite H in R. Qed.
Lemma rtc_tick id q w : timers w !! id = Some q -> rtc step w (tick w).
Proof. intros H. apply (rtc_exec (OTick id)). cbn. by rewrite H. Qed.
Lemma rtc_advance dt w :
  Qle_bool 0 dt = true -> rtc step w (set_ctx (advance_time dt (ctx w)) w).
Proof. intros H. apply (rtc_exec (OAdvance dt)). cbn. by rewrite H. Qed.
Lemma rtc_setTrackSound i s w : rtc step w (setTrackSound i s w).
Proof. by apply (rtc_exec (OSetTrackSound i s)). Qed.
Lemma rtc_setTrackStepCount i n w : rtc step w (setTrackStepCount i n w).
Proof. by apply (rtc_exec (OSetTrackStepCount i n)). Qed.
Lemma rtc_setTrackParam p i v w : rtc step w (setTrackParam p i v w).
Proof. by apply (rtc_exec (OSetTrackParam p i v)). Qed.
Lemma rtc_playSound s w ok w' : playSound s w = (ok, w') -> rtc step w w'.
Proof. intros H. apply (rtc_exec (OPlaySound s)). cbn. by rewrite H. Qed.
Lemma rtc_setMaster p v w w' : setMaster p v w = Some w' -> rtc step w w'.
Proof. apply (rtc_exec (OSetMaster p v)). Qed.

Lemma setTrackStepCount_js_rtc i n w w' :
  Sequencer.setTrackStepCount_js i n w = Some w' -> rtc step w w'.
Proof.
  unfold Sequencer.setTrackStepCount_js. intros H.
  destruct i as [i|]; [|simplify_eq; apply rtc_refl].
  destruct (getTrackData w i); [|simplify_eq; apply rtc_refl].
  destruct n as [n|]; [|done]. cbn in H. case_guard; simplify_eq/=. apply rtc_setTrackStepCount.
Qed.


Create HintDb ui_engine.
#[local] Hint Resolve rtc_refl rtc_exec rtc_play rtc_stop rtc_setBPM rtc_clearAll rtc_toggleStep rtc_toggleStep_pair rtc_tick rtc_advance
  rtc_setTrackSound rtc_setTrackStepCount rtc_setTrackParam rtc_playSound rtc_setMaster
  setTrackStepCount_js_rtc : ui_engine.

(** Every listener moves the engine by a sequence of its public
    operations (none for the view-only ones). *)
Lemma handle_engine_steps ev a a' :
  handle startRendering ev a = Some a' -> rtc step (world a) (world a').
Proof.
  destruct ev; cbn [handle]; intros H.
  - injection H as <-. unfold onPlayClick. case_match; cbn; eauto with ui_engine.
  - injection H as <-. cbn. eauto with ui_engine.
  - destruct (Sequencer.clearAll _ _) eqn:E. injection H as <-. injection E as <- <-.
    cbn. eauto with ui_engine.
  - destruct (parseInt value); simplify_eq/=. eauto with ui_engine.
  - injection H as <-. unfold onExportClick. repeat case_match; cbn; eauto with ui_engine.
  - unfold onExportSettled in H. destruct (rendering a); [|done]. injection H as <-. apply rtc_refl.
  - injection H as <-. unfold onKeyDown. repeat case_match; cbn; eauto with ui_engine.
  - unfold onSoundItemClick in H. opt_cases; eauto with ui_engine.
  - unfold onItemDragStart in H. opt_cases; eauto with ui_engine.
  - unfold onItemDragEnd in H. opt_cases; eauto with ui_engine.
  - destruct (Sequencer.click_step _ _ _ _ _) as [[w rs]|] eqn:E; simplify_eq/=.
    unfold Sequencer.click_step in E. opt_cases; eauto with ui_engine.
  - destruct (Sequencer.onSoundChange _ _ _ _) as [[w rs]|] eqn:E; simplify_eq/=.
    unfold Sequencer.onSoundChange in E. opt_cases; eauto with ui_engine.
  - destruct (Sequencer.onStepCountChange _ _ _ _) as [[w rs]|] eqn:E; simplify_eq/=.
    unfold Sequencer.onStepCountChange in E. opt_cases; eauto with ui_engine.
  - unfold onDragClass in H. opt_cases; eauto with ui_engine.
  - unfold onDragClass in H. opt_cases; eauto with ui_engine.
  - unfold onDrop in H. opt_cases; eauto with ui_engine.
  - unfold onTrackInput in H. opt_cases; eauto with ui_engine.
  - injection H as <-. unfold onMasterInput. repeat case_match; cbn; eauto with ui_engine.
  - unfold onTimeout in H. opt_cases; eauto with ui_engine.
  - unfold onTick in H. opt_cases; eauto with ui_engine.
  - opt_cases; eauto with ui_engine.
Qed.

End EngineSteps.

(** ** The view invariant *)

(** Button [k] of row [i] shows step [k] of track [t]. *)
Definition button_ok (i : nat) (t : Track) (k : nat) (b : StepButton) : Prop :=
  btnStep b = js_string_of_nat k /\ btnListener b = Some (Z.of_nat i) /\
  cl_has "active" (btnClasses b) = js_get (steps t) (Z.of_nat k).

Definition buttons_ok (i : nat) (t : Track) (bs : list StepButton) : Prop :=
  length bs = _stepCount t /\ forall k b, bs !! k = Some b -> button_ok i t k b.

(** Row [i] shows track [t]. *)
Record row_ok (i : nat) (t : Track) (r : TrackRow) : Prop := {
  ro_track : rowTrack r = js_string_of_nat i;
  ro_sound_track : selTrack (soundSel r) = js_string_of_nat i;
  ro_step_track : selTrack (stepSel r) = js_string_of_nat i;
  ro_sound_class : cl_has "sound-selector" (selClasses (soundSel r)) = true;
  ro_step_class : cl_has "sound-selector" (selClasses (stepSel r)) = false;
  ro_step_options : map optValue (selOptions (stepSel r)) =
                      map js_string_of_nat SequencerRenderer.stepCountChoices;
  ro_buttons : buttons_ok i t (concat (rowSteps r));
  ro_count : _stepCount t ∈ SequencerRenderer.stepCountChoices
}.

(** The slider of each parameter in [MixerRenderer]: min, max, step. *)
Definition param_range (p : TrackParam) : Q * Q * Q :=
  match p with
  | TVolume => (0, 1, 1 # 100) | TPan => (-1, 1, 1 # 100) | TReverbAmount => (0, 1, 1 # 100)
  | TEqLow => (-12, 12, 1 # 10) | TEqHigh => (-12, 12, 1 # 10)
  end%Q.

Definition input_ok (t : Track) (ri : RangeInput) : Prop :=
  exists p, input_param (riControl ri) = Some p /\ (riMin ri, riMax ri, riStep ri) = param_range p /\
    (riValue ri == tparam p t /\ riMin ri <= riValue ri <= riMax ri)%Q.

Definition controls : list string := ["volume"; "pan"; "reverb"; "eqlow"; "eqhigh"].

(** Channel [i] shows the parameters of track [t]. *)
Record chan_ok (i : nat) (t : Track) (c : Channel) : Prop := {
  co_track : chTrack c = js_string_of_nat i;
  co_listener : chListener c = Some (Z.of_nat i);
  co_controls : map riControl (chInputs c) = controls;
  co_inputs : Forall (input_ok t) (chInputs c)
}.

Record view_inv (a : App) : Prop := {
  vi_rows_len : length (rows a) = length (tracks (eng (world a)));
  vi_chans_len : length (channels a) = length (tracks (eng (world a)));
  vi_rows : forall i t r, tracks (eng (world a)) !! i = Some t -> rows a !! i = Some r ->
    row_ok i t r;
  vi_chans : forall i t c, tracks (eng (world a)) !! i = Some t -> channels a !! i = Some c ->
    chan_ok i t c
}.

Lemma view_inv_keys a : view_inv a -> grid_keys (rows a).
Proof.
  intros Hv j r Hr. destruct (lookup_lt_is_Some_2 (tracks (eng (world a))) j) as [t Ht].
  { rewrite <- (vi_rows_len _ Hv). by eapply lookup_lt_Some. }
  apply (ro_track j t r), (vi_rows _ Hv); done.
Qed.

(** ** Changes the view invariant does not see *)

Definition btn_equiv (b b' : StepButton) : Prop :=
  btnStep b' = btnStep b /\ btnListener b' = btnListener b /\
  cl_has "active" (btnClasses b') = cl_has "active" (btnClasses b).

Definition row_equiv (r r' : TrackRow) : Prop :=
  rowTrack r' = rowTrack r /\ selTrack (soundSel r') = selTrack (soundSel r) /\
  selTrack (stepSel r') = selTrack (stepSel r) /\
  cl_has "sound-selector" (selClasses (soundSel r')) = cl_has "sound-selector" (selClasses (soundSel r)) /\
  cl_has "sound-selector" (selClasses (stepSel r')) = cl_has "sound-selector" (selClasses (stepSel r)) /\
  map optValue (selOptions (stepSel r')) = map optValue (selOptions (stepSel r)) /\
  Forall2 btn_equiv (concat (rowSteps r)) (concat (rowSteps r')).

Lemma btn_equiv_refl b : btn_equiv b b.
Proof. done. Qed.

Lemma Forall2_diag {A} (R : A -> A -> Prop) l : (forall x, R x x) -> Forall2 R l l.
Proof. intros H. induction l; constructor; auto. Qed.

Lemma btns_equiv_refl bs : Forall2 btn_equiv bs bs.
Proof. apply Forall2_diag, btn_equiv_refl. Qed.

Lemma row_equiv_refl r : row_equiv r r.
Proof. repeat split. apply btns_equiv_refl. Qed.

Lemma buttons_ok_equiv i t bs bs' : buttons_ok i t bs -> Forall2 btn_equiv bs bs' -> buttons_ok i t bs'.
Proof.
  intros [Hl Hb] H2. split; [by rewrite <- (Forall2_length _ _ _ H2)|].
  intros k b' Hk. destruct (Forall2_lookup_r _ _ _ _ _ H2 Hk) as (b & Hb0 & Hs & Hli & Ha).
  destruct (Hb k b Hb0) as (? & ? & ?). unfold button_ok. by rewrite Hs, Hli, Ha.
Qed.

Lemma row_ok_equiv i t r r' : row_ok i t r -> row_equiv r r' -> row_ok i t r'.
Proof.
  intros [] (E1 & E2 & E3 & E4 & E5 & E6 & E7). split; try congruence.
  by eapply buttons_ok_equiv.
Qed.

(** The class changes of the view: [active] is seen, nothing else. *)
Lemma cl_has_active_remove c l : c <> "active"%string ->
  cl_has "active" (cl_remove c l) = cl_has "active" l.
Proof. intros Hc. rewrite cl_has_remove. by rewrite bool_decide_false. Qed.

Lemma cl_has_active_add c l : c <> "active"%string ->
  cl_has "active" (cl_add c l) = cl_has "active" l.
Proof. intros Hc. rewrite cl_has_add. by rewrite bool_decide_false. Qed.

Lemma cl_has_selector_remove c l : c <> "sound-selector"%string ->
  cl_has "sound-selector" (cl_remove c l) = cl_has "sound-selector" l.
Proof. intros Hc. rewrite cl_has_remove. by rewrite bool_decide_false. Qed.

Lemma cl_has_selector_add c l : c <> "sound-selector"%string ->
  cl_has "sound-selector" (cl_add c l) = cl_has "sound-selector" l.
Proof. intros Hc. rewrite cl_has_add. by rewrite bool_decide_false. Qed.

Lemma concat_map_map {A B} (f : A -> B) (gs : list (list A)) :
  concat (map (map f) gs) = map f (concat gs).
Proof. induction gs; [done|]. cbn. by rewrite IHgs, map_app. Qed.

Lemma Forall2_map_r {A B} (R : A -> B -> Prop) (f : A -> B) l :
  (forall x, R x (f x)) -> Forall2 R l (map f l).
Proof. intros H. induction l; constructor; auto. Qed.

Lemma map_buttons_equiv f rows :
  (forall b, btn_equiv b (f b)) -> Forall2 row_equiv rows (map_buttons f rows).
Proof.
  intros Hf. apply Forall2_map_r. intros r. repeat split; try done.
  cbn [with_row_steps rowSteps]. rewrite concat_map_map. by apply Forall2_map_r.
Qed.

Lemma clearStepIndicators_equiv rows :
  Forall2 row_equiv rows (Sequencer.clearStepIndicators rows).
Proof.
  apply map_buttons_equiv. intros b. repeat split. cbn. by apply cl_has_active_remove.
Qed.

Lemma mark_first_in_equiv p c bs bs' :
  c <> "active"%string -> mark_first_in p c bs = Some bs' -> Forall2 btn_equiv bs bs'.
Proof.
  intros Hc. revert bs'. induction bs as [|b bs IH]; intros bs' H; [done|]. cbn in H.
  case_match; simplify_eq.
  - constructor; [|apply btns_equiv_refl].
    repeat split. cbn. by apply cl_has_active_add.
  - destruct (mark_first_in p c bs) eqn:E; simplify_eq/=. constructor; [apply btn_equiv_refl|auto].
Qed.

Lemma mark_first_equiv p c gs :
  c <> "active"%string -> Forall2 btn_equiv (concat gs) (concat (mark_first p c gs)).
Proof.
  intros Hc. induction gs as [|g gs IH]; [constructor|]. cbn.
  destruct (mark_first_in p c g) eqn:E; cbn; apply Forall2_app; auto.
  - by eapply mark_first_in_equiv.
  - apply btns_equiv_refl.
  - apply btns_equiv_refl.
Qed.

Lemma indicate_row_equiv w g r : row_equiv r (Sequencer.indicate_row w g r).
Proof.
  unfold Sequencer.indicate_row. case_match; [|apply row_equiv_refl].
  repeat split. cbn [with_row_steps rowSteps].
  eapply (Forall2_trans btn_equiv); [| |apply mark_first_equiv; done].
  - intros x y z (? & ? & ?) (? & ? & ?). repeat split; congruence.
  - rewrite concat_map_map. apply Forall2_map_r. intros b. repeat split.
    cbn. by apply cl_has_active_remove.
Qed.

(** ** Transfer of the view invariant *)

(** Reduces the field updates of [App] and nothing else. *)
Ltac app_simpl :=
  cbn [set_play set_world set_world_rows set_channels set_bpm_text set_export set_pending
       set_items world rows channels playBtn bpmText exportBtn rendering browser pending masterWired
       items dragData] in *.

Lemma view_inv_rows a a' :
  tracks (eng (world a')) = tracks (eng (world a)) -> channels a' = channels a ->
  Forall2 row_equiv (rows a) (rows a') -> view_inv a -> view_inv a'.
Proof.
  intros Ht Hc H2 [Hlr Hlc Hr Hch]. split; rewrite ?Ht, ?Hc.
  - by rewrite <- (Forall2_length _ _ _ H2).
  - done.
  - intros i t r' Hti Hr'. destruct (Forall2_lookup_r _ _ _ _ _ H2 Hr') as (r & Hr0 & He).
    eapply row_ok_equiv; [|exact He]. by apply Hr.
  - done.
Qed.

Lemma view_inv_ext a a' :
  tracks (eng (world a')) = tracks (eng (world a)) -> rows a' = rows a -> channels a' = channels a ->
  view_inv a -> view_inv a'.
Proof. intros Ht Hr Hc. apply view_inv_rows; [done|done|]. rewrite Hr. apply Forall2_diag, row_equiv_refl. Qed.

Lemma row_ok_track i t t' r :
  _stepCount t' = _stepCount t -> steps t' = steps t -> row_ok i t r -> row_ok i t' r.
Proof.
  intros Hn Hs [? ? ? ? ? ? [Hl Hb] Hc]. split; try done; [|by rewrite Hn].
  split; [by rewrite Hn|]. intros k b Hk. destruct (Hb k b Hk) as (? & ? & ?).
  unfold button_ok. by rewrite Hs.
Qed.

Lemma input_ok_track t t' ri :
  (forall p, tparam p t' = tparam p t) -> input_ok t ri -> input_ok t' ri.
Proof. intros Hp (p & ? & ? & Hv & ?). exists p. by rewrite Hp. Qed.

Lemma chan_ok_track i t t' c :
  (forall p, tparam p t' = tparam p t) -> chan_ok i t c -> chan_ok i t' c.
Proof.
  intros Hp [? ? ? Hi]. split; try done. eapply Forall_impl; [exact Hi|].
  intros ri. by apply input_ok_track.
Qed.

(** A change of track [i] that row [i] and channel [i] keep showing. *)
Lemma view_inv_track a a' i t t' :
  view_inv a -> tracks (eng (world a)) !! i = Some t ->
  tracks (eng (world a')) = <[i := t']> (tracks (eng (world a))) ->
  rows a' = rows a -> channels a' = channels a ->
  (forall r, row_ok i t r -> row_ok i t' r) -> (forall c, chan_ok i t c -> chan_ok i t' c) ->
  view_inv a'.
Proof.
  intros [Hlr Hlc Hr Hc] Hi Ht Hra Hca Hrow Hch. split; rewrite ?Ht, ?Hra, ?Hca, ?length_insert; try done.
  - intros j t0 r. rewrite list_lookup_insert. case_decide as Hj.
    + destruct Hj as [<- _]. intros [= <-] Hr0. apply Hrow, (Hr i t r); done.
    + apply Hr.
  - intros j t0 c. rewrite list_lookup_insert. case_decide as Hj.
    + destruct Hj as [<- _]. intros [= <-] Hc0. apply Hch, (Hc i t c); done.
    + apply Hc.
Qed.

(** Row [k] replaced by a row the invariant cannot tell apart. *)
Lemma Forall2_insert_equiv rows k r r' :
  rows !! k = Some r -> row_equiv r r' -> Forall2 row_equiv rows (<[k := r']> rows).
Proof.
  intros Hk He. apply Forall2_lookup. intros j. rewrite list_lookup_insert.
  case_decide as Hj; [destruct Hj as [<- _]; rewrite Hk; by constructor|].
  destruct (rows !! j); constructor. apply row_equiv_refl.
Qed.

(** Selector changes the invariant cannot see. *)
Definition sel_equiv (s s' : Select) : Prop :=
  selTrack s' = selTrack s /\
  cl_has "sound-selector" (selClasses s') = cl_has "sound-selector" (selClasses s) /\
  map optValue (selOptions s') = map optValue (selOptions s).

Lemma sel_equiv_trans s1 s2 s3 : sel_equiv s1 s2 -> sel_equiv s2 s3 -> sel_equiv s1 s3.
Proof. intros (? & ? & ?) (? & ? & ?). repeat split; congruence. Qed.

Lemma map_optValue_imap f (opts : list SelectOption) :
  map optValue (imap (fun j o => with_selected (f j) o) opts) = map optValue opts.
Proof.
  revert f. induction opts as [|o opts IH]; intros f; [done|]. cbn. f_equal.
  apply (IH (fun j => f (S j))).
Qed.

Lemma sel_equiv_classes c s :
  cl_has "sound-selector" c = cl_has "sound-selector" (selClasses s) ->
  sel_equiv s (with_sel_classes c s).
Proof. done. Qed.

Lemma sel_equiv_choose o s : sel_equiv s (select_choose o s).
Proof. repeat split. apply map_optValue_imap. Qed.

Lemma sel_equiv_set_value v s : sel_equiv s (select_set_value v s).
Proof. repeat split. apply map_optValue_imap. Qed.

Lemma row_equiv_select kind s r :
  sel_equiv (row_select kind r) s -> row_equiv r (with_row_select kind s r).
Proof.
  intros (E1 & E2 & E3). destruct kind; repeat split; try apply btns_equiv_refl; done.
Qed.

Lemma sel_equiv_drag (add : bool) s :
  sel_equiv s (with_sel_classes (if add then cl_add "drag-over" (selClasses s)
                                 else cl_remove "drag-over" (selClasses s)) s).
Proof.
  apply sel_equiv_classes. destruct add;
    [by apply cl_has_selector_add|by apply cl_has_selector_remove].
Qed.

Lemma view_inv_world a w :
  tracks (eng w) = tracks (eng (world a)) -> view_inv a -> view_inv (set_world w a).
Proof. intros Ht. by apply view_inv_ext. Qed.

Lemma tparam_with_sound p s t : tparam p (with_sound s t) = tparam p t.
Proof. by destruct p. Qed.

Lemma view_inv_setTrackSound a i s :
  view_inv a -> view_inv (set_world (setTrackSound i s (world a)) a).
Proof.
  intros Hv. destruct (setTrackSound_tracks i s (world a)) as [_ H].
  destruct (track_at (eng (world a)) i) as [t|] eqn:Ht.
  - destruct (track_at_Some _ _ _ Ht) as [_ Hi].
    apply (view_inv_track a _ (Z.to_nat i) t (with_sound s t)); try done.
    + intros r. by apply row_ok_track.
    + intros c. apply chan_ok_track. intros p. apply tparam_with_sound.
  - rewrite H. by apply view_inv_world.
Qed.

(** Listeners that change the engine but not its tracks, nor the view's
    rows beyond what the invariant sees. *)
Lemma view_inv_onPlayClick a : view_inv a -> view_inv (onPlayClick a).
Proof.
  intros Hv. unfold onPlayClick.
  case_match; apply view_inv_ext with (a := a); app_simpl; auto using tracks_play, tracks_stop.
Qed.

Lemma view_inv_onStopClick a : view_inv a -> view_inv (onStopClick a).
Proof.
  intros Hv. apply view_inv_rows with (a := a); app_simpl; [apply tracks_stop|done| |done].
  apply clearStepIndicators_equiv.
Qed.

Lemma view_inv_onKeyDown code focus a : view_inv a -> view_inv (onKeyDown code focus a).
Proof.
  intros Hv. unfold onKeyDown. case_match; [|done]. case_match.
  - apply view_inv_rows with (a := a); app_simpl; [apply tracks_stop|done| |done].
    apply clearStepIndicators_equiv.
  - apply view_inv_ext with (a := a); app_simpl; auto using tracks_play.
Qed.

Lemma view_inv_onExportClick a : view_inv a -> view_inv (onExportClick a).
Proof. intros Hv. unfold onExportClick. repeat case_match; by apply view_inv_ext with (a := a). Qed.

Lemma view_inv_onMasterInput p v a : view_inv a -> view_inv (onMasterInput p v a).
Proof.
  unfold onMasterInput. repeat case_match; [|done|done]. apply view_inv_world.
  by destruct (frame_setMaster _ _ _ _ H0).
Qed.

(** ** The listeners that edit the grid *)

(** Button [j] of group [g] is button [m] of the row read in order. *)
Lemma concat_insert2 {A} (gs : list (list A)) g j grp x :
  gs !! g = Some grp -> grp !! j = Some x ->
  exists m, concat gs !! m = Some x /\
    forall y, concat (<[g := <[j := y]> grp]> gs) = <[m := y]> (concat gs).
Proof.
  revert g. induction gs as [|g0 gs IH]; intros g Hg Hj; [done|].
  change (concat (g0 :: gs)) with (g0 ++ concat gs).
  destruct g as [|g]; cbn in Hg.
  - injection Hg as Hg. subst grp. exists j.
    rewrite lookup_app_l by (by eapply lookup_lt_Some). split; [done|]. intros y.
    change (concat (<[0%nat := <[j:=y]> g0]> (g0 :: gs))) with (<[j:=y]> g0 ++ concat gs).
    by rewrite insert_app_l by (by eapply lookup_lt_Some).
  - destruct (IH g Hg Hj) as (m & Hm & E). exists (length g0 + m).
    rewrite lookup_app_r, Nat.add_sub' by lia. split; [done|]. intros y.
    change (concat (<[S g := <[j:=y]> grp]> (g0 :: gs)))
      with (g0 ++ concat (<[g := <[j:=y]> grp]> gs)).
    by rewrite E, insert_app_r.
Qed.

(** A change of track [i] together with its row. *)
Lemma view_inv_track_row a a' i t t' r r' :
  view_inv a -> tracks (eng (world a)) !! i = Some t -> rows a !! i = Some r ->
  tracks (eng (world a')) = <[i := t']> (tracks (eng (world a))) ->
  rows a' = <[i := r']> (rows a) -> channels a' = channels a ->
  row_ok i t' r' -> (forall c, chan_ok i t c -> chan_ok i t' c) -> view_inv a'.
Proof.
  intros [Hlr Hlc Hr Hc] Hi Hri Ht Hra Hca Hrow Hch.
  split; rewrite ?Ht, ?Hra, ?Hca, ?length_insert; try done.
  - intros j t0 r0. rewrite !list_lookup_insert. case_decide as Hj.
    + destruct Hj as [<- _]. rewrite decide_True by (split; [done|by eapply lookup_lt_Some]).
      intros [= <-] [= <-]. done.
    + rewrite decide_False; [apply Hr|]. intros [<- _]. apply Hj. split; [done|].
      by eapply lookup_lt_Some.
  - intros j t0 c. rewrite list_lookup_insert. case_decide as Hj.
    + destruct Hj as [<- _]. intros [= <-] Hc0. apply Hch, (Hc i t c); done.
    + apply Hc.
Qed.

Lemma view_inv_track_chan a a' i t t' c c' :
  view_inv a -> tracks (eng (world a)) !! i = Some t -> channels a !! i = Some c ->
  tracks (eng (world a')) = <[i := t']> (tracks (eng (world a))) ->
  rows a' = rows a -> channels a' = <[i := c']> (channels a) ->
  (forall r, row_ok i t r -> row_ok i t' r) -> chan_ok i t' c' -> view_inv a'.
Proof.
  intros [Hlr Hlc Hr Hc] Hi Hci Ht Hra Hca Hrow Hch.
  split; rewrite ?Ht, ?Hra, ?Hca, ?length_insert; try done.
  - intros j t0 r0. rewrite list_lookup_insert. case_decide as Hj.
    + destruct Hj as [<- _]. intros [= <-] Hr0. apply Hrow, (Hr i t r0); done.
    + apply Hr.
  - intros j t0 c0. rewrite !list_lookup_insert. case_decide as Hj.
    + destruct Hj as [<- _]. rewrite decide_True by (split; [done|by eapply lookup_lt_Some]).
      intros [= <-] [= <-]. done.
    + rewrite decide_False; [apply Hc|]. intros [<- _]. apply Hj. split; [done|].
      by eapply lookup_lt_Some.
Qed.

Lemma row_lookup_track a k r :
  view_inv a -> rows a !! k = Some r ->
  exists t, tracks (eng (world a)) !! k = Some t /\ row_ok k t r.
Proof.
  intros Hv Hr. destruct (lookup_lt_is_Some_2 (tracks (eng (world a))) k) as [t Ht].
  { rewrite <- (vi_rows_len _ Hv). by eapply lookup_lt_Some. }
  exists t. split; [done|]. by apply (vi_rows _ Hv).
Qed.

Lemma track_at_of_nat e i t : tracks e !! i = Some t -> track_at e (Z.of_nat i) = Some t.
Proof. intros H. unfold track_at. rewrite Nat2Z.id. by destruct (Z.leb_spec 0 (Z.of_nat i)); [|lia]. Qed.

Lemma view_inv_click k g j a w rs :
  view_inv a -> Sequencer.click_step k g j (world a) (rows a) = Some (w, rs) ->
  view_inv (set_world_rows w rs a).
Proof.
  intros Hv H. unfold Sequencer.click_step in H.
  destruct (rows a !! k) as [r|] eqn:Hr; [|done]. cbn in H.
  destruct (rowSteps r !! g) as [grp|] eqn:Hg; [|done]. cbn in H.
  destruct (grp !! j) as [b|] eqn:Hb; [|done]. cbn in H.
  destruct (row_lookup_track a k r Hv Hr) as (t & Ht & Hrow).
  destruct (concat_insert2 _ _ _ _ _ Hg Hb) as (m & Hm & Hc).
  destruct (ro_buttons _ _ _ Hrow) as [Hlen Hbs].
  destruct (Hbs m b Hm) as (Hstep & Hlis & Hact).
  rewrite Hlis, Hstep, parseInt_string_of_nat in H. cbn in H.
  unfold toggleStep in H. rewrite (track_at_of_nat _ _ _ Ht) in H.
  assert (Hmn : (m < _stepCount t)%nat) by (rewrite <- Hlen; by eapply lookup_lt_Some).
  destruct (Z.ltb_spec (Z.of_nat m) (Z.of_nat (_stepCount t))) as [_|]; [|lia].
  injection H as <- <-.
  set (a' := js_set (steps t) (Z.of_nat m) (negb (js_get (steps t) (Z.of_nat m)))).
  apply (view_inv_track_row a _ k t (with_steps (_stepCount t) a' t) r
           (with_row_steps (<[g := <[j := with_btn_classes
              (cl_toggle "active" (js_get a' (Z.of_nat m)) (btnClasses b)) b]> grp]> (rowSteps r)) r));
    try done.
  - cbn. by rewrite Nat2Z.id.
  - destruct Hrow. split; try done. cbn [with_row_steps rowSteps]. rewrite Hc. split.
    + by rewrite length_insert.
    + intros m0 b0. rewrite list_lookup_insert. case_decide as Hm0.
      * destruct Hm0 as [<- _]. intros [= <-]. repeat split; try done.
        cbn. by rewrite cl_has_toggle, bool_decide_true.
      * intros Hb0. destruct (Hbs m0 b0 Hb0) as (? & ? & Ha0). repeat split; try done.
        cbn [steps with_steps]. rewrite Ha0. unfold a'. rewrite js_get_set_ne; [done|].
        intros E. apply Hm0. split; [lia|]. by eapply lookup_lt_Some.
  - intros c. apply chan_ok_track. by destruct p.
Qed.

Lemma lookup_map_list {A B} (f : A -> B) l i : map f l !! i = f <$> l !! i.
Proof. revert i. induction l; intros [|i]; cbn; auto. Qed.

Lemma js_get_fill_false a k : js_get (js_fill_false a) (Z.of_nat k) = false.
Proof.
  unfold js_get, js_fill_false. destruct (Z.leb_spec 0 (Z.of_nat k)); [|lia]. cbn [elems].
  destruct (replicate _ _ !! _) eqn:E; [|done]. by apply lookup_replicate in E as [-> _].
Qed.

Lemma view_inv_clearAll a w rs :
  view_inv a -> Sequencer.clearAll (world a) (rows a) = (w, rs) -> view_inv (set_world_rows w rs a).
Proof.
  intros Hv H. injection H as <- <-.
  set (rm := fun b => with_btn_classes (cl_remove "active" (btnClasses b)) b).
  apply (view_inv_rows (set_world_rows (clearAll (world a)) (map_buttons rm (rows a)) a));
    [done|done|apply clearStepIndicators_equiv|].
  destruct Hv as [Hlr Hlc Hr Hc]. destruct (clearAll_tracks (world a)) as [Ht _].
  split; app_simpl; unfold map_buttons; rewrite ?Ht, ?length_map; try done.
  - intros i t' r'. rewrite !lookup_map_list.
    destruct (tracks (eng (world a)) !! i) as [t|] eqn:Hti; [|done].
    destruct (rows a !! i) as [r|] eqn:Hri; [|done]. intros [= <-] [= <-].
    destruct (Hr i t r Hti Hri) as [? ? ? ? ? ? [Hl Hb] ?]. split; try done.
    cbn [with_row_steps rowSteps]. rewrite concat_map_map. split; [by rewrite length_map|].
    intros k b'. rewrite lookup_map_list. destruct (concat (rowSteps r) !! k) as [b|] eqn:Hk; [|done].
    intros [= <-]. destruct (Hb k b Hk) as (? & ? & _). repeat split; try done.
    cbn. rewrite js_get_fill_false, cl_has_remove, bool_decide_true by done. done.
  - intros i t' c. rewrite lookup_map_list.
    destruct (tracks (eng (world a)) !! i) as [t|] eqn:Hti; [|done]. intros [= <-] Hci.
    apply (chan_ok_track i t); [by destruct p|]. by apply Hc.
Qed.

Lemma view_inv_soundChange k o a w rs :
  view_inv a -> Sequencer.onSoundChange k o (world a) (rows a) = Some (w, rs) ->
  view_inv (set_world_rows w rs a).
Proof.
  intros Hv H. unfold Sequencer.onSoundChange in H.
  destruct (rows a !! k) as [r|] eqn:Hr; [|done]. cbn in H. case_guard as Ho; [|done].
  cbn in H. injection H as <- <-.
  set (a1 := set_world_rows (world a) (<[k := with_sound_sel (select_choose o (soundSel r)) r]> (rows a)) a).
  assert (Hv1 : view_inv a1).
  { apply (view_inv_rows a); [done|done| |done].
    apply (Forall2_insert_equiv _ _ r); [done|]. apply (row_equiv_select SoundSelector).
    apply sel_equiv_choose. }
  case_match.
  - apply (view_inv_setTrackSound a1). done.
  - done.
Qed.

Lemma view_inv_onDragClass add k kind a a' :
  view_inv a -> onDragClass add k kind a = Some a' -> view_inv a'.
Proof.
  intros Hv H. unfold onDragClass in H. destruct (rows a !! k) as [r|] eqn:Hr; [|done].
  cbn in H. injection H as <-. apply (view_inv_rows a); [done|done| |done].
  apply (Forall2_insert_equiv _ _ r); [done|]. apply row_equiv_select, sel_equiv_drag.
Qed.

Lemma view_inv_onDrop k kind text a a' :
  view_inv a -> onDrop k kind text a = Some a' -> view_inv a'.
Proof.
  intros Hv H. unfold onDrop in H. destruct (rows a !! k) as [r|] eqn:Hr; [|done]. cbn in H.
  set (s1 := with_sel_classes (cl_remove "drag-over" (selClasses (row_select kind r)))
               (row_select kind r)) in H.
  assert (E1 : sel_equiv (row_select kind r) s1).
  { apply sel_equiv_classes. by apply cl_has_selector_remove. }
  case_match; injection H as <-.
  - set (s2 := with_sel_classes (cl_add "drop-success" (selClasses (select_set_value text s1)))
                 (select_set_value text s1)).
    assert (E2 : sel_equiv (row_select kind r) s2).
    { apply (sel_equiv_trans _ s1); [done|]. apply (sel_equiv_trans _ (select_set_value text s1)).
      - apply sel_equiv_set_value.
      - apply sel_equiv_classes. by apply cl_has_selector_add. }
    set (a1 := set_world_rows (world a) (<[k := with_row_select kind s2 r]> (rows a)) a).
    assert (Hv1 : view_inv a1).
    { apply (view_inv_rows a); [done|done| |done].
      apply (Forall2_insert_equiv _ _ r); [done|]. by apply row_equiv_select. }
    case_match.
    + apply (view_inv_ext (set_world (setTrackSound z text (world a1)) a1)); try done.
      by apply view_inv_setTrackSound.
    + by apply (view_inv_ext a1).
  - apply (view_inv_rows a); [done|done| |done].
    apply (Forall2_insert_equiv _ _ r); [done|]. by apply row_equiv_select.
Qed.

Lemma view_inv_onTimeout n a a' : view_inv a -> onTimeout n a = Some a' -> view_inv a'.
Proof.
  intros Hv H. unfold onTimeout in H. destruct (pending a !! n) as [[k|ok|k]|]; [|cbn in H..|done].
  - cbn in H. destruct (rows a !! k) as [r|] eqn:Hr; [|done]. cbn in H. injection H as <-.
    apply (view_inv_rows a); [done|done| |done].
    apply (Forall2_insert_equiv _ _ r); [done|]. apply (row_equiv_select SoundSelector).
    apply sel_equiv_classes. by apply cl_has_selector_remove.
  - injection H as <-. by apply (view_inv_ext a).
  - destruct (items a !! k); cbn in H; [|done]. injection H as <-. by apply (view_inv_ext a).
Qed.

Lemma view_inv_onTick id a a' : view_inv a -> onTick id a = Some a' -> view_inv a'.
Proof.
  intros Hv H. unfold onTick in H. destruct (exec (OTick id) (world a)) as [w'|] eqn:E; [|done].
  cbn in H. destruct (playStep (world a)) as [ok mid]. injection H as <-.
  apply (view_inv_rows a); app_simpl.
  - by destruct (frame_exec_tick _ _ _ E).
  - done.
  - case_match; [|apply Forall2_diag, row_equiv_refl].
    apply Forall2_map_r. intros r. apply indicate_row_equiv.
  - done.
Qed.

(** ** The step-count selector *)

Lemma cl_has_singleton c c' : cl_has c {[c']} = bool_decide (c = c').
Proof. unfold cl_has. apply bool_decide_ext. set_solver. Qed.

Lemma select_value_choose o s opt :
  selOptions s !! o = Some opt -> select_value (select_choose o s) = optValue opt.
Proof.
  intros Ho. unfold select_value, select_choose. cbn [with_options selOptions].
  rewrite (proj2 (list_find_Some _ _ o (with_selected true opt))); [done|].
  rewrite list_lookup_imap, Ho. cbn. rewrite bool_decide_true by done.
  split; [done|]. split; [done|]. intros j y. rewrite list_lookup_imap.
  destruct (selOptions s !! j); intros; simplify_eq/=. rewrite bool_decide_false; [done|lia].
Qed.

Lemma stepCount_setStepCount n t : _stepCount (setStepCount n t) = n.
Proof. unfold setStepCount. case_decide as H; [done|]. destruct (decide (n = _stepCount t)); [done|tauto]. Qed.

Lemma tparam_setStepCount p n t : tparam p (setStepCount n t) = tparam p t.
Proof. unfold setStepCount. case_decide; by destruct p. Qed.

Lemma tparam_with_steps p n a t : tparam p (with_steps n a t) = tparam p t.
Proof. by destruct p. Qed.

(** The option the user picks is one of 4, 8, 16, and [parseInt] reads it. *)
Lemma step_option_parse r o :
  map optValue (selOptions (stepSel r)) = map js_string_of_nat SequencerRenderer.stepCountChoices ->
  (o < length (selOptions (stepSel r)))%nat ->
  exists n, n ∈ SequencerRenderer.stepCountChoices /\
    parseInt (select_value (select_choose o (stepSel r))) = Some (Z.of_nat n).
Proof.
  intros Hm Ho. destruct (lookup_lt_is_Some_2 _ _ Ho) as [opt Hopt].
  rewrite (select_value_choose _ _ _ Hopt).
  assert (Hv : map optValue (selOptions (stepSel r)) !! o = Some (optValue opt))
    by by rewrite lookup_map_list, Hopt.
  rewrite Hm, lookup_map_list in Hv.
  destruct (SequencerRenderer.stepCountChoices !! o) as [n|] eqn:Hn; [|done].
  injection Hv as Hv. exists n. split; [by eapply list_elem_of_lookup_2|].
  by rewrite <- Hv, parseInt_string_of_nat.
Qed.

(** The buttons [createTrackStepButtons] leaves in row [i]. *)
Lemma rendered_buttons_ok i t groups :
  concat groups = map (fun k => SequencerRenderer.step_button (Z.of_nat i) (steps t) k (k mod 4))
                      (seq 0 (_stepCount t)) ->
  buttons_ok i t (concat (map (map (with_listener (Some (Z.of_nat i)))) groups)).
Proof.
  intros Hg. rewrite concat_map_map, Hg, map_map. split; [by rewrite length_map, length_seq|].
  intros k b. rewrite lookup_map_list.
  destruct (decide (k < _stepCount t)%nat); [|by rewrite lookup_seq_ge by lia].
  rewrite lookup_seq_lt by lia. cbn. intros [= <-].
  repeat split; cbn.
  case_match; [by rewrite cl_has_add, bool_decide_true|].
  by rewrite cl_has_singleton, bool_decide_false.
Qed.

Lemma selTrack_choose o s : selTrack (select_choose o s) = selTrack s.
Proof. done. Qed.

(** [createTrackStepButtons(i)] on a grid: row [i] gets the buttons of
    track [i], each with its click listener. *)
Lemma createTrackStepButtons_grid i w rows r t :
  grid_keys rows -> rows !! i = Some r -> track_at (eng w) (Z.of_nat i) = Some t ->
  exists gs, Sequencer.createTrackStepButtons (Z.of_nat i) w rows =
               Some (<[i := with_row_steps gs r]> rows) /\ buttons_ok i t (concat gs).
Proof.
  intros Hk Hr Ht. unfold Sequencer.createTrackStepButtons, getTrackData. rewrite Ht.
  destruct (renderTrackSteps_grid i (_stepCount t) (steps t) _ _ Hk Hr) as (g & Hg & ->).
  cbn [mbind option_bind].
  assert (Hk2 : grid_keys (<[i := with_row_steps g r]> rows)).
  { apply grid_keys_insert; [done|]. exact (Hk i r Hr). }
  assert (Hr2 : <[i := with_row_steps g r]> rows !! i = Some (with_row_steps g r))
    by (apply list_lookup_insert_eq; by eapply lookup_lt_Some).
  unfold Sequencer.attach_click. rewrite (find_row _ _ _ Hk2 Hr2), list_insert_insert_eq.
  eexists. split; [reflexivity|].
  destruct (render_groups_layout (Z.of_nat i) (_stepCount t) (steps t)) as (g' & Hg' & _ & _ & Hc).
  rewrite Hg in Hg'. injection Hg' as <-. by apply rendered_buttons_ok.
Qed.

Lemma row_ok_with_step_sel i t r o :
  row_ok i t r -> row_equiv r (with_step_sel (select_choose o (stepSel r)) r).
Proof. intros _. apply (row_equiv_select StepCountSelector), sel_equiv_choose. Qed.

Lemma view_inv_stepCountChange k o a w rs :
  view_inv a -> Sequencer.onStepCountChange k o (world a) (rows a) = Some (w, rs) ->
  view_inv (set_world_rows w rs a).
Proof.
  intros Hv H. unfold Sequencer.onStepCountChange in H.
  destruct (rows a !! k) as [r|] eqn:Hr; [|done]. cbn in H. case_guard as Ho; [|done]. cbn in H.
  destruct (row_lookup_track a k r Hv Hr) as (t & Ht & Hrow).
  destruct (step_option_parse r o (ro_step_options _ _ _ Hrow) Ho) as (n & Hn & Hp).
  set (r1 := with_step_sel (select_choose o (stepSel r)) r) in H.
  cbn in Hp. rewrite (ro_step_track _ _ _ Hrow), parseInt_string_of_nat, Hp in H.
  unfold Sequencer.setTrackStepCount_js in H.
  unfold getTrackData in H. rewrite (track_at_of_nat _ _ _ Ht) in H. cbn in H.
  case_guard as H0; [|lia]. cbn in H.
  rewrite Nat2Z.id in H. set (w1 := setTrackStepCount (Z.of_nat k) n (world a)) in H.
  destruct (setTrackStepCount_tracks (Z.of_nat k) n (world a) t (track_at_of_nat _ _ _ Ht))
    as [Htr _].
  set (t' := setStepCount n t) in Htr.
  assert (Ht' : track_at (eng w1) (Z.of_nat k) = Some t').
  { apply track_at_of_nat. unfold w1. rewrite Htr, Nat2Z.id.
    apply list_lookup_insert_eq. by eapply lookup_lt_Some. }
  assert (Hk1 : grid_keys (<[k := r1]> (rows a))).
  { apply grid_keys_insert; [by apply view_inv_keys|]. apply (ro_track _ _ _ Hrow). }
  assert (Hr1 : <[k := r1]> (rows a) !! k = Some r1)
    by (apply list_lookup_insert_eq; by eapply lookup_lt_Some).
  destruct (createTrackStepButtons_grid k w1 _ _ _ Hk1 Hr1 Ht') as (gs & Hcs & Hbs).
  rewrite Hcs in H. cbn in H. injection H as <- <-. rewrite list_insert_insert_eq.
  set (r3 := with_row_steps gs r1).
  apply (view_inv_rows (set_world_rows w1 (<[k := r3]> (rows a)) a));
    [done|done|apply clearStepIndicators_equiv|].
  apply (view_inv_track_row a _ k t t' r r3); try done.
  - app_simpl. unfold w1. rewrite Htr. by rewrite Nat2Z.id.
  - destruct Hrow. split; try done.
    + cbn. by rewrite map_optValue_imap.
    + unfold t'. by rewrite stepCount_setStepCount.
  - intros c. apply chan_ok_track. intros p. apply tparam_setStepCount.
Qed.

(** ** The mixer inputs *)

Definition params : list TrackParam := [TVolume; TPan; TReverbAmount; TEqLow; TEqHigh].

(** The [j]-th input of a channel drives the [j]-th parameter. *)
Lemma input_param_control inputs j ri :
  map riControl inputs = controls -> inputs !! j = Some ri -> input_param (riControl ri) = params !! j.
Proof.
  intros Hm Hj. assert (Hc : map riControl inputs !! j = Some (riControl ri))
    by by rewrite lookup_map_list, Hj.
  rewrite Hm in Hc. destruct j as [|[|[|[|[|j]]]]]; cbn in Hc; try (injection Hc as <-); done.
Qed.

Lemma param_range_ok p : let '(mn, mx, st) := param_range p in (mn <= mx /\ 0 < st)%Q.
Proof. destruct p; cbn; split; lra. Qed.

Lemma with_value_ok t p v ri :
  input_param (riControl ri) = Some p -> (riMin ri, riMax ri, riStep ri) = param_range p ->
  input_ok (with_tparam p (riValue (with_value v ri)) t) (with_value v ri).
Proof.
  intros Hp Hr. exists p. cbn [riControl riMin riMax riStep with_value]. split; [done|].
  split; [done|]. rewrite tparam_with, decide_True by done. split; [reflexivity|].
  pose proof (param_range_ok p) as Ho. rewrite <- Hr in Ho. destruct Ho.
  by apply range_sanitize_bounds.
Qed.

Lemma chan_ok_input k t c j ri v p :
  chan_ok k t c -> chInputs c !! j = Some ri -> input_param (riControl ri) = Some p ->
  chan_ok k (with_tparam p (riValue (with_value v ri)) t)
    (with_inputs (<[j := with_value v ri]> (chInputs c)) c).
Proof.
  intros [Htr Hl Hm Hi] Hj Hp. split; try done; cbn [with_inputs chInputs].
  - rewrite <- Hm. apply list_eq. intros j'. rewrite !lookup_map_list, list_lookup_insert.
    case_decide as E; [destruct E as [<- _]; by rewrite Hj|done].
  - apply Forall_lookup. intros j' ri'. rewrite list_lookup_insert. case_decide as E.
    + destruct E as [<- _]. intros [= <-]. destruct (proj1 (Forall_lookup _ _) Hi j ri Hj)
        as (p0 & Hp0 & Hr0 & _). rewrite Hp in Hp0. injection Hp0 as <-.
      by apply with_value_ok.
    + intros Hj'. destruct (proj1 (Forall_lookup _ _) Hi j' ri' Hj') as (p' & Hp' & Hr' & Hv & Hb).
      exists p'. split; [done|]. split; [done|]. rewrite tparam_with, decide_False; [done|].
      intros ->. apply E. split; [|by eapply lookup_lt_Some].
      rewrite (input_param_control _ _ _ Hm Hj') in Hp'.
      rewrite (input_param_control _ _ _ Hm Hj) in Hp.
      eapply NoDup_lookup; [|exact Hp|exact Hp'].
      unfold params. repeat constructor; set_solver.
Qed.

Lemma view_inv_onTrackInput k j v a a' :
  view_inv a -> onTrackInput k j v a = Some a' -> view_inv a'.
Proof.
  intros Hv H. unfold onTrackInput in H.
  destruct (channels a !! k) as [c|] eqn:Hc; [|done]. cbn in H.
  destruct (chInputs c !! j) as [ri|] eqn:Hj; [|done]. cbn in H.
  destruct (lookup_lt_is_Some_2 (tracks (eng (world a))) k) as [t Ht].
  { rewrite <- (vi_chans_len _ Hv). by eapply lookup_lt_Some. }
  pose proof (vi_chans _ Hv k t c Ht Hc) as Hch.
  rewrite (co_listener _ _ _ Hch) in H. cbn [with_value riControl] in H.
  rewrite (input_param_control _ _ _ (co_controls _ _ _ Hch) Hj) in H.
  destruct (params !! j) as [p|] eqn:Hp; cbv beta iota in H.
  2: { exfalso. apply lookup_ge_None in Hp. pose proof (lookup_lt_Some _ _ _ Hj).
       pose proof (f_equal length (co_controls _ _ _ Hch)). rewrite length_map in *.
       cbn in *. lia. }
  rewrite <- (input_param_control _ _ _ (co_controls _ _ _ Hch) Hj) in Hp.
  injection H as <-.
  apply (view_inv_track_chan a _ k t (with_tparam p (riValue (with_value v ri)) t) c
           (with_inputs (<[j := with_value v ri]> (chInputs c)) c)); try done.
  - app_simpl. rewrite (proj1 (setTrackParam_tracks p _ _ _ t (track_at_of_nat _ _ _ Ht))).
    by rewrite Nat2Z.id.
  - intros r. apply row_ok_track; done.
  - by apply chan_ok_input.
Qed.

Section Steps.
Variable startRendering : OfflineRender -> option AudioBuffer.

Lemma handle_view_inv ev a a' :
  view_inv a -> handle startRendering ev a = Some a' -> view_inv a'.
Proof.
  intros Hv. destruct ev; cbn [handle].
  - intros [= <-]. by apply view_inv_onPlayClick.
  - intros [= <-]. by apply view_inv_onStopClick.
  - destruct (Sequencer.clearAll _ _) as [w rs] eqn:E. intros [= <-]. by eapply view_inv_clearAll.
  - destruct (parseInt value) as [z|]; [|done]. intros [= <-].
    apply view_inv_ext with (a := a); app_simpl; [apply (proj1 (frame_setBPM _ _))|done..].
  - intros [= <-]. by apply view_inv_onExportClick.
  - unfold onExportSettled. destruct (rendering a); [|done]. intros H%(inj Some). subst a'. by apply (view_inv_ext a).
  - intros [= <-]. by apply view_inv_onKeyDown.
  - unfold onSoundItemClick. destruct (items a !! item); cbn; [|done].
    destruct (playSound _ _) as [ok w] eqn:E.
    destruct ok; intros [= <-]; apply (view_inv_ext a); app_simpl; try done;
      by destruct (frame_playSound _ _ _ _ E).
  - unfold onItemDragStart. destruct (items a !! item); cbn; [|done].
    intros [= <-]. by apply (view_inv_ext a).
  - unfold onItemDragEnd. destruct (items a !! item); cbn; [|done].
    intros [= <-]. by apply (view_inv_ext a).
  - destruct (Sequencer.click_step _ _ _ _ _) as [[w rs]|] eqn:E; [|done]. intros [= <-].
    by eapply view_inv_click.
  - destruct (Sequencer.onSoundChange _ _ _ _) as [[w rs]|] eqn:E; [|done]. intros [= <-].
    by eapply view_inv_soundChange.
  - destruct (Sequencer.onStepCountChange _ _ _ _) as [[w rs]|] eqn:E; [|done]. intros [= <-].
    by eapply view_inv_stepCountChange.
  - by apply view_inv_onDragClass.
  - by apply view_inv_onDragClass.
  - by apply view_inv_onDrop.
  - by apply view_inv_onTrackInput.
  - intros [= <-]. by apply view_inv_onMasterInput.
  - by apply view_inv_onTimeout.
  - by apply view_inv_onTick.
  - destruct (exec _ _) as [w|] eqn:E; [|done]. intros [= <-]. apply view_inv_world; [|done].
    by destruct (frame_exec_advance _ _ _ E).
Qed.

End Steps.

(** ** Boot establishes the invariant *)

(** The fields of row [i] other than its buttons. *)
Definition row_base (i : nat) (t : Track) (r : TrackRow) : Prop :=
  rowTrack r = js_string_of_nat i /\ selTrack (soundSel r) = js_string_of_nat i /\
  selTrack (stepSel r) = js_string_of_nat i /\
  cl_has "sound-selector" (selClasses (soundSel r)) = true /\
  cl_has "sound-selector" (selClasses (stepSel r)) = false /\
  map optValue (selOptions (stepSel r)) = map js_string_of_nat SequencerRenderer.stepCountChoices /\
  _stepCount t ∈ SequencerRenderer.stepCountChoices.

Lemma row_ok_intro i t r : row_base i t r -> buttons_ok i t (concat (rowSteps r)) -> row_ok i t r.
Proof. intros (? & ? & ? & ? & ? & ? & ?) ?. by split. Qed.

Lemma render_row_base names i t :
  _stepCount t ∈ SequencerRenderer.stepCountChoices ->
  row_base i t (SequencerRenderer.render_row names i t).
Proof.
  intros Hc. unfold row_base. cbn. rewrite !cl_has_singleton.
  repeat split; try done.
Qed.

(** What [init] leaves in every track: [new Track] with the default
    configuration. *)
Definition default_shape (t : Track) : Prop :=
  _stepCount t = 16%nat /\ _volume t = 8 # 10 /\ _pan t = 0%Q /\ _reverbAmount t = 0%Q /\
  _eqLow t = 0%Q /\ _eqHigh t = 0%Q.

Lemma init_tracks_shape env : Forall default_shape (tracks (eng (init env initial_world))).
Proof. destruct env as [[] sr [b|]]; vm_compute; repeat constructor. Qed.

Lemma render_keys ts names :
  map rowTrack (SequencerRenderer.render ts names) = map js_string_of_nat (seq 0 (length ts)).
Proof.
  apply list_eq. intros j. rewrite !lookup_map_list. unfold SequencerRenderer.render.
  rewrite list_lookup_imap. destruct (ts !! j) eqn:E.
  - rewrite lookup_seq_lt by (by eapply lookup_lt_Some). done.
  - rewrite lookup_seq_ge; [done|]. by apply lookup_ge_None.
Qed.

(** [createAllTrackStepButtons()] on the rendered grid gives every row
    the buttons of its track. *)
Lemma createAll_ok w names :
  Forall (fun t => _stepCount t ∈ SequencerRenderer.stepCountChoices) (tracks (eng w)) ->
  exists rs, Sequencer.createAllTrackStepButtons w
               (SequencerRenderer.render (tracks (eng w)) names) = Some rs /\
    length rs = length (tracks (eng w)) /\
    forall i t r, tracks (eng w) !! i = Some t -> rs !! i = Some r -> row_ok i t r.
Proof.
  intros Hc. set (ts := tracks (eng w)).
  unfold Sequencer.createAllTrackStepButtons. rewrite render_keys, fold_opt_map.
  set (P := fun (m : nat) (rs : list TrackRow) =>
    length rs = length ts /\ grid_keys rs /\
    forall i r, rs !! i = Some r -> exists t, ts !! i = Some t /\ row_base i t r /\
      ((i < m)%nat -> buttons_ok i t (concat (rowSteps r)))).
  destruct (fold_opt_seq_inv (fun rs j => match parseInt (js_string_of_nat j) with
                                          | Some i => Sequencer.createTrackStepButtons i w rs
                                          | None => Some rs end)
              P (length ts) 0 (SequencerRenderer.render ts names))
    as (rs & Hrs & Hl & _ & HP).
  - unfold P. split; [unfold SequencerRenderer.render; by rewrite length_imap|].
    split; [apply render_grid_keys|].
    intros i r. unfold SequencerRenderer.render. rewrite list_lookup_imap.
    destruct (ts !! i) as [t|] eqn:Ht; [|done]. intros [= <-]. exists t.
    split; [done|]. split; [|lia]. apply render_row_base.
    by apply (proj1 (Forall_lookup _ _) Hc i t).
  - intros j rs [_ Hj] (Hl & Hk & Hr). rewrite parseInt_string_of_nat.
    destruct (lookup_lt_is_Some_2 rs j) as [r Hrj]; [lia|].
    destruct (Hr j r Hrj) as (t & Ht & Hb & _).
    destruct (createTrackStepButtons_grid j w rs r t Hk Hrj (track_at_of_nat _ _ _ Ht))
      as (gs & -> & Hbs).
    eexists. split; [reflexivity|]. split; [by rewrite length_insert|].
    split; [apply grid_keys_insert; [done|apply Hb]|].
    intros i r'. rewrite list_lookup_insert. case_decide as E.
    + destruct E as [<- _]. intros [= <-]. exists t. split; [done|]. split; [apply Hb|]. by intros _.
    + intros Hi. destruct (Hr i r' Hi) as (t' & Ht' & Hb' & Hbs').
      exists t'. do 2 (split; [done|]). intros Hlt. apply Hbs'.
      destruct (decide (i = j)); [|lia]. subst. destruct E. split; [done|].
      by eapply lookup_lt_Some.
  - exists rs. split; [done|]. split; [done|]. intros i t r Ht Hr.
    destruct (HP i r Hr) as (t' & Ht' & Hb & Hbs). rewrite Ht in Ht'. injection Ht' as <-.
    apply row_ok_intro; [done|]. apply Hbs. by eapply lookup_lt_Some.
Qed.

(** [initMixerControls()] on channel [i] of the rendered mixer. *)
(** The five [querySelector('input[data-control=...]').value = ...] of
    lines 192-196 on a rendered channel. *)
Lemma init_inputs i (vol pan rev lo hi : Q) :
  set_control_value "eqhigh" hi (set_control_value "eqlow" lo (set_control_value "reverb" rev
    (set_control_value "pan" pan (set_control_value "volume" vol
      (chInputs (MixerRenderer.channel i)))))) =
  map (fun '(ri, v) => with_value v ri)
    (combine (chInputs (MixerRenderer.channel i)) [vol; pan; rev; lo; hi]).
Proof. reflexivity. Qed.

Lemma init_channel_ok w i t :
  tracks (eng w) !! i = Some t -> default_shape t ->
  chan_ok i t (init_channel w (MixerRenderer.channel i)).
Proof.
  intros Ht (Hn & Hv & Hp & Hr & Hl & Hh). unfold init_channel.
  cbn [MixerRenderer.channel chTrack]. rewrite parseInt_string_of_nat. cbn [mbind option_bind].
  unfold getTrackData. rewrite (track_at_of_nat _ _ _ Ht).
  split; [done|done|done|]. cbn [with_ch_listener with_inputs chInputs]. rewrite init_inputs.
  cbn [combine map chInputs MixerRenderer.channel].
  repeat (apply List.Forall_cons; [eexists; (split; [reflexivity|]); (split; [reflexivity|]);
    (split; [cbn [tparam]; rewrite ?Hv, ?Hp, ?Hr, ?Hl, ?Hh; vm_compute; reflexivity|]);
    apply range_sanitize_bounds; cbn; lra|]).
  constructor.
Qed.

Lemma initMixerControls_ok w :
  Forall default_shape (tracks (eng w)) ->
  forall i t c, tracks (eng w) !! i = Some t ->
    (initMixerControls w (MixerRenderer.render (length (tracks (eng w))))).1 !! i = Some c ->
    chan_ok i t c.
Proof.
  intros Hs i t c Ht. cbn [initMixerControls fst]. unfold MixerRenderer.render.
  rewrite map_map, lookup_map_list, lookup_seq_lt by (by eapply lookup_lt_Some).
  intros [= <-]. apply init_channel_ok; [done|]. by apply (proj1 (Forall_lookup _ _) Hs i t).
Qed.

Lemma boot_ok env page :
  exists a0, boot env page = Some a0 /\ view_inv a0 /\
    world a0 = attachObserver (init env initial_world) /\ playBtn a0 = pagePlay page /\
    rendering a0 = None /\ pending a0 = [] /\ exportBtn a0 = pageExport page /\
    browser a0 = pageBrowser page.
Proof.
  set (w := init env initial_world). pose proof (init_tracks_shape env) as Hs. fold w in Hs.
  assert (Hc : Forall (fun t => _stepCount t ∈ SequencerRenderer.stepCountChoices) (tracks (eng w))).
  { eapply Forall_impl; [exact Hs|]. intros t [-> _]. by right; right; left. }
  destruct (createAll_ok w (engineSampleNames w) Hc) as (rs & Hrs & Hl & Hr).
  unfold boot. fold w. unfold Sequencer.init. rewrite Hrs. cbn [mbind option_bind].
  eexists. split; [reflexivity|]. split; [|done].
  split; cbn [world rows channels].
  - done.
  - unfold initMixerControls, MixerRenderer.render. cbn. by rewrite !length_map, length_seq.
  - done.
  - apply (initMixerControls_ok w Hs).
Qed.
