(* ===== verification/UiFacts.v ===== *)
(** What the page of [src/main.js] and [src/sequencer.js] guarantees,
    proved over [App.ui_step] from [App.boot]:

    - the page drives the engine only through its public operations, so
      every engine theorem holds of the page's engine;
    - the view mirrors the model: each row shows exactly the buttons of
      its track's steps with [active] on the steps that are on, each
      mixer channel shows its track's parameters within its sliders'
      bounds, and the play button's label follows the clock;
    - the step counts stay in {4, 8, 16}, and the track parameters stay
      within the sliders' ranges, which are the ranges the specification
      asks the (unclamping) setters for;
    - a click on a step button the page shows toggles exactly its step;
    - after a tick exactly the playing step of each row is highlighted,
      and while the clock runs every step of every row is highlighted
      within a measure;
    - the export button's outcome and the file the browser saves, the
      drop of an unknown name, and a library item's drag and drop;
    - the STOP button and the space key clear the highlight, the PAUSE
      button does not.

    The last section evaluates [boot] on [Engine.example_env] and runs the
    page at that concrete state for the witnesses. *)

From S2P Require Import Prelude Dom WavEncoder WebAudio Track SoundCatalog Engine Export Renderers Sequencer App UiInvariant Download.
From Stdlib Require Import QArith Lqa.
From stdpp Require Import gmap sets strings.

(** ** The states the page reaches *)

Section Runs.
Variable startRendering : OfflineRender -> option AudioBuffer.

(** A step of the page: the browser runs one listener, timeout or
    interval callback, in any order. *)
Inductive ui_step : App -> App -> Prop :=
| ui_step_handle ev a a' : handle startRendering ev a = Some a' -> ui_step a a'.

(** The states of the page after [boot]. *)
Definition ui_reachable (env : InitEnv) (page : Page) (a : App) : Prop :=
  exists a0, boot env page = Some a0 /\ rtc ui_step a0 a.

End Runs.

Lemma onStepPlay_tick w : onStepPlay (eng (tick w)) = onStepPlay (eng w).
Proof. by destruct (tick_frame w) as (_ & _ & _ & _ & _ & -> & _). Qed.

(** No engine operation detaches the [onStepPlay] observer. *)
Lemma exec_keeps_observer o w w' :
  exec o w = Some w' -> onStepPlay (eng w) = true -> onStepPlay (eng w') = true.
Proof.
  intros H Ho. destruct o; cbn [exec] in H.
  all: try (destruct (timers w !! id); [injection H as <-; by rewrite onStepPlay_tick|done]).
  all: unfold setMaster, setTrackParam, setTrackStepCount, setTrackSound, toggleStep,
      playSound, clearAll, startRecording, stopRecording, attachObserver, run_wa, set_ctx,
      set_track, setBPM, play, stop, setInterval, clearInterval in *;
    repeat (case_match; simplify_eq/=); simplify_eq/=; done.
Qed.

Lemma rtc_keeps_observer w w' :
  rtc step w w' -> onStepPlay (eng w) = true -> onStepPlay (eng w') = true.
Proof. induction 1 as [|x y z [o ? ? Hx] _ IH]; [done|]. intros Ho. apply IH. by eapply exec_keeps_observer. Qed.

Section Reachable.
Variable startRendering : OfflineRender -> option AudioBuffer.

(** Every state the page reaches satisfies the view invariant, its
    engine is a reachable state of the engine, and the sequencer's
    observer is attached. *)
Lemma ui_reachable_facts env page a :
  ui_reachable startRendering env page a ->
  view_inv a /\ reachable env (world a) /\ onStepPlay (eng (world a)) = true.
Proof.
  intros (a0 & Hb & Hr). destruct (boot_ok env page) as (a1 & Hb1 & Hv1 & Hw1 & _).
  rewrite Hb1 in Hb. injection Hb as <-.
  assert (Hr0 : reachable env (world a1)).
  { rewrite Hw1. apply rtc_once. by apply (step_exec OAttachObserver). }
  assert (Ho0 : onStepPlay (eng (world a1)) = true) by (rewrite Hw1; done).
  clear Hb1 Hw1. induction Hr as [a|a b c [ev ? ? He] _ IH].
  - done.
  - apply IH.
    + by eapply handle_view_inv.
    + unfold reachable in *. etrans; [exact Hr0|]. by eapply handle_engine_steps.
    + eapply rtc_keeps_observer; [|exact Ho0]. by eapply handle_engine_steps.
Qed.

End Reachable.

(** ** The browser *)

(** Only the settling of an export touches the browser, through
    [downloadAudio], which keeps it well formed. *)
Lemma onExportSettled_browser startRendering a a' :
  onExportSettled startRendering a = Some a' -> browser_wf (browser a) -> browser_wf (browser a').
Proof.
  intros H Hwf. unfold onExportSettled in H. destruct (rendering a) as [r|]; [|done].
  cbn [mbind option_bind] in H. apply (inj Some) in H. subst a'. cbn [browser set_export].
  destruct (startRendering r); [apply (downloadAudio_js_saved _ _ Hwf)|exact Hwf].
Qed.

Lemma handle_browser_wf startRendering ev a a' :
  handle startRendering ev a = Some a' -> browser_wf (browser a) -> browser_wf (browser a').
Proof.
  intros H Hwf. destruct ev; cbn [handle] in H.
  all: first
    [ by eapply onExportSettled_browser
    | enough (browser a' = browser a) as -> by done;
      unfold onPlayClick, onStopClick, onExportClick, onKeyDown, onSoundItemClick,
        onItemDragStart, onItemDragEnd, onDragClass, onDrop, onTrackInput, onMasterInput,
        onTimeout, onTick in H; opt_cases; app_simpl; done ].
Qed.

Lemma ui_reachable_browser startRendering env page a :
  ui_reachable startRendering env page a -> browser_wf (pageBrowser page) -> browser_wf (browser a).
Proof.
  intros (a0 & Hb & Hr) Hwf. destruct (boot_ok env page) as (a1 & Hb1 & _ & _ & _ & _ & _ & _ & Hbr).
  rewrite Hb1 in Hb. injection Hb as <-. rewrite <- Hbr in Hwf. clear Hb1 Hbr.
  induction Hr as [a|a b c [ev ? ? He] _ IH]; [done|]. apply IH. by eapply handle_browser_wf.
Qed.

(** ** The play button's label *)

Definition label_inv (a : App) : Prop :=
  pbText (playBtn a) = if isPlaying (eng (world a)) then "PAUSE"%string else "PLAY"%string.

Lemma isPlaying_setTrackSound i s w : isPlaying (eng (setTrackSound i s w)) = isPlaying (eng w).
Proof. apply setTrackSound_tracks. Qed.

Lemma isPlaying_setTrackParam p i v w : isPlaying (eng (setTrackParam p i v w)) = isPlaying (eng w).
Proof. unfold setTrackParam, run_wa. by repeat case_match; simplify_eq. Qed.

Lemma isPlaying_setTrackStepCount_js i n w w' :
  Sequencer.setTrackStepCount_js i n w = Some w' -> isPlaying (eng w') = isPlaying (eng w).
Proof.
  unfold Sequencer.setTrackStepCount_js. intros H.
  destruct i as [i|]; [|by simplify_eq]. destruct (getTrackData w i) eqn:E; [|by simplify_eq].
  destruct n as [n|]; [|done]. cbn in H. case_guard; simplify_eq/=.
  apply (setTrackStepCount_tracks i (Z.to_nat n) w t E).
Qed.

Lemma isPlaying_toggleStep_pair i s w b w' :
  toggleStep i s w = (b, w') -> isPlaying (eng w') = isPlaying (eng w).
Proof. intros H. pose proof (isPlaying_toggleStep i s w) as E. by rewrite H in E. Qed.

Lemma updatePlayButton_text b pb :
  pbText (updatePlayButton b pb) = if b then "PAUSE"%string else "PLAY"%string.
Proof. by destruct b. Qed.

Section Label.
Variable startRendering : OfflineRender -> option AudioBuffer.

Lemma label_inv_ext a a' :
  playBtn a' = playBtn a -> isPlaying (eng (world a')) = isPlaying (eng (world a)) ->
  label_inv a -> label_inv a'.
Proof. unfold label_inv. intros -> ->. done. Qed.

Lemma handle_label ev a a' : label_inv a -> handle startRendering ev a = Some a' -> label_inv a'.
Proof.
  intros Hl. destruct ev; cbn [handle]; intros H.
  - injection H as <-. unfold label_inv, onPlayClick. case_match; app_simpl;
      rewrite updatePlayButton_text; [by rewrite isPlaying_stop|by rewrite isPlaying_play].
  - injection H as <-. unfold label_inv, onStopClick. app_simpl.
    by rewrite updatePlayButton_text, isPlaying_stop.
  - destruct (Sequencer.clearAll _ _) as [w rs] eqn:E. injection H as <-. injection E as <- <-.
    apply (label_inv_ext a); [done|apply clearAll_tracks|done].
  - destruct (parseInt value); [|done]. injection H as <-.
    apply (label_inv_ext a); [done|apply frame_setBPM|done].
  - injection H as <-. apply (label_inv_ext a); [| |done]; unfold onExportClick;
      by repeat case_match.
  - unfold onExportSettled in H. destruct (rendering a); [|done]. apply (inj Some) in H. subst a'.
    by apply (label_inv_ext a).
  - injection H as <-. unfold onKeyDown. case_match; [|done]. unfold label_inv.
    case_match; app_simpl; rewrite updatePlayButton_text;
      [by rewrite isPlaying_stop|by rewrite isPlaying_play].
  - unfold onSoundItemClick in H. destruct (items a !! item); cbn in H; [|done].
    destruct (playSound _ _) as [ok w] eqn:E.
    destruct ok; injection H as <-; (apply (label_inv_ext a); [done| |done]);
      apply (frame_playSound _ _ _ _ E).
  - unfold onItemDragStart in H. destruct (items a !! item); cbn in H; [|done].
    injection H as <-. by apply (label_inv_ext a).
  - unfold onItemDragEnd in H. destruct (items a !! item); cbn in H; [|done].
    injection H as <-. by apply (label_inv_ext a).
  - destruct (Sequencer.click_step _ _ _ _ _) as [[w rs]|] eqn:E; [|done]. injection H as <-.
    apply (label_inv_ext a); [done| |done]. unfold Sequencer.click_step in E. opt_cases; try done.
    by eapply isPlaying_toggleStep_pair.
  - destruct (Sequencer.onSoundChange _ _ _ _) as [[w rs]|] eqn:E; [|done]. injection H as <-.
    apply (label_inv_ext a); [done| |done]. unfold Sequencer.onSoundChange in E.
    opt_cases; try done. apply isPlaying_setTrackSound.
  - destruct (Sequencer.onStepCountChange _ _ _ _) as [[w rs]|] eqn:E; [|done]. injection H as <-.
    apply (label_inv_ext a); [done| |done]. unfold Sequencer.onStepCountChange in E.
    opt_cases; try done. by eapply setTrackStepCount_tracks.
  - unfold onDragClass in H. opt_cases. by apply (label_inv_ext a).
  - unfold onDragClass in H. opt_cases. by apply (label_inv_ext a).
  - unfold onDrop in H. opt_cases; apply (label_inv_ext a); try done. apply isPlaying_setTrackSound.
  - unfold onTrackInput in H. opt_cases; apply (label_inv_ext a); try done.
    apply isPlaying_setTrackParam.
  - injection H as <-. unfold onMasterInput. repeat case_match; try done.
    apply (label_inv_ext a); [done| |done]. apply (frame_setMaster _ _ _ _ H0).
  - unfold onTimeout in H. opt_cases; by apply (label_inv_ext a).
  - unfold onTick in H. opt_cases; (apply (label_inv_ext a); [done| |done]); apply frame_tick.
  - opt_cases. by apply (label_inv_ext a).
Qed.
End Label.

(** ** The playing highlight *)

Lemma mark_first_in_none p c bs :
  (forall k b, bs !! k = Some b -> p b = false) -> mark_first_in p c bs = None.
Proof.
  induction bs as [|b bs IH]; intros H; [done|]. cbn.
  rewrite (H 0%nat b eq_refl). rewrite IH; [done|]. intros k b' Hk. apply (H (S k)). done.
Qed.

Lemma mark_first_in_at p c bs m b :
  bs !! m = Some b -> p b = true -> (forall k b', (k < m)%nat -> bs !! k = Some b' -> p b' = false) ->
  mark_first_in p c bs = Some (<[m := with_btn_classes (cl_add c (btnClasses b)) b]> bs).
Proof.
  revert m. induction bs as [|b0 bs IH]; intros m Hm Hp Hb; [done|].
  destruct m as [|m]; cbn in Hm |- *.
  - injection Hm as ->. by rewrite Hp.
  - rewrite (Hb 0%nat b0); [|lia|done]. rewrite (IH m Hm Hp); [done|].
    intros k b' Hk Hk'. apply (Hb (S k)); [lia|done].
Qed.

(** [mark_first] adds the class to the first button satisfying [p], read
    across the measure groups. *)
Lemma mark_first_concat p c gs m b :
  concat gs !! m = Some b -> p b = true ->
  (forall k b', (k < m)%nat -> concat gs !! k = Some b' -> p b' = false) ->
  concat (mark_first p c gs) = <[m := with_btn_classes (cl_add c (btnClasses b)) b]> (concat gs).
Proof.
  revert m. induction gs as [|g gs IH]; intros m Hm Hp Hb; [done|].
  change (concat (g :: gs)) with (g ++ concat gs) in *. cbn [mark_first].
  destruct (decide (m < length g)%nat) as [Hlt|Hge].
  - rewrite lookup_app_l in Hm by done.
    rewrite (mark_first_in_at p c g m b Hm Hp).
    + cbn [concat]. by rewrite insert_app_l.
    + intros k b' Hk Hk'. apply (Hb k); [done|]. rewrite lookup_app_l; [done|lia].
  - rewrite lookup_app_r in Hm by lia.
    rewrite mark_first_in_none.
    + cbn [concat]. rewrite (IH (m - length g)%nat Hm Hp).
      * rewrite insert_app_r_alt by lia. done.
      * intros k b' Hk Hk'. apply (Hb (length g + k)); [lia|]. rewrite lookup_app_r by lia.
        by rewrite Nat.add_sub'.
    + intros k b' Hk. apply (Hb k); [apply lookup_lt_Some in Hk; lia|].
      rewrite lookup_app_l; [done|]. by eapply lookup_lt_Some.
Qed.

Lemma eng_run_wa {A} (m : WA A) w : eng (run_wa m w).2 = eng w.
Proof. unfold run_wa. by destruct (m (ctx w)). Qed.

Lemma eng_playStep w : eng (playStep w).2 = eng w.
Proof. unfold playStep, run_wa. by destruct (trigger_tracks _ _ _ _) as [[] c]. Qed.

Lemma step_count_pos t : _stepCount t ∈ SequencerRenderer.stepCountChoices -> _stepCount t <> 0%nat.
Proof.
  unfold SequencerRenderer.stepCountChoices. rewrite !elem_of_cons, elem_of_nil. lia.
Qed.

(** What a tick does to row [i]: the [playing] class on exactly the
    button of step [g mod stepCount], [g] the step the engine plays. *)
Lemma indicate_row_spec w g i t r :
  tracks (eng w) !! i = Some t -> row_ok i t r ->
  length (concat (rowSteps (Sequencer.indicate_row w g r))) = _stepCount t /\
  (forall k b, concat (rowSteps (Sequencer.indicate_row w g r)) !! k = Some b ->
     btnStep b = js_string_of_nat k /\
     cl_has "playing" (btnClasses b) = bool_decide (k = g mod _stepCount t) /\
     cl_has "active" (btnClasses b) = js_get (steps t) (Z.of_nat k)).
Proof.
  intros Ht Hrow. destruct Hrow as [Htr _ _ _ _ _ [Hl Hb] Hc].
  pose proof (step_count_pos t Hc) as Hn.
  unfold Sequencer.indicate_row. rewrite Htr, parseInt_string_of_nat. cbn [mbind option_bind].
  unfold getTrackData. rewrite (track_at_of_nat _ _ _ Ht).
  set (key := match _stepCount t with O => "NaN"%string | S n' => js_string_of_nat (g mod S n') end).
  assert (Hkey : key = js_string_of_nat (g mod _stepCount t))
    by (unfold key; by destruct (_stepCount t)).
  clearbody key. subst key.
  set (clr := fun b => with_btn_classes (cl_remove "playing" (btnClasses b)) b).
  set (n := _stepCount t) in *.
  assert (Hm : (g mod n < n)%nat) by (apply Nat.mod_upper_bound; done).
  destruct (lookup_lt_is_Some_2 (concat (rowSteps r)) (g mod n)) as [b0 Hb0]; [lia|].
  cbn [with_row_steps rowSteps].
  rewrite (mark_first_concat _ _ _ (g mod n) (clr b0)).
  - split; [by rewrite length_insert, concat_map_map, length_map|].
    intros k b. rewrite list_lookup_insert, concat_map_map, length_map, lookup_map_list. case_decide as E.
    + destruct E as [<- _]. intros [= <-]. destruct (Hb _ _ Hb0) as (? & _ & ?).
      cbn. rewrite cl_has_add, cl_has_remove, !bool_decide_true by done. split; [done|].
      split; [done|]. rewrite cl_has_add, cl_has_remove. by rewrite !bool_decide_false.
    + destruct (concat (rowSteps r) !! k) as [b1|] eqn:Hk; [|done]. intros [= <-].
      destruct (Hb _ _ Hk) as (? & _ & ?). cbn. rewrite cl_has_remove, bool_decide_true by done.
      split; [done|]. split.
      * rewrite bool_decide_false; [done|]. intros ->. apply E. split; [done|]. lia.
      * rewrite cl_has_remove, bool_decide_false; done.
  - rewrite concat_map_map, lookup_map_list, Hb0. done.
  - destruct (Hb _ _ Hb0) as (Hs & _). cbn. by rewrite bool_decide_true.
  - intros k b Hk. rewrite concat_map_map, lookup_map_list.
    destruct (concat (rowSteps r) !! k) as [b1|] eqn:Hk1; [|done]. intros [= <-].
    destruct (Hb _ _ Hk1) as (Hs & _). cbn. rewrite Hs. apply bool_decide_false.
    intros E. apply js_string_of_nat_inj in E. lia.
Qed.

Lemma view_step_count a i t :
  view_inv a -> tracks (eng (world a)) !! i = Some t ->
  _stepCount t ∈ SequencerRenderer.stepCountChoices.
Proof.
  intros Hv Ht. destruct (lookup_lt_is_Some_2 (rows a) i) as [r Hri].
  { rewrite (vi_rows_len _ Hv). by eapply lookup_lt_Some. }
  exact (ro_count _ _ _ (vi_rows _ Hv i t r Ht Hri)).
Qed.

Lemma step_count_le t : _stepCount t ∈ SequencerRenderer.stepCountChoices -> (_stepCount t <= 16)%nat.
Proof.
  unfold SequencerRenderer.stepCountChoices. rewrite !elem_of_cons, elem_of_nil. lia.
Qed.

(** From any step [g0] of the measure, step [k] is [j] ticks away. *)
Lemma measure_reach g0 k :
  (g0 < 16)%nat -> (k < 16)%nat -> ((g0 + (k + 16 - g0) mod 16) mod 16 = k)%nat.
Proof.
  intros Hg Hk. rewrite Nat.Div0.add_mod_idemp_r by done.
  replace (g0 + (k + 16 - g0))%nat with (k + 1 * 16)%nat by lia.
  rewrite Nat.Div0.mod_add. by apply Nat.mod_small.
Qed.

Section Ticks.
Variable startRendering : OfflineRender -> option AudioBuffer.

(** A tick of the page: the engine's tick, and, when no voice threw,
    the indicators of the step [playStep] reported. *)
Lemma onTick_spec a a' id :
  onStepPlay (eng (world a)) = true -> handle startRendering (ETick id) a = Some a' ->
  world a' = tick (world a) /\
  rows a' = if (playStep (world a)).1
            then map (Sequencer.indicate_row (playStep (world a)).2 (currentStep (eng (world a))))
                   (rows a)
            else rows a.
Proof.
  intros Ho H. cbn [handle] in H. unfold onTick in H.
  destruct (exec (OTick id) (world a)) as [w'|] eqn:E; [|done]. cbn in E.
  destruct (timers (world a) !! id); [|done]. injection E as <-. cbn [mbind option_bind] in H.
  pose proof (eng_playStep (world a)) as He.
  destruct (playStep (world a)) as [ok mid]. cbn in He |- *. injection H as <-.
  rewrite Ho, He. destruct ok; split; reflexivity.
Qed.

Lemma tick_enabled env w id :
  reachable env w -> intervalId (eng w) = Some id -> exists q, timers w !! id = Some q.
Proof.
  intros Hr Hi. destruct (reachable_inv env w Hr) as [[_ _ _ Hc] _]. rewrite Hi in Hc.
  destruct Hc as (_ & _ & ->). eexists. apply lookup_singleton_eq.
Qed.

(** [n] interval callbacks in a row. *)
Fixpoint tick_run (id : nat) (n : nat) (a : App) : option App :=
  match n with
  | O => Some a
  | S n' => a1 ← handle startRendering (ETick id) a; tick_run id n' a1
  end.

Lemma tick_run_snoc id j a :
  tick_run id (S j) a = tick_run id j a ≫= handle startRendering (ETick id).
Proof.
  revert a. induction j as [|j IH]; intros a; cbn [tick_run mbind option_bind].
  - by destruct (handle startRendering (ETick id) a).
  - destruct (handle startRendering (ETick id) a) as [a1|]; [|done]. apply IH.
Qed.

Lemma ui_reachable_step env page a a' :
  ui_reachable startRendering env page a -> ui_step startRendering a a' ->
  ui_reachable startRendering env page a'.
Proof. intros (a0 & Hb & Hr) Hs. exists a0. split; [done|]. by eapply rtc_r. Qed.

(** While the interval [id] runs, its callback always finds its timer. *)
Lemma tick_handle_some env a id :
  reachable env (world a) -> intervalId (eng (world a)) = Some id ->
  exists a', handle startRendering (ETick id) a = Some a'.
Proof.
  intros Hr Hi. destruct (tick_enabled env _ id Hr Hi) as [q Hq].
  cbn [handle]. unfold onTick. cbn [exec]. rewrite Hq. cbn [mbind option_bind].
  destruct (playStep (world a)). by eexists.
Qed.

(** [j] ticks of a running interval whose tracks' sounds are not names
    of [Object.prototype] members: each one is enabled, and they advance
    the step index by [j] in the measure of 16 and keep the pattern and
    the interval. *)
Lemma tick_run_spec env page id j a :
  ui_reachable startRendering env page a -> intervalId (eng (world a)) = Some id ->
  Forall (fun t => inherited_name (Track.sound t) = false) (tracks (eng (world a))) ->
  exists a', tick_run id j a = Some a' /\ ui_reachable startRendering env page a' /\
    intervalId (eng (world a')) = Some id /\ tracks (eng (world a')) = tracks (eng (world a)) /\
    currentStep (eng (world a')) = ((currentStep (eng (world a)) + j) mod 16)%nat.
Proof.
  revert a. induction j as [|j IH]; intros a Hr Hi HF.
  - exists a. destruct (ui_reachable_facts _ _ _ _ Hr) as (_ & Hrw & _).
    destruct (reachable_inv env _ Hrw) as [Hc _].
    rewrite Nat.add_0_r, Nat.mod_small by apply (ci_step _ Hc). done.
  - destruct (ui_reachable_facts _ _ _ _ Hr) as (_ & Hrw & Ho).
    destruct (reachable_inv env _ Hrw) as [Hc _].
    destruct (tick_handle_some env a id Hrw Hi) as [a1 H1].
    destruct (onTick_spec _ _ _ Ho H1) as [Hw1 _].
    pose proof (playStep_ok (world a) (reachable_time env _ Hrw) HF) as Hok.
    destruct (tick_frame (world a)) as (Htr & _ & Hid & _).
    destruct (tick_fields (world a) Hok) as [Hcs _].
    destruct (IH a1) as (a' & Hrun & Hr' & Hi' & Ht' & Hs').
    { eapply ui_reachable_step; [exact Hr|]. by econstructor. }
    { by rewrite Hw1, Hid. }
    { by rewrite Hw1, Htr. }
    exists a'. cbn [tick_run]. rewrite H1. cbn [mbind option_bind].
    rewrite Ht', Hs', Hw1, Htr, Hcs, (ci_count _ Hc), Nat.Div0.add_mod_idemp_l by done.
    repeat split; try done. f_equal. lia.
Qed.

End Ticks.

(** ** Properties of the page *)

(** C10: (refinement, composition) the page drives the engine only
    through its public operations: every step of the page (a listener
    run, a timer, the audio clock) moves the engine by a sequence of
    [Engine.step]s, so the engine of every state the page reaches is a
    reachable engine state (and every theorem about [Engine.reachable]
    holds of it), and the sequencer's [onStepPlay] observer stays
    attached. *)
Theorem ui_drives_engine startRendering env page a a' :
  ui_reachable startRendering env page a -> ui_step startRendering a a' ->
  reachable env (world a) /\ rtc step (world a) (world a') /\ onStepPlay (eng (world a')) = true.
Proof.
  intros Hr Hst. inversion Hst as [ev b b' He]; subst b b'.
  destruct (ui_reachable_facts _ _ _ _ Hr) as (_ & Hw & Ho).
  pose proof (handle_engine_steps _ _ _ _ He) as Hs.
  split; [done|]. split; [done|]. exact (rtc_keeps_observer _ _ Hs Ho).
Qed.

(** C11: (invariant) in every state the page reaches, the row of each
    track shows exactly the track's pattern: one button per step, in
    order, button [k] carrying [data-step = k], a click listener for
    this track, and the class [active] exactly when step [k] is on. *)
Theorem ui_view_mirrors_pattern startRendering env page a i t :
  ui_reachable startRendering env page a -> tracks (eng (world a)) !! i = Some t ->
  exists r, rows a !! i = Some r /\ length (concat (rowSteps r)) = _stepCount t /\
    forall k b, concat (rowSteps r) !! k = Some b ->
      btnStep b = js_string_of_nat k /\ btnListener b = Some (Z.of_nat i) /\
      cl_has "active" (btnClasses b) = js_get (steps t) (Z.of_nat k).
Proof.
  intros Hr Ht. destruct (ui_reachable_facts _ _ _ _ Hr) as (Hv & _).
  destruct (lookup_lt_is_Some_2 (rows a) i) as [r Hri].
  { rewrite (vi_rows_len _ Hv). by eapply lookup_lt_Some. }
  destruct (ro_buttons _ _ _ (vi_rows _ Hv i t r Ht Hri)) as [Hl Hb]. by exists r.
Qed.

(** C17: (type) through the page, a track's step count is always one of
    the choices of its selector, 4, 8 or 16: the step-count selector
    offers only these, and nothing else of the page sets it. *)
Theorem ui_step_counts startRendering env page a :
  ui_reachable startRendering env page a ->
  Forall (fun t => _stepCount t ∈ SequencerRenderer.stepCountChoices) (tracks (eng (world a))).
Proof.
  intros Hr. destruct (ui_reachable_facts _ _ _ _ Hr) as (Hv & _).
  apply Forall_lookup. intros i t Ht. by eapply view_step_count.
Qed.

(** Every parameter has its input in a channel. *)
Lemma chan_param i t c p :
  chan_ok i t c -> exists ri, chInputs c !! (match p with TVolume => 0 | TPan => 1
    | TReverbAmount => 2 | TEqLow => 3 | TEqHigh => 4 end)%nat = Some ri /\ input_ok t ri /\
    input_param (riControl ri) = Some p.
Proof.
  intros [_ _ Hm Hi].
  set (j := (match p with TVolume => 0 | TPan => 1 | TReverbAmount => 2 | TEqLow => 3
             | TEqHigh => 4 end)%nat).
  destruct (lookup_lt_is_Some_2 (chInputs c) j) as [ri Hri].
  { pose proof (f_equal length Hm) as E. rewrite length_map in E. rewrite E. unfold j. destruct p; cbn; lia. }
  exists ri. split; [done|]. split; [exact (proj1 (Forall_lookup _ _) Hi j ri Hri)|].
  rewrite (input_param_control _ _ _ Hm Hri). unfold j. by destruct p.
Qed.

(** C21: (bounds) in every state the page reaches, each mixing parameter
    of each track lies within the range of its slider (volume and reverb
    send in [0, 1], pan in [-1, 1], the EQ gains in [-12, 12] dB), which
    the specification asks the setters to enforce and which the page
    enforces instead, and each input of the track's channel shows the
    parameter it drives. *)
Theorem ui_mixer_bounds startRendering env page a i t :
  ui_reachable startRendering env page a -> tracks (eng (world a)) !! i = Some t ->
  (forall p, let '(mn, mx, _) := param_range p in (mn <= tparam p t <= mx)%Q) /\
  exists c, channels a !! i = Some c /\
    Forall (fun ri => exists p, input_param (riControl ri) = Some p /\ (riValue ri == tparam p t)%Q)
      (chInputs c).
Proof.
  intros Hr Ht. destruct (ui_reachable_facts _ _ _ _ Hr) as (Hv & _).
  destruct (lookup_lt_is_Some_2 (channels a) i) as [c Hci].
  { rewrite (vi_chans_len _ Hv). by eapply lookup_lt_Some. }
  pose proof (vi_chans _ Hv i t c Ht Hci) as Hc. split.
  - intros p. destruct (chan_param i t c p Hc) as (ri & _ & (p' & Hp' & Hrange & Hval & Hb) & Hp).
    rewrite Hp in Hp'. injection Hp' as <-. rewrite <- Hrange. lra.
  - exists c. split; [done|]. eapply Forall_impl; [apply (co_inputs _ _ _ Hc)|].
    intros ri (p & Hp & _ & Hval & _). by exists p.
Qed.

Lemma init_stopped env : isPlaying (eng (init env initial_world)) = false.
Proof. destruct env as [[] sr [b|]]; vm_compute; reflexivity. Qed.

(** C20: (invariant) when the page loads with the play button reading
    [PLAY], the button reads [PAUSE] exactly while the clock runs, in
    every state the page reaches: the play button, the stop button and
    the space key each update it with the clock, and nothing else starts
    or stops the clock ([setBPM] restarts a running clock). *)
Theorem ui_play_label startRendering env page a :
  pbText (pagePlay page) = "PLAY"%string -> ui_reachable startRendering env page a ->
  pbText (playBtn a) = if isPlaying (eng (world a)) then "PAUSE"%string else "PLAY"%string.
Proof.
  intros Hp (a0 & Hb & Hr). destruct (boot_ok env page) as (a1 & Hb1 & _ & Hw1 & Hpb & _).
  rewrite Hb1 in Hb. injection Hb as <-.
  enough (H : label_inv a) by exact H.
  assert (H0 : label_inv a1).
  { unfold label_inv. rewrite Hpb, Hw1, Hp. cbn. by rewrite init_stopped. }
  clear Hb1 Hw1 Hpb. induction Hr as [a|a b c [ev ? ? He] _ IH]; [done|].
  apply IH. by eapply handle_label.
Qed.

(** The row of track [i] after a tick in which no voice threw, from a
    state satisfying the view invariant with the observer attached. *)
Lemma tick_row startRendering a a' id i t :
  view_inv a -> onStepPlay (eng (world a)) = true -> (playStep (world a)).1 = true ->
  handle startRendering (ETick id) a = Some a' -> tracks (eng (world a)) !! i = Some t ->
  let g := currentStep (eng (world a)) in
  exists r, rows a' !! i = Some r /\ length (concat (rowSteps r)) = _stepCount t /\
    forall k b, concat (rowSteps r) !! k = Some b ->
      cl_has "playing" (btnClasses b) = bool_decide (k = g mod _stepCount t) /\
      cl_has "active" (btnClasses b) = js_get (steps t) (Z.of_nat k).
Proof.
  intros Hv Ho Hok H Ht g. destruct (onTick_spec _ _ _ _ Ho H) as [_ Hrows].
  rewrite Hok in Hrows.
  destruct (lookup_lt_is_Some_2 (rows a) i) as [r Hri].
  { rewrite (vi_rows_len _ Hv). by eapply lookup_lt_Some. }
  pose proof (vi_rows _ Hv i t r Ht Hri) as Hrow.
  assert (Ht' : tracks (eng (playStep (world a)).2) !! i = Some t) by by rewrite eng_playStep.
  destruct (indicate_row_spec _ g _ _ _ Ht' Hrow) as [Hl Hb].
  exists (Sequencer.indicate_row (playStep (world a)).2 g r).
  split; [by rewrite Hrows, lookup_map_list, Hri|]. split; [done|].
  intros k b Hk. by destruct (Hb k b Hk) as (_ & ? & ?).
Qed.

(** C12: (functional, composition with the clock) after an interval tick in a
    state the page reaches whose tracks' sounds are not names of
    [Object.prototype] members (so no voice throws), every row
    highlights exactly one button, the one of step [g mod stepCount]
    where [g] is the step the engine just played and reported to
    [onStepPlay]; that button is [active] exactly when the engine
    triggered the track's voice ([step_at t g]). *)
Theorem ui_tick_highlight startRendering env page a a' id i t :
  ui_reachable startRendering env page a ->
  Forall (fun t => inherited_name (Track.sound t) = false) (tracks (eng (world a))) ->
  handle startRendering (ETick id) a = Some a' ->
  tracks (eng (world a)) !! i = Some t ->
  let g := currentStep (eng (world a)) in
  notified (world a') = notified (world a) ++ [g] /\
  exists r, rows a' !! i = Some r /\ length (concat (rowSteps r)) = _stepCount t /\
    (forall k b, concat (rowSteps r) !! k = Some b ->
       cl_has "playing" (btnClasses b) = bool_decide (k = g mod _stepCount t)) /\
    exists b, concat (rowSteps r) !! (g mod _stepCount t)%nat = Some b /\
      cl_has "playing" (btnClasses b) = true /\ cl_has "active" (btnClasses b) = step_at t g.
Proof.
  intros Hr HF H Ht g. destruct (ui_reachable_facts _ _ _ _ Hr) as (Hv & Hrw & Ho).
  pose proof (playStep_ok (world a) (reachable_time env _ Hrw) HF) as Hok.
  destruct (onTick_spec _ _ _ _ Ho H) as [Hw _].
  split; [rewrite Hw; destruct (tick_fields (world a) Hok) as [_ ->]; by rewrite Ho|].
  destruct (tick_row _ _ _ _ _ _ Hv Ho Hok H Ht) as (r & Hri & Hl & Hb).
  exists r. split; [done|]. split; [done|]. split; [intros k b Hk; apply (Hb k b Hk)|].
  destruct (lookup_lt_is_Some_2 (rows a) i) as [r0 Hr0].
  { rewrite (vi_rows_len _ Hv). by eapply lookup_lt_Some. }
  pose proof (step_count_pos t (ro_count _ _ _ (vi_rows _ Hv i t r0 Ht Hr0))) as Hn.
  destruct (lookup_lt_is_Some_2 (concat (rowSteps r)) (g mod _stepCount t)) as [b Hbk].
  { rewrite Hl. by apply Nat.mod_upper_bound. }
  exists b. split; [done|]. destruct (Hb _ _ Hbk) as (Hpl & Hac).
  rewrite Hpl, bool_decide_true by done. split; [done|]. rewrite Hac. unfold step_at.
  by destruct (_stepCount t).
Qed.

(** C13: (liveness) while the sequencer plays tracks whose sounds are not
    names of [Object.prototype] members, every step of every track is
    highlighted within one measure: from any state the page reaches with
    the transport running, for each step [k] of track [i] there is a
    number of interval callbacks [j + 1 <= 16] after which the row's
    button of step [k] carries the [playing] class. *)
Theorem ui_highlight_liveness startRendering env page a i t k :
  ui_reachable startRendering env page a -> isPlaying (eng (world a)) = true ->
  Forall (fun t => inherited_name (Track.sound t) = false) (tracks (eng (world a))) ->
  tracks (eng (world a)) !! i = Some t -> (k < _stepCount t)%nat ->
  exists id j a' r b, intervalId (eng (world a)) = Some id /\ (j < 16)%nat /\
    tick_run startRendering id (S j) a = Some a' /\ rows a' !! i = Some r /\
    concat (rowSteps r) !! k = Some b /\ cl_has "playing" (btnClasses b) = true.
Proof.
  intros Hr Hp HF Ht Hk. destruct (ui_reachable_facts _ _ _ _ Hr) as (Hv & Hrw & _).
  destruct (reachable_inv env _ Hrw) as [Hc _]. pose proof (ci_timer _ Hc) as Hti.
  destruct (intervalId (eng (world a))) as [id|] eqn:Hid; [|destruct Hti; congruence].
  pose proof (step_count_le t (view_step_count _ _ _ Hv Ht)) as Hn.
  set (j := ((k + 16 - currentStep (eng (world a))) mod 16)%nat).
  destruct (tick_run_spec startRendering env page id j a Hr Hid HF)
    as (aj & Hrun & Hrj & Hij & Htj & Hsj).
  destruct (ui_reachable_facts _ _ _ _ Hrj) as (Hvj & Hrwj & Hoj).
  destruct (tick_handle_some startRendering env aj id Hrwj Hij) as [a' Ha'].
  rewrite <- Htj in Ht, HF.
  pose proof (playStep_ok (world aj) (reachable_time env _ Hrwj) HF) as Hok.
  destruct (tick_row _ _ _ _ _ _ Hvj Hoj Hok Ha' Ht) as (r & Hri & Hl & Hb).
  destruct (lookup_lt_is_Some_2 (concat (rowSteps r)) k) as [b Hbk]; [lia|].
  exists id, j, a', r, b. split; [done|]. split; [by apply Nat.mod_upper_bound|].
  split; [by rewrite tick_run_snoc, Hrun|]. do 2 (split; [done|]).
  destruct (Hb k b Hbk) as [-> _]. apply bool_decide_eq_true.
  rewrite Hsj. unfold j. rewrite measure_reach by (apply (ci_step _ Hc) || lia). symmetry. by apply Nat.mod_small.
Qed.

(** C14: (error) the export button's feedback: a click on the enabled
    button disables it and leaves the engine as it was.  When
    [exportBeat()] throws before rendering, the label reads [FAILED] and
    the reset is scheduled.  Otherwise the label reads [EXPORTING...], a
    second click does nothing, and when the rendering settles the label
    reads [EXPORTED!] and the browser has saved [beat.wav], of type
    [audio/wav], holding the bytes of [Export.exportBeat_file], whatever
    the rendering's outcome: a rendering that fails saves nothing and
    still reports success. *)
Theorem ui_export_feedback startRendering env page a :
  ui_reachable startRendering env page a -> browser_wf (pageBrowser page) ->
  ebDisabled (exportBtn a) = false ->
  exists a1, handle startRendering EExportClick a = Some a1 /\ world a1 = world a /\
    ebDisabled (exportBtn a1) = true /\
    match exportBeat (world a) with
    | None => ebText (exportBtn a1) = "FAILED"%string /\ rendering a1 = None /\
              pending a1 = pending a ++ [TExportReset false] /\ browser a1 = browser a
    | Some r =>
        ebText (exportBtn a1) = "EXPORTING..."%string /\ rendering a1 = Some r /\
        handle startRendering EExportClick a1 = Some a1 /\
        exists a2 file, handle startRendering EExportSettled a1 = Some a2 /\
          exportBeat_file startRendering (world a) = Some file /\
          ebText (exportBtn a2) = "EXPORTED!"%string /\ world a2 = world a /\
          saved (browser a2) = saved (browser a) ++ option_list (wav_file <$> file) /\
          pending a2 = pending a ++ [TExportReset true]
    end.
Proof.
  intros Hr Hpb Hd. pose proof (ui_reachable_browser _ _ _ _ Hr Hpb) as Hwf.
  cbn [handle]. unfold onExportClick. rewrite Hd.
  unfold exportBeat_file. destruct (exportBeat (world a)) as [r|]; eexists; (split; [reflexivity|]).
  - cbn. do 5 (split; [done|]). eexists _, _. split; [reflexivity|].
    split; [reflexivity|]. do 2 (split; [done|]). split; [|done]. cbn.
    destruct (startRendering r) as [buf|]; cbn.
    + apply (downloadAudio_js_saved buf _ Hwf).
    + by rewrite app_nil_r.
  - done.
Qed.

(** [select.value = v] then [select.value]: [v] when an option has that
    value, the empty string otherwise. *)
Lemma select_value_set v s :
  select_value (select_set_value v s) =
    if bool_decide (v ∈ map optValue (selOptions s)) then v else EmptyString.
Proof.
  unfold select_set_value.
  destruct (list_find (fun o => optValue o = v) (selOptions s)) as [[j o]|] eqn:E;
    cbn [fmap option_fmap option_map fst].
  - apply list_find_Some in E as (Hj & Hv & _).
    rewrite bool_decide_true by (apply list_elem_of_In, in_map_iff; exists o;
                                 split; [done|apply list_elem_of_In; by eapply list_elem_of_lookup_2]).
    rewrite <- Hv, <- (select_value_choose _ _ _ Hj). unfold select_choose. do 2 f_equal.
    apply imap_ext. intros i x _. f_equal. apply bool_decide_ext. split; congruence.
  - apply list_find_None in E. rewrite bool_decide_false.
    + unfold select_value. cbn [with_options selOptions].
      rewrite (proj2 (list_find_None _ _)); [done|]. apply Forall_lookup. intros i x Hi.
      rewrite list_lookup_imap in Hi. destruct (selOptions s !! i); simplify_eq/=. done.
    + intros (o & <- & Ho)%list_elem_of_In%in_map_iff. apply list_elem_of_In in Ho.
      by eapply (proj1 (Forall_forall _ _)) in E.
Qed.

(** The drop listener on the sound selector of a row the view shows. *)
Lemma onDrop_sound a k t name :
  view_inv a -> tracks (eng (world a)) !! k = Some t ->
  exists a' r r', onDrop k SoundSelector name a = Some a' /\
    rows a !! k = Some r /\ rows a' !! k = Some r' /\
    tracks (eng (world a')) !! k = Some (with_sound name t) /\
    select_value (soundSel r') =
      (if bool_decide (name ∈ map optValue (selOptions (soundSel r))) then name else EmptyString) /\
    cl_has "drop-success" (selClasses (soundSel r')) = true /\
    pending a' = pending a ++ [TDropSuccess k] /\ items a' = items a /\ dragData a' = dragData a.
Proof.
  intros Hv Ht.
  destruct (lookup_lt_is_Some_2 (rows a) k) as [r Hrk].
  { rewrite (vi_rows_len _ Hv). by eapply lookup_lt_Some. }
  pose proof (vi_rows _ Hv k t r Ht Hrk) as Hrow.
  unfold onDrop. rewrite Hrk. cbn [mbind option_bind row_select].
  cbn [selTrack selClasses with_sel_classes].
  rewrite cl_has_selector_remove by done. rewrite (ro_sound_class _ _ _ Hrow).
  rewrite (ro_sound_track _ _ _ Hrow), parseInt_string_of_nat.
  destruct (setTrackSound_tracks (Z.of_nat k) name (world a)) as [_ Hs].
  rewrite (track_at_of_nat _ _ _ Ht), Nat2Z.id in Hs.
  eexists _, r, _. split; [reflexivity|]. split; [done|]. app_simpl.
  rewrite list_lookup_insert_eq by (by eapply lookup_lt_Some). split; [done|].
  rewrite Hs, list_lookup_insert_eq by (by eapply lookup_lt_Some). split; [done|].
  cbn [with_row_select soundSel with_sound_sel selClasses with_sel_classes]. split.
  - rewrite <- select_value_set. reflexivity.
  - split; [rewrite cl_has_add; by rewrite bool_decide_true|done].
Qed.

(** C18: (error, spec gap) dropping on the sound selector of a row the
    page shows sets the track's voice to the dropped text, whatever it
    is (the text of a drag from elsewhere, or what the page's [dragstart]
    stored), and flashes [drop-success]; the selector then shows the text
    when it is one of its options and nothing otherwise: a name the
    catalog does not know is accepted, the selector goes blank, and the
    track plays no voice. *)
Theorem ui_drop_sound startRendering env page a k t ext :
  ui_reachable startRendering env page a -> tracks (eng (world a)) !! k = Some t ->
  let name := drop_text ext a in
  exists a' r r', handle startRendering (EDrop k SoundSelector ext) a = Some a' /\
    rows a !! k = Some r /\ rows a' !! k = Some r' /\
    tracks (eng (world a')) !! k = Some (with_sound name t) /\
    select_value (soundSel r') =
      (if bool_decide (name ∈ map optValue (selOptions (soundSel r))) then name else EmptyString) /\
    cl_has "drop-success" (selClasses (soundSel r')) = true /\
    pending a' = pending a ++ [TDropSuccess k].
Proof.
  intros Hr Ht name. destruct (ui_reachable_facts _ _ _ _ Hr) as (Hv & _).
  destruct (onDrop_sound a k t name Hv Ht) as (a' & r & r' & H & ? & ? & ? & ? & ? & ? & _).
  by exists a', r, r'.
Qed.

Lemma cl_has_dragging_add l : cl_has "dragging" (cl_add "dragging" l) = true.
Proof. rewrite cl_has_add. by rewrite bool_decide_true. Qed.

Lemma cl_has_dragging_remove l : cl_has "dragging" (cl_remove "dragging" l) = false.
Proof. rewrite cl_has_remove. by rewrite bool_decide_true. Qed.

(** C19: (functional, composition of listeners) dragging a library item
    onto a row's sound selector: [dragstart] marks the item [dragging]
    and stores its [data-sound], the selector's [drop] reads it and sets
    the track's voice to it, and [dragend] removes the mark and ends the
    drag; the selector shows the sound when it is one of its options. *)
Theorem ui_library_drag startRendering env page a j it k t :
  ui_reachable startRendering env page a -> items a !! j = Some it ->
  tracks (eng (world a)) !! k = Some t ->
  exists a1 a2 a3 r r' it1 it3,
    handle startRendering (EItemDragStart j) a = Some a1 /\
    handle startRendering (EDrop k SoundSelector None) a1 = Some a2 /\
    handle startRendering (EItemDragEnd j) a2 = Some a3 /\
    items a1 !! j = Some it1 /\ cl_has "dragging" (itemClasses it1) = true /\
    tracks (eng (world a3)) !! k = Some (with_sound (itemSound it) t) /\
    rows a !! k = Some r /\ rows a3 !! k = Some r' /\
    select_value (soundSel r') =
      (if bool_decide (itemSound it ∈ map optValue (selOptions (soundSel r)))
       then itemSound it else EmptyString) /\
    items a3 !! j = Some it3 /\ cl_has "dragging" (itemClasses it3) = false /\ dragData a3 = None.
Proof.
  intros Hr Hj Ht.
  set (it1 := with_item_classes (cl_add "dragging" (itemClasses it)) it).
  set (a1 := set_items (<[j := it1]> (items a)) (Some (itemSound it)) a).
  assert (H1 : handle startRendering (EItemDragStart j) a = Some a1).
  { cbn [handle]. unfold onItemDragStart. by rewrite Hj. }
  assert (Hr1 : ui_reachable startRendering env page a1).
  { eapply ui_reachable_step; [exact Hr|]. by econstructor. }
  destruct (ui_reachable_facts _ _ _ _ Hr1) as (Hv1 & _).
  assert (Hj1 : items a1 !! j = Some it1).
  { cbn. rewrite list_lookup_insert_eq; [done|]. by eapply lookup_lt_Some. }
  destruct (onDrop_sound a1 k t (itemSound it) Hv1 Ht)
    as (a2 & r & r' & H2 & Hrk & Hrk' & Ht2 & Hsel & _ & _ & Hit2 & _).
  set (it3 := with_item_classes (cl_remove "dragging" (itemClasses it1)) it1).
  exists a1, a2, (set_items (<[j := it3]> (items a2)) None a2), r, r', it1, it3.
  split; [done|]. split; [exact H2|].
  split; [cbn [handle]; unfold onItemDragEnd; by rewrite Hit2, Hj1|].
  split; [done|]. split; [apply cl_has_dragging_add|]. app_simpl.
  split; [done|]. split; [exact Hrk|]. split; [done|]. split; [done|].
  split; [rewrite list_lookup_insert_eq; [done|]; rewrite Hit2; by eapply lookup_lt_Some|].
  split; [apply cl_has_dragging_remove|done].
Qed.

(** C16: (functional, error path excluded) a click on any step button the
    page shows reaches the engine: the button's [data-step] parses, so
    the click is never [toggleStep(i, NaN)], and it inverts exactly the
    step of the track the button shows, leaving the other tracks alone;
    the button then shows the new value. *)
Theorem ui_click_toggles startRendering env page a k g j r grp b t :
  ui_reachable startRendering env page a -> rows a !! k = Some r ->
  rowSteps r !! g = Some grp -> grp !! j = Some b -> tracks (eng (world a)) !! k = Some t ->
  exists m a' r', concat (rowSteps r) !! m = Some b /\ (m < _stepCount t)%nat /\
    handle startRendering (EStepClick k g j) a = Some a' /\
    tracks (eng (world a')) = <[k := with_steps (_stepCount t)
      (js_set (steps t) (Z.of_nat m) (negb (js_get (steps t) (Z.of_nat m)))) t]>
      (tracks (eng (world a))) /\
    rows a' !! k = Some r' /\
    (forall b', concat (rowSteps r') !! m = Some b' ->
       cl_has "active" (btnClasses b') = negb (js_get (steps t) (Z.of_nat m))).
Proof.
  intros Hr Hrk Hg Hb Ht. destruct (ui_reachable_facts _ _ _ _ Hr) as (Hv & _).
  pose proof (vi_rows _ Hv k t r Ht Hrk) as Hrow.
  destruct (concat_insert2 _ _ _ _ _ Hg Hb) as (m & Hm & Hc).
  destruct (ro_buttons _ _ _ Hrow) as [Hlen Hbs].
  destruct (Hbs m b Hm) as (Hstep & Hlis & Hact).
  assert (Hmn : (m < _stepCount t)%nat) by (rewrite <- Hlen; by eapply lookup_lt_Some).
  cbn [handle]. unfold Sequencer.click_step. rewrite Hrk. cbn [mbind option_bind].
  rewrite Hg. cbn [mbind option_bind]. rewrite Hb. cbn [mbind option_bind].
  rewrite Hlis, Hstep, parseInt_string_of_nat. cbn [mbind option_bind].
  unfold toggleStep. rewrite (track_at_of_nat _ _ _ Ht).
  destruct (Z.ltb_spec (Z.of_nat m) (Z.of_nat (_stepCount t))) as [_|]; [|lia].
  eexists m, _, _. split; [done|]. split; [done|]. split; [reflexivity|]. app_simpl.
  split; [unfold set_track; cbn; by rewrite Nat2Z.id|]. split.
  { rewrite list_lookup_insert_eq by (by eapply lookup_lt_Some). reflexivity. }
  cbn [with_row_steps rowSteps]. rewrite Hc, list_lookup_insert_eq by (by eapply lookup_lt_Some).
  intros b' [= <-]. cbn. by rewrite cl_has_toggle, bool_decide_true, js_get_set_eq.
Qed.

(** ** The page at work

    [index.html]'s initial labels, the page [boot] renders in the
    session of [Engine.example_env], that page after a click on PLAY,
    and after the first interval callback. *)

(** A library item of [index.html] as the page loads. *)
Definition example_item (sound : string) : SoundItem :=
  {| itemSound := sound; itemClasses := {["sound-item"]}; itemTransform := EmptyString |}.

Definition example_page : Page :=
  {| pagePlay := {| pbIcon := {["fa-play"]}; pbText := "PLAY";
                    pbBackground := "linear-gradient(45deg, #ff00ff, #00ffff)" |};
     pageBpmText := "120";
     pageExport := {| ebDisabled := false; ebIcon := {["fa-download"]}; ebText := "EXPORT" |};
     pageItems := [example_item "kick-01"; example_item "snare-01"; example_item "hihat-01"];
     pageBrowser := empty_browser |}.

(** A placeholder for the [None] case of [boot], which does not occur. *)
Definition empty_app : App :=
  {| world := example_world; rows := []; channels := []; playBtn := pagePlay example_page;
     bpmText := pageBpmText example_page; exportBtn := pageExport example_page;
     rendering := None; browser := empty_browser; pending := []; masterWired := false;
     items := []; dragData := None |}.

Definition example_app : App := default empty_app (boot example_env example_page).

Definition example_playing : App := onPlayClick example_app.

Definition example_id : nat := default 0%nat (intervalId (eng (world example_playing))).

Definition example_ticked : App :=
  default example_playing (handle silent_render (ETick example_id) example_playing).

Definition example_row : TrackRow :=
  default (SequencerRenderer.render_row [] 0 example_track) (rows example_app !! 0%nat).

Definition no_button : StepButton :=
  {| btnTrack := EmptyString; btnStep := EmptyString; btnText := EmptyString; btnClasses := ∅;
     btnListener := None |}.

Definition example_group : list StepButton := default [] (rowSteps example_row !! 0%nat).

Definition example_button : StepButton := default no_button (example_group !! 1%nat).

Lemma example_app_reachable sr : ui_reachable sr example_env example_page example_app.
Proof. exists example_app. split; [vm_compute; reflexivity|apply rtc_refl]. Qed.

Lemma example_playing_step sr : ui_step sr example_app example_playing.
Proof. by apply (ui_step_handle sr EPlayClick). Qed.

Lemma example_playing_reachable sr : ui_reachable sr example_env example_page example_playing.
Proof. eapply ui_reachable_step; [apply example_app_reachable|apply example_playing_step]. Qed.

Lemma example_app_track : tracks (eng (world example_app)) !! 0%nat = Some example_track.
Proof. vm_compute. reflexivity. Qed.

Lemma example_playing_track : tracks (eng (world example_playing)) !! 0%nat = Some example_track.
Proof. vm_compute. reflexivity. Qed.

Lemma ui_drives_engine_witness :
  ui_reachable silent_render example_env example_page example_app /\
  ui_step silent_render example_app example_playing /\
  rtc step (world example_app) (world example_playing).
Proof.
  split; [apply example_app_reachable|]. split; [apply example_playing_step|].
  exact (proj1 (proj2 (ui_drives_engine silent_render example_env example_page _ _
    (example_app_reachable _) (example_playing_step _)))).
Defined.

Lemma ui_view_mirrors_pattern_witness :
  tracks (eng (world example_app)) !! 0%nat = Some example_track /\
  exists r, rows example_app !! 0%nat = Some r /\
    length (concat (rowSteps r)) = _stepCount example_track.
Proof.
  split; [exact example_app_track|].
  destruct (ui_view_mirrors_pattern silent_render example_env example_page example_app 0 example_track
    (example_app_reachable _) example_app_track) as (r & Hr & Hl & _).
  exists r. split; [exact Hr|exact Hl].
Defined.

Lemma ui_step_counts_witness :
  ui_reachable silent_render example_env example_page example_playing /\
  Forall (fun t => _stepCount t ∈ SequencerRenderer.stepCountChoices) (tracks (eng (world example_playing))).
Proof.
  split; [apply example_playing_reachable|].
  exact (ui_step_counts silent_render example_env example_page _ (example_playing_reachable _)).
Defined.

Lemma ui_mixer_bounds_witness :
  tracks (eng (world example_app)) !! 0%nat = Some example_track /\
  (0 <= tparam TVolume example_track <= 1)%Q.
Proof.
  split; [exact example_app_track|].
  exact (proj1 (ui_mixer_bounds silent_render example_env example_page example_app 0 example_track
    (example_app_reachable _) example_app_track) TVolume).
Defined.

Lemma ui_play_label_witness :
  pbText (pagePlay example_page) = "PLAY"%string /\
  pbText (playBtn example_playing) = "PAUSE"%string.
Proof.
  split; [reflexivity|].
  pose proof (ui_play_label silent_render example_env example_page example_playing
    eq_refl (example_playing_reachable _)) as H.
  assert (Hp : isPlaying (eng (world example_playing)) = true) by (vm_compute; reflexivity).
  rewrite Hp in H. exact H.
Defined.

Lemma example_tick : handle silent_render (ETick example_id) example_playing = Some example_ticked.
Proof. vm_compute. reflexivity. Qed.

Lemma example_playing_sounds :
  Forall (fun t => inherited_name (Track.sound t) = false) (tracks (eng (world example_playing))).
Proof. vm_compute. repeat constructor. Qed.

Lemma ui_tick_highlight_witness :
  ui_reachable silent_render example_env example_page example_playing /\
  Forall (fun t => inherited_name (Track.sound t) = false) (tracks (eng (world example_playing))) /\
  handle silent_render (ETick example_id) example_playing = Some example_ticked /\
  tracks (eng (world example_playing)) !! 0%nat = Some example_track /\
  notified (world example_ticked) =
    notified (world example_playing) ++ [currentStep (eng (world example_playing))].
Proof.
  split; [apply example_playing_reachable|]. split; [exact example_playing_sounds|].
  split; [exact example_tick|]. split; [exact example_playing_track|].
  exact (proj1 (ui_tick_highlight silent_render example_env example_page _ _ _ 0 example_track
    (example_playing_reachable _) example_playing_sounds example_tick example_playing_track)).
Defined.

Lemma ui_highlight_liveness_witness :
  ui_reachable silent_render example_env example_page example_playing /\
  isPlaying (eng (world example_playing)) = true /\
  Forall (fun t => inherited_name (Track.sound t) = false) (tracks (eng (world example_playing))) /\
  tracks (eng (world example_playing)) !! 0%nat = Some example_track /\
  (3 < _stepCount example_track)%nat /\
  exists id j a' r b, intervalId (eng (world example_playing)) = Some id /\ (j < 16)%nat /\
    tick_run silent_render id (S j) example_playing = Some a' /\ rows a' !! 0%nat = Some r /\
    concat (rowSteps r) !! 3%nat = Some b /\ cl_has "playing" (btnClasses b) = true.
Proof.
  assert (Hp : isPlaying (eng (world example_playing)) = true) by (vm_compute; reflexivity).
  assert (Hk : (3 < _stepCount example_track)%nat) by (vm_compute; lia).
  split; [apply example_playing_reachable|]. split; [exact Hp|].
  split; [exact example_playing_sounds|].
  split; [exact example_playing_track|]. split; [exact Hk|].
  exact (ui_highlight_liveness silent_render example_env example_page example_playing 0 example_track 3
    (example_playing_reachable _) Hp example_playing_sounds example_playing_track Hk).
Defined.

Lemma ui_export_feedback_witness :
  ui_reachable silent_render example_env example_page example_app /\
  browser_wf (pageBrowser example_page) /\ ebDisabled (exportBtn example_app) = false /\
  exists a1, handle silent_render EExportClick example_app = Some a1 /\
    world a1 = world example_app /\ ebDisabled (exportBtn a1) = true.
Proof.
  assert (Hd : ebDisabled (exportBtn example_app) = false) by (vm_compute; reflexivity).
  split; [apply example_app_reachable|]. split; [exact empty_browser_wf|]. split; [exact Hd|].
  destruct (ui_export_feedback silent_render example_env example_page example_app
    (example_app_reachable _) empty_browser_wf Hd) as (a1 & H1 & H2 & H3 & _).
  exists a1. split; [exact H1|]. split; [exact H2|exact H3].
Defined.

Lemma ui_drop_sound_witness :
  ui_reachable silent_render example_env example_page example_app /\
  tracks (eng (world example_app)) !! 0%nat = Some example_track /\
  exists a', handle silent_render (EDrop 0 SoundSelector (Some "cowbell")) example_app = Some a' /\
    tracks (eng (world a')) !! 0%nat = Some (with_sound "cowbell" example_track).
Proof.
  split; [apply example_app_reachable|]. split; [exact example_app_track|].
  destruct (ui_drop_sound silent_render example_env example_page example_app 0 example_track (Some "cowbell")
    (example_app_reachable _) example_app_track) as (a' & r & r' & H1 & _ & _ & H4 & _).
  exists a'. split; [exact H1|exact H4].
Defined.


Lemma ui_click_toggles_witness :
  ui_reachable silent_render example_env example_page example_app /\
  rows example_app !! 0%nat = Some example_row /\ rowSteps example_row !! 0%nat = Some example_group /\
  example_group !! 1%nat = Some example_button /\
  tracks (eng (world example_app)) !! 0%nat = Some example_track /\
  exists a', handle silent_render (EStepClick 0 0 1) example_app = Some a'.
Proof.
  assert (H1 : rows example_app !! 0%nat = Some example_row) by (vm_compute; reflexivity).
  assert (H2 : rowSteps example_row !! 0%nat = Some example_group) by (vm_compute; reflexivity).
  assert (H3 : example_group !! 1%nat = Some example_button) by (vm_compute; reflexivity).
  split; [apply example_app_reachable|]. do 3 (split; [done|]). split; [exact example_app_track|].
  destruct (ui_click_toggles silent_render example_env example_page example_app 0 0 1 _ _ _ example_track
    (example_app_reachable _) H1 H2 H3 example_app_track) as (m & a' & r' & _ & _ & Ha & _).
  exists a'. exact Ha.
Defined.

(** ** Pausing and the highlight *)

(** Whether button [k] of row [i] of the grid carries [playing]. *)
Definition playing_at (rs : list TrackRow) (i k : nat) : bool :=
  match rs !! i ≫= (fun r => concat (rowSteps r) !! k) with
  | Some b => cl_has "playing" (btnClasses b)
  | None => false
  end.

(** [clearStepIndicators] leaves no button marked [playing]. *)
Lemma clearStepIndicators_clears rs i k :
  playing_at (Sequencer.clearStepIndicators rs) i k = false.
Proof.
  unfold playing_at, Sequencer.clearStepIndicators, map_buttons.
  rewrite lookup_map_list. destruct (rs !! i) as [r|]; [|done]. cbn.
  rewrite concat_map_map, lookup_map_list. destruct (concat (rowSteps r) !! k); [|done].
  cbn. rewrite cl_has_remove. by rewrite bool_decide_true.
Qed.

(** C15: (safety, counterexample) the STOP button and the space key clear
    every [playing] highlight when they stop the transport, but the
    PLAY/PAUSE button does not: on the page of [example_env], after one
    interval callback a click on PAUSE stops the engine and step 0 of
    row 0 stays marked [playing]. *)
Theorem ui_pause_highlight :
  (forall a i k, playing_at (rows (onStopClick a)) i k = false) /\
  (forall a focus i k, isPlaying (eng (world a)) = true -> focus ∉ [TInput; TSelect; TTextarea] ->
     playing_at (rows (onKeyDown "Space" focus a)) i k = false) /\
  isPlaying (eng (world example_ticked)) = true /\
  isPlaying (eng (world (onPlayClick example_ticked))) = false /\
  playing_at (rows (onPlayClick example_ticked)) 0 0 = true.
Proof.
  split; [intros a i k; unfold onStopClick; app_simpl; apply clearStepIndicators_clears|].
  split.
  - intros a focus i k Hp Hf. unfold onKeyDown.
    rewrite bool_decide_true by done. rewrite bool_decide_false by done. cbn [negb andb].
    rewrite Hp. app_simpl. apply clearStepIndicators_clears.
  - split; [vm_compute; reflexivity|]. split; vm_compute; reflexivity.
Qed.

Lemma ui_library_drag_witness :
  ui_reachable silent_render example_env example_page example_app /\
  items example_app !! 1%nat = Some (example_item "snare-01") /\
  tracks (eng (world example_app)) !! 0%nat = Some example_track /\
  exists a1 a2 a3, handle silent_render (EItemDragStart 1) example_app = Some a1 /\
    handle silent_render (EDrop 0 SoundSelector None) a1 = Some a2 /\
    handle silent_render (EItemDragEnd 1) a2 = Some a3 /\
    tracks (eng (world a3)) !! 0%nat = Some (with_sound "snare-01" example_track).
Proof.
  assert (Hi : items example_app !! 1%nat = Some (example_item "snare-01")) by (vm_compute; reflexivity).
  split; [apply example_app_reachable|]. split; [exact Hi|]. split; [exact example_app_track|].
  destruct (ui_library_drag silent_render example_env example_page example_app 1 _ 0 example_track
    (example_app_reachable _) Hi example_app_track)
    as (a1 & a2 & a3 & r & r' & it1 & it3 & H1 & H2 & H3 & _ & _ & Ht & _).
  exists a1, a2, a3. split; [exact H1|]. split; [exact H2|]. split; [exact H3|exact Ht].
Defined.
